(** * vsjsonfmt: the lenient JSON reader and the width-aware layout engine

    A shallow embedding of [src/vsjsonfmt/cli.py] (the functions
    [_strip_comments], [_strip_trailing_commas], [parse_json_lenient],
    [_format_value], [format_json] and their helpers) together with a model
    of the parts of Python's [json] and [re] modules that these functions
    call.

    Conventions.
    - A Python [str] is a list of code points ([char := N]); [len] is
      [length].
    - A Python [int] is a [Z]; a string of [n] spaces is [spaces n], empty
      for [n <= 0], as Python's repetition of a string is.
    - A Python [float] is represented by the text that [json.dumps] prints
      for it ([float.__repr__], or [NaN], [Infinity], [-Infinity]); that text
      determines the float.  The conversion of a number literal to a float
      is not computed here: it is a parameter of the decoder.
    - A Python [dict] is an association list in insertion order; the
      operations that build one ([dict_set]) keep the keys unique.
    - A raised exception is the [None] of an [option] result, or the [inr]
      side of a decoding result. *)

From Stdlib Require Import List NArith ZArith Lia Bool String Ascii.
From Stdlib Require Import DecimalNat DecimalPos DecimalN DecimalZ.
Import ListNotations.


(** ** Strings *)

Definition char := N.
Definition str := list char.

Definition ord (a : ascii) : char := N_of_ascii a.

Fixpoint py (s : string) : str :=
  match s with
  | EmptyString => []
  | String a r => ord a :: py r
  end.

Definition QUOTE : char := 34%N.
Definition BACKSLASH : char := 92%N.
Definition SLASH : char := 47%N.
Definition STAR : char := 42%N.
Definition NL : char := 10%N.
Definition SP : char := 32%N.
Definition COMMA : char := 44%N.
Definition COLON : char := 58%N.
Definition LBRACKET : char := 91%N.
Definition RBRACKET : char := 93%N.
Definition LBRACE : char := 123%N.
Definition RBRACE : char := 125%N.
Definition MINUS : char := 45%N.

Definition char_eqb (a b : char) : bool := N.eqb a b.

Fixpoint str_eqb (a b : str) : bool :=
  match a, b with
  | [], [] => true
  | x :: a', y :: b' => char_eqb x y && str_eqb a' b'
  | _, _ => false
  end.

Definition char_in (c : char) (s : str) : bool := existsb (char_eqb c) s.

Definition str_in (s : str) (l : list str) : bool := existsb (str_eqb s) l.

(** [sep.join(parts)] *)
Fixpoint join (sep : str) (parts : list str) : str :=
  match parts with
  | [] => []
  | [p] => p
  | p :: rest => p ++ sep ++ join sep rest
  end.

(** [n] spaces: Python's repetition of the one-space string *)
Definition spaces (n : Z) : str := repeat SP (Z.to_nat n).

(** [s.count] of the newline character *)
Definition count_nl (s : str) : Z :=
  Z.of_nat (List.length (filter (char_eqb NL) s)).

Definition len (s : str) : Z := Z.of_nat (List.length s).

(** ** Values *)

#[warnings="-register-all"]
Inductive value : Type :=
| VNone
| VBool (b : bool)
| VInt (z : Z)
| VFloat (r : str)
| VStr (s : str)
| VList (items : list value)
| VDict (members : list (str * value)).

Definition dict := list (str * value).

Section ValueInduction.
Variable P : value -> Prop.
Hypothesis HNone : P VNone.
Hypothesis HBool : forall b, P (VBool b).
Hypothesis HInt : forall z, P (VInt z).
Hypothesis HFloat : forall r, P (VFloat r).
Hypothesis HStr : forall s, P (VStr s).
Hypothesis HList : forall l, Forall P l -> P (VList l).
Hypothesis HDict : forall d, Forall (fun kv => P (snd kv)) d -> P (VDict d).

Fixpoint value_nested_ind (v : value) : P v :=
  match v with
  | VNone => HNone
  | VBool b => HBool b
  | VInt z => HInt z
  | VFloat r => HFloat r
  | VStr s => HStr s
  | VList l =>
      HList l ((fix go (l : list value) : Forall P l :=
                match l with
                | [] => Forall_nil _
                | x :: tl => Forall_cons x (value_nested_ind x) (go tl)
                end) l)
  | VDict d =>
      HDict d ((fix go (d : dict) : Forall (fun kv => P (snd kv)) d :=
                match d with
                | [] => Forall_nil _
                | kv :: tl =>
                    Forall_cons kv (value_nested_ind (snd kv)) (go tl)
                end) d)
  end.
End ValueInduction.

(** *** Dictionaries *)

Fixpoint dict_get (d : dict) (k : str) : option value :=
  match d with
  | [] => None
  | (k', v) :: rest => if str_eqb k k' then Some v else dict_get rest k
  end.

(** [d[k] = v]: an existing key keeps its place, a new key goes last. *)
Fixpoint dict_set (d : dict) (k : str) (v : value) : dict :=
  match d with
  | [] => [(k, v)]
  | (k', v') :: rest =>
      if str_eqb k k' then (k', v) :: rest else (k', v') :: dict_set rest k v
  end.

(** [dict(pairs)] *)
Definition dict_of_pairs (pairs : list (str * value)) : dict :=
  fold_left (fun d kv => dict_set d (fst kv) (snd kv)) pairs [].

Definition keys (d : dict) : list str := map fst d.
Definition values (d : dict) : list value := map snd d.

Fixpoint keys_eqb (a b : list str) : bool :=
  match a, b with
  | [], [] => true
  | x :: a', y :: b' => str_eqb x y && keys_eqb a' b'
  | _, _ => false
  end.

(** ** Configuration *)

Record FormatConfig : Type := mkFormatConfig {
  indent : Z;
  print_width : Z;
  array_wrap : str;
  object_wrap : str;
  aggressive_inline : bool;
  long_block_threshold : Z;
  eol : str;
  array_collapse_keys : list str;
  inline_homogeneous_objects : bool;
  inline_homogeneous_min : Z;
  inline_string_max : Z;
  allow_overflow_inline_arrays : bool
}.

Definition COLLAPSE : str := Eval vm_compute in py "collapse".

Definition default_config : FormatConfig := Eval vm_compute in
  {| indent := 2;
     print_width := 120;
     array_wrap := py "collapse";
     object_wrap := py "collapse";
     aggressive_inline := true;
     long_block_threshold := 20;
     eol := [NL];
     array_collapse_keys :=
       [py "requireStacks"; py "addElements"; py "removeElements";
        py "ingredients"; py "outputs"; py "drops"];
     inline_homogeneous_objects := true;
     inline_homogeneous_min := 3;
     inline_string_max := 120;
     allow_overflow_inline_arrays := true |}.

(** ** The encoder: [json.dumps] *)

Definition hexdigit (d : N) : char :=
  if (d <? 10)%N then (48 + d)%N else (87 + d)%N.

(** ['\\u{0:04x}'.format(n)] for [n < 0x10000] *)
Definition u_escape (n : N) : str :=
  [BACKSLASH; 117%N;
   hexdigit ((n / 4096) mod 16); hexdigit ((n / 256) mod 16);
   hexdigit ((n / 16) mod 16); hexdigit (n mod 16)]%N.

(** [ESCAPE_DCT] of json/encoder.py *)
Definition ESCAPE_DCT (c : char) : option str :=
  if char_eqb c BACKSLASH then Some [BACKSLASH; BACKSLASH]
  else if char_eqb c QUOTE then Some [BACKSLASH; QUOTE]
  else if char_eqb c 8%N then Some [BACKSLASH; 98%N]
  else if char_eqb c 12%N then Some [BACKSLASH; 102%N]
  else if char_eqb c 10%N then Some [BACKSLASH; 110%N]
  else if char_eqb c 13%N then Some [BACKSLASH; 114%N]
  else if char_eqb c 9%N then Some [BACKSLASH; 116%N]
  else if (c <? 32)%N then Some (u_escape c)
  else None.

(** The replacement that [ESCAPE.sub] makes: [ESCAPE] matches the control
    characters below 0x20, the backslash and the double quote. *)
Definition escape_char (c : char) : str :=
  match ESCAPE_DCT c with
  | Some e => e
  | None => [c]
  end.

(** [py_encode_basestring] *)
Definition encode_basestring (s : str) : str :=
  QUOTE :: flat_map escape_char s ++ [QUOTE].

(** The replacement that [ESCAPE_ASCII.sub] makes: [ESCAPE_ASCII] matches
    the backslash, the double quote and every character outside the range
    from the space to the tilde. *)
Definition escape_char_ascii (c : char) : str :=
  if char_eqb c BACKSLASH || char_eqb c QUOTE
     || (c <? 32)%N || (126 <? c)%N
  then match ESCAPE_DCT c with
       | Some e => e
       | None =>
           if (c <? 65536)%N then u_escape c
           else
             let n := (c - 65536)%N in
             let s1 := N.lor 55296 (N.land (N.shiftr n 10) 1023) in
             let s2 := N.lor 56320 (N.land n 1023) in
             u_escape s1 ++ u_escape s2
       end
  else [c].

(** [py_encode_basestring_ascii]: what [json.dumps(k)] gives for a key. *)
Definition encode_basestring_ascii (s : str) : str :=
  QUOTE :: flat_map escape_char_ascii s ++ [QUOTE].

Fixpoint uint_digits (d : Decimal.uint) : str :=
  match d with
  | Decimal.Nil => []
  | Decimal.D0 r => 48%N :: uint_digits r
  | Decimal.D1 r => 49%N :: uint_digits r
  | Decimal.D2 r => 50%N :: uint_digits r
  | Decimal.D3 r => 51%N :: uint_digits r
  | Decimal.D4 r => 52%N :: uint_digits r
  | Decimal.D5 r => 53%N :: uint_digits r
  | Decimal.D6 r => 54%N :: uint_digits r
  | Decimal.D7 r => 55%N :: uint_digits r
  | Decimal.D8 r => 56%N :: uint_digits r
  | Decimal.D9 r => 57%N :: uint_digits r
  end.

(** [int.__repr__] *)
Definition int_repr (z : Z) : str :=
  match Z.to_int z with
  | Decimal.Pos d => uint_digits d
  | Decimal.Neg d => MINUS :: uint_digits d
  end.

Definition NULL_S : str := Eval vm_compute in py "null".
Definition TRUE_S : str := Eval vm_compute in py "true".
Definition FALSE_S : str := Eval vm_compute in py "false".
Definition NAN_S : str := Eval vm_compute in py "NaN".
Definition INF_S : str := Eval vm_compute in py "Infinity".
Definition NEG_INF_S : str := Eval vm_compute in py "-Infinity".

(** [_dump_oneline(val)]: [json.dumps] with [ensure_ascii=False], the item
    separator a comma and the key separator a colon and a space. *)
Fixpoint _dump_oneline (val : value) : str :=
  match val with
  | VNone => NULL_S
  | VBool true => TRUE_S
  | VBool false => FALSE_S
  | VInt z => int_repr z
  | VFloat r => r
  | VStr s => encode_basestring s
  | VList items =>
      LBRACKET :: join [COMMA] (map _dump_oneline items) ++ [RBRACKET]
  | VDict members =>
      LBRACE ::
        join [COMMA]
          (map (fun kv => encode_basestring (fst kv) ++ [COLON; SP]
                            ++ _dump_oneline (snd kv)) members)
        ++ [RBRACE]
  end.

(** ** Loops that may stop early

    [traverse f l] runs [f] over [l] from left to right and collects the
    results; it stops with [None] at the first element where [f] does. *)

Definition traverse {A B : Type} (f : A -> option B)
  : list A -> option (list B) :=
  fix go (l : list A) : option (list B) :=
    match l with
    | [] => Some []
    | x :: tl =>
        match f x with
        | None => None
        | Some y =>
            match go tl with
            | None => None
            | Some ys => Some (y :: ys)
            end
        end
    end.

(** ** The layout engine: helpers *)

Definition _is_prim (x : value) : bool :=
  match x with
  | VList _ | VDict _ => false
  | _ => true
  end.

Definition _fits_width (s : str) (cfg : FormatConfig) (level : Z) : bool :=
  (len s + level * indent cfg <=? print_width cfg)%Z.

Definition _line_count (s : str) : Z := (count_nl s + 1)%Z.

Definition _keys_tuple (d : dict) : list str := keys d.

Definition _is_small_prim (v : value) (cfg : FormatConfig) : bool :=
  if negb (_is_prim v) then false
  else match v with
       | VStr s => if (inline_string_max cfg <? len s)%Z then false else true
       | _ => true
       end.

Definition is_dict (x : value) : bool :=
  match x with VDict _ => true | _ => false end.

(** The members of a value known to be a dict. *)
Definition as_dict (x : value) : dict :=
  match x with VDict d => d | _ => [] end.

Definition _array_is_homog_small_objs (arr : list value) (cfg : FormatConfig)
  : bool * list str :=
  match arr with
  | [] => (false, [])
  | first :: _ =>
      if (Z.of_nat (List.length arr) <? inline_homogeneous_min cfg)%Z
      then (false, [])
      else if negb (forallb is_dict arr) then (false, [])
      else
        let key_order := _keys_tuple (as_dict first) in
        match key_order with
        | [] => (false, [])
        | _ :: _ =>
            if forallb
                 (fun d =>
                    keys_eqb (_keys_tuple (as_dict d)) key_order
                    && forallb (fun v => _is_small_prim v cfg)
                               (values (as_dict d)))
                 arr
            then (true, key_order)
            else (false, [])
        end
  end.

Definition COMMA_SP : str := [COMMA; SP].
Definition COLON_SP : str := [COLON; SP].

(** The text of one member: the key through [json.dumps], a colon, a space,
    and the text of the value. *)
Definition member_text (k : str) (v : str) : str :=
  encode_basestring_ascii k ++ COLON_SP ++ v.

Definition _compact_object (d : dict) (cfg : FormatConfig) : option str :=
  if forallb (fun v => _is_small_prim v cfg) (values d)
  then Some (LBRACE :: SP ::
               join COMMA_SP
                 (map (fun kv => member_text (fst kv) (_dump_oneline (snd kv)))
                    d)
               ++ [SP; RBRACE])
  else None.

(** [_compact_list(lst, cfg, level)] for [val = VList lst].  The recursion
    of the source goes through the elements that are lists, so the function
    is defined on the value that holds the list. *)
Fixpoint compact_list_value (val : value) (cfg : FormatConfig) (level : Z)
  {struct val} : option str :=
  match val with
  | VList lst =>
      match
        traverse
          (fun el =>
             if _is_prim el then Some (_dump_oneline el)
             else match el with
                  | VDict d => _compact_object d cfg
                  | VList _ => compact_list_value el cfg level
                  | _ => None
                  end) lst
      with
      | None => None
      | Some parts =>
          let one := LBRACKET :: SP :: join COMMA_SP parts ++ [SP; RBRACKET] in
          if _fits_width one cfg level || allow_overflow_inline_arrays cfg
          then Some one
          else None
      end
  | _ => None
  end.

Definition _compact_list (lst : list value) (cfg : FormatConfig) (level : Z)
  : option str :=
  compact_list_value (VList lst) cfg level.

(** The bracketed multi-line block: the opening bracket, a newline, the
    parts joined by a comma and a newline, a newline, the indentation and
    the closing bracket. *)
Definition block (opening : char) (parts : list str) (indent_s : str)
  (closing : char) : str :=
  opening :: NL :: join [COMMA; NL] parts ++ NL :: indent_s ++ [closing].

(** What a strategy of [_format_value] does: it returns a text, it gives
    way to the next strategy, or it raises. *)
Inductive outcome : Type :=
| Return (s : str)
| Fallthrough
| Raise.

Definition in_collapse_keys (parent_key : option str) (cfg : FormatConfig)
  : bool :=
  match parent_key with
  | Some k => str_in k (array_collapse_keys cfg)
  | None => false
  end.

(** The body of the [for ... else] loop of the collapse-key strategy: the
    compact text of one element, or [None] where the loop breaks. *)
Definition elem_string (cfg : FormatConfig) (level : Z) (el : value)
  : option str :=
  if _is_prim el then Some (_dump_oneline el)
  else match el with
       | VDict d => _compact_object d cfg
       | VList l => _compact_list l cfg (level + 1)
       | _ => None
       end.

(** Strategy 1 of arrays, entered when the parent key is a collapse key. *)
Definition collapse_key_strategy (lst : list value) (cfg : FormatConfig)
  (level : Z) : outcome :=
  let indent_s := spaces (indent cfg * level) in
  let child := spaces (indent cfg * (level + 1)) in
  match _compact_list lst cfg level with
  | Some whole_inline => Return whole_inline
  | None =>
      match traverse (elem_string cfg level) lst with
      | Some elem_strings =>
          Return (block LBRACKET (map (fun s => child ++ s) elem_strings)
                    indent_s RBRACKET)
      | None => Fallthrough
      end
  end.

(** The dict comprehension that re-emits [el] in the order [key_order];
    [None] is the KeyError of a key that [el] lacks. *)
Fixpoint el_sorted_of (el : dict) (key_order : list str) (acc : dict)
  : option dict :=
  match key_order with
  | [] => Some acc
  | k :: ks =>
      match dict_get el k with
      | None => None
      | Some v => el_sorted_of el ks (dict_set acc k v)
      end
  end.

(** [a or b] on an optional text: [b] when [a] is [None] or empty. *)
Definition or_else (a : option str) (b : str) : str :=
  match a with
  | Some (c :: r) => c :: r
  | _ => b
  end.

(** The body of the loop of the homogeneous strategy. *)
Definition homog_part (key_order : list str) (cfg : FormatConfig)
  (child : str) (el : value) : option str :=
  match el_sorted_of (as_dict el) key_order [] with
  | None => None
  | Some el_sorted =>
      let one := or_else (_compact_object el_sorted cfg)
                         (_dump_oneline (VDict el_sorted)) in
      Some (child ++ one)
  end.

(** Strategy 2 of arrays. *)
Definition homogeneous_strategy (lst : list value) (cfg : FormatConfig)
  (level : Z) : outcome :=
  let indent_s := spaces (indent cfg * level) in
  let child := spaces (indent cfg * (level + 1)) in
  if inline_homogeneous_objects cfg then
    let '(ok, key_order) := _array_is_homog_small_objs lst cfg in
    if ok then
      match traverse (homog_part key_order cfg child) lst with
      | Some parts => Return (block LBRACKET parts indent_s RBRACKET)
      | None => Raise
      end
    else Fallthrough
  else Fallthrough.

Definition nonempty {A : Type} (l : list A) : bool :=
  match l with [] => false | _ :: _ => true end.

(** Strategy 3 of arrays. *)
Definition prim_collapse_strategy (lst : list value) (cfg : FormatConfig)
  (level : Z) : outcome :=
  if str_eqb (array_wrap cfg) COLLAPSE && nonempty lst
     && forallb _is_prim lst
  then
    let one := LBRACKET :: join COMMA_SP (map _dump_oneline lst)
                 ++ [RBRACKET] in
    if _fits_width one cfg level
       && (_line_count one <=? long_block_threshold cfg)%Z
    then Return one
    else Fallthrough
  else Fallthrough.

Definition has_nl (s : str) : bool := char_in NL s.

(** The loop of the collapse attempt of objects.  [f k v] is the candidate
    text of a member that is not a primitive.  The result is [None] when
    [f] raises, [Some None] when a candidate spans several lines (the
    attempt is abandoned), and the chunks otherwise. *)
Definition inner_chunks_of (f : str -> value -> option str)
  : dict -> option (option (list str)) :=
  fix go (l : dict) : option (option (list str)) :=
    match l with
    | [] => Some (Some [])
    | kv :: tl =>
        match
          (if _is_prim (snd kv) then Some (Some (_dump_oneline (snd kv)))
           else
             match f (fst kv) (snd kv) with
             | None => None
             | Some candidate =>
                 if has_nl candidate then Some None else Some (Some candidate)
             end)
        with
        | None => None
        | Some None => Some None
        | Some (Some c) =>
            match go tl with
            | None => None
            | Some None => Some None
            | Some (Some cs) => Some (Some (member_text (fst kv) c :: cs))
            end
        end
    end.

(** ** The layout engine: [_format_value] and [format_json] *)

Fixpoint _format_value (val : value) (cfg : FormatConfig) (level : Z)
  (parent_key : option str) {struct val} : option str :=
  let indent_s := spaces (indent cfg * level) in
  let child := spaces (indent cfg * (level + 1)) in
  match val with
  | VList lst =>
      match
        (if in_collapse_keys parent_key cfg
         then collapse_key_strategy lst cfg level
         else Fallthrough)
      with
      | Return s => Some s
      | Raise => None
      | Fallthrough =>
      match homogeneous_strategy lst cfg level with
      | Return s => Some s
      | Raise => None
      | Fallthrough =>
      match prim_collapse_strategy lst cfg level with
      | Return s => Some s
      | Raise => None
      | Fallthrough =>
          match
            traverse
              (fun el =>
                 match _format_value el cfg (level + 1) None with
                 | None => None
                 | Some s => Some (child ++ s)
                 end) lst
          with
          | None => None
          | Some parts => Some (block LBRACKET parts indent_s RBRACKET)
          end
      end end end
  | VDict items =>
      match
        (if str_eqb (object_wrap cfg) COLLAPSE then
           if (forallb (fun kv => _is_prim (snd kv)) items
               || aggressive_inline cfg) && nonempty items
           then
             match
               inner_chunks_of
                 (fun k v => _format_value v cfg level (Some k)) items
             with
             | None => Raise
             | Some None => Fallthrough
             | Some (Some inner_chunks) =>
                 let one := LBRACE :: SP :: join COMMA_SP inner_chunks
                              ++ [SP; RBRACE] in
                 if _fits_width one cfg level
                    && (_line_count one <=? long_block_threshold cfg)%Z
                 then Return one
                 else Fallthrough
             end
           else Fallthrough
         else Fallthrough)
      with
      | Return s => Some s
      | Raise => None
      | Fallthrough =>
          match
            traverse
              (fun kv =>
                 match
                   _format_value (snd kv) cfg (level + 1) (Some (fst kv))
                 with
                 | None => None
                 | Some formatted =>
                     Some (child ++ member_text (fst kv) formatted)
                 end) items
          with
          | None => None
          | Some lines => Some (block LBRACE lines indent_s RBRACE)
          end
      end
  | _ => Some (_dump_oneline val)
  end.

Definition format_json (data : value) (cfg : FormatConfig) : option str :=
  match _format_value data cfg 0 None with
  | Some s => Some (s ++ eol cfg)
  | None => None
  end.

(** Test texts are written with an apostrophe for the double quote. *)
Definition pyq (s : string) : str :=
  map (fun c => if char_eqb c 39%N then QUOTE else c) (py s).

(** ** The lenient reader: comment stripping

    The three regular expressions are modelled by the scanners that compute
    their matches.

    [_STRING_RE] is a double quote, then any number of items, each a
    backslash followed by a character other than the newline, or a
    character other than the double quote and the backslash, then a double
    quote.  The items are determined by the text, so the expression has at
    most one match at a given double quote.  [string_re_body s] is that
    match for the text [s] that follows the opening quote: the matched text
    up to and including the closing quote, and what follows it. *)

Fixpoint string_re_body (s : str) : option (str * str) :=
  match s with
  | [] => None
  | c :: tl =>
      if char_eqb c QUOTE then Some ([c], tl)
      else if char_eqb c BACKSLASH then
        match tl with
        | [] => None
        | d :: tl' =>
            if char_eqb d NL then None
            else match string_re_body tl' with
                 | Some (body, rest) => Some (c :: d :: body, rest)
                 | None => None
                 end
        end
      else match string_re_body tl with
           | Some (body, rest) => Some (c :: body, rest)
           | None => None
           end
  end.

(** [_SLASH_SLASH_COMMENT_RE.sub] with the empty replacement: from two
    slashes up to, and not including, the next newline or the end of the
    text.  [in_comment] tells that the scan is inside a match. *)
Fixpoint sub_line_comments (in_comment : bool) (s : str) : str :=
  match s with
  | [] => []
  | c :: tl =>
      if in_comment then
        if char_eqb c NL then c :: sub_line_comments false tl
        else sub_line_comments true tl
      else
        match tl with
        | d :: _ =>
            if char_eqb c SLASH && char_eqb d SLASH
            then sub_line_comments true tl
            else c :: sub_line_comments false tl
        | [] => [c]
        end
  end.

(** What follows the first star-slash of [s], if there is one. *)
Fixpoint after_block_end (s : str) : option str :=
  match s with
  | [] => None
  | c :: tl =>
      match tl with
      | d :: tl' =>
          if char_eqb c STAR && char_eqb d SLASH then Some tl'
          else after_block_end tl
      | [] => None
      end
  end.

(** [_SLASH_STAR_COMMENT_RE.sub] with the empty replacement: from a
    slash-star to the first star-slash after it; a slash-star with no
    star-slash after it is not a match and stays.  [in_comment] tells that
    the scan is inside a match, whose end is known to exist. *)
Fixpoint sub_block_comments (in_comment : bool) (s : str) : str :=
  match s with
  | [] => []
  | c :: tl =>
      if in_comment then
        match tl with
        | d :: tl' =>
            if char_eqb c STAR && char_eqb d SLASH
            then sub_block_comments false tl'
            else sub_block_comments true tl
        | [] => []
        end
      else
        match tl with
        | d :: tl' =>
            if char_eqb c SLASH && char_eqb d STAR then
              match after_block_end tl' with
              | Some _ => sub_block_comments true tl'
              | None => c :: sub_block_comments false tl
              end
            else c :: sub_block_comments false tl
        | [] => [c]
        end
  end.

(** What [_strip_comments] does to a gap between two string matches. *)
Definition clean_gap (gap : str) : str :=
  sub_block_comments false (sub_line_comments false gap).

(** The loop of [_strip_comments] over the matches of [_STRING_RE].
    [copy] is the number of characters of the current match that are still
    to be copied; [gap] holds, in reverse, the characters read since the
    last match. *)
Fixpoint strip_comments_loop (s : str) (copy : nat) (gap : str) : str :=
  match s with
  | [] => clean_gap (rev gap)
  | c :: tl =>
      match copy with
      | S n => c :: strip_comments_loop tl n gap
      | O =>
          if char_eqb c QUOTE then
            match string_re_body tl with
            | Some (body, _) =>
                clean_gap (rev gap)
                  ++ c :: strip_comments_loop tl (List.length body) []
            | None => strip_comments_loop tl 0 (c :: gap)
            end
          else strip_comments_loop tl 0 (c :: gap)
      end
  end.

Definition _strip_comments (jsonc : str) : str :=
  strip_comments_loop jsonc 0 [].

(** ** The lenient reader: trailing commas *)

(** [str.isspace] on one character *)
Definition isspace (c : char) : bool :=
  ((9 <=? c) && (c <=? 13) || (28 <=? c) && (c <=? 32)
   || (c =? 133) || (c =? 160) || (c =? 5760)
   || (8192 <=? c) && (c <=? 8202) || (c =? 8232) || (c =? 8233)
   || (c =? 8239) || (c =? 8287) || (c =? 12288))%N.

(** The body of the branch for a closing bracket: [out] is held in reverse,
    so the backward walk over the white space is a walk from its head; the
    comma found after the walk is removed, the white space stays. *)
Fixpoint pop_trailing_comma (out : str) : str :=
  match out with
  | [] => []
  | c :: rest =>
      if isspace c then c :: pop_trailing_comma rest
      else if char_eqb c COMMA then rest
      else out
  end.

(** The [while] loop of [_strip_trailing_commas]; [out] is held in
    reverse. *)
Fixpoint strip_trailing_commas_loop (s : str) (out : str)
  (in_string escape : bool) : str :=
  match s with
  | [] => rev out
  | ch :: tl =>
      if in_string then
        if escape then strip_trailing_commas_loop tl (ch :: out) true false
        else if char_eqb ch BACKSLASH
        then strip_trailing_commas_loop tl (ch :: out) true true
        else if char_eqb ch QUOTE
        then strip_trailing_commas_loop tl (ch :: out) false false
        else strip_trailing_commas_loop tl (ch :: out) true false
      else if char_eqb ch QUOTE
      then strip_trailing_commas_loop tl (ch :: out) true false
      else if char_eqb ch RBRACE || char_eqb ch RBRACKET
      then strip_trailing_commas_loop tl (ch :: pop_trailing_comma out)
             false escape
      else strip_trailing_commas_loop tl (ch :: out) false escape
  end.

Definition _strip_trailing_commas (s : str) : str :=
  strip_trailing_commas_loop s [] false false.

(** ** The strict decoder: [json.loads]

    The decoder follows json/decoder.py and json/scanner.py, with the
    messages and positions of CPython's accelerated scanner.  The functions
    work on the text that remains to be read; a position is kept as the
    number of characters from it to the end of the document. *)

Inductive result (A : Type) : Type :=
| Ok (a : A)
| Fail (msg : str) (remaining : nat)
| NoFuel.

Arguments Ok {A} a.
Arguments Fail {A} msg remaining.
Arguments NoFuel {A}.

Definition with_head {A : Type} (x : A) (r : result (list A * str))
  : result (list A * str) :=
  match r with
  | Ok (xs, rest) => Ok (x :: xs, rest)
  | Fail msg n => Fail msg n
  | NoFuel => NoFuel
  end.

Definition EXPECTING_VALUE : str := Eval vm_compute in py "Expecting value".
Definition EXPECTING_COMMA : str :=
  Eval vm_compute in py "Expecting ',' delimiter".
Definition EXPECTING_COLON : str :=
  Eval vm_compute in py "Expecting ':' delimiter".
Definition EXPECTING_NAME : str :=
  Eval vm_compute in py "Expecting property name enclosed in double quotes".
Definition UNTERMINATED : str :=
  Eval vm_compute in py "Unterminated string starting at".
Definition INVALID_CONTROL : str :=
  Eval vm_compute in py "Invalid control character at".
Definition INVALID_ESCAPE : str := Eval vm_compute in py "Invalid \escape".
Definition INVALID_UXXXX : str :=
  Eval vm_compute in py "Invalid \uXXXX escape".
Definition EXTRA_DATA : str := Eval vm_compute in py "Extra data".
Definition UNEXPECTED_BOM : str :=
  Eval vm_compute in py "Unexpected UTF-8 BOM (decode using utf-8-sig)".

(** [WHITESPACE_STR] *)
Definition is_ws (c : char) : bool :=
  char_eqb c SP || char_eqb c 9%N || char_eqb c NL || char_eqb c 13%N.

(** [WHITESPACE.match(s, end).end()] *)
Fixpoint skip_ws (s : str) : str :=
  match s with
  | c :: tl => if is_ws c then skip_ws tl else s
  | [] => []
  end.

Definition is_digit (c : char) : bool := ((48 <=? c) && (c <=? 57))%N.

Definition hexval (c : char) : option N :=
  if ((48 <=? c) && (c <=? 57))%N then Some (c - 48)%N
  else if ((97 <=? c) && (c <=? 102))%N then Some (c - 87)%N
  else if ((65 <=? c) && (c <=? 70))%N then Some (c - 55)%N
  else None.

(** The four hexadecimal digits of a unicode escape *)
Definition hex4 (a b c d : char) : option N :=
  match hexval a, hexval b, hexval c, hexval d with
  | Some x, Some y, Some z, Some w =>
      Some (((x * 16 + y) * 16 + z) * 16 + w)%N
  | _, _, _, _ => None
  end.

Definition is_high_surrogate (u : N) : bool :=
  ((55296 <=? u) && (u <=? 56319))%N.
Definition is_low_surrogate (u : N) : bool :=
  ((56320 <=? u) && (u <=? 57343))%N.

Definition join_surrogates (hi lo : N) : N :=
  (65536 + N.lor (N.shiftl (hi - 55296) 10) (lo - 56320))%N.

(** [BACKSLASH] of json/decoder.py *)
Definition BACKSLASH_TABLE (e : char) : option char :=
  if char_eqb e QUOTE then Some QUOTE
  else if char_eqb e BACKSLASH then Some BACKSLASH
  else if char_eqb e SLASH then Some SLASH
  else if char_eqb e 98%N then Some 8%N
  else if char_eqb e 102%N then Some 12%N
  else if char_eqb e 110%N then Some 10%N
  else if char_eqb e 114%N then Some 13%N
  else if char_eqb e 116%N then Some 9%N
  else None.

Definition with_char (c : char) (r : result (str * str))
  : result (str * str) :=
  match r with
  | Ok (k, rest) => Ok (c :: k, rest)
  | Fail msg n => Fail msg n
  | NoFuel => NoFuel
  end.

(** [scanstring(s, end)], strict: [s] is the text after the opening quote,
    [begin] the position of that quote.  The result is the decoded string
    and the text after the closing quote. *)
Fixpoint scanstring (s : str) (begin : nat) : result (str * str) :=
  match s with
  | [] => Fail UNTERMINATED begin
  | c :: tl =>
      if char_eqb c QUOTE then Ok ([], tl)
      else if char_eqb c BACKSLASH then
        match tl with
        | [] => Fail UNTERMINATED begin
        | e :: tl1 =>
            if char_eqb e 117%N then
              match tl1 with
              | h1 :: h2 :: h3 :: h4 :: tl2 =>
                  match hex4 h1 h2 h3 h4 with
                  | None => Fail INVALID_UXXXX (List.length tl)
                  | Some uni =>
                      if is_high_surrogate uni then
                        match tl2 with
                        | b :: u :: tl3 =>
                            if char_eqb b BACKSLASH && char_eqb u 117%N then
                              match tl3 with
                              | g1 :: g2 :: g3 :: g4 :: tl4 =>
                                  match hex4 g1 g2 g3 g4 with
                                  | None =>
                                      Fail INVALID_UXXXX
                                        (S (List.length tl3))
                                  | Some uni2 =>
                                      if is_low_surrogate uni2
                                      then with_char
                                             (join_surrogates uni uni2)
                                             (scanstring tl4 begin)
                                      else with_char uni
                                             (scanstring tl2 begin)
                                  end
                              | _ => Fail INVALID_UXXXX (S (List.length tl3))
                              end
                            else with_char uni (scanstring tl2 begin)
                        | _ => with_char uni (scanstring tl2 begin)
                        end
                      else with_char uni (scanstring tl2 begin)
                  end
              | _ => Fail INVALID_UXXXX (List.length tl)
              end
            else
              match BACKSLASH_TABLE e with
              | Some ch => with_char ch (scanstring tl1 begin)
              | None => Fail INVALID_ESCAPE (List.length s)
              end
        end
      else if (c <? 32)%N then Fail INVALID_CONTROL (List.length s)
      else with_char c (scanstring tl begin)
  end.

(** The longest prefix of decimal digits, and what follows it. *)
Fixpoint span_digits (s : str) : str * str :=
  match s with
  | c :: tl =>
      if is_digit c
      then let '(ds, rest) := span_digits tl in (c :: ds, rest)
      else ([], s)
  | [] => ([], [])
  end.

(** [NUMBER_RE.match]: the groups integer, frac and exp, and what follows
    the match.  The integer is an optional minus and then a zero or a
    digit from 1 to 9 with the digits after it; frac is a dot and at least
    one digit; exp is an e, an optional sign and at least one digit. *)
Definition match_integer (s : str) : option (str * str) :=
  let '(sign, s1) :=
    match s with
    | c :: tl => if char_eqb c MINUS then ([c], tl) else ([], s)
    | [] => ([], s)
    end in
  match s1 with
  | d :: tl =>
      if char_eqb d 48%N then Some (sign ++ [d], tl)
      else if is_digit d
      then let '(ds, rest) := span_digits tl in Some (sign ++ d :: ds, rest)
      else None
  | [] => None
  end.

Definition match_frac (s : str) : str * str :=
  match s with
  | c :: tl =>
      if char_eqb c 46%N then
        match span_digits tl with
        | (d :: ds, rest) => (c :: d :: ds, rest)
        | ([], _) => ([], s)
        end
      else ([], s)
  | [] => ([], s)
  end.

Definition match_exp (s : str) : str * str :=
  match s with
  | c :: tl =>
      if char_eqb c 101%N || char_eqb c 69%N then
        let '(sign, s1) :=
          match tl with
          | g :: tl' =>
              if char_eqb g MINUS || char_eqb g 43%N then ([g], tl')
              else ([], tl)
          | [] => ([], tl)
          end in
        match span_digits s1 with
        | (d :: ds, rest) => (c :: sign ++ d :: ds, rest)
        | ([], _) => ([], s)
        end
      else ([], s)
  | [] => ([], s)
  end.

Definition match_number (s : str) : option (str * str * str * str) :=
  match match_integer s with
  | None => None
  | Some (integer, s1) =>
      let '(frac, s2) := match_frac s1 in
      let '(exp, s3) := match_exp s2 in
      Some (integer, frac, exp, s3)
  end.

Definition digit_value (c : char) : N := (c - 48)%N.

(** [int(integer)] for an integer group of [NUMBER_RE] *)
Definition int_of_digits (ds : str) : Z :=
  Z.of_N (fold_left (fun acc c => (acc * 10 + digit_value c)%N) ds 0%N).

Definition parse_int (integer : str) : Z :=
  match integer with
  | c :: ds => if char_eqb c MINUS then (- int_of_digits ds)%Z
               else int_of_digits integer
  | [] => 0%Z
  end.

Fixpoint starts_with (prefix s : str) : bool :=
  match prefix, s with
  | [], _ => true
  | p :: prefix', c :: s' => char_eqb p c && starts_with prefix' s'
  | _ :: _, [] => false
  end.

Section Decoder.

(** [float_text lit] is the text that [json.dumps] prints for the float
    that [float(lit)] is, for a literal [lit] with a fraction or an
    exponent. *)
Variable float_text : str -> str.

(** [scan_once], [JSONArray] and [JSONObject].  [array_items] is the loop
    of [JSONArray], entered at a value; [object_members] is the loop of
    [JSONObject], entered after the opening quote of a key, whose position
    is [begin].  The StopIteration of [scan_once] is turned by each of its
    callers into the error Expecting value at the same position, so
    [scan_once] gives that error itself. *)
Fixpoint scan_once (fuel : nat) (s : str) {struct fuel}
  : result (value * str) :=
  match fuel with
  | O => NoFuel
  | S f =>
      match s with
      | [] => Fail EXPECTING_VALUE 0
      | c :: tl =>
          if char_eqb c QUOTE then
            match scanstring tl (List.length s) with
            | Ok (k, rest) => Ok (VStr k, rest)
            | Fail msg n => Fail msg n
            | NoFuel => NoFuel
            end
          else if char_eqb c LBRACE then JSONObject f tl
          else if char_eqb c LBRACKET then JSONArray f tl
          else if starts_with NULL_S s then Ok (VNone, skipn 4 s)
          else if starts_with TRUE_S s then Ok (VBool true, skipn 4 s)
          else if starts_with FALSE_S s then Ok (VBool false, skipn 5 s)
          else
            match match_number s with
            | Some (integer, frac, exp, rest) =>
                match frac, exp with
                | [], [] => Ok (VInt (parse_int integer), rest)
                | _, _ =>
                    Ok (VFloat (float_text (integer ++ frac ++ exp)), rest)
                end
            | None =>
                if starts_with NAN_S s then Ok (VFloat NAN_S, skipn 3 s)
                else if starts_with INF_S s
                then Ok (VFloat INF_S, skipn 8 s)
                else if starts_with NEG_INF_S s
                then Ok (VFloat NEG_INF_S, skipn 9 s)
                else Fail EXPECTING_VALUE (List.length s)
            end
      end
  end

with JSONArray (fuel : nat) (s : str) {struct fuel}
  : result (value * str) :=
  match fuel with
  | O => NoFuel
  | S f =>
      let s1 := skip_ws s in
      match s1 with
      | c :: rest =>
          if char_eqb c RBRACKET then Ok (VList [], rest)
          else
            match array_items f s1 with
            | Ok (vs, rest') => Ok (VList vs, rest')
            | Fail msg n => Fail msg n
            | NoFuel => NoFuel
            end
      | [] => Fail EXPECTING_VALUE 0
      end
  end

with array_items (fuel : nat) (s : str) {struct fuel}
  : result (list value * str) :=
  match fuel with
  | O => NoFuel
  | S f =>
      match scan_once f s with
      | Ok (v, s1) =>
          let s2 := skip_ws s1 in
          match s2 with
          | c :: s3 =>
              if char_eqb c RBRACKET then Ok ([v], s3)
              else if char_eqb c COMMA
              then with_head v (array_items f (skip_ws s3))
              else Fail EXPECTING_COMMA (List.length s2)
          | [] => Fail EXPECTING_COMMA 0
          end
      | Fail msg n => Fail msg n
      | NoFuel => NoFuel
      end
  end

with JSONObject (fuel : nat) (s : str) {struct fuel}
  : result (value * str) :=
  match fuel with
  | O => NoFuel
  | S f =>
      let s1 := skip_ws s in
      match s1 with
      | c :: rest =>
          if char_eqb c RBRACE then Ok (VDict [], rest)
          else if char_eqb c QUOTE then
            match object_members f rest (List.length s1) with
            | Ok (pairs, rest') => Ok (VDict (dict_of_pairs pairs), rest')
            | Fail msg n => Fail msg n
            | NoFuel => NoFuel
            end
          else Fail EXPECTING_NAME (List.length s1)
      | [] => Fail EXPECTING_NAME 0
      end
  end

with object_members (fuel : nat) (s : str) (begin : nat) {struct fuel}
  : result (list (str * value) * str) :=
  match fuel with
  | O => NoFuel
  | S f =>
      match scanstring s begin with
      | Ok (key, s1) =>
          let s2 := skip_ws s1 in
          match s2 with
          | c :: s3 =>
              if char_eqb c COLON then
                match scan_once f (skip_ws s3) with
                | Ok (v, s5) =>
                    let s6 := skip_ws s5 in
                    match s6 with
                    | d :: s7 =>
                        if char_eqb d RBRACE then Ok ([(key, v)], s7)
                        else if char_eqb d COMMA then
                          let s8 := skip_ws s7 in
                          match s8 with
                          | q :: s9 =>
                              if char_eqb q QUOTE
                              then with_head (key, v)
                                     (object_members f s9 (List.length s8))
                              else Fail EXPECTING_NAME (List.length s8)
                          | [] => Fail EXPECTING_NAME 0
                          end
                        else Fail EXPECTING_COMMA (List.length s6)
                    | [] => Fail EXPECTING_COMMA 0
                    end
                | Fail msg n => Fail msg n
                | NoFuel => NoFuel
                end
              else Fail EXPECTING_COLON (List.length s2)
          | [] => Fail EXPECTING_COLON 0
          end
      | Fail msg n => Fail msg n
      | NoFuel => NoFuel
      end
  end.

(** The exception [json.JSONDecodeError] *)
Record JSONDecodeError : Type := mkJSONDecodeError {
  msg : str;
  pos : nat;
  lineno : Z;
  colno : Z
}.

(** [doc.rfind] of the newline in [doc[0:pos]]: the index of the last
    newline before [pos], or -1. *)
Fixpoint rfind_nl (doc : str) (pos : nat) (i : Z) (found : Z) : Z :=
  match pos, doc with
  | S p, c :: tl =>
      rfind_nl tl p (i + 1)%Z (if char_eqb c NL then i else found)
  | _, _ => found
  end.

Definition decode_error (m : str) (doc : str) (p : nat) : JSONDecodeError :=
  {| msg := m;
     pos := p;
     lineno := (count_nl (firstn p doc) + 1)%Z;
     colno := (Z.of_nat p - rfind_nl doc p 0 (-1))%Z |}.

Inductive parsed : Type :=
| Value (v : value)
| DecodeError (e : JSONDecodeError)
| Unfinished.

(** [json.loads(s)] for a [str]: the check of the byte order mark, then
    [JSONDecoder.decode]. *)
Definition loads (s : str) : parsed :=
  if starts_with [65279%N] s
  then DecodeError (decode_error UNEXPECTED_BOM s 0)
  else
    match scan_once (3 * List.length s + 1) (skip_ws s) with
    | Ok (obj, rest) =>
        match skip_ws rest with
        | [] => Value obj
        | extra =>
            DecodeError
              (decode_error EXTRA_DATA s
                 (List.length s - List.length extra))
        end
    | Fail m n => DecodeError (decode_error m s (List.length s - n))
    | NoFuel => Unfinished
    end.

Definition parse_json_lenient (text : str) : parsed :=
  let no_comments := _strip_comments text in
  let no_trailing := _strip_trailing_commas no_comments in
  loads no_trailing.

(** [format_json(parse_json_lenient(text), cfg)]; [None] when either
    raises. *)
Definition format_text (text : str) (cfg : FormatConfig) : option str :=
  match parse_json_lenient text with
  | Value data => format_json data cfg
  | _ => None
  end.

End Decoder.

(** * Properties *)

(** ** Equality tests *)

Lemma char_eqb_eq (a b : char) : char_eqb a b = true <-> a = b.
Proof. apply N.eqb_eq. Qed.

Lemma char_eqb_refl (a : char) : char_eqb a a = true.
Proof. apply N.eqb_refl. Qed.

Lemma char_eqb_neq (a b : char) : char_eqb a b = false <-> a <> b.
Proof. apply N.eqb_neq. Qed.

Lemma str_eqb_eq (a b : str) : str_eqb a b = true <-> a = b.
Proof.
  revert b; induction a as [|x a IH]; intros [|y b]; simpl;
    try (split; [discriminate | discriminate]); try tauto.
  rewrite andb_true_iff, char_eqb_eq, IH.
  split; [intros [-> ->]; reflexivity | intros H; inversion H; auto].
Qed.

Lemma str_eqb_refl (a : str) : str_eqb a a = true.
Proof. apply str_eqb_eq; reflexivity. Qed.

Lemma keys_eqb_eq (a b : list str) : keys_eqb a b = true <-> a = b.
Proof.
  revert b; induction a as [|x a IH]; intros [|y b]; simpl;
    try (split; [discriminate | discriminate]); try tauto.
  rewrite andb_true_iff, str_eqb_eq, IH.
  split; [intros [-> ->]; reflexivity | intros H; inversion H; auto].
Qed.

(** ** The loop combinator *)

Lemma traverse_total {A B : Type} (f : A -> option B) (l : list A) :
  Forall (fun x => exists y, f x = Some y) l ->
  exists ys, traverse f l = Some ys.
Proof.
  induction 1 as [|x l [y Hy] _ [ys Hys]]; simpl.
  - eauto.
  - rewrite Hy, Hys. eauto.
Qed.

Lemma traverse_pure {A B : Type} (g : A -> B) (f : A -> option B)
  (l : list A) :
  Forall (fun x => f x = Some (g x)) l ->
  traverse f l = Some (map g l).
Proof.
  induction 1 as [|x l Hx _ IH]; simpl; [reflexivity|].
  rewrite Hx, IH. reflexivity.
Qed.

Lemma traverse_ext {A B : Type} (f g : A -> option B) (l : list A) :
  Forall (fun x => f x = g x) l -> traverse f l = traverse g l.
Proof.
  induction 1 as [|x l Hx _ IH]; simpl; [reflexivity|].
  rewrite Hx, IH. reflexivity.
Qed.

Lemma traverse_Forall2 {A B : Type} (f : A -> option B) (l : list A)
  (ys : list B) :
  traverse f l = Some ys <-> Forall2 (fun x y => f x = Some y) l ys.
Proof.
  revert ys; induction l as [|x l IH]; intros ys; simpl.
  - split.
    + intros H; inversion H; constructor.
    + intros H; inversion H; reflexivity.
  - split.
    + destruct (f x) as [y|] eqn:Hx; [|discriminate].
      destruct (traverse f l) as [ys'|] eqn:Hl; [|discriminate].
      intros H; inversion H; subst. constructor; [assumption|].
      apply IH; reflexivity.
    + intros H; inversion H as [|? y ? ys' Hx Hl]; subst.
      rewrite Hx. apply IH in Hl. rewrite Hl. reflexivity.
Qed.

Lemma traverse_None {A B : Type} (f : A -> option B) (l : list A) :
  traverse f l = None <-> exists x, In x l /\ f x = None.
Proof.
  induction l as [|x l IH]; simpl.
  - split; [discriminate | intros [? [[] _]]].
  - destruct (f x) as [y|] eqn:Hx.
    + destruct (traverse f l) as [ys|].
      * split; [discriminate|].
        intros [z [[<-|Hz] Hn]]; [congruence|].
        assert (@None (list B) = None) as E by reflexivity.
        destruct IH as [_ IH]. discriminate IH. eauto.
      * split; [|reflexivity]. intros _.
        destruct IH as [IH _]. destruct (IH eq_refl) as [z [Hz Hn]].
        eauto.
    + split; [|reflexivity]. intros _. eauto.
Qed.

(** ** Dictionaries *)

Lemma dict_get_key (d : dict) (k : str) :
  In k (keys d) -> exists v, dict_get d k = Some v.
Proof.
  induction d as [|[k' v'] d IH]; simpl; [intros []|].
  intros [->|Hin].
  - rewrite str_eqb_refl. eauto.
  - destruct (str_eqb k k'); eauto.
Qed.

Lemma el_sorted_of_total (d : dict) (ks : list str) (acc : dict) :
  (forall k, In k ks -> In k (keys d)) ->
  exists r, el_sorted_of d ks acc = Some r.
Proof.
  revert acc; induction ks as [|k ks IH]; intros acc Hks; simpl.
  - eauto.
  - destruct (dict_get_key d k) as [v Hv]; [apply Hks; left; reflexivity|].
    rewrite Hv. apply IH. intros k' Hk'. apply Hks. right. assumption.
Qed.

(** ** The homogeneity test *)

Definition homog_elem (cfg : FormatConfig) (key_order : list str)
  (el : value) : Prop :=
  is_dict el = true
  /\ keys (as_dict el) = key_order
  /\ forallb (fun v => _is_small_prim v cfg) (values (as_dict el)) = true.

Lemma homog_true_inv (arr : list value) (cfg : FormatConfig)
  (key_order : list str) :
  _array_is_homog_small_objs arr cfg = (true, key_order) ->
  arr <> []
  /\ (inline_homogeneous_min cfg <= Z.of_nat (List.length arr))%Z
  /\ key_order <> []
  /\ Forall (homog_elem cfg key_order) arr.
Proof.
  unfold _array_is_homog_small_objs.
  destruct arr as [|first rest]; [discriminate|].
  destruct (Z.ltb_spec (Z.of_nat (List.length (first :: rest)))
              (inline_homogeneous_min cfg)) as [Hlt|Hge]; [discriminate|].
  destruct (forallb is_dict (first :: rest)) eqn:Hd; [|discriminate].
  simpl negb. cbv iota.
  destruct (_keys_tuple (as_dict first)) as [|k0 ks] eqn:Hk; [discriminate|].
  match goal with |- context [forallb ?f (first :: rest)] =>
    destruct (forallb f (first :: rest)) eqn:Hall end; [|discriminate].
  intros H; inversion H; subst key_order; clear H.
  repeat split; try discriminate; try assumption.
  rewrite forallb_forall in Hd, Hall.
  apply Forall_forall. intros el Hel.
  specialize (Hd el Hel). specialize (Hall el Hel).
  apply andb_true_iff in Hall. destruct Hall as [Hke Hsm].
  apply keys_eqb_eq in Hke.
  repeat split; assumption.
Qed.

Lemma homog_true_intro (arr : list value) (cfg : FormatConfig)
  (key_order : list str) :
  arr <> [] ->
  (inline_homogeneous_min cfg <= Z.of_nat (List.length arr))%Z ->
  key_order <> [] ->
  Forall (homog_elem cfg key_order) arr ->
  _array_is_homog_small_objs arr cfg = (true, key_order).
Proof.
  intros Hne Hmin Hko Hall.
  unfold _array_is_homog_small_objs.
  destruct arr as [|first rest]; [congruence|].
  destruct (Z.ltb_spec (Z.of_nat (List.length (first :: rest)))
              (inline_homogeneous_min cfg)) as [Hlt|Hge]; [lia|].
  assert (Hd : forallb is_dict (first :: rest) = true).
  { apply forallb_forall. intros el Hel.
    rewrite Forall_forall in Hall. apply (Hall el Hel). }
  rewrite Hd. simpl negb. cbv iota.
  assert (Hk : _keys_tuple (as_dict first) = key_order).
  { inversion Hall as [|? ? Hfirst _]; subst.
    destruct Hfirst as [_ [Hk' _]]. exact Hk'. }
  rewrite Hk.
  destruct key_order as [|k0 ks]; [congruence|].
  match goal with |- context [forallb ?f (first :: rest)] =>
    assert (Hf : forallb f (first :: rest) = true) end.
  { apply forallb_forall. intros el Hel.
    rewrite Forall_forall in Hall. destruct (Hall el Hel) as [_ [Hke Hsm]].
    apply andb_true_iff. split; [|exact Hsm].
    apply keys_eqb_eq. exact Hke. }
  rewrite Hf. reflexivity.
Qed.

(** ** Totality of the layout engine *)

Lemma homog_part_total (cfg : FormatConfig) (key_order : list str)
  (child : str) (el : value) :
  homog_elem cfg key_order el ->
  exists s, homog_part key_order cfg child el = Some s.
Proof.
  intros [_ [Hk _]]. unfold homog_part.
  destruct (el_sorted_of_total (as_dict el) key_order []) as [r Hr].
  - intros k Hin. rewrite Hk. exact Hin.
  - rewrite Hr. eauto.
Qed.

Lemma homogeneous_strategy_no_raise (lst : list value) (cfg : FormatConfig)
  (level : Z) :
  homogeneous_strategy lst cfg level <> Raise.
Proof.
  unfold homogeneous_strategy.
  destruct (inline_homogeneous_objects cfg); [|discriminate].
  destruct (_array_is_homog_small_objs lst cfg) as [ok ko] eqn:E.
  destruct ok; [|discriminate].
  apply homog_true_inv in E. destruct E as [_ [_ [_ Hall]]].
  destruct (traverse_total
              (homog_part ko cfg (spaces (indent cfg * (level + 1)))) lst)
    as [ps Hps].
  - eapply Forall_impl; [|exact Hall].
    intros el Hel. apply homog_part_total. exact Hel.
  - rewrite Hps. discriminate.
Qed.

Lemma collapse_key_strategy_no_raise (lst : list value) (cfg : FormatConfig)
  (level : Z) :
  collapse_key_strategy lst cfg level <> Raise.
Proof.
  unfold collapse_key_strategy.
  destruct (_compact_list lst cfg level); [discriminate|].
  destruct (traverse (elem_string cfg level) lst); discriminate.
Qed.

Lemma prim_collapse_strategy_no_raise (lst : list value) (cfg : FormatConfig)
  (level : Z) :
  prim_collapse_strategy lst cfg level <> Raise.
Proof.
  unfold prim_collapse_strategy.
  repeat match goal with |- context [if ?b then _ else _] => destruct b end;
    discriminate.
Qed.

Lemma inner_chunks_of_total (f : str -> value -> option str) (items : dict) :
  Forall (fun kv => exists s, f (fst kv) (snd kv) = Some s) items ->
  exists r, inner_chunks_of f items = Some r.
Proof.
  induction 1 as [|kv items [s Hs] _ [r Hr]]; simpl.
  - eauto.
  - rewrite Hs, Hr.
    destruct (_is_prim (snd kv)); [|destruct (has_nl s)];
      destruct r; eauto.
Qed.

Lemma format_value_total (val : value) :
  forall (cfg : FormatConfig) (level : Z) (parent_key : option str),
  exists s, _format_value val cfg level parent_key = Some s.
Proof.
  induction val as [| | | | |lst IH|items IH] using value_nested_ind;
    intros cfg level parent_key; try (simpl; eauto; fail).
  - (* arrays *)
    simpl.
    destruct (if in_collapse_keys parent_key cfg
              then collapse_key_strategy lst cfg level else Fallthrough)
      as [s| |] eqn:E1; [eauto| |].
    2:{ exfalso. destruct (in_collapse_keys parent_key cfg);
        [eapply collapse_key_strategy_no_raise; eassumption|discriminate]. }
    destruct (homogeneous_strategy lst cfg level) as [s| |] eqn:E2;
      [eauto| |exfalso; eapply homogeneous_strategy_no_raise; eassumption].
    destruct (prim_collapse_strategy lst cfg level) as [s| |] eqn:E3;
      [eauto| |exfalso; eapply prim_collapse_strategy_no_raise; eassumption].
    match goal with |- context [traverse ?f lst] =>
      destruct (traverse_total f lst) as [ps Hps] end.
    + eapply Forall_impl; [|exact IH]. intros el Hel.
      destruct (Hel cfg (level + 1)%Z None) as [s Hs]. rewrite Hs. eauto.
    + rewrite Hps. eauto.
  - (* objects *)
    simpl.
    match goal with |- context [inner_chunks_of ?f items] =>
      destruct (inner_chunks_of_total f items) as [r Hr] end.
    { eapply Forall_impl; [|exact IH]. intros kv Hkv. apply Hkv. }
    rewrite Hr.
    match goal with |- context [traverse ?f items] =>
      destruct (traverse_total f items) as [ls Hls] end.
    { eapply Forall_impl; [|exact IH]. intros kv Hkv.
      destruct (Hkv cfg (level + 1)%Z (Some (fst kv))) as [s Hs].
      rewrite Hs. eauto. }
    rewrite Hls.
    repeat match goal with
           | |- context [if ?b then _ else _] => destruct b
           | |- context [match ?r with Some _ => _ | None => _ end] =>
               destruct r
           end; eauto.
Qed.


(** ** Empty containers *)

Definition empty_array_text (cfg : FormatConfig) (level : Z) : str :=
  LBRACKET :: NL :: NL :: spaces (indent cfg * level) ++ [RBRACKET].

Definition empty_object_text (cfg : FormatConfig) (level : Z) : str :=
  LBRACE :: NL :: NL :: spaces (indent cfg * level) ++ [RBRACE].

(** The statement of C10 at one call of [_format_value]. *)
Definition empty_containers_multiline (cfg : FormatConfig) (level : Z)
  (parent_key : option str) : Prop :=
  _format_value (VList []) cfg level parent_key
    = Some (empty_array_text cfg level)
  /\ _format_value (VDict []) cfg level parent_key
    = Some (empty_object_text cfg level).

Lemma homogeneous_strategy_nil (cfg : FormatConfig) (level : Z) :
  homogeneous_strategy [] cfg level = Fallthrough.
Proof.
  unfold homogeneous_strategy.
  destruct (inline_homogeneous_objects cfg); reflexivity.
Qed.

Lemma prim_collapse_strategy_nil (cfg : FormatConfig) (level : Z) :
  prim_collapse_strategy [] cfg level = Fallthrough.
Proof.
  unfold prim_collapse_strategy. simpl nonempty.
  rewrite andb_false_r. reflexivity.
Qed.

Lemma format_empty_object (cfg : FormatConfig) (level : Z)
  (parent_key : option str) :
  _format_value (VDict []) cfg level parent_key
  = Some (empty_object_text cfg level).
Proof.
  simpl.
  destruct (str_eqb (object_wrap cfg) COLLAPSE);
    destruct (aggressive_inline cfg); reflexivity.
Qed.




(** ** Well-formed values

    The invariants of the Python data that the embedding does not already
    enforce by its types: the keys of a dict are distinct, and the text that
    stands for a float is one that [json.dumps] prints. *)

Fixpoint distinct (ks : list str) : bool :=
  match ks with
  | [] => true
  | k :: rest => negb (str_in k rest) && distinct rest
  end.

Definition is_float_literal (r : str) : bool :=
  match match_number r with
  | Some (_, frac, exp, []) => nonempty frac || nonempty exp
  | _ => false
  end.

Definition float_repr_ok (r : str) : bool :=
  str_eqb r NAN_S || str_eqb r INF_S || str_eqb r NEG_INF_S
  || is_float_literal r.

Fixpoint well_formed (v : value) : bool :=
  match v with
  | VFloat r => float_repr_ok r
  | VList l => forallb well_formed l
  | VDict d => distinct (keys d) && forallb (fun kv => well_formed (snd kv)) d
  | _ => true
  end.

Lemma str_in_In (k : str) (l : list str) : str_in k l = true <-> In k l.
Proof.
  unfold str_in. rewrite existsb_exists. split.
  - intros [x [Hx Hk]]. apply str_eqb_eq in Hk. subst. exact Hx.
  - intros H. exists k. split; [exact H|apply str_eqb_refl].
Qed.

Lemma distinct_NoDup (ks : list str) : distinct ks = true <-> NoDup ks.
Proof.
  induction ks as [|k ks IH]; simpl.
  - split; [constructor|reflexivity].
  - rewrite andb_true_iff, negb_true_iff, IH. split.
    + intros [Hn Hd]. constructor; [|exact Hd].
      intros Hin. apply str_in_In in Hin. congruence.
    + intros H. inversion H as [|? ? Hn Hd]; subst. split; [|exact Hd].
      destruct (str_in k ks) eqn:E; [|reflexivity].
      apply str_in_In in E. contradiction.
Qed.

Lemma dict_get_app_notin (d1 d2 : dict) (k : str) :
  ~ In k (keys d1) -> dict_get (d1 ++ d2) k = dict_get d2 k.
Proof.
  induction d1 as [|[k' v'] d1 IH]; simpl; [reflexivity|].
  intros Hn. destruct (str_eqb k k') eqn:E.
  - apply str_eqb_eq in E. subst. exfalso. apply Hn. left. reflexivity.
  - apply IH. intros Hin. apply Hn. right. exact Hin.
Qed.

Lemma dict_set_notin (d : dict) (k : str) (v : value) :
  ~ In k (keys d) -> dict_set d k v = d ++ [(k, v)].
Proof.
  induction d as [|[k' v'] d IH]; simpl; [reflexivity|].
  intros Hn. destruct (str_eqb k k') eqn:E.
  - apply str_eqb_eq in E. subst. exfalso. apply Hn. left. reflexivity.
  - rewrite IH; [reflexivity|]. intros Hin. apply Hn. right. exact Hin.
Qed.

Lemma el_sorted_of_app (d1 d2 : dict) :
  NoDup (keys (d1 ++ d2)) ->
  el_sorted_of (d1 ++ d2) (keys d2) d1 = Some (d1 ++ d2).
Proof.
  revert d1; induction d2 as [|[k v] d2 IH]; intros d1 Hnd; simpl.
  - rewrite app_nil_r. reflexivity.
  - assert (Hn : ~ In k (keys d1)).
    { unfold keys in *. rewrite map_app in Hnd. simpl in Hnd.
      apply NoDup_remove_2 in Hnd. intros Hin. apply Hnd.
      apply in_or_app. left. exact Hin. }
    rewrite dict_get_app_notin by exact Hn. simpl.
    rewrite str_eqb_refl. rewrite dict_set_notin by exact Hn.
    replace (d1 ++ (k, v) :: d2) with ((d1 ++ [(k, v)]) ++ d2)
      by (rewrite <- app_assoc; reflexivity).
    apply IH. rewrite <- app_assoc. exact Hnd.
Qed.

Lemma el_sorted_of_self (d : dict) :
  distinct (keys d) = true -> el_sorted_of d (keys d) [] = Some d.
Proof.
  intros H. apply distinct_NoDup in H. apply (el_sorted_of_app [] d H).
Qed.

(** ** The homogeneous-object-array rule *)

(** [_compact_object] where it succeeds *)
Definition compact_object_text (d : dict) : str :=
  LBRACE :: SP ::
    join COMMA_SP
      (map (fun kv => member_text (fst kv) (_dump_oneline (snd kv))) d)
    ++ [SP; RBRACE].

(** One compact object per element, each on a line of its own at the
    indentation of the children, between the brackets. *)
Definition homogeneous_layout (cfg : FormatConfig) (level : Z)
  (arr : list value) : str :=
  block LBRACKET
    (map (fun el => spaces (indent cfg * (level + 1))
                      ++ compact_object_text (as_dict el)) arr)
    (spaces (indent cfg * level)) RBRACKET.

(** The statement of C5 at one call of [_format_value]. *)
Definition homogeneous_rule (cfg : FormatConfig) (level : Z)
  (parent_key : option str) (arr : list value) (key_order : list str)
  : Prop :=
  inline_homogeneous_objects cfg = true ->
  (inline_homogeneous_min cfg <= Z.of_nat (List.length arr))%Z ->
  Forall (homog_elem cfg key_order) arr ->
  _format_value (VList arr) cfg level parent_key
  = Some (homogeneous_layout cfg level arr).

Definition id_qty (id : string) (qty : Z) : value :=
  VDict [(py "id", VStr (py id)); (py "qty", VInt qty)].

Definition three_stacks : list value :=
  [id_qty "a" 1; id_qty "b" 2; id_qty "c" 3].

(** C5, the example of the claim: at the top level the three objects are
    rendered one per line. *)
Lemma three_stacks_one_per_line :
  format_json (VList three_stacks) default_config
  = Some (pyq "[" ++ NL :: pyq "  { 'id': 'a', 'qty': 1 }," ++
          NL :: pyq "  { 'id': 'b', 'qty': 2 }," ++
          NL :: pyq "  { 'id': 'c', 'qty': 3 }" ++ NL :: pyq "]" ++ [NL]).
Proof. reflexivity. Qed.

(** C5, the counterexample: as the value of the collapse key drops, the
    same array of three homogeneous objects is rendered on one line by the
    collapse-key strategy, which comes first. *)
Lemma homogeneous_rule_fails_under_collapse_key :
  _format_value (VList three_stacks) default_config 0 (Some (py "drops"))
    = Some (pyq "[ { 'id': 'a', 'qty': 1 }, { 'id': 'b', 'qty': 2 }, { 'id': 'c', 'qty': 3 } ]")
  /\ ~ homogeneous_rule default_config 0 (Some (py "drops")) three_stacks
         [py "id"; py "qty"].
Proof.
  split; [reflexivity|].
  intros H. unfold homogeneous_rule in H.
  assert (E : _format_value (VList three_stacks) default_config 0
                (Some (py "drops"))
              = Some (homogeneous_layout default_config 0 three_stacks)).
  { apply H; [reflexivity | vm_compute; discriminate |].
    repeat constructor. }
  vm_compute in E. discriminate E.
Qed.

(** C5, a second input on which the claim fails: three objects that share
    the empty key set are not taken by the rule, each is rendered as an
    empty object on three lines. *)
Lemma homogeneous_rule_fails_for_empty_objects :
  ~ homogeneous_rule default_config 0 None [VDict []; VDict []; VDict []] [].
Proof.
  intros H. unfold homogeneous_rule in H.
  assert (E : _format_value (VList [VDict []; VDict []; VDict []])
                default_config 0 None
              = Some (homogeneous_layout default_config 0
                        [VDict []; VDict []; VDict []])).
  { apply H; [reflexivity | vm_compute; discriminate |].
    repeat constructor. }
  vm_compute in E. discriminate E.
Qed.

Lemma homog_part_text (cfg : FormatConfig) (key_order : list str)
  (child : str) (el : value) :
  well_formed el = true ->
  homog_elem cfg key_order el ->
  homog_part key_order cfg child el
  = Some (child ++ compact_object_text (as_dict el)).
Proof.
  intros Hwf [Hd [Hk Hsm]]. unfold homog_part.
  destruct el as [| | | | | |d]; try discriminate. simpl in *.
  apply andb_true_iff in Hwf. destruct Hwf as [Hdis _].
  rewrite <- Hk. rewrite el_sorted_of_self by exact Hdis.
  unfold _compact_object. rewrite Hsm. reflexivity.
Qed.

(** C5, amended: when the parent key is not a collapse key and the shared
    key set is not empty, an array that passes the homogeneity test is
    rendered as one compact single-line object per element, each indented
    one level, whatever [print_width] is. *)
Theorem homogeneous_rule_outside_collapse_keys (cfg : FormatConfig)
  (level : Z) (parent_key : option str) (arr : list value)
  (key_order : list str) :
  well_formed (VList arr) = true ->
  in_collapse_keys parent_key cfg = false ->
  key_order <> [] ->
  inline_homogeneous_objects cfg = true ->
  (inline_homogeneous_min cfg <= Z.of_nat (List.length arr))%Z ->
  Forall (homog_elem cfg key_order) arr ->
  _format_value (VList arr) cfg level parent_key
  = Some (homogeneous_layout cfg level arr).
Proof.
  intros Hwf Hck Hko Hflag Hmin Hall.
  destruct arr as [|first rest].
  - simpl. rewrite Hck, homogeneous_strategy_nil, prim_collapse_strategy_nil.
    reflexivity.
  - remember (first :: rest) as arr eqn:Harr.
    assert (Hne : arr <> []) by (subst; discriminate).
    pose proof (homog_true_intro arr cfg key_order Hne Hmin Hko Hall) as Hh.
    simpl. rewrite Hck. unfold homogeneous_strategy. rewrite Hflag, Hh.
    rewrite (traverse_pure
               (fun el => spaces (indent cfg * (level + 1))
                            ++ compact_object_text (as_dict el))).
    + reflexivity.
    + simpl in Hwf. rewrite forallb_forall in Hwf.
      rewrite Forall_forall in Hall |- *. intros el Hel.
      apply homog_part_text; [apply Hwf | apply Hall]; exact Hel.
Qed.

Definition narrow_config : FormatConfig :=
  {| indent := 2; print_width := 10; array_wrap := COLLAPSE;
     object_wrap := COLLAPSE; aggressive_inline := true;
     long_block_threshold := 20; eol := [NL];
     array_collapse_keys := [py "drops"];
     inline_homogeneous_objects := true; inline_homogeneous_min := 3;
     inline_string_max := 120; allow_overflow_inline_arrays := true |}.

Lemma homogeneous_rule_outside_collapse_keys_witness :
  _format_value (VList three_stacks) narrow_config 1 (Some (py "stacks"))
  = Some (pyq "[" ++ NL :: pyq "    { 'id': 'a', 'qty': 1 }," ++
          NL :: pyq "    { 'id': 'b', 'qty': 2 }," ++
          NL :: pyq "    { 'id': 'c', 'qty': 3 }" ++ NL :: pyq "  ]").
Proof.
  rewrite (homogeneous_rule_outside_collapse_keys narrow_config 1
             (Some (py "stacks")) three_stacks [py "id"; py "qty"]).
  - reflexivity.
  - reflexivity.
  - reflexivity.
  - discriminate.
  - reflexivity.
  - vm_compute. discriminate.
  - repeat constructor.
Defined.

(** ** The number scanner *)

(** The characters of a number literal *)
Definition numchar (c : char) : bool :=
  is_digit c || char_eqb c MINUS || char_eqb c 43%N || char_eqb c 46%N
  || char_eqb c 101%N || char_eqb c 69%N.

Definition all_chars (p : char -> bool) (s : str) : Prop :=
  Forall (fun c => p c = true) s.

Lemma all_chars_app (p : char -> bool) (a b : str) :
  all_chars p (a ++ b) <-> all_chars p a /\ all_chars p b.
Proof. apply Forall_app. Qed.

Lemma all_chars_impl (p q : char -> bool) (s : str) :
  (forall c, p c = true -> q c = true) -> all_chars p s -> all_chars q s.
Proof. intros H. apply Forall_impl. exact H. Qed.

Lemma is_digit_numchar (c : char) : is_digit c = true -> numchar c = true.
Proof. unfold numchar. intros ->. reflexivity. Qed.

(** The head of [s], if any, is not a digit. *)
Definition no_digit_ahead (s : str) : Prop :=
  match s with
  | [] => True
  | c :: _ => is_digit c = false
  end.

Lemma span_digits_spec (s : str) :
  s = fst (span_digits s) ++ snd (span_digits s)
  /\ all_chars is_digit (fst (span_digits s))
  /\ no_digit_ahead (snd (span_digits s)).
Proof.
  induction s as [|c tl IH]; simpl.
  - repeat split. constructor.
  - destruct (is_digit c) eqn:Hc.
    + destruct (span_digits tl) as [ds rest]. simpl in *.
      destruct IH as [E [Hd Hr]]. repeat split.
      * rewrite E at 1. reflexivity.
      * constructor; assumption.
      * exact Hr.
    + simpl. repeat split; [constructor | exact Hc].
Qed.

Lemma span_digits_app (ds rest : str) :
  all_chars is_digit ds -> no_digit_ahead rest ->
  span_digits (ds ++ rest) = (ds, rest).
Proof.
  intros Hd Hr. induction Hd as [|c ds Hc _ IH]; cbn [app span_digits].
  - destruct rest as [|c tl]; [reflexivity|].
    unfold no_digit_ahead in Hr. cbn [span_digits]. rewrite Hr. reflexivity.
  - rewrite Hc, IH. reflexivity.
Qed.

Lemma match_integer_spec (s integer rest : str) :
  match_integer s = Some (integer, rest) ->
  s = integer ++ rest /\ all_chars numchar integer.
Proof.
  unfold match_integer.
  assert (Hcore : forall sign s1,
    all_chars numchar sign ->
    match s1 with
    | [] => None
    | d :: tl =>
        if char_eqb d 48%N then Some (sign ++ [d], tl)
        else if is_digit d
        then let '(ds, rest) := span_digits tl in Some (sign ++ d :: ds, rest)
        else None
    end = Some (integer, rest) ->
    sign ++ s1 = integer ++ rest /\ all_chars numchar integer).
  { intros sign s1 Hs. destruct s1 as [|d tl]; [discriminate|].
    destruct (char_eqb d 48%N) eqn:E0.
    - intros H; inversion H; subst. apply char_eqb_eq in E0. subst.
      split; [rewrite <- app_assoc; reflexivity|].
      apply all_chars_app. split; [exact Hs|]. repeat constructor.
    - destruct (is_digit d) eqn:Ed; [|discriminate].
      pose proof (span_digits_spec tl) as [E [Hd _]].
      destruct (span_digits tl) as [ds r]. simpl in *.
      intros H; inversion H; subst integer rest; clear H.
      split; [rewrite <- app_assoc; simpl; rewrite E at 1; reflexivity|].
      apply all_chars_app. split; [exact Hs|].
      constructor; [apply is_digit_numchar; exact Ed|].
      eapply all_chars_impl; [apply is_digit_numchar|exact Hd]. }
  destruct s as [|c tl].
  - intros H. apply (Hcore [] []); [constructor|exact H].
  - destruct (char_eqb c MINUS) eqn:Ec.
    + intros H. apply char_eqb_eq in Ec. subst c.
      apply (Hcore [MINUS] tl); [repeat constructor|exact H].
    + intros H. apply (Hcore [] (c :: tl)); [constructor|exact H].
Qed.

Lemma match_frac_spec (s : str) :
  s = fst (match_frac s) ++ snd (match_frac s)
  /\ all_chars numchar (fst (match_frac s)).
Proof.
  unfold match_frac. destruct s as [|c tl]; [split; [reflexivity|constructor]|].
  destruct (char_eqb c 46%N) eqn:Ec; [|split; [reflexivity|constructor]].
  pose proof (span_digits_spec tl) as [E [Hd _]].
  destruct (span_digits tl) as [[|d ds] r]; simpl in *;
    [split; [reflexivity|constructor]|].
  split; [rewrite E at 1; reflexivity|].
  apply char_eqb_eq in Ec. subst c.
  constructor; [reflexivity|].
  eapply all_chars_impl; [apply is_digit_numchar|exact Hd].
Qed.

Lemma match_exp_spec (s : str) :
  s = fst (match_exp s) ++ snd (match_exp s)
  /\ all_chars numchar (fst (match_exp s)).
Proof.
  unfold match_exp. destruct s as [|c tl]; [split; [reflexivity|constructor]|].
  destruct (char_eqb c 101%N || char_eqb c 69%N) eqn:Ec;
    [|split; [reflexivity|constructor]].
  assert (Hc : numchar c = true).
  { unfold numchar. apply orb_true_iff in Ec. destruct Ec as [->| ->];
      rewrite ?orb_true_r; reflexivity. }
  assert (Hcore : forall sign s1,
    all_chars numchar sign -> tl = sign ++ s1 ->
    c :: tl = fst (match span_digits s1 with
                   | (d :: ds, rest) => (c :: sign ++ d :: ds, rest)
                   | ([], _) => ([], c :: tl)
                   end)
              ++ snd (match span_digits s1 with
                      | (d :: ds, rest) => (c :: sign ++ d :: ds, rest)
                      | ([], _) => ([], c :: tl)
                      end)
    /\ all_chars numchar (fst (match span_digits s1 with
                               | (d :: ds, rest) =>
                                   (c :: sign ++ d :: ds, rest)
                               | ([], _) => ([], c :: tl)
                               end))).
  { intros sign s1 Hs Etl.
    pose proof (span_digits_spec s1) as [E [Hd _]].
    destruct (span_digits s1) as [[|d ds] r]; simpl in *;
      [split; [reflexivity|constructor]|].
    split.
    - rewrite Etl, E at 1. rewrite <- app_assoc. reflexivity.
    - constructor; [exact Hc|]. apply all_chars_app. split; [exact Hs|].
      eapply all_chars_impl; [apply is_digit_numchar|exact Hd]. }
  destruct tl as [|g tl'].
  - apply (Hcore [] []); [constructor|reflexivity].
  - destruct (char_eqb g MINUS || char_eqb g 43%N) eqn:Eg.
    + apply (Hcore [g] tl'); [|reflexivity].
      constructor; [|constructor]. unfold numchar.
      apply orb_true_iff in Eg. destruct Eg as [->| ->];
        rewrite ?orb_true_r; reflexivity.
    + apply (Hcore [] (g :: tl')); [constructor|reflexivity].
Qed.

Lemma match_number_spec (s integer frac exp rest : str) :
  match_number s = Some (integer, frac, exp, rest) ->
  s = integer ++ frac ++ exp ++ rest
  /\ all_chars numchar (integer ++ frac ++ exp).
Proof.
  unfold match_number.
  destruct (match_integer s) as [[i s1]|] eqn:Ei; [|discriminate].
  apply match_integer_spec in Ei. destruct Ei as [Es Hi].
  pose proof (match_frac_spec s1) as [Ef Hf].
  destruct (match_frac s1) as [f s2]. simpl in *.
  pose proof (match_exp_spec s2) as [Ee He].
  destruct (match_exp s2) as [e s3]. simpl in *.
  intros H; inversion H; subst integer frac exp rest; clear H.
  split.
  - rewrite Es, Ef at 1. rewrite Ee at 1. reflexivity.
  - apply all_chars_app. split; [exact Hi|].
    apply all_chars_app. split; assumption.
Qed.

(** ** Texts of one line *)

Definition not_nl (c : char) : bool := negb (char_eqb c NL).

Definition one_line (s : str) : Prop := all_chars not_nl s.

Lemma one_line_app (a b : str) : one_line (a ++ b) <-> one_line a /\ one_line b.
Proof. apply all_chars_app. Qed.

Lemma one_line_cons (c : char) (s : str) :
  one_line (c :: s) <-> not_nl c = true /\ one_line s.
Proof.
  split.
  - intros H. inversion H; subst. split; assumption.
  - intros [Hc Hs]. constructor; assumption.
Qed.

Lemma one_line_has_nl (s : str) : one_line s <-> has_nl s = false.
Proof.
  unfold has_nl, char_in. induction s as [|c s IH]; cbn [existsb].
  - split; [reflexivity|constructor].
  - rewrite one_line_cons, IH, orb_false_iff. unfold not_nl, char_eqb.
    rewrite negb_true_iff, (N.eqb_sym NL c). reflexivity.
Qed.

Lemma one_line_count (s : str) : one_line s -> _line_count s = 1%Z.
Proof.
  unfold _line_count, count_nl. induction 1 as [|c s Hc _ IH]; cbn [filter].
  - reflexivity.
  - unfold not_nl, char_eqb in Hc. apply negb_true_iff in Hc.
    unfold char_eqb. rewrite (N.eqb_sym NL c), Hc. exact IH.
Qed.

Lemma one_line_join (sep : str) (parts : list str) :
  one_line sep -> Forall one_line parts -> one_line (join sep parts).
Proof.
  intros Hsep. induction 1 as [|p parts Hp Hps IH]; simpl.
  - constructor.
  - destruct parts as [|q parts]; [exact Hp|].
    apply one_line_app. split; [exact Hp|].
    apply one_line_app. split; [exact Hsep|exact IH].
Qed.

Lemma one_line_spaces (n : Z) : one_line (spaces n).
Proof.
  unfold spaces. induction (Z.to_nat n) as [|k IH]; simpl;
    constructor; [reflexivity|exact IH].
Qed.

Lemma numchar_not_nl (c : char) : numchar c = true -> not_nl c = true.
Proof.
  unfold not_nl, char_eqb. destruct (N.eqb_spec c NL) as [->|]; [|reflexivity].
  intros H. vm_compute in H. discriminate H.
Qed.

Lemma uint_digits_digits (d : Decimal.uint) :
  all_chars is_digit (uint_digits d).
Proof. induction d; simpl; constructor; auto. Qed.

Lemma int_repr_numchars (z : Z) : all_chars numchar (int_repr z).
Proof.
  unfold int_repr. destruct (Z.to_int z) as [d|d].
  - eapply all_chars_impl; [apply is_digit_numchar|apply uint_digits_digits].
  - constructor; [reflexivity|].
    eapply all_chars_impl; [apply is_digit_numchar|apply uint_digits_digits].
Qed.

Lemma hexdigit_not_nl (d : N) : not_nl (hexdigit d) = true.
Proof.
  unfold not_nl, char_eqb, hexdigit, NL.
  apply negb_true_iff, N.eqb_neq.
  destruct (d <? 10)%N; lia.
Qed.

Lemma u_escape_one_line (n : N) : one_line (u_escape n).
Proof.
  unfold u_escape. repeat constructor; apply hexdigit_not_nl.
Qed.

Lemma ESCAPE_DCT_one_line (c : char) (e : str) :
  ESCAPE_DCT c = Some e -> one_line e.
Proof.
  unfold ESCAPE_DCT.
  repeat match goal with
         | |- context [if ?b then _ else _] => destruct b
         end; intros H; inversion H; subst;
    try apply u_escape_one_line; repeat constructor.
Qed.

Lemma ESCAPE_DCT_None_not_nl (c : char) :
  ESCAPE_DCT c = None -> not_nl c = true.
Proof.
  unfold ESCAPE_DCT, not_nl.
  destruct (char_eqb c NL) eqn:E; [|reflexivity].
  apply char_eqb_eq in E. subst c. vm_compute. discriminate.
Qed.

Lemma escape_char_one_line (c : char) : one_line (escape_char c).
Proof.
  unfold escape_char. destruct (ESCAPE_DCT c) as [e|] eqn:E.
  - eapply ESCAPE_DCT_one_line; eassumption.
  - constructor; [apply ESCAPE_DCT_None_not_nl; exact E|constructor].
Qed.

Lemma escape_char_ascii_one_line (c : char) : one_line (escape_char_ascii c).
Proof.
  unfold escape_char_ascii.
  destruct (char_eqb c BACKSLASH || char_eqb c QUOTE || (c <? 32)%N
            || (126 <? c)%N) eqn:E.
  - destruct (ESCAPE_DCT c) as [e|] eqn:Ed.
    + eapply ESCAPE_DCT_one_line; eassumption.
    + destruct (c <? 65536)%N; [apply u_escape_one_line|].
      apply one_line_app. split; apply u_escape_one_line.
  - constructor; [|constructor]. unfold not_nl.
    destruct (char_eqb c NL) eqn:En; [|reflexivity].
    apply char_eqb_eq in En. subst c. vm_compute in E. discriminate E.
Qed.

Lemma one_line_flat_map (f : char -> str) (s : str) :
  (forall c, one_line (f c)) -> one_line (flat_map f s).
Proof.
  intros Hf. induction s as [|c s IH]; simpl; [constructor|].
  apply one_line_app. split; [apply Hf|exact IH].
Qed.

Lemma encode_basestring_one_line (s : str) : one_line (encode_basestring s).
Proof.
  unfold encode_basestring. constructor; [reflexivity|].
  apply one_line_app. split; [|repeat constructor].
  apply one_line_flat_map, escape_char_one_line.
Qed.

Lemma encode_basestring_ascii_one_line (s : str) :
  one_line (encode_basestring_ascii s).
Proof.
  unfold encode_basestring_ascii. constructor; [reflexivity|].
  apply one_line_app. split; [|repeat constructor].
  apply one_line_flat_map, escape_char_ascii_one_line.
Qed.

Lemma is_float_literal_numchars (r : str) :
  is_float_literal r = true -> all_chars numchar r.
Proof.
  unfold is_float_literal.
  destruct (match_number r) as [[[[i f] e] rest]|] eqn:E; [|discriminate].
  destruct rest; [|discriminate]. intros _.
  apply match_number_spec in E. destruct E as [Er Hc].
  rewrite Er. rewrite !app_nil_r in *. exact Hc.
Qed.

Lemma float_repr_ok_one_line (r : str) : float_repr_ok r = true -> one_line r.
Proof.
  unfold float_repr_ok. rewrite !orb_true_iff.
  intros [[[H|H]|H]|H].
  - apply str_eqb_eq in H. subst. repeat constructor.
  - apply str_eqb_eq in H. subst. repeat constructor.
  - apply str_eqb_eq in H. subst. repeat constructor.
  - eapply all_chars_impl; [apply numchar_not_nl|].
    apply is_float_literal_numchars. exact H.
Qed.

Lemma dump_prim_one_line (v : value) :
  _is_prim v = true -> well_formed v = true -> one_line (_dump_oneline v).
Proof.
  destruct v as [|[|]|z|r|s|l|d]; simpl; intros Hp Hwf; try discriminate.
  - repeat constructor.
  - repeat constructor.
  - repeat constructor.
  - eapply all_chars_impl; [apply numchar_not_nl|apply int_repr_numchars].
  - apply float_repr_ok_one_line. exact Hwf.
  - apply encode_basestring_one_line.
Qed.

(** ** The width-fit guarantee *)

(** The single-line rendering of an array of primitives *)
Definition inline_array_text (arr : list value) : str :=
  LBRACKET :: join COMMA_SP (map _dump_oneline arr) ++ [RBRACKET].

(** The statement of C7 at one call of [_format_value]. *)
Definition width_fit (level : Z) (parent_key : option str)
  (arr : list value) : Prop :=
  forallb _is_prim arr = true ->
  well_formed (VList arr) = true ->
  (len (inline_array_text arr) + level * indent default_config
   <= print_width default_config)%Z ->
  exists s,
    _format_value (VList arr) default_config level parent_key = Some s
    /\ _line_count s = 1%Z.

(** C7, the counterexample: the empty array is an array all of whose
    elements are primitives and its single-line rendering, of length 2,
    fits; it is rendered on three lines. *)
Lemma width_fit_fails_for_empty_array :
  _format_value (VList []) default_config 0 None
    = Some [LBRACKET; NL; NL; RBRACKET]
  /\ _line_count [LBRACKET; NL; NL; RBRACKET] = 3%Z
  /\ ~ width_fit 0 None [].
Proof.
  split; [reflexivity|]. split; [reflexivity|].
  intros H. destruct H as [s [Hs Hc]]; try reflexivity.
  - vm_compute. discriminate.
  - vm_compute in Hs. inversion Hs; subst. vm_compute in Hc. discriminate Hc.
Qed.

Lemma prims_one_line (arr : list value) :
  forallb _is_prim arr = true ->
  forallb well_formed arr = true ->
  Forall one_line (map _dump_oneline arr).
Proof.
  intros Hp Hwf. rewrite forallb_forall in Hp, Hwf.
  apply Forall_forall. intros s Hs. apply in_map_iff in Hs.
  destruct Hs as [v [<- Hv]]. apply dump_prim_one_line; auto.
Qed.

Lemma compact_list_of_prims (arr : list value) (cfg : FormatConfig)
  (level : Z) :
  forallb _is_prim arr = true ->
  allow_overflow_inline_arrays cfg = true ->
  _compact_list arr cfg level
  = Some (LBRACKET :: SP :: join COMMA_SP (map _dump_oneline arr)
            ++ [SP; RBRACKET]).
Proof.
  intros Hp Hov. unfold _compact_list. cbn [compact_list_value].
  rewrite (traverse_pure _dump_oneline).
  - rewrite Hov, orb_true_r. reflexivity.
  - rewrite forallb_forall in Hp. apply Forall_forall. intros el Hel.
    rewrite (Hp el Hel). reflexivity.
Qed.

Lemma homog_false_of_prim_head (first : value) (rest : list value)
  (cfg : FormatConfig) :
  _is_prim first = true ->
  _array_is_homog_small_objs (first :: rest) cfg = (false, []).
Proof.
  intros Hp. unfold _array_is_homog_small_objs.
  destruct (Z.of_nat (List.length (first :: rest))
              <? inline_homogeneous_min cfg)%Z; [reflexivity|].
  assert (E : is_dict first = false)
    by (destruct first; simpl in *; congruence).
  cbn [forallb]. rewrite E. reflexivity.
Qed.

(** C7, amended: under the default configuration, a non-empty array of
    primitives whose single-line rendering fits the width is rendered on
    exactly one line. *)
Theorem width_fit_nonempty (level : Z) (parent_key : option str)
  (arr : list value) :
  arr <> [] ->
  forallb _is_prim arr = true ->
  well_formed (VList arr) = true ->
  (len (inline_array_text arr) + level * indent default_config
   <= print_width default_config)%Z ->
  exists s,
    _format_value (VList arr) default_config level parent_key = Some s
    /\ _line_count s = 1%Z.
Proof.
  intros Hne Hp Hwf Hfit. cbn [well_formed] in Hwf.
  pose proof (prims_one_line arr Hp Hwf) as Hlines.
  assert (Hjoin : one_line (join COMMA_SP (map _dump_oneline arr))).
  { apply one_line_join; [repeat constructor|exact Hlines]. }
  cbn [_format_value].
  destruct (in_collapse_keys parent_key default_config) eqn:Hk.
  - unfold collapse_key_strategy.
    rewrite (compact_list_of_prims arr default_config level Hp eq_refl).
    eexists. split; [reflexivity|].
    apply one_line_count. constructor; [reflexivity|].
    constructor; [reflexivity|].
    apply one_line_app. split; [exact Hjoin|repeat constructor].
  - destruct arr as [|first rest]; [congruence|].
    assert (Hfirst : _is_prim first = true).
    { cbn [forallb] in Hp. apply andb_true_iff in Hp. apply Hp. }
    unfold homogeneous_strategy.
    rewrite (homog_false_of_prim_head first rest default_config Hfirst).
    cbn [inline_homogeneous_objects default_config].
    unfold prim_collapse_strategy. rewrite Hp.
    assert (Hone : one_line (inline_array_text (first :: rest))).
    { unfold inline_array_text. constructor; [reflexivity|].
      apply one_line_app. split; [exact Hjoin|repeat constructor]. }
    fold (inline_array_text (first :: rest)).
    rewrite (one_line_count _ Hone).
    unfold _fits_width.
    destruct (Z.leb_spec
                (len (inline_array_text (first :: rest))
                 + level * indent default_config)
                (print_width default_config)) as [_|Hgt]; [|lia].
    eexists. split; [reflexivity|]. apply one_line_count. exact Hone.
Qed.

Lemma width_fit_nonempty_witness :
  exists s,
    _format_value (VList [VInt 1; VStr (py "two"); VNone; VBool true])
      default_config 3 None = Some s
    /\ _line_count s = 1%Z.
Proof.
  apply (width_fit_nonempty 3 None
           [VInt 1; VStr (py "two"); VNone; VBool true]).
  - discriminate.
  - reflexivity.
  - reflexivity.
  - vm_compute. discriminate.
Defined.

(** ** The collapse-key strategy *)

Lemma member_text_one_line (k v : str) :
  one_line v -> one_line (member_text k v).
Proof.
  intros Hv. unfold member_text. apply one_line_app.
  split; [apply encode_basestring_ascii_one_line|].
  apply one_line_app. split; [repeat constructor|exact Hv].
Qed.

Lemma compact_object_one_line (d : dict) (cfg : FormatConfig) (s : str) :
  forallb (fun kv => well_formed (snd kv)) d = true ->
  _compact_object d cfg = Some s -> one_line s.
Proof.
  intros Hwf. unfold _compact_object.
  destruct (forallb (fun v => _is_small_prim v cfg) (values d)) eqn:Hsm;
    [|discriminate].
  intros H; inversion H; subst; clear H.
  constructor; [reflexivity|]. constructor; [reflexivity|].
  apply one_line_app. split; [|repeat constructor].
  apply one_line_join; [repeat constructor|].
  apply Forall_forall. intros t Ht. apply in_map_iff in Ht.
  destruct Ht as [kv [<- Hkv]]. apply member_text_one_line.
  rewrite forallb_forall in Hwf, Hsm.
  apply dump_prim_one_line; [|apply Hwf; exact Hkv].
  assert (Hs : _is_small_prim (snd kv) cfg = true).
  { apply Hsm. unfold values. apply in_map. exact Hkv. }
  unfold _is_small_prim in Hs.
  destruct (_is_prim (snd kv)); [reflexivity|discriminate].
Qed.

Lemma compact_list_value_one_line (val : value) :
  forall (cfg : FormatConfig) (level : Z) (s : str),
  well_formed val = true ->
  compact_list_value val cfg level = Some s -> one_line s.
Proof.
  induction val as [|b|z|r|s0|lst IH|items IH] using value_nested_ind;
    intros cfg level s Hwf; try discriminate.
  cbn [compact_list_value].
  match goal with |- context [traverse ?f lst] =>
    destruct (traverse f lst) as [parts|] eqn:Hparts end; [|discriminate].
  destruct (_fits_width _ cfg level || allow_overflow_inline_arrays cfg);
    [|discriminate].
  intros H; inversion H; subst; clear H.
  constructor; [reflexivity|]. constructor; [reflexivity|].
  apply one_line_app. split; [|repeat constructor].
  apply one_line_join; [repeat constructor|].
  apply traverse_Forall2 in Hparts.
  cbn [well_formed] in Hwf. rewrite forallb_forall in Hwf.
  rewrite Forall_forall in IH.
  clear -Hparts Hwf IH.
  induction Hparts as [|el p lst parts Hel _ IHp]; constructor.
  - assert (Hw : well_formed el = true) by (apply Hwf; left; reflexivity).
    destruct (_is_prim el) eqn:Hp.
    + inversion Hel; subst. apply dump_prim_one_line; assumption.
    + destruct el as [| | | | |l|d]; try discriminate.
      * eapply (IH (VList l)); [left; reflexivity|exact Hw|exact Hel].
      * cbn [well_formed] in Hw. apply andb_true_iff in Hw.
        eapply compact_object_one_line; [exact (proj2 Hw)|exact Hel].
  - apply IHp.
    + intros x Hx. apply IH. right. exact Hx.
    + intros x Hx. apply Hwf. right. exact Hx.
Qed.

Lemma elem_string_one_line (cfg : FormatConfig) (level : Z) (el : value)
  (s : str) :
  well_formed el = true -> elem_string cfg level el = Some s -> one_line s.
Proof.
  intros Hwf. unfold elem_string.
  destruct (_is_prim el) eqn:Hp.
  - intros H; inversion H; subst. apply dump_prim_one_line; assumption.
  - destruct el as [| | | | |l|d]; try discriminate.
    + apply compact_list_value_one_line. exact Hwf.
    + cbn [well_formed] in Hwf. apply andb_true_iff in Hwf.
      apply compact_object_one_line. exact (proj2 Hwf).
Qed.

(** The elements of a nested array are compacted by the same rule as the
    elements of the array itself. *)
Lemma compact_list_nested (l : list value) (cfg : FormatConfig) (level : Z) :
  _compact_list l cfg (level + 1)
  = match traverse (elem_string cfg level) l with
    | None => None
    | Some parts =>
        let one := LBRACKET :: SP :: join COMMA_SP parts ++ [SP; RBRACKET] in
        if _fits_width one cfg (level + 1) || allow_overflow_inline_arrays cfg
        then Some one
        else None
    end.
Proof.
  unfold _compact_list. cbn [compact_list_value].
  match goal with |- context [traverse ?f l] =>
    rewrite (traverse_ext f (elem_string cfg level) l) end; [reflexivity|].
  apply Forall_forall. intros el _. unfold elem_string.
  destruct el; reflexivity.
Qed.

(** The layout of the fallback: one text per line, indented one level. *)
Definition one_per_line (cfg : FormatConfig) (level : Z) (texts : list str)
  : str :=
  block LBRACKET
    (map (fun s => spaces (indent cfg * (level + 1)) ++ s) texts)
    (spaces (indent cfg * level)) RBRACKET.


Definition tight_config : FormatConfig :=
  {| indent := 2; print_width := 40; array_wrap := COLLAPSE;
     object_wrap := COLLAPSE; aggressive_inline := true;
     long_block_threshold := 20; eol := [NL];
     array_collapse_keys := [py "drops"];
     inline_homogeneous_objects := false; inline_homogeneous_min := 3;
     inline_string_max := 120; allow_overflow_inline_arrays := false |}.

Definition mixed_drops : list value :=
  [id_qty "a" 1; VList [VInt 1; VInt 2]; VStr (py "bone"); id_qty "b" 2].


(** ** Comment stripping and quoted text inside a comment *)

(** A line comment that holds a quoted word, between two array elements. *)
Definition quoted_comment_input : str :=
  pyq "[1, // 'x'," ++ NL :: pyq " 2]".

(** C3, at the failing input: [_STRING_RE] matches the quoted word inside
    the comment, so only the two slashes and the space before it are
    removed; the word and the comma after it reach the decoder, which
    returns an array of three elements. *)
Theorem strip_comments_keeps_quoted_comment_text :
  _strip_comments quoted_comment_input = pyq "[1, 'x'," ++ NL :: pyq " 2]"
  /\ forall float_text,
       parse_json_lenient float_text quoted_comment_input
       = Value (VList [VInt 1; VStr (py "x"); VInt 2]).
Proof. split; [reflexivity|]. intros float_text. reflexivity. Qed.

(** A block comment that holds a quoted word is not removed at all: its
    opening and its closing fall into different gaps. *)
Lemma strip_comments_keeps_quoted_block_comment :
  _strip_comments (pyq "[1 /* 'x' */]") = pyq "[1 /* 'x' */]".
Proof. reflexivity. Qed.

(** A comment without a double quote is removed, and a string that looks
    like a comment is kept. *)
Lemma strip_comments_examples :
  _strip_comments (pyq "{'a': '// no', /* c */ 'b': 1} // end")
  = pyq "{'a': '// no',  'b': 1} ".
Proof. reflexivity. Qed.

(** ** The decoder always finishes *)

Lemma with_char_ok (c : char) (r : result (str * str)) (k rest : str) :
  with_char c r = Ok (k, rest) ->
  exists k', r = Ok (k', rest) /\ k = c :: k'.
Proof.
  destruct r as [[k' rest']| |]; simpl; try discriminate.
  intros H; inversion H; subst. eauto.
Qed.

Lemma with_char_finishes (c : char) (r : result (str * str)) :
  r <> NoFuel -> with_char c r <> NoFuel.
Proof. destruct r as [[k rest]| |]; simpl; congruence. Qed.

Lemma with_head_ok {A : Type} (x : A) (r : result (list A * str))
  (xs : list A) (rest : str) :
  with_head x r = Ok (xs, rest) ->
  exists xs', r = Ok (xs', rest) /\ xs = x :: xs'.
Proof.
  destruct r as [[xs' rest']| |]; simpl; try discriminate.
  intros H; inversion H; subst. eauto.
Qed.

Lemma with_head_finishes {A : Type} (x : A) (r : result (list A * str)) :
  r <> NoFuel -> with_head x r <> NoFuel.
Proof. destruct r as [[xs rest]| |]; simpl; congruence. Qed.

Lemma skip_ws_length (s : str) : List.length (skip_ws s) <= List.length s.
Proof.
  induction s as [|c tl IH]; simpl; [lia|].
  destruct (is_ws c); simpl; lia.
Qed.

Ltac split_matches H :=
  repeat (match type of H with
          | context [if ?b then _ else _] => destruct b eqn:?
          | context [match ?x with _ => _ end] => destruct x eqn:?
          end; try discriminate H).

Lemma scanstring_finishes (s : str) (begin : nat) :
  scanstring s begin <> NoFuel.
Proof.
  assert (H : forall n s, List.length s <= n -> scanstring s begin <> NoFuel).
  { induction n as [|n IH]; intros s0 Hn.
    - destruct s0; [discriminate|simpl in Hn; lia].
    - destruct s0 as [|c tl]; cbn [scanstring]; [discriminate|].
      repeat match goal with
             | |- context [if ?b then _ else _] => destruct b eqn:?
             | |- context [match ?x with _ => _ end] => destruct x eqn:?
             end; try discriminate;
        apply with_char_finishes; apply IH; subst; simpl in *; lia. }
  apply (H (List.length s)). lia.
Qed.

Lemma scanstring_shorter (s : str) (begin : nat) (k rest : str) :
  scanstring s begin = Ok (k, rest) -> List.length rest < List.length s.
Proof.
  assert (H : forall n s k rest, List.length s <= n ->
                scanstring s begin = Ok (k, rest) ->
                List.length rest < List.length s).
  { induction n as [|n IH]; intros s0 k0 rest0 Hn H.
    - destruct s0; [discriminate|simpl in Hn; lia].
    - destruct s0 as [|c tl]; cbn [scanstring] in H; [discriminate|].
      split_matches H;
        try (inversion H; subst; simpl; lia);
        apply with_char_ok in H; destruct H as [k' [H _]];
        apply IH in H; subst; simpl in *; lia. }
  apply (H (List.length s)). lia.
Qed.

Lemma match_integer_nonempty (s integer rest : str) :
  match_integer s = Some (integer, rest) -> integer <> [].
Proof.
  unfold match_integer.
  destruct s as [|c tl]; [discriminate|].
  destruct (char_eqb c MINUS).
  - destruct tl as [|d tl']; [discriminate|].
    destruct (char_eqb d 48%N); [intros H; inversion H; discriminate|].
    destruct (is_digit d); [|discriminate].
    destruct (span_digits tl'). intros H; inversion H; discriminate.
  - destruct (char_eqb c 48%N); [intros H; inversion H; discriminate|].
    destruct (is_digit c); [|discriminate].
    destruct (span_digits tl). intros H; inversion H; discriminate.
Qed.

Lemma match_number_shorter (s integer frac exp rest : str) :
  match_number s = Some (integer, frac, exp, rest) ->
  List.length rest < List.length s.
Proof.
  intros H. pose proof (match_number_spec _ _ _ _ _ H) as [E _].
  assert (Hi : integer <> []).
  { unfold match_number in H.
    destruct (match_integer s) as [[i s1]|] eqn:Ei; [|discriminate].
    destruct (match_frac s1) as [f0 s2]. destruct (match_exp s2) as [e0 s3].
    inversion H; subst. eapply match_integer_nonempty; eassumption. }
  rewrite E. rewrite !length_app.
  destruct integer; [congruence|simpl; lia].
Qed.

Definition finishes {A : Type} (r : result (A * str)) (s : str) : Prop :=
  r <> NoFuel
  /\ forall a rest, r = Ok (a, rest) -> List.length rest < List.length s.

Lemma finishes_fail {A : Type} (m : str) (n : nat) (s : str) :
  finishes (@Fail (A * str) m n) s.
Proof. split; [discriminate|intros a rest H; discriminate H]. Qed.

Lemma finishes_ok {A : Type} (a : A) (rest s : str) :
  List.length rest < List.length s -> finishes (Ok (a, rest)) s.
Proof.
  intros Hl. split; [discriminate|].
  intros a' rest' H; inversion H; subst. exact Hl.
Qed.

Lemma finishes_longer {A : Type} (r : result (A * str)) (s s' : str) :
  finishes r s -> List.length s <= List.length s' -> finishes r s'.
Proof.
  intros [Hn Hr] Hl. split; [exact Hn|].
  intros a rest H. specialize (Hr a rest H). lia.
Qed.

Lemma finishes_with_head {A : Type} (x : A) (r : result (list A * str))
  (s : str) :
  finishes r s -> finishes (with_head x r) s.
Proof.
  intros [Hn Hr]. split; [apply with_head_finishes; exact Hn|].
  intros xs rest H. apply with_head_ok in H. destruct H as [xs' [H _]].
  eapply Hr. exact H.
Qed.

Section DecoderFinishes.

Variable float_text : str -> str.

Lemma decoder_finishes (fuel : nat) :
  (forall s, 3 * List.length s + 1 <= fuel ->
             finishes (scan_once float_text fuel s) s)
  /\ (forall s, 3 * List.length s + 3 <= fuel ->
                finishes (JSONArray float_text fuel s) (LBRACKET :: s))
  /\ (forall s, 3 * List.length s + 2 <= fuel ->
                finishes (array_items float_text fuel s) (SP :: s))
  /\ (forall s, 3 * List.length s + 3 <= fuel ->
                finishes (JSONObject float_text fuel s) (LBRACE :: s))
  /\ (forall s b, 3 * List.length s + 2 <= fuel ->
                  finishes (object_members float_text fuel s b) (SP :: s)).
Proof.
  induction fuel as [|f [IHscan [IHarr [IHitems [IHobj IHmem]]]]].
  { repeat split; intros; lia || discriminate. }
  repeat apply conj.
  - (* scan_once *)
    intros s Hf. cbn [scan_once].
    destruct s as [|c tl]; [apply finishes_fail|].
    cbn [List.length] in Hf.
    destruct (char_eqb c QUOTE).
    { destruct (scanstring tl (List.length (c :: tl)))
        as [[k rest]| |] eqn:E.
      - apply finishes_ok. apply scanstring_shorter in E. simpl. lia.
      - apply finishes_fail.
      - exfalso. eapply scanstring_finishes; eassumption. }
    destruct (char_eqb c LBRACE).
    { eapply finishes_longer; [apply IHobj; lia|simpl; lia]. }
    destruct (char_eqb c LBRACKET).
    { eapply finishes_longer; [apply IHarr; lia|simpl; lia]. }
    destruct (starts_with NULL_S (c :: tl)).
    { apply finishes_ok. rewrite length_skipn. cbn [List.length]. lia. }
    destruct (starts_with TRUE_S (c :: tl)).
    { apply finishes_ok. rewrite length_skipn. cbn [List.length]. lia. }
    destruct (starts_with FALSE_S (c :: tl)).
    { apply finishes_ok. rewrite length_skipn. cbn [List.length]. lia. }
    destruct (match_number (c :: tl)) as [[[[i fr] e] rest]|] eqn:E.
    { apply match_number_shorter in E.
      destruct fr; destruct e; apply finishes_ok; exact E. }
    destruct (starts_with NAN_S (c :: tl)).
    { apply finishes_ok. rewrite length_skipn. cbn [List.length]. lia. }
    destruct (starts_with INF_S (c :: tl)).
    { apply finishes_ok. rewrite length_skipn. cbn [List.length]. lia. }
    destruct (starts_with NEG_INF_S (c :: tl)).
    { apply finishes_ok. rewrite length_skipn. cbn [List.length]. lia. }
    apply finishes_fail.
  - (* JSONArray *)
    intros s Hf. cbn [JSONArray].
    pose proof (skip_ws_length s) as Hws.
    destruct (skip_ws s) as [|c rest] eqn:Es; [apply finishes_fail|].
    destruct (char_eqb c RBRACKET).
    { apply finishes_ok. simpl in *. lia. }
    destruct (IHitems (c :: rest)) as [Hn Hr]; [simpl in *; lia|].
    destruct (array_items float_text f (c :: rest)) as [[vs rest']| |] eqn:E.
    + apply finishes_ok. specialize (Hr vs rest' eq_refl). simpl in *. lia.
    + apply finishes_fail.
    + congruence.
  - (* array_items *)
    intros s Hf. cbn [array_items].
    destruct (IHscan s) as [Hn Hr]; [lia|].
    destruct (scan_once float_text f s) as [[v s1]| |] eqn:E;
      [|apply finishes_fail|congruence].
    specialize (Hr v s1 eq_refl).
    pose proof (skip_ws_length s1) as Hws.
    destruct (skip_ws s1) as [|c s3] eqn:Es; [apply finishes_fail|].
    destruct (char_eqb c RBRACKET).
    { apply finishes_ok. simpl in *. lia. }
    destruct (char_eqb c COMMA); [|apply finishes_fail].
    apply finishes_with_head.
    pose proof (skip_ws_length s3) as Hws3.
    eapply finishes_longer; [apply IHitems; simpl in *; lia|].
    simpl in *. lia.
  - (* JSONObject *)
    intros s Hf. cbn [JSONObject].
    pose proof (skip_ws_length s) as Hws.
    destruct (skip_ws s) as [|c rest] eqn:Es; [apply finishes_fail|].
    destruct (char_eqb c RBRACE).
    { apply finishes_ok. simpl in *. lia. }
    destruct (char_eqb c QUOTE); [|apply finishes_fail].
    destruct (IHmem rest (List.length (c :: rest))) as [Hn Hr];
      [simpl in *; lia|].
    destruct (object_members float_text f rest (List.length (c :: rest)))
      as [[ps rest']| |] eqn:E.
    + apply finishes_ok. specialize (Hr ps rest' eq_refl). simpl in *. lia.
    + apply finishes_fail.
    + congruence.
  - (* object_members *)
    intros s b Hf. cbn [object_members].
    destruct (scanstring s b) as [[key s1]| |] eqn:Ek;
      [|apply finishes_fail|exfalso; eapply scanstring_finishes; eassumption].
    apply scanstring_shorter in Ek.
    pose proof (skip_ws_length s1) as Hws1.
    destruct (skip_ws s1) as [|c s3] eqn:Es1; [apply finishes_fail|].
    destruct (char_eqb c COLON); [|apply finishes_fail].
    pose proof (skip_ws_length s3) as Hws3.
    destruct (IHscan (skip_ws s3)) as [Hn Hr]; [simpl in *; lia|].
    destruct (scan_once float_text f (skip_ws s3)) as [[v s5]| |] eqn:E;
      [|apply finishes_fail|congruence].
    specialize (Hr v s5 eq_refl).
    pose proof (skip_ws_length s5) as Hws5.
    destruct (skip_ws s5) as [|d s7] eqn:Es5; [apply finishes_fail|].
    destruct (char_eqb d RBRACE).
    { apply finishes_ok. simpl in *. lia. }
    destruct (char_eqb d COMMA); [|apply finishes_fail].
    pose proof (skip_ws_length s7) as Hws7.
    destruct (skip_ws s7) as [|q s9] eqn:Es7; [apply finishes_fail|].
    destruct (char_eqb q QUOTE); [|apply finishes_fail].
    apply finishes_with_head.
    eapply finishes_longer; [apply IHmem; simpl in *; lia|].
    simpl in *. lia.
Qed.

(** [json.loads] returns a value or raises a [JSONDecodeError]. *)
Lemma loads_finishes (s : str) : loads float_text s <> Unfinished.
Proof.
  unfold loads.
  destruct (starts_with [65279%N] s); [discriminate|].
  destruct (decoder_finishes (3 * List.length s + 1)) as [Hscan _].
  destruct (Hscan (skip_ws s)) as [Hn _].
  - pose proof (skip_ws_length s). lia.
  - destruct (scan_once float_text (3 * List.length s + 1) (skip_ws s))
      as [[obj rest]| |]; [|discriminate|congruence].
    destruct (skip_ws rest); discriminate.
Qed.

End DecoderFinishes.

(** ** Positions of decoding errors *)

(** The character of [doc] that stands at a line and a column, both counted
    from 1; [cur_line] and [cur_col] are the coordinates of the head. *)
Fixpoint char_at_from (doc : str) (cur_line cur_col line col : Z)
  : option char :=
  match doc with
  | [] => None
  | c :: tl =>
      if ((cur_line =? line) && (cur_col =? col))%Z then Some c
      else if char_eqb c NL then char_at_from tl (cur_line + 1) 1 line col
      else char_at_from tl cur_line (cur_col + 1) line col
  end.

Definition char_at (doc : str) (line col : Z) : option char :=
  char_at_from doc 1 1 line col.

(** The coordinates of the position [p] of [doc], those of the head being
    [line] and [col]. *)
Fixpoint line_col (doc : str) (p : nat) (line col : Z) : Z * Z :=
  match p, doc with
  | S p', c :: tl =>
      if char_eqb c NL then line_col tl p' (line + 1) 1
      else line_col tl p' line (col + 1)
  | _, _ => (line, col)
  end.

Lemma line_col_lineno (doc : str) (p : nat) (line col : Z) :
  fst (line_col doc p line col) = (count_nl (firstn p doc) + line)%Z.
Proof.
  revert doc line col. induction p as [|p IH]; intros doc line col.
  - destruct doc; reflexivity.
  - destruct doc as [|c tl]; [reflexivity|].
    cbn [line_col firstn]. unfold count_nl. cbn [filter].
    replace (char_eqb NL c) with (char_eqb c NL) by apply N.eqb_sym.
    destruct (char_eqb c NL).
    + rewrite IH. unfold count_nl. cbn [List.length]. lia.
    + rewrite IH. unfold count_nl. lia.
Qed.

Lemma line_col_colno (doc : str) (p : nat) (line i found : Z) :
  p <= List.length doc ->
  snd (line_col doc p line (i - found))
  = (i + Z.of_nat p - rfind_nl doc p i found)%Z.
Proof.
  revert doc line i found. induction p as [|p IH]; intros doc line i found Hp.
  - destruct doc; simpl; lia.
  - destruct doc as [|c tl]; [simpl in Hp; lia|].
    cbn [List.length] in Hp.
    cbn [line_col rfind_nl]. destruct (char_eqb c NL).
    + pose proof (IH tl (line + 1)%Z (i + 1)%Z i) as H.
      replace (i + 1 - i)%Z with 1%Z in H by lia.
      rewrite H by lia. lia.
    + pose proof (IH tl line (i + 1)%Z found) as H.
      replace (i + 1 - found)%Z with (i - found + 1)%Z in H by lia.
      rewrite H by lia. lia.
Qed.

Lemma decode_error_line_col (m doc : str) (p : nat) :
  p <= List.length doc ->
  (lineno (decode_error m doc p), colno (decode_error m doc p))
  = line_col doc p 1 1.
Proof.
  intros Hp. unfold decode_error. cbn [lineno colno].
  pose proof (line_col_lineno doc p 1 1) as Hl.
  pose proof (line_col_colno doc p 1 0 (-1) Hp) as Hc.
  replace (0 - -1)%Z with 1%Z in Hc by lia.
  destruct (line_col doc p 1 1) as [l c]. simpl in *.
  f_equal; lia.
Qed.

Lemma line_col_after (doc : str) (p : nat) (line col : Z) :
  (line < fst (line_col doc p line col))%Z
  \/ (line = fst (line_col doc p line col)
      /\ col <= snd (line_col doc p line col))%Z.
Proof.
  revert doc line col. induction p as [|p IH]; intros doc line col.
  - destruct doc; right; simpl; lia.
  - destruct doc as [|c tl]; [right; simpl; lia|].
    cbn [line_col]. destruct (char_eqb c NL).
    + destruct (IH tl (line + 1)%Z 1%Z) as [H|[H _]]; left; lia.
    + destruct (IH tl line (col + 1)%Z) as [H|[H1 H2]]; [left|right]; lia.
Qed.

Lemma char_at_line_col (doc : str) (p : nat) (line col : Z) :
  char_at_from doc line col (fst (line_col doc p line col))
    (snd (line_col doc p line col))
  = nth_error doc p.
Proof.
  revert doc line col. induction p as [|p IH]; intros doc line col.
  - destruct doc as [|c tl]; [reflexivity|].
    cbn [line_col fst snd char_at_from nth_error].
    rewrite !Z.eqb_refl. reflexivity.
  - destruct doc as [|c tl]; [reflexivity|].
    cbn [line_col char_at_from nth_error].
    destruct (char_eqb c NL).
    + pose proof (line_col_after tl p (line + 1) 1) as Ha.
      destruct (Z.eqb_spec line (fst (line_col tl p (line + 1) 1)));
        [lia|]. cbn [andb]. apply IH.
    + pose proof (line_col_after tl p line (col + 1)) as Ha.
      destruct (Z.eqb_spec line (fst (line_col tl p line (col + 1))));
        [|cbn [andb]; apply IH].
      destruct (Z.eqb_spec col (snd (line_col tl p line (col + 1))));
        [lia|]. cbn [andb]. apply IH.
Qed.

(** The line and the column of a [JSONDecodeError] designate, in the
    document given to the decoder, the character at its position. *)
Lemma decode_error_points_at (m doc : str) (p : nat) :
  p <= List.length doc ->
  char_at doc (lineno (decode_error m doc p)) (colno (decode_error m doc p))
  = nth_error doc p.
Proof.
  intros Hp. pose proof (decode_error_line_col m doc p Hp) as H.
  unfold char_at.
  replace (lineno (decode_error m doc p)) with (fst (line_col doc p 1 1))
    by (rewrite <- H; reflexivity).
  replace (colno (decode_error m doc p)) with (snd (line_col doc p 1 1))
    by (rewrite <- H; reflexivity).
  apply char_at_line_col.
Qed.

Lemma line_col_col_from_one (doc : str) (p : nat) (line col : Z) :
  (1 <= col)%Z -> (1 <= snd (line_col doc p line col))%Z.
Proof.
  revert doc line col. induction p as [|p IH]; intros doc line col Hc.
  - destruct doc; simpl; lia.
  - destruct doc as [|c tl]; [simpl; lia|].
    cbn [line_col]. destruct (char_eqb c NL); apply IH; lia.
Qed.

Lemma decode_error_from_one (m doc : str) (p : nat) :
  p <= List.length doc ->
  (1 <= lineno (decode_error m doc p))%Z
  /\ (1 <= colno (decode_error m doc p))%Z.
Proof.
  intros Hp. pose proof (decode_error_line_col m doc p Hp) as H.
  pose proof (line_col_after doc p 1 1) as Ha.
  pose proof (line_col_col_from_one doc p 1 1) as Hc.
  replace (lineno (decode_error m doc p)) with (fst (line_col doc p 1 1))
    by (rewrite <- H; reflexivity).
  replace (colno (decode_error m doc p)) with (snd (line_col doc p 1 1))
    by (rewrite <- H; reflexivity).
  lia.
Qed.

(** ** Parse failures *)

(** The text that [parse_json_lenient] hands to the strict decoder. *)
Definition cleaned (text : str) : str :=
  _strip_trailing_commas (_strip_comments text).

(** The statement of C9 about the position, read in the input: at the
    reported line and column the input holds the character at which the
    decoder stopped. *)
Definition points_into_input (text : str) (e : JSONDecodeError) : Prop :=
  char_at text (lineno e) (colno e) = nth_error (cleaned text) (pos e).

Definition missing_comma : str := pyq "{'a':1 'b':2}".

Section ParseFailures.

Variable float_text : str -> str.

Lemma loads_error (s : str) (e : JSONDecodeError) :
  loads float_text s = DecodeError e ->
  exists m p, e = decode_error m s p /\ p <= List.length s.
Proof.
  unfold loads.
  destruct (starts_with [65279%N] s).
  { intros H; inversion H. exists UNEXPECTED_BOM, 0. split; [reflexivity|lia]. }
  destruct (scan_once float_text (3 * List.length s + 1) (skip_ws s))
    as [[obj rest]|m n|]; [| |discriminate].
  - destruct (skip_ws rest) as [|c extra]; [discriminate|].
    intros H; inversion H. eexists _, _. split; [reflexivity|lia].
  - intros H; inversion H. eexists _, _. split; [reflexivity|lia].
Qed.

(** C9, the example of the claim: the missing comma is reported at line 1,
    column 8, where the second key starts. *)
Lemma missing_comma_reported :
  parse_json_lenient float_text missing_comma
  = DecodeError {| msg := EXPECTING_COMMA; pos := 7;
                   lineno := 1; colno := 8 |}
  /\ char_at missing_comma 1 8 = Some QUOTE.
Proof. split; reflexivity. Qed.


End ParseFailures.

(** A conversion of float literals for closed examples: the float is
    represented by its literal.  The examples that use it hold for every
    conversion. *)
Definition literal_float_text (lit : str) : str := lit.


(** ** Reading back what the encoder prints: numbers *)

(** The characters that may follow a value in a document *)
Definition delimiter (c : char) : bool :=
  is_ws c || char_eqb c COMMA || char_eqb c RBRACKET || char_eqb c RBRACE.

Definition follow_ok (rest : str) : Prop :=
  match rest with
  | [] => True
  | c :: _ => delimiter c = true
  end.

Lemma follow_ok_no_digit (rest : str) : follow_ok rest -> no_digit_ahead rest.
Proof.
  destruct rest as [|c tl]; simpl; [trivial|].
  unfold delimiter, is_ws, is_digit, char_eqb.
  intros H. destruct (N.leb_spec 48 c); [|reflexivity].
  destruct (N.leb_spec c 57); [|reflexivity].
  exfalso. rewrite !orb_true_iff in H. rewrite !N.eqb_eq in H.
  unfold SP, NL, COMMA, RBRACKET, RBRACE in H. lia.
Qed.

Lemma match_frac_follow (rest : str) :
  follow_ok rest -> match_frac rest = ([], rest).
Proof.
  destruct rest as [|c tl]; [reflexivity|]. simpl follow_ok. intros H.
  unfold match_frac. destruct (char_eqb c 46%N) eqn:E; [|reflexivity].
  apply char_eqb_eq in E. subst c. vm_compute in H. discriminate H.
Qed.

Lemma match_exp_follow (rest : str) :
  follow_ok rest -> match_exp rest = ([], rest).
Proof.
  destruct rest as [|c tl]; [reflexivity|]. simpl follow_ok. intros H.
  unfold match_exp.
  destruct (char_eqb c 101%N || char_eqb c 69%N) eqn:E; [|reflexivity].
  apply orb_true_iff in E. destruct E as [E|E];
    apply char_eqb_eq in E; subst c; vm_compute in H; discriminate H.
Qed.

Definition int_step (acc : N) (c : char) : N := (acc * 10 + digit_value c)%N.

Lemma fold_uint_acc (d : Decimal.uint) (acc : positive) :
  fold_left int_step (uint_digits d) (N.pos acc)
  = N.pos (Pos.of_uint_acc d acc).
Proof.
  revert acc. induction d; intros acc; cbn [uint_digits fold_left Pos.of_uint_acc];
    [reflexivity|..];
    match goal with
    | |- fold_left _ _ ?x = N.pos (Pos.of_uint_acc _ ?y) =>
        replace x with (N.pos y)
          by (unfold int_step, digit_value; lia)
    end; apply IHd.
Qed.

Lemma fold_uint (d : Decimal.uint) :
  fold_left int_step (uint_digits d) 0%N = Pos.of_uint d.
Proof.
  induction d; cbn [uint_digits fold_left Pos.of_uint];
    [reflexivity|exact IHd|..];
    match goal with
    | |- fold_left _ _ ?x = N.pos (Pos.of_uint_acc _ ?y) =>
        replace x with (N.pos y) by reflexivity
    end; apply fold_uint_acc.
Qed.

Lemma int_of_digits_uint (d : Decimal.uint) :
  int_of_digits (uint_digits d) = Z.of_N (Pos.of_uint d).
Proof.
  unfold int_of_digits. f_equal. apply fold_uint.
Qed.

(** The digits of a positive number start with a digit other than zero. *)
Lemma pos_to_uint_head (p : positive) :
  exists d ds,
    uint_digits (Pos.to_uint p) = d :: ds
    /\ is_digit d = true /\ char_eqb d 48%N = false
    /\ char_eqb d MINUS = false
    /\ all_chars is_digit ds.
Proof.
  assert (Hn : Decimal.unorm (Pos.to_uint p) = Pos.to_uint p).
  { rewrite <- DecimalPos.Unsigned.to_of.
    rewrite DecimalPos.Unsigned.of_to. reflexivity. }
  pose proof (DecimalPos.Unsigned.to_uint_nonnil p) as Hnil.
  pose proof (uint_digits_digits (Pos.to_uint p)) as Hd.
  pose proof (DecimalPos.Unsigned.to_uint_nonzero p) as Hzero.
  destruct (Pos.to_uint p) as [|u|u|u|u|u|u|u|u|u|u] eqn:E;
    [congruence| |..];
    try (cbn [uint_digits] in *; inversion Hd; subst;
         eexists _, _; repeat split; try reflexivity; assumption).
  exfalso. rewrite DecimalFacts.unorm_D0 in Hn.
  destruct u as [|u|u|u|u|u|u|u|u|u|u]; [apply Hzero; reflexivity|..];
    match goal with
    | _ : Decimal.unorm ?v = _ |- _ =>
        pose proof (DecimalFacts.nb_digits_unorm v) as Hlen;
        rewrite Hn in Hlen; cbn [Decimal.nb_digits] in Hlen;
        assert (v <> Decimal.Nil) as Hv by discriminate;
        specialize (Hlen Hv); lia
    end.
Qed.

Lemma parse_int_int_repr (z : Z) : parse_int (int_repr z) = z.
Proof.
  unfold int_repr, parse_int. destruct z as [|p|p]; cbn [Z.to_int].
  - reflexivity.
  - destruct (pos_to_uint_head p) as [d [ds [E [_ [_ [Hm _]]]]]].
    rewrite E, Hm, <- E. rewrite int_of_digits_uint.
    rewrite DecimalPos.Unsigned.of_to. reflexivity.
  - cbn [uint_digits]. rewrite char_eqb_refl.
    rewrite int_of_digits_uint, DecimalPos.Unsigned.of_to. reflexivity.
Qed.

Lemma match_integer_int_repr (z : Z) (rest : str) :
  no_digit_ahead rest ->
  match_integer (int_repr z ++ rest) = Some (int_repr z, rest).
Proof.
  intros Hrest. unfold int_repr, match_integer.
  destruct z as [|p|p]; cbn [Z.to_int].
  - reflexivity.
  - destruct (pos_to_uint_head p) as [d [ds [E [Hd [H0 [Hm Hds]]]]]].
    rewrite E. cbn [app]. rewrite Hm, H0, Hd.
    rewrite (span_digits_app ds rest Hds Hrest). reflexivity.
  - destruct (pos_to_uint_head p) as [d [ds [E [Hd [H0 [Hm Hds]]]]]].
    rewrite E. cbn [app]. rewrite char_eqb_refl. rewrite H0, Hd.
    rewrite (span_digits_app ds rest Hds Hrest). reflexivity.
Qed.

Lemma match_number_int_repr (z : Z) (rest : str) :
  follow_ok rest ->
  match_number (int_repr z ++ rest) = Some (int_repr z, [], [], rest).
Proof.
  intros Hrest. unfold match_number.
  rewrite (match_integer_int_repr z rest (follow_ok_no_digit rest Hrest)).
  rewrite (match_frac_follow rest Hrest), (match_exp_follow rest Hrest).
  reflexivity.
Qed.

(** *** The number scanner on a longer or a shorter text *)

Definition no_dot_ahead (s : str) : Prop :=
  match s with
  | [] => True
  | c :: _ => char_eqb c 46%N = false
  end.

(** The head of [s], if any, is not a character of a number. *)
Definition plain_ahead (s : str) : Prop :=
  match s with
  | [] => True
  | c :: _ => numchar c = false
  end.

Lemma follow_ok_plain (rest : str) : follow_ok rest -> plain_ahead rest.
Proof.
  destruct rest as [|c tl]; simpl; [trivial|].
  unfold delimiter, is_ws, numchar, is_digit, char_eqb.
  intros H. rewrite !orb_true_iff in H. rewrite !N.eqb_eq in H.
  unfold SP, NL, COMMA, RBRACKET, RBRACE in H.
  rewrite !orb_false_iff, andb_false_iff, !N.eqb_neq, !N.leb_gt.
  unfold MINUS. lia.
Qed.

Lemma plain_ahead_no_digit (s : str) : plain_ahead s -> no_digit_ahead s.
Proof.
  destruct s as [|c tl]; simpl; [trivial|]. unfold numchar.
  rewrite !orb_false_iff. tauto.
Qed.

Lemma plain_ahead_no_dot (s : str) : plain_ahead s -> no_dot_ahead s.
Proof.
  destruct s as [|c tl]; simpl; [trivial|]. unfold numchar.
  rewrite !orb_false_iff. tauto.
Qed.

Lemma span_digits_extend (s rest : str) :
  snd (span_digits s) <> [] \/ no_digit_ahead rest ->
  span_digits (s ++ rest)
  = (fst (span_digits s), snd (span_digits s) ++ rest).
Proof.
  induction s as [|c tl IH]; cbn [app span_digits]; intros H.
  - destruct H as [H|H]; [simpl in H; congruence|].
    destruct rest as [|c tl]; [reflexivity|].
    unfold no_digit_ahead in H. cbn [span_digits]. rewrite H. reflexivity.
  - destruct (is_digit c) eqn:Hc; [|reflexivity].
    destruct (span_digits tl) as [ds r0]. cbn [fst snd] in *.
    rewrite (IH H). reflexivity.
Qed.

Lemma match_frac_extend (s rest : str) :
  no_digit_ahead rest -> no_dot_ahead rest ->
  match_frac (s ++ rest) = (fst (match_frac s), snd (match_frac s) ++ rest).
Proof.
  intros Hd Hdot. unfold match_frac.
  destruct s as [|c tl]; cbn [app].
  - destruct rest as [|c tl]; [reflexivity|].
    unfold no_dot_ahead in Hdot. rewrite Hdot. reflexivity.
  - destruct (char_eqb c 46%N); [|reflexivity].
    rewrite (span_digits_extend tl rest (or_intror Hd)).
    destruct (span_digits tl) as [[|d ds] r0]; reflexivity.
Qed.

Lemma match_exp_extend (s rest : str) :
  plain_ahead rest ->
  match_exp (s ++ rest) = (fst (match_exp s), snd (match_exp s) ++ rest).
Proof.
  intros Hp. pose proof (plain_ahead_no_digit rest Hp) as Hd.
  unfold match_exp. destruct s as [|c tl]; cbn [app].
  - destruct rest as [|c tl]; [reflexivity|].
    unfold plain_ahead, numchar in Hp. rewrite !orb_false_iff in Hp.
    destruct Hp as [[[[[_ _] _] _] He1] He2]. rewrite He1, He2. reflexivity.
  - destruct (char_eqb c 101%N || char_eqb c 69%N); [|reflexivity].
    destruct tl as [|g tl']; cbn [app].
    + destruct rest as [|r rest']; [reflexivity|].
      unfold plain_ahead, numchar in Hp. rewrite !orb_false_iff in Hp.
      destruct Hp as [[[[[Hdig Hm] Hpl] _] _] _]. rewrite Hm, Hpl.
      cbn [orb span_digits]. rewrite Hdig. reflexivity.
    + destruct (char_eqb g MINUS || char_eqb g 43%N).
      * rewrite (span_digits_extend tl' rest (or_intror Hd)).
        destruct (span_digits tl') as [[|d ds] r0]; reflexivity.
      * change (g :: tl' ++ rest) with ((g :: tl') ++ rest).
        rewrite (span_digits_extend (g :: tl') rest (or_intror Hd)).
        destruct (span_digits (g :: tl')) as [[|d ds] r0]; reflexivity.
Qed.

Lemma match_integer_extend (s rest integer r0 : str) :
  no_digit_ahead rest ->
  match_integer s = Some (integer, r0) ->
  match_integer (s ++ rest) = Some (integer, r0 ++ rest).
Proof.
  intros Hd. unfold match_integer.
  assert (Hcore : forall sign s1,
    match s1 with
    | [] => None
    | d :: tl =>
        if char_eqb d 48%N then Some (sign ++ [d], tl)
        else if is_digit d
        then let '(ds, rest) := span_digits tl in Some (sign ++ d :: ds, rest)
        else None
    end = Some (integer, r0) ->
    match s1 ++ rest with
    | [] => None
    | d :: tl =>
        if char_eqb d 48%N then Some (sign ++ [d], tl)
        else if is_digit d
        then let '(ds, rest) := span_digits tl in Some (sign ++ d :: ds, rest)
        else None
    end = Some (integer, r0 ++ rest)).
  { intros sign s1. destruct s1 as [|d tl]; [discriminate|]. cbn [app].
    destruct (char_eqb d 48%N).
    - intros H; inversion H; subst. reflexivity.
    - destruct (is_digit d); [|discriminate].
      rewrite (span_digits_extend tl rest (or_intror Hd)).
      destruct (span_digits tl) as [ds r1]. cbn [fst snd].
      intros H; inversion H; subst. reflexivity. }
  destruct s as [|c tl]; [discriminate|]. cbn [app].
  destruct (char_eqb c MINUS).
  - apply (Hcore [c] tl).
  - apply (Hcore [] (c :: tl)).
Qed.

Lemma match_number_extend (s rest integer frac exp r0 : str) :
  plain_ahead rest ->
  match_number s = Some (integer, frac, exp, r0) ->
  match_number (s ++ rest) = Some (integer, frac, exp, r0 ++ rest).
Proof.
  intros Hp. unfold match_number.
  destruct (match_integer s) as [[i r1]|] eqn:Ei; [|discriminate].
  rewrite (match_integer_extend s rest i r1 (plain_ahead_no_digit rest Hp) Ei).
  rewrite (match_frac_extend r1 rest (plain_ahead_no_digit rest Hp)
             (plain_ahead_no_dot rest Hp)).
  destruct (match_frac r1) as [f r2]. cbn [fst snd].
  rewrite (match_exp_extend r2 rest Hp).
  destruct (match_exp r2) as [e r3]. cbn [fst snd].
  intros H; inversion H; subst. reflexivity.
Qed.

(** The text that a group has matched is matched again when it stands
    alone. *)
Lemma match_integer_alone (s integer r0 : str) :
  match_integer s = Some (integer, r0) ->
  match_integer integer = Some (integer, []).
Proof.
  unfold match_integer.
  assert (Hspan : forall tl, span_digits (fst (span_digits tl))
                             = (fst (span_digits tl), [])).
  { intros tl. pose proof (span_digits_spec tl) as [_ [Hd _]].
    rewrite <- (app_nil_r (fst (span_digits tl))) at 1.
    apply span_digits_app; [exact Hd|exact I]. }
  destruct s as [|c tl]; [discriminate|].
  destruct (char_eqb c MINUS) eqn:Ec.
  - destruct tl as [|d tl']; [discriminate|].
    destruct (char_eqb d 48%N) eqn:E0.
    + intros H; inversion H; subst. cbn [app]. rewrite Ec, E0. reflexivity.
    + destruct (is_digit d) eqn:Ed; [|discriminate].
      specialize (Hspan tl'). destruct (span_digits tl') as [ds r1].
      cbn [fst] in Hspan.
      intros H; inversion H; subst. cbn [app]. rewrite Ec, E0, Ed, Hspan.
      reflexivity.
  - destruct (char_eqb c 48%N) eqn:E0.
    + intros H; inversion H; subst. cbn [app]. rewrite Ec, E0. reflexivity.
    + destruct (is_digit c) eqn:Ed; [|discriminate].
      specialize (Hspan tl). destruct (span_digits tl) as [ds r1].
      cbn [fst] in Hspan.
      intros H; inversion H; subst. cbn [app]. rewrite Ec, E0, Ed, Hspan.
      reflexivity.
Qed.

Lemma match_frac_alone (s : str) :
  match_frac (fst (match_frac s)) = (fst (match_frac s), [])
  /\ no_digit_ahead (fst (match_frac s)).
Proof.
  unfold match_frac. destruct s as [|c tl]; [split; [reflexivity|exact I]|].
  destruct (char_eqb c 46%N) eqn:Ec; [|split; [reflexivity|exact I]].
  pose proof (span_digits_spec tl) as [_ [Hd _]].
  destruct (span_digits tl) as [[|d ds] r0]; cbn [fst] in *;
    [split; [reflexivity|exact I]|].
  split.
  - rewrite Ec. rewrite <- (app_nil_r (d :: ds)) at 1.
    rewrite (span_digits_app (d :: ds) [] Hd I). reflexivity.
  - simpl. apply char_eqb_eq in Ec. subst c. reflexivity.
Qed.

Lemma match_exp_alone (s : str) :
  match_exp (fst (match_exp s)) = (fst (match_exp s), [])
  /\ no_digit_ahead (fst (match_exp s))
  /\ no_dot_ahead (fst (match_exp s)).
Proof.
  unfold match_exp.
  destruct s as [|c tl]; [repeat split; reflexivity || exact I|].
  destruct (char_eqb c 101%N || char_eqb c 69%N) eqn:Ec;
    [|repeat split; reflexivity || exact I].
  assert (Hhead : is_digit c = false /\ char_eqb c 46%N = false).
  { apply orb_true_iff in Ec. destruct Ec as [E|E];
      apply char_eqb_eq in E; subst c; split; reflexivity. }
  assert (Hcore : forall sign s1,
    (sign = [] \/ exists g, sign = [g]
                            /\ (char_eqb g MINUS || char_eqb g 43%N) = true) ->
    (sign = [] -> no_digit_ahead s1 -> fst (span_digits s1) = []) ->
    let r := match span_digits s1 with
             | (d :: ds, rest) => (c :: sign ++ d :: ds, rest)
             | ([], _) => ([], c :: tl)
             end in
    match_exp (fst r) = (fst r, [])
    /\ no_digit_ahead (fst r) /\ no_dot_ahead (fst r)).
  { intros sign s1 Hsign _.
    pose proof (span_digits_spec s1) as [_ [Hd _]].
    destruct (span_digits s1) as [[|d ds] r0]; cbn [fst] in *;
      [repeat split; reflexivity || exact I|].
    split; [|split; [exact (proj1 Hhead)|exact (proj2 Hhead)]].
    unfold match_exp. rewrite Ec.
    assert (Hspan : span_digits (d :: ds) = (d :: ds, [])).
    { rewrite <- (app_nil_r (d :: ds)) at 1.
      apply span_digits_app; [exact Hd|exact I]. }
    destruct Hsign as [->|[g [-> Hg]]]; cbn [app].
    - assert (Hdg : (char_eqb d MINUS || char_eqb d 43%N) = false).
      { inversion Hd as [|? ? Hdd _]; subst.
        apply orb_false_iff. unfold is_digit, char_eqb in *.
        apply andb_true_iff in Hdd. rewrite !N.leb_le in Hdd.
        rewrite !N.eqb_neq. unfold MINUS. lia. }
      rewrite Hdg, Hspan. reflexivity.
    - rewrite Hg, Hspan. reflexivity. }
  destruct tl as [|g tl'].
  - apply (Hcore [] []); [left; reflexivity|reflexivity].
  - destruct (char_eqb g MINUS || char_eqb g 43%N) eqn:Eg.
    + apply (Hcore [g] tl'); [right; eauto|discriminate].
    + apply (Hcore [] (g :: tl')); [left; reflexivity|].
      intros _ Hn. simpl in Hn. cbn [span_digits]. rewrite Hn. reflexivity.
Qed.

Lemma match_number_alone (s integer frac exp r0 : str) :
  match_number s = Some (integer, frac, exp, r0) ->
  match_number (integer ++ frac ++ exp) = Some (integer, frac, exp, []).
Proof.
  unfold match_number.
  destruct (match_integer s) as [[i r1]|] eqn:Ei; [|discriminate].
  pose proof (match_frac_alone r1) as [Hf Hfd].
  destruct (match_frac r1) as [f r2]. cbn [fst] in *.
  pose proof (match_exp_alone r2) as [He [Hed Hedot]].
  destruct (match_exp r2) as [e r3]. cbn [fst] in *.
  intros H; inversion H; subst; clear H.
  pose proof (match_integer_alone s integer r1 Ei) as Hi.
  assert (Hahead : no_digit_ahead (frac ++ exp)).
  { destruct frac as [|c fr]; [exact Hed|exact Hfd]. }
  rewrite (match_integer_extend integer (frac ++ exp) integer []
             Hahead Hi).
  cbn [app].
  rewrite (match_frac_extend frac exp Hed Hedot), Hf. cbn [fst snd app].
  rewrite He. reflexivity.
Qed.

(** ** Reading back what the encoder prints: strings *)

Lemma hexval_hexdigit (d : N) : (d < 16)%N -> hexval (hexdigit d) = Some d.
Proof.
  intros Hd. unfold hexdigit, hexval.
  destruct (N.ltb_spec d 10).
  - destruct (N.leb_spec 48 (48 + d)); [|lia].
    destruct (N.leb_spec (48 + d) 57); [|lia].
    cbn [andb]. f_equal. lia.
  - destruct (N.leb_spec (87 + d) 57); [lia|]. rewrite andb_false_r.
    destruct (N.leb_spec 97 (87 + d)); [|lia].
    destruct (N.leb_spec (87 + d) 102); [|lia].
    cbn [andb]. f_equal. lia.
Qed.

Lemma hex4_u_escape (n : N) :
  (n < 65536)%N ->
  hex4 (hexdigit ((n / 4096) mod 16)) (hexdigit ((n / 256) mod 16))
       (hexdigit ((n / 16) mod 16)) (hexdigit (n mod 16))
  = Some n.
Proof.
  intros Hn. unfold hex4.
  rewrite !hexval_hexdigit by (apply N.mod_lt; discriminate).
  f_equal. zify. Z.to_euclidean_division_equations. lia.
Qed.

(** What the decoder must not find after the escape of a high surrogate:
    a unicode escape that is malformed or that is a low surrogate. *)
Definition no_low_escape_ahead (x : str) : Prop :=
  match x with
  | b :: u :: tl =>
      if char_eqb b BACKSLASH && char_eqb u 117%N then
        match tl with
        | g1 :: g2 :: g3 :: g4 :: _ =>
            exists u2, hex4 g1 g2 g3 g4 = Some u2
                       /\ is_low_surrogate u2 = false
        | _ => False
        end
      else True
  | _ => True
  end.

Lemma scanstring_unicode_escape (h1 h2 h3 h4 : char) (x : str) (b : nat)
  (n : N) :
  hex4 h1 h2 h3 h4 = Some n ->
  is_high_surrogate n = false \/ no_low_escape_ahead x ->
  scanstring (BACKSLASH :: 117%N :: h1 :: h2 :: h3 :: h4 :: x) b
  = with_char n (scanstring x b).
Proof.
  intros Hh Hcase.
  change (scanstring (BACKSLASH :: 117%N :: h1 :: h2 :: h3 :: h4 :: x) b)
    with (match hex4 h1 h2 h3 h4 with
          | None => Fail INVALID_UXXXX
                      (List.length (117%N :: h1 :: h2 :: h3 :: h4 :: x))
          | Some uni =>
              if is_high_surrogate uni then
                match x with
                | b0 :: u :: tl3 =>
                    if char_eqb b0 BACKSLASH && char_eqb u 117%N then
                      match tl3 with
                      | g1 :: g2 :: g3 :: g4 :: tl4 =>
                          match hex4 g1 g2 g3 g4 with
                          | None =>
                              Fail INVALID_UXXXX (S (List.length tl3))
                          | Some uni2 =>
                              if is_low_surrogate uni2
                              then with_char (join_surrogates uni uni2)
                                     (scanstring tl4 b)
                              else with_char uni (scanstring x b)
                          end
                      | _ => Fail INVALID_UXXXX (S (List.length tl3))
                      end
                    else with_char uni (scanstring x b)
                | _ => with_char uni (scanstring x b)
                end
              else with_char uni (scanstring x b)
          end).
  rewrite Hh. destruct (is_high_surrogate n) eqn:Hhigh; [|reflexivity].
  destruct Hcase as [Hc|Hc]; [discriminate|].
  destruct x as [|b0 [|u tl3]]; try reflexivity.
  unfold no_low_escape_ahead in Hc.
  destruct (char_eqb b0 BACKSLASH && char_eqb u 117%N); [|reflexivity].
  destruct tl3 as [|g1 [|g2 [|g3 [|g4 tl4]]]]; try contradiction.
  destruct Hc as [u2 [Hu2 Hlow]]. rewrite Hu2, Hlow. reflexivity.
Qed.

Lemma scanstring_u_escape (n : N) (x : str) (b : nat) :
  (n < 65536)%N ->
  is_high_surrogate n = false \/ no_low_escape_ahead x ->
  scanstring (u_escape n ++ x) b = with_char n (scanstring x b).
Proof.
  intros Hn Hcase. unfold u_escape. cbn [app].
  apply scanstring_unicode_escape; [apply hex4_u_escape; exact Hn|exact Hcase].
Qed.

Lemma scanstring_plain (c : char) (x : str) (b : nat) :
  char_eqb c QUOTE = false -> char_eqb c BACKSLASH = false ->
  (c <? 32)%N = false ->
  scanstring (c :: x) b = with_char c (scanstring x b).
Proof.
  intros Hq Hb Hc. cbn [scanstring]. rewrite Hq, Hb, Hc. reflexivity.
Qed.

Lemma escape_char_scan (c : char) (x : str) (b : nat) :
  scanstring (escape_char c ++ x) b = with_char c (scanstring x b).
Proof.
  unfold escape_char, ESCAPE_DCT.
  destruct (char_eqb c BACKSLASH) eqn:E1;
    [apply char_eqb_eq in E1; subst c; reflexivity|].
  destruct (char_eqb c QUOTE) eqn:E2;
    [apply char_eqb_eq in E2; subst c; reflexivity|].
  destruct (char_eqb c 8%N) eqn:E3;
    [apply char_eqb_eq in E3; subst c; reflexivity|].
  destruct (char_eqb c 12%N) eqn:E4;
    [apply char_eqb_eq in E4; subst c; reflexivity|].
  destruct (char_eqb c 10%N) eqn:E5;
    [apply char_eqb_eq in E5; subst c; reflexivity|].
  destruct (char_eqb c 13%N) eqn:E6;
    [apply char_eqb_eq in E6; subst c; reflexivity|].
  destruct (char_eqb c 9%N) eqn:E7;
    [apply char_eqb_eq in E7; subst c; reflexivity|].
  destruct (N.ltb_spec c 32) as [Hlt|Hge].
  - apply scanstring_u_escape; [lia|]. left.
    unfold is_high_surrogate. destruct (N.leb_spec 55296 c); [lia|reflexivity].
  - apply scanstring_plain; try assumption.
    apply N.ltb_ge. exact Hge.
Qed.

(** The decoder reads back the string that [encode_basestring] has
    escaped. *)
Lemma scanstring_encode_basestring (s rest : str) (b : nat) :
  scanstring (flat_map escape_char s ++ QUOTE :: rest) b = Ok (s, rest).
Proof.
  induction s as [|c s IH]; cbn [flat_map app].
  - reflexivity.
  - rewrite <- app_assoc, escape_char_scan, IH. reflexivity.
Qed.

(** *** Keys, which are escaped to ASCII *)

Lemma lor_add_low (a y : N) :
  (a mod 2 ^ 10 = 0)%N -> (y < 2 ^ 10)%N -> N.lor a y = (a + y)%N.
Proof.
  intros Ha Hy.
  assert (Hland : N.land a y = 0%N).
  { apply N.bits_inj. intros i. rewrite N.land_spec, N.bits_0.
    destruct (N.lt_ge_cases i 10) as [Hi|Hi].
    - rewrite <- (N.mod_pow2_bits_low a 10 i Hi), Ha, N.bits_0. reflexivity.
    - rewrite <- (N.mod_small y (2 ^ 10) Hy).
      rewrite (N.mod_pow2_bits_high y 10 i Hi). apply andb_false_r. }
  rewrite <- N.lxor_lor by exact Hland.
  symmetry. apply N.add_nocarry_lxor. exact Hland.
Qed.

Definition high_of (c : N) : N :=
  N.lor 55296 (N.land (N.shiftr (c - 65536) 10) 1023).
Definition low_of (c : N) : N := N.lor 56320 (N.land (c - 65536) 1023).

Lemma surrogates_of (c : N) :
  (65536 <= c)%N -> (c < 1114112)%N ->
  high_of c = (55296 + (c - 65536) / 1024)%N
  /\ low_of c = (56320 + (c - 65536) mod 1024)%N.
Proof.
  intros Hlo Hhi. unfold high_of, low_of.
  change 1023%N with (N.ones 10). rewrite !N.land_ones, N.shiftr_div_pow2.
  change (2 ^ 10)%N with 1024%N.
  assert (Hq : ((c - 65536) / 1024 < 1024)%N).
  { apply N.Div0.div_lt_upper_bound. lia. }
  rewrite (N.mod_small _ _ Hq).
  split; apply lor_add_low; try reflexivity; try exact Hq.
  apply N.mod_lt. discriminate.
Qed.

Lemma join_surrogates_of (c : N) :
  (65536 <= c)%N -> (c < 1114112)%N ->
  join_surrogates (high_of c) (low_of c) = c
  /\ is_high_surrogate (high_of c) = true
  /\ is_low_surrogate (low_of c) = true
  /\ (high_of c < 65536)%N /\ (low_of c < 65536)%N.
Proof.
  intros Hlo Hhi. destruct (surrogates_of c Hlo Hhi) as [Eh El].
  rewrite Eh, El.
  assert (Hq : ((c - 65536) / 1024 < 1024)%N).
  { apply N.Div0.div_lt_upper_bound. lia. }
  assert (Hr : ((c - 65536) mod 1024 < 1024)%N).
  { apply N.mod_lt. discriminate. }
  pose proof (N.div_mod (c - 65536) 1024) as Hdm.
  remember ((c - 65536) / 1024)%N as q eqn:Eq.
  remember ((c - 65536) mod 1024)%N as r eqn:Er.
  unfold join_surrogates, is_high_surrogate, is_low_surrogate.
  repeat split.
  - replace (55296 + q - 55296)%N with q by lia.
    replace (56320 + r - 56320)%N with r by lia.
    rewrite N.shiftl_mul_pow2. change (2 ^ 10)%N with 1024%N.
    rewrite lor_add_low.
    + lia.
    + change (2 ^ 10)%N with 1024%N. apply N.Div0.mod_mul.
    + exact Hr.
  - apply andb_true_iff. rewrite !N.leb_le. lia.
  - apply andb_true_iff. rewrite !N.leb_le. lia.
  - lia.
  - lia.
Qed.

(** A key that the decoder reads back: its characters are code points, and
    no high surrogate is followed by a low surrogate. *)
Fixpoint key_ok (k : str) : bool :=
  match k with
  | [] => true
  | c :: tl =>
      (c <? 1114112)%N
      && negb (is_high_surrogate c
               && match tl with
                  | d :: _ => is_low_surrogate d
                  | [] => false
                  end)
      && key_ok tl
  end.

Lemma escape_char_ascii_scan (c : char) (x : str) (b : nat) :
  (c < 1114112)%N ->
  is_high_surrogate c = false \/ no_low_escape_ahead x ->
  scanstring (escape_char_ascii c ++ x) b = with_char c (scanstring x b).
Proof.
  intros Hc Hcase. unfold escape_char_ascii.
  destruct (char_eqb c BACKSLASH || char_eqb c QUOTE || (c <? 32)%N
            || (126 <? c)%N) eqn:E.
  - destruct (ESCAPE_DCT c) as [e|] eqn:Ed.
    + pose proof (escape_char_scan c x b) as H.
      unfold escape_char in H. rewrite Ed in H. exact H.
    + destruct (N.ltb_spec c 65536) as [Hlt|Hge].
      * apply scanstring_u_escape; assumption.
      * destruct (join_surrogates_of c Hge Hc)
          as [Hj [Hh [Hl [Hh16 Hl16]]]].
        fold (high_of c). fold (low_of c).
        rewrite <- app_assoc.
        unfold u_escape at 1. cbn [app].
        change (scanstring
                  (BACKSLASH :: 117%N
                   :: hexdigit ((high_of c / 4096) mod 16)
                   :: hexdigit ((high_of c / 256) mod 16)
                   :: hexdigit ((high_of c / 16) mod 16)
                   :: hexdigit (high_of c mod 16)
                   :: u_escape (low_of c) ++ x) b)
          with (match hex4 (hexdigit ((high_of c / 4096) mod 16))
                        (hexdigit ((high_of c / 256) mod 16))
                        (hexdigit ((high_of c / 16) mod 16))
                        (hexdigit (high_of c mod 16)) with
                | None => Fail INVALID_UXXXX
                            (6 + List.length (u_escape (low_of c) ++ x) - 1)
                | Some uni =>
                    if is_high_surrogate uni then
                      match hex4 (hexdigit ((low_of c / 4096) mod 16))
                              (hexdigit ((low_of c / 256) mod 16))
                              (hexdigit ((low_of c / 16) mod 16))
                              (hexdigit (low_of c mod 16)) with
                      | None => Fail INVALID_UXXXX (S (4 + List.length x))
                      | Some uni2 =>
                          if is_low_surrogate uni2
                          then with_char (join_surrogates uni uni2)
                                 (scanstring x b)
                          else with_char uni
                                 (scanstring (u_escape (low_of c) ++ x) b)
                      end
                    else with_char uni
                           (scanstring (u_escape (low_of c) ++ x) b)
                end).
        rewrite (hex4_u_escape (high_of c) Hh16), Hh.
        rewrite (hex4_u_escape (low_of c) Hl16), Hl, Hj. reflexivity.
  - rewrite !orb_false_iff in E. destruct E as [[[E1 E2] E3] E4].
    apply scanstring_plain; assumption.
Qed.

Lemma no_low_escape_u_escape (n : N) (y : str) :
  (n < 65536)%N -> is_low_surrogate n = false ->
  no_low_escape_ahead (u_escape n ++ y).
Proof.
  intros Hn Hl. unfold u_escape, no_low_escape_ahead. cbn [app].
  change (char_eqb BACKSLASH BACKSLASH && char_eqb 117%N 117%N) with true.
  cbv iota. exists n. split; [apply hex4_u_escape; exact Hn|exact Hl].
Qed.

Lemma no_low_escape_not_backslash (c : char) (y : str) :
  char_eqb c BACKSLASH = false -> no_low_escape_ahead (c :: y).
Proof.
  intros Hc. unfold no_low_escape_ahead.
  destruct y as [|u tl]; [exact I|]. rewrite Hc. exact I.
Qed.

Lemma no_low_escape_ascii (c : char) (y : str) :
  (c < 1114112)%N -> is_low_surrogate c = false ->
  no_low_escape_ahead (escape_char_ascii c ++ y).
Proof.
  intros Hc Hl. unfold escape_char_ascii.
  destruct (char_eqb c BACKSLASH || char_eqb c QUOTE || (c <? 32)%N
            || (126 <? c)%N) eqn:E.
  - destruct (ESCAPE_DCT c) as [e|] eqn:Ed.
    + unfold ESCAPE_DCT in Ed.
      repeat match type of Ed with
             | (if ?t then _ else _) = _ => destruct t eqn:?
             end; inversion Ed; subst; try exact I.
      apply no_low_escape_u_escape; [|exact Hl].
      match goal with H : (c <? 32)%N = true |- _ =>
        apply N.ltb_lt in H; lia end.
    + destruct (N.ltb_spec c 65536) as [Hlt|Hge].
      * apply no_low_escape_u_escape; assumption.
      * destruct (join_surrogates_of c Hge Hc) as [_ [Hh [_ [Hh16 _]]]].
        fold (high_of c). rewrite <- app_assoc.
        apply no_low_escape_u_escape; [exact Hh16|].
        unfold is_high_surrogate in Hh. unfold is_low_surrogate.
        apply andb_true_iff in Hh. rewrite !N.leb_le in Hh.
        destruct (N.leb_spec 56320 (high_of c)); [lia|reflexivity].
  - rewrite !orb_false_iff in E. destruct E as [[[E1 _] _] _].
    apply no_low_escape_not_backslash. exact E1.
Qed.

(** The decoder reads back the key that [encode_basestring_ascii] has
    escaped. *)
Lemma scanstring_encode_basestring_ascii (k rest : str) (b : nat) :
  key_ok k = true ->
  scanstring (flat_map escape_char_ascii k ++ QUOTE :: rest) b = Ok (k, rest).
Proof.
  induction k as [|c k IH]; cbn [flat_map app key_ok]; intros Hk.
  - reflexivity.
  - apply andb_true_iff in Hk. destruct Hk as [Hk Hk'].
    apply andb_true_iff in Hk. destruct Hk as [Hc Hpair].
    apply N.ltb_lt in Hc. apply negb_true_iff in Hpair.
    rewrite <- app_assoc, escape_char_ascii_scan, (IH Hk');
      [reflexivity|exact Hc|].
    destruct (is_high_surrogate c); [right|left; reflexivity].
    cbn [andb] in Hpair.
    destruct k as [|d k']; cbn [flat_map app].
    + apply no_low_escape_not_backslash. reflexivity.
    + rewrite <- app_assoc. apply no_low_escape_ascii; [|exact Hpair].
      cbn [key_ok] in Hk'. apply andb_true_iff in Hk'.
      destruct Hk' as [Hk' _]. apply andb_true_iff in Hk'.
      destruct Hk' as [Hd _]. apply N.ltb_lt. exact Hd.
Qed.

(** ** Documents

    [Doc v t]: the text [t] is the value [v] written as JSON, with any
    amount of white space around the brackets, the commas and the colons,
    the primitives as [_dump_oneline] prints them and the keys as
    [json.dumps] prints them. *)

Definition ws (w : str) : Prop := all_chars is_ws w.

(** The text of a float that reads back as itself. *)
Definition canonical (float_text : str -> str) (r : str) : Prop :=
  r = NAN_S \/ r = INF_S \/ r = NEG_INF_S
  \/ (is_float_literal r = true /\ float_text r = r).

(** The values that the decoder returns for a text without surrogate code
    points: the keys of a dict are distinct and are read back from their
    escaped form, and the floats are canonical. *)
Fixpoint stable (float_text : str -> str) (v : value) : Prop :=
  match v with
  | VFloat r => canonical float_text r
  | VList l =>
      (fix all (l : list value) : Prop :=
         match l with
         | [] => True
         | x :: tl => stable float_text x /\ all tl
         end) l
  | VDict d =>
      NoDup (keys d)
      /\ (fix all (d : dict) : Prop :=
            match d with
            | [] => True
            | kv :: tl =>
                (key_ok (fst kv) = true /\ stable float_text (snd kv))
                /\ all tl
            end) d
  | _ => True
  end.

Lemma stable_list (float_text : str -> str) (l : list value) :
  stable float_text (VList l) <-> Forall (stable float_text) l.
Proof.
  cbn [stable]. induction l as [|x l IH].
  - split; [constructor|trivial].
  - rewrite IH. split.
    + intros [Hx Hl]. constructor; assumption.
    + intros H; inversion H; subst. split; assumption.
Qed.

Definition member_ok (float_text : str -> str) (kv : str * value) : Prop :=
  key_ok (fst kv) = true /\ stable float_text (snd kv).

Lemma stable_dict (float_text : str -> str) (d : dict) :
  stable float_text (VDict d)
  <-> NoDup (keys d) /\ Forall (member_ok float_text) d.
Proof.
  cbn [stable]. apply and_iff_compat_l. induction d as [|kv d IH].
  - split; [constructor|trivial].
  - rewrite IH. split.
    + intros [Hx Hl]. constructor; assumption.
    + intros H; inversion H; subst. split; assumption.
Qed.

Section Documents.

Variable float_text : str -> str.

Inductive Doc : value -> str -> Prop :=
| Doc_prim (v : value) :
    _is_prim v = true -> stable float_text v -> Doc v (_dump_oneline v)
| Doc_empty_list (w : str) :
    ws w -> Doc (VList []) (LBRACKET :: w ++ [RBRACKET])
| Doc_list (w : str) (l : list value) (body : str) :
    ws w -> DocItems l body ->
    Doc (VList l) (LBRACKET :: w ++ body ++ [RBRACKET])
| Doc_empty_dict (w : str) :
    ws w -> Doc (VDict []) (LBRACE :: w ++ [RBRACE])
| Doc_dict (w : str) (d : dict) (body : str) :
    ws w -> NoDup (keys d) -> DocMembers d body ->
    Doc (VDict d) (LBRACE :: w ++ body ++ [RBRACE])
with DocItems : list value -> str -> Prop :=
| Items_last (v : value) (t w : str) :
    Doc v t -> ws w -> DocItems [v] (t ++ w)
| Items_more (v : value) (t w1 w2 : str) (l : list value) (body : str) :
    Doc v t -> ws w1 -> ws w2 -> DocItems l body ->
    DocItems (v :: l) (t ++ w1 ++ COMMA :: w2 ++ body)
with DocMembers : dict -> str -> Prop :=
| Members_last (k : str) (v : value) (t w1 w2 w3 : str) :
    key_ok k = true -> Doc v t -> ws w1 -> ws w2 -> ws w3 ->
    DocMembers [(k, v)]
      (encode_basestring_ascii k ++ w1 ++ COLON :: w2 ++ t ++ w3)
| Members_more (k : str) (v : value) (t w1 w2 w3 w4 : str) (d : dict)
    (body : str) :
    key_ok k = true -> Doc v t -> ws w1 -> ws w2 -> ws w3 -> ws w4 ->
    DocMembers d body ->
    DocMembers ((k, v) :: d)
      (encode_basestring_ascii k ++ w1 ++ COLON :: w2 ++ t ++ w3
         ++ COMMA :: w4 ++ body).

Scheme Doc_min := Minimality for Doc Sort Prop
with DocItems_min := Minimality for DocItems Sort Prop
with DocMembers_min := Minimality for DocMembers Sort Prop.

Combined Scheme Doc_mutual from Doc_min, DocItems_min, DocMembers_min.

End Documents.

(** ** The decoder reads a document back *)

Lemma skip_ws_ws (w x : str) : ws w -> skip_ws (w ++ x) = skip_ws x.
Proof.
  induction 1 as [|c w Hc _ IH]; cbn [app skip_ws]; [reflexivity|].
  rewrite Hc. exact IH.
Qed.

Lemma skip_ws_stop (c : char) (x : str) :
  is_ws c = false -> skip_ws (c :: x) = c :: x.
Proof. intros Hc. cbn [skip_ws]. rewrite Hc. reflexivity. Qed.

(** The characters at which the text of a value starts *)
Definition value_start (c : char) : bool :=
  is_digit c || char_eqb c MINUS || char_eqb c QUOTE || char_eqb c LBRACKET
  || char_eqb c LBRACE || char_eqb c 110%N || char_eqb c 116%N
  || char_eqb c 102%N || char_eqb c 78%N || char_eqb c 73%N.

Definition starts_value (t : str) : Prop :=
  match t with
  | [] => False
  | c :: _ => value_start c = true
  end.

Lemma value_start_cases (c : char) :
  value_start c = true ->
  (48 <= c <= 57)%N \/ In c [MINUS; QUOTE; LBRACKET; LBRACE; 110; 116; 102;
                             78; 73]%N.
Proof.
  unfold value_start, is_digit, char_eqb.
  rewrite !orb_true_iff, andb_true_iff, !N.leb_le, !N.eqb_eq.
  cbn [In]. intuition.
Qed.

Lemma value_start_not_ws (c : char) : value_start c = true -> is_ws c = false.
Proof.
  intros H. apply value_start_cases in H. unfold is_ws, char_eqb.
  rewrite !orb_false_iff, !N.eqb_neq. unfold SP, NL.
  destruct H as [H|H]; [lia|].
  cbn [In] in H. unfold MINUS, QUOTE, LBRACKET, LBRACE in H. lia.
Qed.

Lemma value_start_not_closing (c : char) :
  value_start c = true ->
  char_eqb c RBRACKET = false /\ char_eqb c RBRACE = false
  /\ char_eqb c 65279%N = false.
Proof.
  intros H. apply value_start_cases in H. unfold char_eqb.
  rewrite !N.eqb_neq. unfold RBRACKET, RBRACE.
  destruct H as [H|H]; [lia|].
  cbn [In] in H. unfold MINUS, QUOTE, LBRACKET, LBRACE in H. lia.
Qed.

Lemma numchar_cases (c : char) :
  numchar c = true -> (48 <= c <= 57)%N \/ In c [45; 43; 46; 101; 69]%N.
Proof.
  unfold numchar, is_digit, char_eqb, MINUS.
  rewrite !orb_true_iff, andb_true_iff, !N.leb_le, !N.eqb_eq.
  cbn [In]. intuition.
Qed.

Lemma match_number_head (s integer frac exp rest : str) :
  match_number s = Some (integer, frac, exp, rest) ->
  exists c tl, s = c :: tl /\ (is_digit c = true \/ c = MINUS).
Proof.
  unfold match_number.
  destruct (match_integer s) as [[i s1]|] eqn:Ei; [|discriminate].
  intros _. unfold match_integer in Ei.
  destruct s as [|c tl]; [discriminate|]. exists c, tl. split; [reflexivity|].
  destruct (char_eqb c MINUS) eqn:Ec.
  - right. apply char_eqb_eq. exact Ec.
  - left. destruct (char_eqb c 48%N) eqn:E0.
    + apply char_eqb_eq in E0. subst c. reflexivity.
    + destruct (is_digit c); [reflexivity|discriminate].
Qed.

Section ReadBack.

Variable float_text : str -> str.

Lemma scan_once_number (f : nat) (s integer frac exp rest : str) :
  match_number s = Some (integer, frac, exp, rest) ->
  scan_once float_text (S f) s
  = match frac, exp with
    | [], [] => Ok (VInt (parse_int integer), rest)
    | _, _ => Ok (VFloat (float_text (integer ++ frac ++ exp)), rest)
    end.
Proof.
  intros Hm. destruct (match_number_head s integer frac exp rest Hm)
    as [c [tl [-> Hc]]].
  cbn [scan_once].
  assert (Ht : char_eqb c QUOTE = false /\ char_eqb c LBRACE = false
               /\ char_eqb c LBRACKET = false
               /\ char_eqb 110%N c = false /\ char_eqb 116%N c = false
               /\ char_eqb 102%N c = false).
  { unfold char_eqb. rewrite !N.eqb_neq.
    unfold QUOTE, LBRACE, LBRACKET.
    destruct Hc as [Hc| ->]; [|unfold MINUS; lia].
    unfold is_digit in Hc. apply andb_true_iff in Hc.
    rewrite !N.leb_le in Hc. lia. }
  destruct Ht as [H1 [H2 [H3 [H4 [H5 H6]]]]].
  rewrite H1, H2, H3.
  unfold NULL_S, TRUE_S, FALSE_S. cbn [starts_with].
  rewrite H4, H5, H6. cbn [andb]. rewrite Hm. reflexivity.
Qed.

Lemma scan_once_prim (v : value) (rest : str) (fuel : nat) :
  _is_prim v = true -> stable float_text v -> follow_ok rest ->
  1 <= fuel ->
  scan_once float_text fuel (_dump_oneline v ++ rest) = Ok (v, rest).
Proof.
  intros Hp Hs Hrest Hf. destruct fuel as [|f]; [lia|].
  destruct v as [|[|]|z|r|s|l|d]; try discriminate; cbn [_dump_oneline].
  - reflexivity.
  - reflexivity.
  - reflexivity.
  - rewrite (scan_once_number f _ _ _ _ _ (match_number_int_repr z rest Hrest)).
    rewrite parse_int_int_repr. reflexivity.
  - cbn [stable] in Hs. destruct Hs as [->|[->|[->|[Hlit Hfix]]]];
      try reflexivity.
    unfold is_float_literal in Hlit.
    destruct (match_number r) as [[[[i fr] e] r0]|] eqn:Em; [|discriminate].
    destruct r0; [|discriminate].
    pose proof (match_number_spec r i fr e [] Em) as [Er _].
    rewrite !app_nil_r in Er.
    pose proof (match_number_extend r rest i fr e []
                  (follow_ok_plain rest Hrest) Em) as Hx.
    cbn [app] in Hx.
    rewrite (scan_once_number f _ _ _ _ _ Hx).
    rewrite <- Er, Hfix.
    destruct fr; destruct e; try reflexivity. discriminate.
  - unfold encode_basestring. cbn [app scan_once].
    change (char_eqb QUOTE QUOTE) with true. cbv iota.
    rewrite <- app_assoc. cbn [app].
    rewrite scanstring_encode_basestring. reflexivity.
Qed.

Lemma dump_prim_starts_value (v : value) :
  _is_prim v = true -> stable float_text v ->
  starts_value (_dump_oneline v).
Proof.
  intros Hp Hs.
  destruct v as [|[|]|z|r|s|l|d]; try discriminate; cbn [_dump_oneline];
    try reflexivity.
  - unfold int_repr. destruct z as [|p|p]; cbn [Z.to_int]; try reflexivity.
    destruct (pos_to_uint_head p) as [c [ds [E [Hc _]]]].
    rewrite E. simpl. unfold value_start. rewrite Hc. reflexivity.
  - cbn [stable] in Hs. destruct Hs as [->|[->|[->|[Hlit _]]]];
      try reflexivity.
    unfold is_float_literal in Hlit.
    destruct (match_number r) as [[[[i fr] e] r0]|] eqn:Em; [|discriminate].
    destruct (match_number_head r i fr e r0 Em) as [c [tl [-> Hc]]].
    simpl. unfold value_start. destruct Hc as [-> | ->]; reflexivity.
Qed.

Lemma Doc_starts_value :
  (forall v t, Doc float_text v t -> starts_value t)
  /\ (forall l body, DocItems float_text l body -> starts_value body)
  /\ (forall d body, DocMembers float_text d body ->
                     exists body', body = QUOTE :: body').
Proof.
  apply Doc_mutual; intros; try reflexivity.
  - apply dump_prim_starts_value; assumption.
  - destruct t as [|c t']; [contradiction|]. assumption.
  - destruct t as [|c t']; [contradiction|]. assumption.
  - unfold encode_basestring_ascii. cbn [app]. eauto.
  - unfold encode_basestring_ascii. cbn [app]. eauto.
Qed.

Lemma dict_of_pairs_distinct (d : dict) :
  NoDup (keys d) -> dict_of_pairs d = d.
Proof.
  unfold dict_of_pairs.
  assert (H : forall d2 d1, NoDup (keys (d1 ++ d2)) ->
              fold_left (fun d kv => dict_set d (fst kv) (snd kv)) d2 d1
              = d1 ++ d2).
  { induction d2 as [|[k v] d2 IH]; intros d1 Hnd; cbn [fold_left].
    - rewrite app_nil_r. reflexivity.
    - cbn [fst snd]. rewrite dict_set_notin.
      + rewrite IH; rewrite <- app_assoc; [reflexivity|exact Hnd].
      + unfold keys in *. rewrite map_app in Hnd. cbn [map fst] in Hnd.
        apply NoDup_remove_2 in Hnd. intros Hin. apply Hnd.
        apply in_or_app. left. exact Hin. }
  intros Hnd. apply (H d []). exact Hnd.
Qed.

Lemma follow_ok_ws (w : str) (c : char) (rest : str) :
  ws w -> delimiter c = true -> follow_ok (w ++ c :: rest).
Proof.
  intros Hw Hc. destruct Hw as [|x w Hx _]; cbn [app follow_ok].
  - exact Hc.
  - unfold delimiter. rewrite Hx. reflexivity.
Qed.

Lemma skip_ws_to (w : str) (c : char) (x : str) :
  ws w -> is_ws c = false -> skip_ws (w ++ c :: x) = c :: x.
Proof.
  intros Hw Hc. rewrite (skip_ws_ws w _ Hw). apply skip_ws_stop. exact Hc.
Qed.

Lemma skip_ws_to_value (w t x : str) :
  ws w -> starts_value t -> skip_ws (w ++ t ++ x) = t ++ x.
Proof.
  intros Hw Ht. destruct t as [|c t']; [contradiction|].
  cbn [app]. apply skip_ws_to; [exact Hw|].
  apply value_start_not_ws. exact Ht.
Qed.

Lemma read_back :
  (forall v t, Doc float_text v t ->
     forall rest fuel, follow_ok rest -> 3 * List.length t + 1 <= fuel ->
       scan_once float_text fuel (t ++ rest) = Ok (v, rest))
  /\ (forall l body, DocItems float_text l body ->
        forall rest fuel, 3 * List.length body + 2 <= fuel ->
          array_items float_text fuel (body ++ RBRACKET :: rest)
          = Ok (l, rest))
  /\ (forall d body, DocMembers float_text d body ->
        forall rest fuel b, 3 * List.length body + 2 <= fuel ->
          exists body',
            body = QUOTE :: body'
            /\ object_members float_text fuel (body' ++ RBRACE :: rest) b
               = Ok (d, rest)).
Proof.
  destruct Doc_starts_value as [Hstart [Hstart_items Hstart_members]].
  apply Doc_mutual.
  - (* a primitive *)
    intros v Hp Hs rest fuel Hrest Hf.
    apply scan_once_prim; try assumption. lia.
  - (* the empty array *)
    intros w Hw rest fuel _ Hf. cbn [List.length] in Hf.
    destruct fuel as [|[|f]]; [lia|lia|].
    cbn [app scan_once JSONArray].
    change (char_eqb LBRACKET QUOTE) with false.
    change (char_eqb LBRACKET LBRACE) with false.
    change (char_eqb LBRACKET LBRACKET) with true. cbv iota.
    rewrite <- app_assoc. cbn [app].
    rewrite (skip_ws_to w RBRACKET rest Hw eq_refl).
    change (char_eqb RBRACKET RBRACKET) with true. reflexivity.
  - (* an array *)
    intros w l body Hw Hitems IH rest fuel _ Hf.
    cbn [List.length] in Hf. rewrite !length_app in Hf.
    destruct fuel as [|[|f]]; [lia|lia|].
    cbn [app scan_once JSONArray].
    change (char_eqb LBRACKET QUOTE) with false.
    change (char_eqb LBRACKET LBRACE) with false.
    change (char_eqb LBRACKET LBRACKET) with true. cbv iota.
    rewrite <- !app_assoc. cbn [app].
    pose proof (Hstart_items l body Hitems) as Hb.
    rewrite (skip_ws_to_value w body _ Hw Hb).
    rewrite (IH rest f) by (cbn [List.length] in Hf; lia).
    destruct body as [|c body']; [contradiction|]. cbn [app].
    destruct (value_start_not_closing c Hb) as [Hc _]. rewrite Hc.
    reflexivity.
  - (* the empty object *)
    intros w Hw rest fuel _ Hf. cbn [List.length] in Hf.
    destruct fuel as [|[|f]]; [lia|lia|].
    cbn [app scan_once JSONObject].
    change (char_eqb LBRACE QUOTE) with false.
    change (char_eqb LBRACE LBRACE) with true. cbv iota.
    rewrite <- app_assoc. cbn [app].
    rewrite (skip_ws_to w RBRACE rest Hw eq_refl).
    change (char_eqb RBRACE RBRACE) with true. reflexivity.
  - (* an object *)
    intros w d body Hw Hnd Hmembers IH rest fuel _ Hf.
    cbn [List.length] in Hf. rewrite !length_app in Hf.
    destruct fuel as [|[|f]]; [lia|lia|].
    cbn [app scan_once JSONObject].
    change (char_eqb LBRACE QUOTE) with false.
    change (char_eqb LBRACE LBRACE) with true. cbv iota.
    rewrite <- !app_assoc. cbn [app].
    destruct (IH rest f (List.length (body ++ RBRACE :: rest)))
      as [body' [-> Hm]]; [cbn [List.length] in Hf; lia|].
    cbn [app]. rewrite (skip_ws_to w QUOTE _ Hw eq_refl).
    change (char_eqb QUOTE RBRACE) with false.
    change (char_eqb QUOTE QUOTE) with true. cbv iota.
    cbn [app] in Hm. rewrite Hm.
    rewrite (dict_of_pairs_distinct d Hnd). reflexivity.
  - (* the last item *)
    intros v t w Hdoc IH Hw rest fuel Hf. rewrite length_app in Hf.
    destruct fuel as [|f]; [lia|].
    cbn [array_items]. rewrite <- app_assoc.
    rewrite (IH (w ++ RBRACKET :: rest) f
               (follow_ok_ws w RBRACKET rest Hw eq_refl)) by lia.
    rewrite (skip_ws_to w RBRACKET rest Hw eq_refl).
    change (char_eqb RBRACKET RBRACKET) with true. reflexivity.
  - (* an item and more *)
    intros v t w1 w2 l body Hdoc IH Hw1 Hw2 Hitems IHitems rest fuel Hf.
    rewrite !length_app in Hf. cbn [List.length] in Hf.
    rewrite length_app in Hf.
    destruct fuel as [|f]; [lia|].
    cbn [array_items]. rewrite <- !app_assoc. cbn [app].
    rewrite <- !app_assoc.
    rewrite (IH (w1 ++ COMMA :: w2 ++ body ++ RBRACKET :: rest) f
               (follow_ok_ws w1 COMMA _ Hw1 eq_refl)) by lia.
    rewrite (skip_ws_to w1 COMMA _ Hw1 eq_refl).
    change (char_eqb COMMA RBRACKET) with false.
    change (char_eqb COMMA COMMA) with true. cbv iota.
    rewrite (skip_ws_to_value w2 body _ Hw2 (Hstart_items l body Hitems)).
    rewrite (IHitems rest f) by lia. reflexivity.
  - (* the last member *)
    intros k v t w1 w2 w3 Hk Hdoc IH Hw1 Hw2 Hw3 rest fuel b Hf.
    unfold encode_basestring_ascii in *. cbn [app].
    eexists. split; [reflexivity|].
    cbn [app List.length] in Hf. rewrite !length_app in Hf.
    cbn [List.length] in Hf. rewrite !length_app in Hf.
    destruct fuel as [|f]; [lia|].
    cbn [object_members]. rewrite <- !app_assoc. cbn [app].
    rewrite <- !app_assoc.
    rewrite (scanstring_encode_basestring_ascii k _ b Hk).
    rewrite (skip_ws_to w1 COLON _ Hw1 eq_refl).
    change (char_eqb COLON COLON) with true. cbv iota.
    rewrite (skip_ws_to_value w2 t _ Hw2 (Hstart v t Hdoc)).
    rewrite (IH (w3 ++ RBRACE :: rest) f
               (follow_ok_ws w3 RBRACE rest Hw3 eq_refl)) by lia.
    rewrite (skip_ws_to w3 RBRACE rest Hw3 eq_refl).
    change (char_eqb RBRACE RBRACE) with true. reflexivity.
  - (* a member and more *)
    intros k v t w1 w2 w3 w4 d body Hk Hdoc IH Hw1 Hw2 Hw3 Hw4 Hmembers
      IHmembers rest fuel b Hf.
    unfold encode_basestring_ascii in *. cbn [app].
    eexists. split; [reflexivity|].
    cbn [app List.length] in Hf. rewrite !length_app in Hf.
    cbn [List.length] in Hf. rewrite !length_app in Hf.
    cbn [List.length] in Hf. rewrite !length_app in Hf.
    destruct fuel as [|f]; [lia|].
    cbn [object_members]. rewrite <- !app_assoc. cbn [app].
    rewrite <- !app_assoc. cbn [app]. rewrite <- !app_assoc.
    rewrite (scanstring_encode_basestring_ascii k _ b Hk).
    rewrite (skip_ws_to w1 COLON _ Hw1 eq_refl).
    change (char_eqb COLON COLON) with true. cbv iota.
    rewrite (skip_ws_to_value w2 t _ Hw2 (Hstart v t Hdoc)).
    rewrite (IH (w3 ++ COMMA :: w4 ++ body ++ RBRACE :: rest) f
               (follow_ok_ws w3 COMMA _ Hw3 eq_refl)) by lia.
    rewrite (skip_ws_to w3 COMMA _ Hw3 eq_refl).
    change (char_eqb COMMA RBRACE) with false.
    change (char_eqb COMMA COMMA) with true. cbv iota.
    destruct (IHmembers rest f
                (List.length (skip_ws (w4 ++ body ++ RBRACE :: rest))))
      as [body' [-> Hm]]; [lia|].
    cbn [app]. rewrite (skip_ws_to w4 QUOTE _ Hw4 eq_refl).
    change (char_eqb QUOTE QUOTE) with true. cbv iota.
    cbn [app] in Hm. rewrite (skip_ws_to w4 QUOTE _ Hw4 eq_refl) in Hm.
    rewrite Hm. reflexivity.
Qed.

End ReadBack.

(** ** Comment stripping leaves a document as it is *)

Definition no_slash (c : char) : bool := negb (char_eqb c SLASH).

Definition no_quote (c : char) : bool := negb (char_eqb c QUOTE).

Lemma sub_line_comments_safe (a b : str) :
  all_chars no_slash a ->
  sub_line_comments false (a ++ b) = a ++ sub_line_comments false b.
Proof.
  induction 1 as [|c a Hc _ IH]; cbn [app]; [reflexivity|].
  unfold no_slash in Hc. apply negb_true_iff in Hc.
  cbn [sub_line_comments]. rewrite Hc. cbn [andb].
  destruct (a ++ b) eqn:E.
  - destruct a; [|discriminate]. cbn [app] in E. subst b. reflexivity.
  - rewrite IH. reflexivity.
Qed.

Lemma sub_block_comments_safe (a b : str) :
  all_chars no_slash a ->
  sub_block_comments false (a ++ b) = a ++ sub_block_comments false b.
Proof.
  induction 1 as [|c a Hc _ IH]; cbn [app]; [reflexivity|].
  unfold no_slash in Hc. apply negb_true_iff in Hc.
  cbn [sub_block_comments]. rewrite Hc. cbn [andb].
  destruct (a ++ b) eqn:E.
  - destruct a; [|discriminate]. cbn [app] in E. subst b. reflexivity.
  - rewrite IH. reflexivity.
Qed.

Lemma clean_gap_safe (a b : str) :
  all_chars no_slash a -> clean_gap (a ++ b) = a ++ clean_gap b.
Proof.
  intros Ha. unfold clean_gap.
  rewrite (sub_line_comments_safe a b Ha).
  apply sub_block_comments_safe. exact Ha.
Qed.

Lemma all_chars_rev (p : char -> bool) (s : str) :
  all_chars p s -> all_chars p (rev s).
Proof. apply Forall_rev. Qed.

(** The characters read before a gap starts to hold a slash go out as
    they are. *)
Lemma strip_comments_flush (s g2 g1 : str) :
  all_chars no_slash g1 ->
  strip_comments_loop s 0 (g2 ++ g1)
  = rev g1 ++ strip_comments_loop s 0 g2.
Proof.
  intros Hg. revert g2. induction s as [|c tl IH]; intros g2;
    cbn [strip_comments_loop].
  - rewrite rev_app_distr. apply clean_gap_safe.
    apply all_chars_rev. exact Hg.
  - destruct (char_eqb c QUOTE).
    + destruct (string_re_body tl) as [[body rest]|].
      * rewrite rev_app_distr, clean_gap_safe
          by (apply all_chars_rev; exact Hg).
        rewrite <- app_assoc. reflexivity.
      * apply (IH (c :: g2)).
    + apply (IH (c :: g2)).
Qed.

(** [p] goes through [_strip_comments] unchanged, whatever follows it. *)
Definition comment_free (p : str) : Prop :=
  forall x, strip_comments_loop (p ++ x) 0 []
            = p ++ strip_comments_loop x 0 [].

Lemma comment_free_nil : comment_free [].
Proof. intros x. reflexivity. Qed.

Lemma comment_free_app (p q : str) :
  comment_free p -> comment_free q -> comment_free (p ++ q).
Proof.
  intros Hp Hq x. rewrite <- app_assoc, Hp, Hq, <- app_assoc. reflexivity.
Qed.

Lemma comment_free_char (c : char) :
  no_slash c = true -> no_quote c = true -> comment_free [c].
Proof.
  intros Hs Hq x. cbn [app strip_comments_loop].
  unfold no_quote in Hq. apply negb_true_iff in Hq. rewrite Hq.
  apply (strip_comments_flush x [] [c]). repeat constructor. exact Hs.
Qed.

Definition sc_safe (c : char) : bool := no_slash c && no_quote c.

Lemma comment_free_chars (a : str) : all_chars sc_safe a -> comment_free a.
Proof.
  induction 1 as [|c a Hc _ IH]; [apply comment_free_nil|].
  unfold sc_safe in Hc. apply andb_true_iff in Hc.
  apply (comment_free_app [c] a); [|exact IH].
  apply comment_free_char; apply Hc.
Qed.

Lemma strip_comments_copy (p x g : str) :
  strip_comments_loop (p ++ x) (List.length p) g
  = p ++ strip_comments_loop x 0 g.
Proof.
  induction p as [|c p IH]; cbn [app List.length]; [reflexivity|].
  cbn [strip_comments_loop]. rewrite IH. reflexivity.
Qed.

(** The body of a string literal, as [_STRING_RE] and the scan of
    [_strip_trailing_commas] see it: a sequence of items, each a character
    other than the double quote and the backslash, or a backslash and a
    character other than the newline. *)
Inductive string_items : str -> Prop :=
| items_nil : string_items []
| items_char (c : char) (s : str) :
    char_eqb c QUOTE = false -> char_eqb c BACKSLASH = false ->
    string_items s -> string_items (c :: s)
| items_escape (e : char) (s : str) :
    char_eqb e NL = false ->
    string_items s -> string_items (BACKSLASH :: e :: s).

Lemma string_items_app (a b : str) :
  string_items a -> string_items b -> string_items (a ++ b).
Proof.
  intros Ha Hb. induction Ha as [|c s Hq Hbs _ IH|e s He _ IH]; cbn [app].
  - exact Hb.
  - apply items_char; assumption.
  - apply items_escape; assumption.
Qed.

Lemma hexdigit_item (d : N) :
  char_eqb (hexdigit d) QUOTE = false
  /\ char_eqb (hexdigit d) BACKSLASH = false.
Proof.
  unfold hexdigit, char_eqb, QUOTE, BACKSLASH. rewrite !N.eqb_neq.
  destruct (N.ltb_spec d 10); lia.
Qed.

Lemma u_escape_items (n : N) : string_items (u_escape n).
Proof.
  unfold u_escape. apply items_escape; [reflexivity|].
  repeat (apply items_char; try apply hexdigit_item).
  apply items_nil.
Qed.

Lemma ESCAPE_DCT_items (c : char) (e : str) :
  ESCAPE_DCT c = Some e -> string_items e.
Proof.
  unfold ESCAPE_DCT.
  repeat match goal with
         | |- context [if ?b then _ else _] => destruct b
         end; intros H; inversion H; subst;
    try apply u_escape_items;
    (apply items_escape; [reflexivity|apply items_nil]).
Qed.

Lemma escape_char_items (c : char) : string_items (escape_char c).
Proof.
  unfold escape_char. destruct (ESCAPE_DCT c) as [e|] eqn:E.
  - eapply ESCAPE_DCT_items. exact E.
  - unfold ESCAPE_DCT in E.
    destruct (char_eqb c BACKSLASH) eqn:E1; [discriminate|].
    destruct (char_eqb c QUOTE) eqn:E2; [discriminate|].
    apply items_char; [exact E2|exact E1|apply items_nil].
Qed.

Lemma escape_char_ascii_items (c : char) : string_items (escape_char_ascii c).
Proof.
  unfold escape_char_ascii.
  destruct (char_eqb c BACKSLASH || char_eqb c QUOTE || (c <? 32)%N
            || (126 <? c)%N) eqn:E.
  - destruct (ESCAPE_DCT c) as [e|] eqn:Ed.
    + eapply ESCAPE_DCT_items. exact Ed.
    + destruct (c <? 65536)%N; [apply u_escape_items|].
      apply string_items_app; apply u_escape_items.
  - rewrite !orb_false_iff in E. destruct E as [[[E1 E2] _] _].
    apply items_char; [exact E2|exact E1|apply items_nil].
Qed.

Lemma flat_map_items (f : char -> str) (s : str) :
  (forall c, string_items (f c)) -> string_items (flat_map f s).
Proof.
  intros Hf. induction s as [|c s IH]; cbn [flat_map]; [apply items_nil|].
  apply string_items_app; [apply Hf|exact IH].
Qed.

Lemma string_re_body_items (body x : str) :
  string_items body ->
  string_re_body (body ++ QUOTE :: x) = Some (body ++ [QUOTE], x).
Proof.
  induction 1 as [|c s Hq Hb _ IH|e s He _ IH]; cbn [app string_re_body].
  - reflexivity.
  - rewrite Hq, Hb, IH. reflexivity.
  - change (char_eqb BACKSLASH QUOTE) with false.
    change (char_eqb BACKSLASH BACKSLASH) with true. cbv iota.
    rewrite He, IH. reflexivity.
Qed.

(** A string literal goes through [_strip_comments] unchanged. *)
Lemma comment_free_literal (body : str) :
  string_items body -> comment_free (QUOTE :: body ++ [QUOTE]).
Proof.
  intros Hb x. cbn [app strip_comments_loop].
  change (char_eqb QUOTE QUOTE) with true. cbv iota.
  rewrite <- app_assoc. cbn [app].
  rewrite (string_re_body_items body x Hb).
  cbn [rev clean_gap sub_line_comments sub_block_comments app].
  f_equal.
  replace (body ++ QUOTE :: x) with ((body ++ [QUOTE]) ++ x)
    by (rewrite <- app_assoc; reflexivity).
  rewrite strip_comments_copy, <- app_assoc. reflexivity.
Qed.

Lemma comment_free_encode_basestring (s : str) :
  comment_free (encode_basestring s).
Proof.
  apply comment_free_literal, flat_map_items, escape_char_items.
Qed.

Lemma comment_free_encode_basestring_ascii (k : str) :
  comment_free (encode_basestring_ascii k).
Proof.
  apply comment_free_literal, flat_map_items, escape_char_ascii_items.
Qed.

Lemma numchar_sc_safe (c : char) : numchar c = true -> sc_safe c = true.
Proof.
  intros H. apply numchar_cases in H.
  unfold sc_safe, no_slash, no_quote, char_eqb.
  rewrite andb_true_iff, !negb_true_iff, !N.eqb_neq. unfold SLASH, QUOTE.
  destruct H as [H|H]; [lia|]. cbn [In] in H. lia.
Qed.

Lemma is_ws_sc_safe (c : char) : is_ws c = true -> sc_safe c = true.
Proof.
  unfold is_ws, sc_safe, no_slash, no_quote, char_eqb.
  rewrite !orb_true_iff, andb_true_iff, !negb_true_iff, !N.eqb_eq, !N.eqb_neq.
  unfold SP, NL, SLASH, QUOTE. lia.
Qed.

Lemma comment_free_ws (w : str) : ws w -> comment_free w.
Proof.
  intros Hw. apply comment_free_chars.
  eapply all_chars_impl; [apply is_ws_sc_safe|exact Hw].
Qed.

Section CommentFree.

Variable float_text : str -> str.

Lemma canonical_numchars_or_constant (r : str) :
  canonical float_text r ->
  r = NAN_S \/ r = INF_S \/ r = NEG_INF_S \/ all_chars numchar r.
Proof.
  intros [H|[H|[H|[H _]]]]; auto.
  right. right. right. apply is_float_literal_numchars. exact H.
Qed.

Lemma comment_free_prim (v : value) :
  _is_prim v = true -> stable float_text v ->
  comment_free (_dump_oneline v).
Proof.
  intros Hp Hs.
  destruct v as [|[|]|z|r|s|l|d]; try discriminate; cbn [_dump_oneline].
  - apply comment_free_chars. repeat constructor.
  - apply comment_free_chars. repeat constructor.
  - apply comment_free_chars. repeat constructor.
  - apply comment_free_chars.
    eapply all_chars_impl; [apply numchar_sc_safe|apply int_repr_numchars].
  - cbn [stable] in Hs.
    destruct (canonical_numchars_or_constant r Hs) as [->|[->|[->|H]]];
      apply comment_free_chars; try (repeat constructor; fail).
    eapply all_chars_impl; [apply numchar_sc_safe|exact H].
  - apply comment_free_encode_basestring.
Qed.

Lemma comment_free_doc :
  (forall v t, Doc float_text v t -> comment_free t)
  /\ (forall l body, DocItems float_text l body -> comment_free body)
  /\ (forall d body, DocMembers float_text d body -> comment_free body).
Proof.
  assert (Hc : forall c, sc_safe c = true -> comment_free [c]).
  { intros c H. apply comment_free_chars. repeat constructor. exact H. }
  apply Doc_mutual; intros.
  - apply comment_free_prim; assumption.
  - apply (comment_free_app [LBRACKET]); [apply Hc; reflexivity|].
    apply comment_free_app; [apply comment_free_ws; assumption|].
    apply Hc; reflexivity.
  - apply (comment_free_app [LBRACKET]); [apply Hc; reflexivity|].
    apply comment_free_app; [apply comment_free_ws; assumption|].
    apply comment_free_app; [assumption|apply Hc; reflexivity].
  - apply (comment_free_app [LBRACE]); [apply Hc; reflexivity|].
    apply comment_free_app; [apply comment_free_ws; assumption|].
    apply Hc; reflexivity.
  - apply (comment_free_app [LBRACE]); [apply Hc; reflexivity|].
    apply comment_free_app; [apply comment_free_ws; assumption|].
    apply comment_free_app; [assumption|apply Hc; reflexivity].
  - apply comment_free_app; [assumption|apply comment_free_ws; assumption].
  - apply comment_free_app; [assumption|].
    apply comment_free_app; [apply comment_free_ws; assumption|].
    apply (comment_free_app [COMMA]); [apply Hc; reflexivity|].
    apply comment_free_app; [apply comment_free_ws; assumption|assumption].
  - apply comment_free_app; [apply comment_free_encode_basestring_ascii|].
    apply comment_free_app; [apply comment_free_ws; assumption|].
    apply (comment_free_app [COLON]); [apply Hc; reflexivity|].
    apply comment_free_app; [apply comment_free_ws; assumption|].
    apply comment_free_app; [assumption|apply comment_free_ws; assumption].
  - apply comment_free_app; [apply comment_free_encode_basestring_ascii|].
    apply comment_free_app; [apply comment_free_ws; assumption|].
    apply (comment_free_app [COLON]); [apply Hc; reflexivity|].
    apply comment_free_app; [apply comment_free_ws; assumption|].
    apply comment_free_app; [assumption|].
    apply comment_free_app; [apply comment_free_ws; assumption|].
    apply (comment_free_app [COMMA]); [apply Hc; reflexivity|].
    apply comment_free_app; [apply comment_free_ws; assumption|assumption].
Qed.

End CommentFree.

(** ** Trailing-comma removal leaves a document as it is *)

(** [p] goes through [_strip_trailing_commas] unchanged, whatever comes
    before and after it. *)
Definition comma_free (p : str) : Prop :=
  forall x out,
    strip_trailing_commas_loop (p ++ x) out false false
    = strip_trailing_commas_loop x (rev p ++ out) false false.

(** After [p], a closing bracket removes nothing. *)
Definition closable (p : str) : Prop :=
  forall out, pop_trailing_comma (rev p ++ out) = rev p ++ out.

Lemma comma_free_nil : comma_free [].
Proof. intros x out. reflexivity. Qed.

Lemma comma_free_app (p q : str) :
  comma_free p -> comma_free q -> comma_free (p ++ q).
Proof.
  intros Hp Hq x out.
  rewrite <- app_assoc, Hp, Hq, rev_app_distr, <- app_assoc. reflexivity.
Qed.

Definition tc_plain (c : char) : bool :=
  negb (char_eqb c QUOTE) && negb (char_eqb c RBRACE)
  && negb (char_eqb c RBRACKET).

Lemma comma_free_char (c : char) : tc_plain c = true -> comma_free [c].
Proof.
  unfold tc_plain. rewrite !andb_true_iff, !negb_true_iff.
  intros [[Hq Hb] Hk] x out. cbn [app strip_trailing_commas_loop rev].
  rewrite Hq, Hb, Hk. reflexivity.
Qed.

Lemma comma_free_chars (a : str) : all_chars tc_plain a -> comma_free a.
Proof.
  induction 1 as [|c a Hc _ IH]; [apply comma_free_nil|].
  apply (comma_free_app [c] a); [apply comma_free_char; exact Hc|exact IH].
Qed.

Lemma strip_trailing_commas_in_string (body x out : str) :
  string_items body ->
  strip_trailing_commas_loop (body ++ QUOTE :: x) out true false
  = strip_trailing_commas_loop x (QUOTE :: rev body ++ out) false false.
Proof.
  intros Hb. revert out.
  induction Hb as [|c s Hq Hbs _ IH|e s He _ IH]; intros out;
    cbn [app strip_trailing_commas_loop rev].
  - change (char_eqb QUOTE BACKSLASH) with false.
    change (char_eqb QUOTE QUOTE) with true. reflexivity.
  - rewrite Hbs, Hq, IH, <- app_assoc. reflexivity.
  - change (char_eqb BACKSLASH BACKSLASH) with true. cbv iota.
    rewrite IH, <- !app_assoc. reflexivity.
Qed.

(** A string literal goes through [_strip_trailing_commas] unchanged. *)
Lemma comma_free_literal (body : str) :
  string_items body -> comma_free (QUOTE :: body ++ [QUOTE]).
Proof.
  intros Hb x out. cbn [app strip_trailing_commas_loop].
  change (char_eqb QUOTE QUOTE) with true. cbv iota.
  rewrite <- app_assoc. cbn [app].
  rewrite (strip_trailing_commas_in_string body x _ Hb).
  cbn [rev]. rewrite rev_app_distr. cbn [rev app].
  rewrite <- app_assoc. reflexivity.
Qed.

Definition value_end (c : char) : bool :=
  negb (isspace c) && negb (char_eqb c COMMA).

Lemma is_ws_isspace (c : char) : is_ws c = true -> isspace c = true.
Proof.
  unfold is_ws, char_eqb. rewrite !orb_true_iff, !N.eqb_eq.
  unfold SP, NL. intros [[[->| ->]| ->]| ->]; reflexivity.
Qed.

Lemma pop_trailing_comma_ws (w out : str) :
  all_chars is_ws w ->
  pop_trailing_comma (w ++ out) = w ++ pop_trailing_comma out.
Proof.
  induction 1 as [|c w Hc _ IH]; cbn [app pop_trailing_comma]; [reflexivity|].
  rewrite (is_ws_isspace c Hc), IH. reflexivity.
Qed.

Lemma closable_end (p : str) (c : char) :
  value_end c = true -> closable (p ++ [c]).
Proof.
  unfold value_end. rewrite andb_true_iff, !negb_true_iff.
  intros [Hs Hc] out. rewrite rev_app_distr. cbn [rev app pop_trailing_comma].
  rewrite Hs, Hc. reflexivity.
Qed.

Lemma closable_ws (p w : str) : closable p -> ws w -> closable (p ++ w).
Proof.
  intros Hp Hw out. rewrite rev_app_distr, <- app_assoc.
  rewrite pop_trailing_comma_ws by (apply all_chars_rev; exact Hw).
  rewrite Hp. reflexivity.
Qed.

Lemma closable_after (p q : str) : closable q -> closable (p ++ q).
Proof.
  intros Hq out. rewrite rev_app_distr, <- app_assoc. apply Hq.
Qed.

(** A closing bracket after a closable text goes through unchanged. *)
Lemma comma_free_close (p : str) (c : char) :
  comma_free p -> closable p ->
  c = RBRACE \/ c = RBRACKET ->
  comma_free (p ++ [c]).
Proof.
  intros Hp Hcl Hc x out. rewrite <- app_assoc, Hp. cbn [app].
  cbn [strip_trailing_commas_loop].
  assert (E : char_eqb c QUOTE = false
              /\ (char_eqb c RBRACE || char_eqb c RBRACKET) = true).
  { destruct Hc as [-> | ->]; split; reflexivity. }
  destruct E as [E1 E2]. rewrite E1, E2, Hcl.
  rewrite rev_app_distr. reflexivity.
Qed.

Lemma numchar_tc_plain (c : char) :
  numchar c = true -> tc_plain c = true /\ value_end c = true.
Proof.
  intros H. apply numchar_cases in H.
  unfold tc_plain, value_end, isspace, char_eqb.
  rewrite !andb_true_iff, !negb_true_iff, !N.eqb_neq, !orb_false_iff.
  rewrite !andb_false_iff, !N.eqb_neq, !N.leb_gt.
  unfold QUOTE, RBRACE, RBRACKET, COMMA.
  destruct H as [H|H]; [|cbn [In] in H]; repeat split; lia.
Qed.

Lemma is_ws_tc_plain (c : char) : is_ws c = true -> tc_plain c = true.
Proof.
  unfold is_ws, tc_plain, char_eqb.
  rewrite !orb_true_iff, !andb_true_iff, !negb_true_iff, !N.eqb_eq, !N.eqb_neq.
  unfold SP, NL, QUOTE, RBRACE, RBRACKET. lia.
Qed.

Lemma comma_free_ws (w : str) : ws w -> comma_free w.
Proof.
  intros Hw. apply comma_free_chars.
  eapply all_chars_impl; [apply is_ws_tc_plain|exact Hw].
Qed.

(** A text of plain characters that ends a value *)
Definition token (t : str) : Prop :=
  all_chars (fun c => tc_plain c && value_end c) t /\ t <> [].

Lemma token_comma_free (t : str) : token t -> comma_free t /\ closable t.
Proof.
  intros [Hc Hne]. split.
  - apply comma_free_chars. eapply all_chars_impl; [|exact Hc].
    intros c H. apply andb_true_iff in H. apply H.
  - destruct (exists_last Hne) as [p [c E]]. subst t.
    apply closable_end.
    apply all_chars_app in Hc. destruct Hc as [_ Hc].
    inversion Hc as [|? ? H _]; subst. apply andb_true_iff in H. apply H.
Qed.

Lemma numchars_token (t : str) : all_chars numchar t -> t <> [] -> token t.
Proof.
  intros Hc Hne. split; [|exact Hne].
  eapply all_chars_impl; [|exact Hc].
  intros c H. apply numchar_tc_plain in H. apply andb_true_iff. exact H.
Qed.

Lemma int_repr_nonempty (z : Z) : int_repr z <> [].
Proof.
  unfold int_repr. destruct z as [|p|p]; cbn [Z.to_int]; try discriminate.
  destruct (pos_to_uint_head p) as [c [ds [E _]]]. rewrite E. discriminate.
Qed.

Section CommaFree.

Variable float_text : str -> str.

Lemma comma_free_prim (v : value) :
  _is_prim v = true -> stable float_text v ->
  comma_free (_dump_oneline v) /\ closable (_dump_oneline v).
Proof.
  intros Hp Hs.
  destruct v as [|[|]|z|r|s|l|d]; try discriminate; cbn [_dump_oneline].
  - apply token_comma_free. split; [repeat constructor|discriminate].
  - apply token_comma_free. split; [repeat constructor|discriminate].
  - apply token_comma_free. split; [repeat constructor|discriminate].
  - apply token_comma_free, numchars_token;
      [apply int_repr_numchars|apply int_repr_nonempty].
  - cbn [stable] in Hs.
    destruct Hs as [->|[->|[->|[Hlit _]]]];
      try (apply token_comma_free; split;
           [repeat constructor|discriminate]).
    apply token_comma_free, numchars_token.
    + apply is_float_literal_numchars. exact Hlit.
    + intros ->. discriminate Hlit.
  - unfold encode_basestring. split.
    + apply comma_free_literal, flat_map_items, escape_char_items.
    + change (QUOTE :: flat_map escape_char s ++ [QUOTE])
        with ((QUOTE :: flat_map escape_char s) ++ [QUOTE]).
      apply closable_end. reflexivity.
Qed.

Lemma comma_free_key (k : str) : comma_free (encode_basestring_ascii k).
Proof. apply comma_free_literal, flat_map_items, escape_char_ascii_items. Qed.

Lemma comma_free_doc :
  (forall v t, Doc float_text v t -> comma_free t /\ closable t)
  /\ (forall l body, DocItems float_text l body ->
        comma_free body /\ closable body)
  /\ (forall d body, DocMembers float_text d body ->
        comma_free body /\ closable body).
Proof.
  assert (Hc : forall c, tc_plain c = true -> comma_free [c]).
  { intros c H. apply comma_free_char. exact H. }
  assert (Hend : forall (p : str) (c : char),
             c = RBRACE \/ c = RBRACKET -> closable (p ++ [c])).
  { intros p c [-> | ->]; apply closable_end; reflexivity. }
  assert (Hopen : forall (o : char) (w : str) (c : char),
             tc_plain o = true -> value_end o = true -> ws w ->
             c = RBRACE \/ c = RBRACKET ->
             comma_free (o :: w ++ [c]) /\ closable (o :: w ++ [c])).
  { intros o w c Ho He Hw Hcl. split.
    - change (o :: w ++ [c]) with ((o :: w) ++ [c]).
      apply comma_free_close; [| |exact Hcl].
      + apply (comma_free_app [o] w); [apply Hc; exact Ho|].
        apply comma_free_ws. exact Hw.
      + apply (closable_ws [o] w); [|exact Hw].
        apply (closable_end [] o He).
    - change (o :: w ++ [c]) with ((o :: w) ++ [c]). apply Hend. exact Hcl. }
  assert (Hwrap : forall (o : char) (w body : str) (c : char),
             tc_plain o = true -> ws w ->
             comma_free body -> closable body ->
             c = RBRACE \/ c = RBRACKET ->
             comma_free (o :: w ++ body ++ [c])
             /\ closable (o :: w ++ body ++ [c])).
  { intros o w body c Ho Hw Hb Hclb Hcl. split.
    - replace (o :: w ++ body ++ [c]) with (((o :: w) ++ body) ++ [c])
        by (rewrite <- !app_assoc; reflexivity).
      apply comma_free_close; [| |exact Hcl].
      + apply comma_free_app; [|exact Hb].
        apply (comma_free_app [o] w); [apply Hc; exact Ho|].
        apply comma_free_ws. exact Hw.
      + apply closable_after. exact Hclb.
    - replace (o :: w ++ body ++ [c]) with (((o :: w) ++ body) ++ [c])
        by (rewrite <- !app_assoc; reflexivity).
      apply Hend. exact Hcl. }
  apply Doc_mutual.
  - intros v Hp Hs. apply comma_free_prim; assumption.
  - intros w Hw. apply Hopen; auto.
  - intros w l body Hw _ [Hb Hcl]. apply Hwrap; auto.
  - intros w Hw. apply Hopen; auto.
  - intros w d body Hw _ _ [Hb Hcl]. apply Hwrap; auto.
  - intros v t w _ [Ht Hcl] Hw. split.
    + apply comma_free_app; [exact Ht|apply comma_free_ws; exact Hw].
    + apply closable_ws; assumption.
  - intros v t w1 w2 l body _ [Ht _] Hw1 Hw2 _ [Hb Hcl]. split.
    + apply comma_free_app; [exact Ht|].
      apply comma_free_app; [apply comma_free_ws; exact Hw1|].
      apply (comma_free_app [COMMA]); [apply Hc; reflexivity|].
      apply comma_free_app; [apply comma_free_ws; exact Hw2|exact Hb].
    + apply closable_after. apply closable_after.
      apply (closable_after [COMMA]). apply closable_after. exact Hcl.
  - intros k v t w1 w2 w3 _ _ [Ht Hcl] Hw1 Hw2 Hw3. split.
    + apply comma_free_app; [apply comma_free_key|].
      apply comma_free_app; [apply comma_free_ws; exact Hw1|].
      apply (comma_free_app [COLON]); [apply Hc; reflexivity|].
      apply comma_free_app; [apply comma_free_ws; exact Hw2|].
      apply comma_free_app; [exact Ht|apply comma_free_ws; exact Hw3].
    + apply closable_after. apply closable_after.
      apply (closable_after [COLON]). apply closable_after.
      apply closable_ws; assumption.
  - intros k v t w1 w2 w3 w4 d body _ _ [Ht _] Hw1 Hw2 Hw3 Hw4 _ [Hb Hcl].
    split.
    + apply comma_free_app; [apply comma_free_key|].
      apply comma_free_app; [apply comma_free_ws; exact Hw1|].
      apply (comma_free_app [COLON]); [apply Hc; reflexivity|].
      apply comma_free_app; [apply comma_free_ws; exact Hw2|].
      apply comma_free_app; [exact Ht|].
      apply comma_free_app; [apply comma_free_ws; exact Hw3|].
      apply (comma_free_app [COMMA]); [apply Hc; reflexivity|].
      apply comma_free_app; [apply comma_free_ws; exact Hw4|exact Hb].
    + apply closable_after. apply closable_after.
      apply (closable_after [COLON]). apply closable_after.
      apply closable_after. apply closable_after.
      apply (closable_after [COMMA]). apply closable_after. exact Hcl.
Qed.

End CommaFree.

(** ** Parsing a document *)

Section ParseDocument.

Variable float_text : str -> str.

Lemma strip_comments_doc (v : value) (t e : str) :
  Doc float_text v t -> ws e -> _strip_comments (t ++ e) = t ++ e.
Proof.
  intros Hd He. unfold _strip_comments.
  destruct (comment_free_doc float_text) as [H _].
  pose proof (comment_free_app t e (H v t Hd) (comment_free_ws e He) []) as E.
  rewrite app_nil_r in E. rewrite E. cbn [strip_comments_loop].
  apply app_nil_r.
Qed.

Lemma strip_trailing_commas_doc (v : value) (t e : str) :
  Doc float_text v t -> ws e -> _strip_trailing_commas (t ++ e) = t ++ e.
Proof.
  intros Hd He. unfold _strip_trailing_commas.
  destruct (comma_free_doc float_text) as [H _].
  destruct (H v t Hd) as [Ht _].
  pose proof (comma_free_app t e Ht (comma_free_ws e He) [] []) as E.
  rewrite app_nil_r in E. rewrite E. cbn [strip_trailing_commas_loop].
  rewrite app_nil_r. apply rev_involutive.
Qed.

Lemma ws_follow_ok (e : str) : ws e -> follow_ok e.
Proof.
  intros He. destruct He as [|c e Hc _]; [exact I|].
  cbn [follow_ok]. unfold delimiter. rewrite Hc. reflexivity.
Qed.

Lemma loads_doc (v : value) (t e : str) :
  Doc float_text v t -> ws e -> loads float_text (t ++ e) = Value v.
Proof.
  intros Hd He. unfold loads.
  destruct (Doc_starts_value float_text) as [Hstart _].
  pose proof (Hstart v t Hd) as Hs.
  destruct t as [|c t']; [contradiction|]. cbn [starts_value] in Hs.
  destruct (value_start_not_closing c Hs) as [_ [_ Hbom]].
  cbn [app starts_with].
  replace (char_eqb 65279%N c) with (char_eqb c 65279%N) by apply N.eqb_sym.
  rewrite Hbom. cbn [andb].
  rewrite (skip_ws_stop c (t' ++ e) (value_start_not_ws c Hs)).
  destruct (read_back float_text) as [Hread _].
  change (c :: t' ++ e) with ((c :: t') ++ e).
  rewrite (Hread v (c :: t') Hd e _ (ws_follow_ok e He)).
  - pose proof (skip_ws_ws e [] He) as E. rewrite app_nil_r in E.
    rewrite E. reflexivity.
  - rewrite length_app. lia.
Qed.

(** A document followed by white space is parsed to its value. *)
Lemma parse_doc (v : value) (t e : str) :
  Doc float_text v t -> ws e ->
  parse_json_lenient float_text (t ++ e) = Value v.
Proof.
  intros Hd He. unfold parse_json_lenient.
  rewrite (strip_comments_doc v t e Hd He).
  rewrite (strip_trailing_commas_doc v t e Hd He).
  apply loads_doc; assumption.
Qed.

End ParseDocument.

(** ** Every layout is a document *)

Lemma ws_spaces (n : Z) : ws (spaces n).
Proof.
  unfold spaces. induction (Z.to_nat n) as [|k IH]; simpl;
    constructor; [reflexivity|exact IH].
Qed.

Lemma ws_app (a b : str) : ws a -> ws b -> ws (a ++ b).
Proof. intros Ha Hb. apply all_chars_app. split; assumption. Qed.

Lemma ws_cons (c : char) (a : str) : is_ws c = true -> ws a -> ws (c :: a).
Proof. intros Hc Ha. constructor; assumption. Qed.

Lemma traverse_prefixed {A : Type} (f : A -> option str) (pre : str)
  (l : list A) (parts : list str) :
  traverse (fun x => match f x with
                     | None => None
                     | Some s => Some (pre ++ s)
                     end) l = Some parts ->
  exists texts,
    parts = map (app pre) texts /\ Forall2 (fun x s => f x = Some s) l texts.
Proof.
  revert parts. induction l as [|x l IH]; intros parts; cbn [traverse].
  - intros H; inversion H. exists []. split; [reflexivity|constructor].
  - destruct (f x) as [s|] eqn:Hx; [|discriminate].
    match goal with |- context [traverse ?g l] =>
      destruct (traverse g l) as [ps|] eqn:Hl end; [|discriminate].
    intros H; inversion H; subst.
    destruct (IH ps eq_refl) as [texts [-> Hall]].
    exists (s :: texts). split; [reflexivity|].
    constructor; assumption.
Qed.

Lemma join_cons (sep p q : str) (rest : list str) :
  join sep (p :: q :: rest) = p ++ sep ++ join sep (q :: rest).
Proof. reflexivity. Qed.

Section Layouts.

Variable float_text : str -> str.

Lemma items_join (vs : list value) (texts : list str) (pre sepws post : str) :
  Forall2 (Doc float_text) vs texts -> vs <> [] ->
  ws pre -> ws sepws -> ws post ->
  exists body,
    DocItems float_text vs body
    /\ join (COMMA :: sepws) (map (app pre) texts) ++ post = pre ++ body.
Proof.
  intros Hall Hne Hpre Hsep Hpost.
  induction Hall as [|v t vs texts Hd Hrest IH]; [congruence|].
  destruct vs as [|v2 vs].
  - inversion Hrest; subst. exists (t ++ post).
    split; [apply Items_last; assumption|].
    cbn [map join]. rewrite <- app_assoc. reflexivity.
  - destruct IH as [body [Hbody E]]; [discriminate|].
    inversion Hrest as [|? t2 ? texts2 ? ?]; subst.
    exists (t ++ [] ++ COMMA :: (sepws ++ pre) ++ body).
    split.
    + apply Items_more; try assumption; [constructor|].
      apply ws_app; assumption.
    + cbn [map] in E |- *. rewrite join_cons.
      rewrite <- !app_assoc. cbn [app]. do 2 apply f_equal.
      apply (f_equal (cons COMMA)). apply f_equal. exact E.
Qed.

(** An array laid out with white space [w] after the opening bracket,
    [pre] before each text, a comma and [sepws] between two texts, and
    [post] before the closing bracket. *)
Lemma doc_list_layout (vs : list value) (texts : list str)
  (w pre sepws post : str) :
  Forall2 (Doc float_text) vs texts ->
  ws w -> ws pre -> ws sepws -> ws post ->
  Doc float_text (VList vs)
    (LBRACKET :: w ++ join (COMMA :: sepws) (map (app pre) texts)
       ++ post ++ [RBRACKET]).
Proof.
  intros Hall Hw Hpre Hsep Hpost.
  destruct vs as [|v vs].
  - inversion Hall; subst. cbn [map join app].
    rewrite app_assoc. apply Doc_empty_list. apply ws_app; assumption.
  - destruct (items_join (v :: vs) texts pre sepws post Hall)
      as [body [Hbody E]]; try assumption; [discriminate|].
    rewrite (app_assoc _ post), E, <- app_assoc, (app_assoc w pre).
    apply Doc_list; [apply ws_app; assumption|exact Hbody].
Qed.

Definition member_doc (kv : str * value) (m : str) : Prop :=
  exists t, m = member_text (fst kv) t
            /\ key_ok (fst kv) = true /\ Doc float_text (snd kv) t.

Lemma members_join (d : dict) (mtexts : list str) (pre sepws post : str) :
  Forall2 member_doc d mtexts -> d <> [] ->
  ws pre -> ws sepws -> ws post ->
  exists body,
    DocMembers float_text d body
    /\ join (COMMA :: sepws) (map (app pre) mtexts) ++ post = pre ++ body.
Proof.
  intros Hall Hne Hpre Hsep Hpost.
  induction Hall as [|[k v] m d mtexts [t [-> [Hk Hd]]] Hrest IH];
    [congruence|].
  cbn [fst snd] in *. unfold member_text, COLON_SP.
  destruct d as [|kv2 d].
  - inversion Hrest; subst.
    exists (encode_basestring_ascii k ++ [] ++ COLON :: [SP] ++ t ++ post).
    split.
    + apply Members_last; try assumption; repeat constructor.
    + cbn [map join app]. rewrite <- !app_assoc. reflexivity.
  - destruct IH as [body [Hbody E]]; [discriminate|].
    inversion Hrest as [|? m2 ? mtexts2 ? ?]; subst.
    exists (encode_basestring_ascii k ++ [] ++ COLON :: [SP] ++ t ++ []
              ++ COMMA :: (sepws ++ pre) ++ body).
    split.
    + apply Members_more; try assumption; try (repeat constructor; fail).
      apply ws_app; assumption.
    + cbn [map] in E |- *. rewrite join_cons.
      rewrite <- !app_assoc. cbn [app]. do 2 apply f_equal.
      apply (f_equal (fun x => COLON :: SP :: x)). apply f_equal.
      apply (f_equal (cons COMMA)). apply f_equal. exact E.
Qed.

Lemma doc_dict_layout (d : dict) (mtexts : list str) (w pre sepws post : str) :
  NoDup (keys d) -> Forall2 member_doc d mtexts ->
  ws w -> ws pre -> ws sepws -> ws post ->
  Doc float_text (VDict d)
    (LBRACE :: w ++ join (COMMA :: sepws) (map (app pre) mtexts)
       ++ post ++ [RBRACE]).
Proof.
  intros Hnd Hall Hw Hpre Hsep Hpost.
  destruct d as [|kv d].
  - inversion Hall; subst. cbn [map join app].
    rewrite app_assoc. apply Doc_empty_dict. apply ws_app; assumption.
  - destruct (members_join (kv :: d) mtexts pre sepws post Hall)
      as [body [Hbody E]]; try assumption; [discriminate|].
    rewrite (app_assoc _ post), E, <- app_assoc, (app_assoc w pre).
    apply Doc_dict; [apply ws_app; assumption|exact Hnd|exact Hbody].
Qed.

Lemma map_app_nil (texts : list str) : map (app []) texts = texts.
Proof.
  induction texts as [|t texts IH]; [reflexivity|].
  cbn [map]. rewrite IH. reflexivity.
Qed.

(** The three shapes that [_format_value] gives to an array *)
Lemma doc_compact_list (vs : list value) (texts : list str) :
  Forall2 (Doc float_text) vs texts ->
  Doc float_text (VList vs)
    (LBRACKET :: SP :: join COMMA_SP texts ++ [SP; RBRACKET]).
Proof.
  intros Hall.
  pose proof (doc_list_layout vs texts [SP] [] [SP] [SP] Hall) as H.
  rewrite map_app_nil in H. apply H; repeat constructor.
Qed.

Lemma doc_inline_list (vs : list value) (texts : list str) :
  Forall2 (Doc float_text) vs texts ->
  Doc float_text (VList vs) (LBRACKET :: join COMMA_SP texts ++ [RBRACKET]).
Proof.
  intros Hall.
  pose proof (doc_list_layout vs texts [] [] [SP] [] Hall) as H.
  rewrite map_app_nil in H. apply H; repeat constructor.
Qed.

Lemma doc_block_list (vs : list value) (texts : list str) (n m : Z) :
  Forall2 (Doc float_text) vs texts ->
  Doc float_text (VList vs)
    (block LBRACKET (map (app (spaces n)) texts) (spaces m) RBRACKET).
Proof.
  intros Hall. unfold block.
  pose proof (doc_list_layout vs texts [NL] (spaces n) [NL] (NL :: spaces m)
                Hall) as H.
  cbn [app] in H. apply H; try apply ws_spaces; repeat constructor.
  apply ws_spaces.
Qed.

Lemma doc_compact_dict (d : dict) (mtexts : list str) :
  NoDup (keys d) -> Forall2 member_doc d mtexts ->
  Doc float_text (VDict d)
    (LBRACE :: SP :: join COMMA_SP mtexts ++ [SP; RBRACE]).
Proof.
  intros Hnd Hall.
  pose proof (doc_dict_layout d mtexts [SP] [] [SP] [SP] Hnd Hall) as H.
  rewrite map_app_nil in H. apply H; repeat constructor.
Qed.

Lemma doc_block_dict (d : dict) (mtexts : list str) (n m : Z) :
  NoDup (keys d) -> Forall2 member_doc d mtexts ->
  Doc float_text (VDict d)
    (block LBRACE (map (app (spaces n)) mtexts) (spaces m) RBRACE).
Proof.
  intros Hnd Hall. unfold block.
  pose proof (doc_dict_layout d mtexts [NL] (spaces n) [NL] (NL :: spaces m)
                Hnd Hall) as H.
  cbn [app] in H. apply H; try apply ws_spaces; repeat constructor.
  apply ws_spaces.
Qed.

End Layouts.

(** ** The layout engine prints documents *)

Lemma small_prim_is_prim (v : value) (cfg : FormatConfig) :
  _is_small_prim v cfg = true -> _is_prim v = true.
Proof.
  unfold _is_small_prim. destruct (_is_prim v); [reflexivity|discriminate].
Qed.

Lemma Forall2_prefixed {A : Type} (R : A -> str -> Prop) (pre : str)
  (l : list A) (parts : list str) :
  Forall2 (fun x p => exists t, p = pre ++ t /\ R x t) l parts ->
  exists texts, parts = map (app pre) texts /\ Forall2 R l texts.
Proof.
  induction 1 as [|x p l parts [t [-> Ht]] _ [texts [-> IH]]].
  - exists []. split; [reflexivity|constructor].
  - exists (t :: texts). split; [reflexivity|]. constructor; assumption.
Qed.

Lemma homog_part_nodup (cfg : FormatConfig) (key_order : list str)
  (child : str) (el : value) :
  NoDup (keys (as_dict el)) ->
  homog_elem cfg key_order el ->
  homog_part key_order cfg child el
  = Some (child ++ compact_object_text (as_dict el)).
Proof.
  intros Hnd [Hd [Hk Hsm]]. unfold homog_part.
  rewrite <- Hk. rewrite el_sorted_of_self by (apply distinct_NoDup; exact Hnd).
  unfold _compact_object. rewrite Hsm. reflexivity.
Qed.

Section Printing.

Variable float_text : str -> str.

Lemma small_members_doc (d : dict) (cfg : FormatConfig) :
  Forall (member_ok float_text) d ->
  forallb (fun v => _is_small_prim v cfg) (values d) = true ->
  Forall2 (member_doc float_text) d
    (map (fun kv => member_text (fst kv) (_dump_oneline (snd kv))) d).
Proof.
  induction 1 as [|[k v] d [Hk Hv] _ IH]; cbn [values map forallb];
    [constructor|].
  fold (values d). intros H. apply andb_true_iff in H. destruct H as [Hs Hrest].
  constructor; [|exact (IH Hrest)].
  exists (_dump_oneline v). cbn [fst snd] in *.
  repeat split; [exact Hk|].
  apply Doc_prim; [exact (small_prim_is_prim v cfg Hs)|exact Hv].
Qed.

Lemma compact_object_text_doc (d : dict) (cfg : FormatConfig) :
  stable float_text (VDict d) ->
  forallb (fun v => _is_small_prim v cfg) (values d) = true ->
  Doc float_text (VDict d) (compact_object_text d).
Proof.
  intros Hs Hsm. apply stable_dict in Hs. destruct Hs as [Hnd Hall].
  apply doc_compact_dict; [exact Hnd|].
  apply small_members_doc with (cfg := cfg); assumption.
Qed.

Lemma compact_object_doc (d : dict) (cfg : FormatConfig) (t : str) :
  stable float_text (VDict d) ->
  _compact_object d cfg = Some t -> Doc float_text (VDict d) t.
Proof.
  intros Hs. unfold _compact_object.
  destruct (forallb _ (values d)) eqn:Hsm; [|discriminate].
  intros H; inversion H; subst.
  exact (compact_object_text_doc d cfg Hs Hsm).
Qed.

Lemma compact_list_value_doc (val : value) :
  stable float_text val ->
  forall (cfg : FormatConfig) (level : Z) (t : str),
    compact_list_value val cfg level = Some t -> Doc float_text val t.
Proof.
  induction val as [|b|z|r|s0|lst IH|items IH] using value_nested_ind;
    intros Hs cfg level t; try discriminate.
  cbn [compact_list_value].
  match goal with |- context [traverse ?f lst] =>
    destruct (traverse f lst) as [parts|] eqn:Ht end; [|discriminate].
  destruct (_ || _); [|discriminate].
  intros H; inversion H; subst. apply doc_compact_list.
  apply traverse_Forall2 in Ht. apply stable_list in Hs.
  clear H. induction Ht as [|el p lst parts Hel _ IHt]; [constructor|].
  inversion IH as [|? ? IHel IHrest]; subst.
  inversion Hs as [|? ? Hsel Hsrest]; subst.
  constructor; [|exact (IHt IHrest Hsrest)].
  destruct (_is_prim el) eqn:Hp.
  - inversion Hel; subst. apply Doc_prim; assumption.
  - destruct el as [|b|z|r|s0|l|d]; try discriminate.
    + exact (IHel Hsel cfg level p Hel).
    + exact (compact_object_doc d cfg p Hsel Hel).
Qed.

Lemma elem_string_doc (cfg : FormatConfig) (level : Z) (el : value)
  (t : str) :
  stable float_text el ->
  elem_string cfg level el = Some t -> Doc float_text el t.
Proof.
  intros Hs. unfold elem_string. destruct (_is_prim el) eqn:Hp.
  - intros H; inversion H; subst. apply Doc_prim; assumption.
  - destruct el as [|b|z|r|s0|l|d]; try discriminate.
    + apply compact_list_value_doc. exact Hs.
    + apply compact_object_doc. exact Hs.
Qed.

Lemma collapse_key_strategy_doc (lst : list value) (cfg : FormatConfig)
  (level : Z) (t : str) :
  stable float_text (VList lst) ->
  collapse_key_strategy lst cfg level = Return t ->
  Doc float_text (VList lst) t.
Proof.
  intros Hs. unfold collapse_key_strategy.
  destruct (_compact_list lst cfg level) as [whole|] eqn:Ec.
  - intros H; inversion H; subst.
    exact (compact_list_value_doc (VList lst) Hs cfg level t Ec).
  - destruct (traverse (elem_string cfg level) lst) as [es|] eqn:Et;
      [|discriminate].
    intros H; inversion H; subst. apply doc_block_list.
    apply traverse_Forall2 in Et. apply stable_list in Hs.
    clear H Ec. induction Et as [|el p lst es Hel _ IHt]; [constructor|].
    inversion Hs; subst. constructor; [|apply IHt; assumption].
    apply elem_string_doc with (cfg := cfg) (level := level); assumption.
Qed.

Lemma homogeneous_strategy_doc (lst : list value) (cfg : FormatConfig)
  (level : Z) (t : str) :
  stable float_text (VList lst) ->
  homogeneous_strategy lst cfg level = Return t ->
  Doc float_text (VList lst) t.
Proof.
  intros Hs. unfold homogeneous_strategy.
  destruct (inline_homogeneous_objects cfg); [|discriminate].
  destruct (_array_is_homog_small_objs lst cfg) as [ok key_order] eqn:Eh.
  destruct ok; [|discriminate].
  destruct (traverse _ lst) as [parts|] eqn:Et; [|discriminate].
  intros H; inversion H; subst. clear H.
  apply homog_true_inv in Eh. destruct Eh as [_ [_ [_ Hall]]].
  apply traverse_Forall2 in Et. apply stable_list in Hs.
  destruct (Forall2_prefixed (Doc float_text)
              (spaces (indent cfg * (level + 1))) lst parts)
    as [texts [-> Hdocs]].
  - induction Et as [|el p lst parts Hel _ IHt]; [constructor|].
    inversion Hs; subst. inversion Hall; subst.
    constructor; [|apply IHt; assumption].
    match goal with Hh : homog_elem _ _ el |- _ =>
      pose proof Hh as [Hd [_ Hsm]];
      rewrite (homog_part_nodup cfg key_order _ el) in Hel;
      [|destruct el; try discriminate;
        match goal with Hst : stable _ (VDict _) |- _ =>
          apply stable_dict in Hst; exact (proj1 Hst) end
       |exact Hh] end.
    inversion Hel; subst. eexists. split; [reflexivity|].
    destruct el as [|b|z|r|s0|l|d]; try discriminate.
    cbn [as_dict] in *.
    apply compact_object_text_doc with (cfg := cfg); assumption.
  - apply doc_block_list. exact Hdocs.
Qed.

Lemma prims_doc (lst : list value) :
  Forall (stable float_text) lst -> forallb _is_prim lst = true ->
  Forall2 (Doc float_text) lst (map _dump_oneline lst).
Proof.
  induction 1 as [|v lst Hv _ IH]; cbn [forallb map]; [constructor|].
  intros H. apply andb_true_iff in H. destruct H as [Hp Hrest].
  constructor; [apply Doc_prim; assumption|exact (IH Hrest)].
Qed.

Lemma prim_collapse_strategy_doc (lst : list value) (cfg : FormatConfig)
  (level : Z) (t : str) :
  stable float_text (VList lst) ->
  prim_collapse_strategy lst cfg level = Return t ->
  Doc float_text (VList lst) t.
Proof.
  intros Hs. unfold prim_collapse_strategy.
  destruct (str_eqb (array_wrap cfg) COLLAPSE && nonempty lst) ;
    [|discriminate].
  cbn [andb]. destruct (forallb _is_prim lst) eqn:Hp; [|discriminate].
  destruct (_ && _); [|discriminate].
  intros H; inversion H; subst. apply doc_inline_list.
  apply prims_doc; [apply stable_list; exact Hs|exact Hp].
Qed.

Lemma inner_chunks_doc (f : str -> value -> option str) (d : dict)
  (chunks : list str) :
  Forall (fun kv => member_ok float_text kv
                    /\ forall t, f (fst kv) (snd kv) = Some t ->
                                 Doc float_text (snd kv) t) d ->
  inner_chunks_of f d = Some (Some chunks) ->
  Forall2 (member_doc float_text) d chunks.
Proof.
  intros Hall. revert chunks.
  induction Hall as [|kv d [[Hk Hv] Hf] _ IH]; intros chunks;
    cbn [inner_chunks_of].
  - intros H; inversion H. constructor.
  - fold (inner_chunks_of f).
    destruct (_is_prim (snd kv)) eqn:Hp.
    + destruct (inner_chunks_of f d) as [[cs|]|]; try discriminate.
      intros H; inversion H; subst.
      constructor; [|apply IH; reflexivity].
      exists (_dump_oneline (snd kv)). repeat split; [exact Hk|].
      apply Doc_prim; assumption.
    + destruct (f (fst kv) (snd kv)) as [c|] eqn:Ef; [|discriminate].
      destruct (has_nl c); [discriminate|].
      destruct (inner_chunks_of f d) as [[cs|]|]; try discriminate.
      intros H; inversion H; subst.
      constructor; [|apply IH; reflexivity].
      exists c. repeat split; [exact Hk|]. apply Hf. reflexivity.
Qed.

Lemma format_value_doc (val : value) :
  stable float_text val ->
  forall (cfg : FormatConfig) (level : Z) (parent_key : option str)
         (out : str),
    _format_value val cfg level parent_key = Some out ->
    Doc float_text val out.
Proof.
  induction val as [|b|z|r|s0|lst IH|items IH] using value_nested_ind;
    intros Hs cfg level parent_key out;
    try (cbn [_format_value]; intros H; inversion H; subst;
         apply Doc_prim; [reflexivity|exact Hs]).
  - (* arrays *)
    cbn [_format_value].
    destruct (if in_collapse_keys parent_key cfg
              then collapse_key_strategy lst cfg level else Fallthrough)
      as [s| |] eqn:E1; [| |discriminate].
    { intros H; inversion H; subst.
      destruct (in_collapse_keys parent_key cfg); [|discriminate].
      exact (collapse_key_strategy_doc lst cfg level out Hs E1). }
    destruct (homogeneous_strategy lst cfg level) as [s| |] eqn:E2;
      [| |discriminate].
    { intros H; inversion H; subst.
      exact (homogeneous_strategy_doc lst cfg level out Hs E2). }
    destruct (prim_collapse_strategy lst cfg level) as [s| |] eqn:E3;
      [| |discriminate].
    { intros H; inversion H; subst.
      exact (prim_collapse_strategy_doc lst cfg level out Hs E3). }
    destruct (traverse _ lst) as [parts|] eqn:Et; [|discriminate].
    intros H; inversion H; subst. clear H.
    apply traverse_prefixed in Et. destruct Et as [texts [-> Hdocs]].
    apply doc_block_list. apply stable_list in Hs.
    clear E1 E2 E3.
    induction Hdocs as [|el p lst texts Hel _ IHd]; [constructor|].
    inversion IH; subst. inversion Hs; subst.
    constructor; [|apply IHd; assumption].
    match goal with Hi : forall _ : stable _ el, _ |- _ =>
      eapply Hi; [assumption|exact Hel] end.
  - (* objects *)
    cbn [_format_value].
    pose proof Hs as Hs'. apply stable_dict in Hs'.
    destruct Hs' as [Hnd Hall].
    match goal with |- context [match ?strategy with
                                | Return _ => _ | Fallthrough => _
                                | Raise => _ end] =>
      destruct strategy as [s| |] eqn:E1 end; [| |discriminate].
    + intros H; inversion H; subst. clear H.
      destruct (str_eqb (object_wrap cfg) COLLAPSE); [|discriminate].
      destruct (_ && nonempty items); [|discriminate].
      destruct (inner_chunks_of _ items) as [[chunks|]|] eqn:Ei;
        try discriminate.
      destruct (_ && _); [|discriminate].
      inversion E1; subst. apply doc_compact_dict; [exact Hnd|].
      eapply inner_chunks_doc; [|exact Ei].
      clear Ei E1 Hnd Hs.
      induction Hall as [|kv items Hkv _ IHa]; [constructor|].
      inversion IH; subst. constructor; [|apply IHa; assumption].
      split; [exact Hkv|]. intros t Ht.
      match goal with Hi : forall _ : stable _ (snd kv), _ |- _ =>
        eapply Hi; [exact (proj2 Hkv)|exact Ht] end.
    + destruct (traverse _ items) as [lines|] eqn:Et; [|discriminate].
      intros H; inversion H; subst. clear H E1.
      apply traverse_Forall2 in Et.
      destruct (Forall2_prefixed (member_doc float_text)
                  (spaces (indent cfg * (level + 1))) items lines)
        as [mtexts [-> Hdocs]].
      * clear Hnd Hs.
        induction Et as [|kv p items lines Hel _ IHt]; [constructor|].
        inversion IH; subst. inversion Hall as [|? ? Hkv Hrest]; subst.
        constructor; [|apply IHt; assumption].
        destruct (_format_value (snd kv) cfg (level + 1) (Some (fst kv)))
          as [formatted|] eqn:Ef; [|discriminate].
        inversion Hel; subst. exists (member_text (fst kv) formatted).
        split; [reflexivity|]. exists formatted.
        repeat split; [exact (proj1 Hkv)|].
        match goal with Hi : forall _ : stable _ (snd kv), _ |- _ =>
          eapply Hi; [exact (proj2 Hkv)|exact Ef] end.
      * apply doc_block_dict; assumption.
Qed.

End Printing.

(** ** What the decoder returns

    A text read from a file is a sequence of Unicode scalar values: code
    points that are not surrogates.  For such a text the decoder returns a
    stable value. *)

Definition scalar (c : char) : bool :=
  (c <? 1114112)%N && negb (is_high_surrogate c)
  && negb (is_low_surrogate c).

Definition scalars (s : str) : Prop := all_chars scalar s.

Lemma scalar_inv (c : char) :
  scalar c = true ->
  (c < 1114112)%N /\ is_high_surrogate c = false
  /\ is_low_surrogate c = false.
Proof.
  unfold scalar. rewrite !andb_true_iff, !negb_true_iff, N.ltb_lt. tauto.
Qed.

Lemma scalars_tail (c : char) (s : str) : scalars (c :: s) -> scalars s.
Proof. intros H; inversion H; assumption. Qed.

Lemma scalars_skipn (n : nat) (s : str) : scalars s -> scalars (skipn n s).
Proof.
  revert s; induction n as [|n IH]; intros s H; [exact H|].
  destruct s as [|c s]; [exact H|]. cbn [skipn]. apply IH.
  exact (scalars_tail c s H).
Qed.

Lemma scalars_skip_ws (s : str) : scalars s -> scalars (skip_ws s).
Proof.
  induction 1 as [|c s Hc Hs IH]; cbn [skip_ws]; [constructor|].
  destruct (is_ws c); [exact IH|constructor; assumption].
Qed.

Lemma hexval_bound (c : char) (x : N) : hexval c = Some x -> (x < 16)%N.
Proof.
  unfold hexval.
  destruct ((48 <=? c) && (c <=? 57))%N eqn:E1.
  { apply andb_true_iff in E1. rewrite !N.leb_le in E1.
    intros H; inversion H; lia. }
  destruct ((97 <=? c) && (c <=? 102))%N eqn:E2.
  { apply andb_true_iff in E2. rewrite !N.leb_le in E2.
    intros H; inversion H; lia. }
  destruct ((65 <=? c) && (c <=? 70))%N eqn:E3; [|discriminate].
  apply andb_true_iff in E3. rewrite !N.leb_le in E3.
  intros H; inversion H; lia.
Qed.

Lemma hex4_bound (a b c d : char) (u : N) :
  hex4 a b c d = Some u -> (u < 65536)%N.
Proof.
  unfold hex4.
  destruct (hexval a) as [x|] eqn:Ea; [|discriminate].
  destruct (hexval b) as [y|] eqn:Eb; [|discriminate].
  destruct (hexval c) as [z|] eqn:Ec; [|discriminate].
  destruct (hexval d) as [w|] eqn:Ed; [|discriminate].
  apply hexval_bound in Ea, Eb, Ec, Ed.
  intros H; inversion H; lia.
Qed.

Lemma join_surrogates_bound (hi lo : N) :
  is_high_surrogate hi = true -> is_low_surrogate lo = true ->
  (65536 <= join_surrogates hi lo < 1114112)%N.
Proof.
  unfold is_high_surrogate, is_low_surrogate, join_surrogates.
  rewrite !andb_true_iff, !N.leb_le. intros [H1 H2] [L1 L2].
  rewrite N.shiftl_mul_pow2.
  rewrite lor_add_low.
  - change (2 ^ 10)%N with 1024%N. nia.
  - apply N.Div0.mod_mul.
  - change (2 ^ 10)%N with 1024%N. lia.
Qed.

Lemma BACKSLASH_TABLE_small (e ch : char) :
  BACKSLASH_TABLE e = Some ch -> (ch < 128)%N.
Proof.
  unfold BACKSLASH_TABLE.
  repeat match goal with
         | |- context [if ?b then _ else _] => destruct b
         end; intros H; inversion H; reflexivity.
Qed.

Lemma not_surrogate_below (c : char) :
  (c < 55296)%N -> is_high_surrogate c = false /\ is_low_surrogate c = false.
Proof.
  intros H. unfold is_high_surrogate, is_low_surrogate. split.
  - destruct (N.leb_spec 55296 c); [lia|reflexivity].
  - destruct (N.leb_spec 56320 c); [lia|reflexivity].
Qed.

Lemma not_surrogate_above (c : char) :
  (65536 <= c)%N -> is_high_surrogate c = false /\ is_low_surrogate c = false.
Proof.
  intros H. unfold is_high_surrogate, is_low_surrogate. split.
  - destruct (N.leb_spec c 56319); [lia|apply andb_false_r].
  - destruct (N.leb_spec c 57343); [lia|apply andb_false_r].
Qed.

Lemma high_not_low (c : char) :
  is_high_surrogate c = true -> is_low_surrogate c = false.
Proof.
  unfold is_high_surrogate, is_low_surrogate.
  rewrite andb_true_iff, !N.leb_le. intros [_ H].
  destruct (N.leb_spec 56320 c); [lia|reflexivity].
Qed.

(** The text starts with the unicode escape of a low surrogate. *)
Definition starts_low_escape (s : str) : bool :=
  match s with
  | b :: u :: g1 :: g2 :: g3 :: g4 :: _ =>
      char_eqb b BACKSLASH && char_eqb u 117%N
      && match hex4 g1 g2 g3 g4 with
         | Some u2 => is_low_surrogate u2
         | None => false
         end
  | _ => false
  end.

Definition head_not_low (k : str) : Prop :=
  match k with
  | d :: _ => is_low_surrogate d = false
  | [] => True
  end.

Lemma key_ok_cons (c : char) (k : str) :
  (c < 1114112)%N ->
  is_high_surrogate c = false \/ head_not_low k ->
  key_ok k = true -> key_ok (c :: k) = true.
Proof.
  intros Hc Hh Hk. cbn [key_ok]. rewrite Hk, andb_true_r.
  apply andb_true_iff. split; [apply N.ltb_lt; exact Hc|].
  apply negb_true_iff. destruct Hh as [->|Hh]; [reflexivity|].
  destruct k as [|d k]; [apply andb_false_r|].
  cbn [head_not_low] in Hh. rewrite Hh. apply andb_false_r.
Qed.

Lemma starts_low_escape_other (b u : char) (tl : str) :
  char_eqb b BACKSLASH && char_eqb u 117%N = false ->
  starts_low_escape (b :: u :: tl) = false.
Proof.
  intros H. destruct tl as [|g1 [|g2 [|g3 [|g4 tl]]]];
    cbn [starts_low_escape]; try reflexivity.
  rewrite H. reflexivity.
Qed.

Ltac scalars_suffix Hs :=
  first [exact Hs | apply scalars_tail in Hs; scalars_suffix Hs].

(** The first character that [scanstring] decodes is a low surrogate only
    where the text starts with the escape of one. *)
Lemma scanstring_head (s : str) (begin : nat) (k rest : str) :
  scalars s -> starts_low_escape s = false ->
  scanstring s begin = Ok (k, rest) -> head_not_low k.
Proof.
  intros Hs Hl H. destruct s as [|c tl]; cbn [scanstring] in H;
    [discriminate|].
  destruct (char_eqb c QUOTE) eqn:Eq.
  { inversion H; subst. exact I. }
  destruct (char_eqb c BACKSLASH) eqn:Eb.
  - destruct tl as [|e tl1]; [discriminate|].
    destruct (char_eqb e 117%N) eqn:Eu.
    + destruct tl1 as [|h1 [|h2 [|h3 [|h4 tl2]]]]; try discriminate.
      destruct (hex4 h1 h2 h3 h4) as [uni|] eqn:Eh; [|discriminate].
      assert (Hlow : is_low_surrogate uni = false).
      { cbn [starts_low_escape] in Hl. rewrite Eb, Eu, Eh in Hl. exact Hl. }
      destruct (is_high_surrogate uni) eqn:Ehigh.
      * split_matches H; apply with_char_ok in H;
          destruct H as [k' [_ ->]]; cbn [head_not_low]; try exact Hlow.
        apply not_surrogate_above. apply join_surrogates_bound; assumption.
      * apply with_char_ok in H. destruct H as [k' [_ ->]]. exact Hlow.
    + destruct (BACKSLASH_TABLE e) as [ch|] eqn:Et; [|discriminate].
      apply with_char_ok in H. destruct H as [k' [_ ->]].
      apply not_surrogate_below. apply BACKSLASH_TABLE_small in Et. lia.
  - destruct (c <? 32)%N; [discriminate|].
    apply with_char_ok in H. destruct H as [k' [_ ->]].
    inversion Hs as [|? ? Hc _]; subst. apply scalar_inv in Hc. apply Hc.
Qed.

(** A string read from a text of scalar values can be a key. *)
Lemma scanstring_key_ok (s : str) (begin : nat) (k rest : str) :
  scalars s -> scanstring s begin = Ok (k, rest) ->
  key_ok k = true /\ scalars rest.
Proof.
  assert (G : forall n s k rest, List.length s <= n -> scalars s ->
                scanstring s begin = Ok (k, rest) ->
                key_ok k = true /\ scalars rest).
  { clear s k rest.
    induction n as [|n IH]; intros s k rest Hn Hs H.
    { destruct s; [discriminate|simpl in Hn; lia]. }
    destruct s as [|c tl]; [discriminate|]. cbn [scanstring] in H.
    destruct (char_eqb c QUOTE) eqn:Eq.
    { inversion H; subst. split; [reflexivity|scalars_suffix Hs]. }
    destruct (char_eqb c BACKSLASH) eqn:Eb.
    - destruct tl as [|e tl1]; [discriminate|].
      destruct (char_eqb e 117%N) eqn:Eu.
      + destruct tl1 as [|h1 [|h2 [|h3 [|h4 tl2]]]]; try discriminate.
        destruct (hex4 h1 h2 h3 h4) as [uni|] eqn:Eh; [|discriminate].
        pose proof (hex4_bound _ _ _ _ _ Eh) as Huni.
        assert (Htl2 : scalars tl2) by scalars_suffix Hs.
        assert (Hlen : List.length tl2 <= n) by (simpl in Hn; lia).
        assert (Hplain : forall k1 rest1,
                   starts_low_escape tl2 = false ->
                   with_char uni (scanstring tl2 begin) = Ok (k1, rest1) ->
                   key_ok k1 = true /\ scalars rest1).
        { intros k1 rest1 Hsl Hw. apply with_char_ok in Hw.
          destruct Hw as [k' [Hk' ->]].
          destruct (IH tl2 k' rest1 Hlen Htl2 Hk') as [Hok Hrest].
          split; [|exact Hrest].
          apply key_ok_cons; [lia| |exact Hok].
          right. exact (scanstring_head tl2 begin k' rest1 Htl2 Hsl Hk'). }
        destruct (is_high_surrogate uni) eqn:Ehigh.
        * destruct tl2 as [|b0 [|u0 tl3]];
            try (apply Hplain; [reflexivity|exact H]).
          destruct (char_eqb b0 BACKSLASH && char_eqb u0 117%N) eqn:Ebu.
          2:{ apply Hplain; [|exact H].
              apply starts_low_escape_other. exact Ebu. }
          destruct tl3 as [|g1 [|g2 [|g3 [|g4 tl4]]]]; try discriminate.
          destruct (hex4 g1 g2 g3 g4) as [uni2|] eqn:Eh2; [|discriminate].
          destruct (is_low_surrogate uni2) eqn:Elow.
          -- apply with_char_ok in H. destruct H as [k' [Hk' ->]].
             assert (Htl4 : scalars tl4) by scalars_suffix Htl2.
             destruct (IH tl4 k' rest) as [Hok Hrest];
               [simpl in Hlen; lia|exact Htl4|exact Hk'|].
             split; [|exact Hrest].
             pose proof (join_surrogates_bound uni uni2 Ehigh Elow) as Hj.
             apply key_ok_cons; [lia| |exact Hok].
             left. apply not_surrogate_above. lia.
          -- apply Hplain; [|exact H]. cbn [starts_low_escape].
             rewrite Ebu, Eh2. exact Elow.
        * apply with_char_ok in H. destruct H as [k' [Hk' ->]].
          destruct (IH tl2 k' rest Hlen Htl2 Hk') as [Hok Hrest].
          split; [|exact Hrest].
          apply key_ok_cons; [lia|left; exact Ehigh|exact Hok].
      + destruct (BACKSLASH_TABLE e) as [ch|] eqn:Et; [|discriminate].
        apply with_char_ok in H. destruct H as [k' [Hk' ->]].
        apply BACKSLASH_TABLE_small in Et.
        destruct (IH tl1 k' rest) as [Hok Hrest];
          [simpl in Hn; lia|scalars_suffix Hs|exact Hk'|].
        split; [|exact Hrest].
        apply key_ok_cons; [lia| |exact Hok].
        left. apply not_surrogate_below. lia.
    - destruct (c <? 32)%N; [discriminate|].
      apply with_char_ok in H. destruct H as [k' [Hk' ->]].
      inversion Hs as [|? ? Hc Htl]; subst. apply scalar_inv in Hc.
      destruct (IH tl k' rest) as [Hok Hrest];
        [simpl in Hn; lia|exact Htl|exact Hk'|].
      split; [|exact Hrest].
      apply key_ok_cons; [apply Hc|left; apply Hc|exact Hok]. }
  apply (G (List.length s)). lia.
Qed.

Lemma keys_dict_set (d : dict) (k : str) (v : value) :
  keys (dict_set d k v) = keys d
  \/ (~ In k (keys d) /\ keys (dict_set d k v) = keys d ++ [k]).
Proof.
  induction d as [|[k' v'] d IH]; cbn [dict_set keys map fst app].
  - right. split; [intros []|reflexivity].
  - destruct (str_eqb k k') eqn:E; [left; reflexivity|].
    cbn [map fst]. fold (keys (dict_set d k v)).
    destruct IH as [->|[Hn ->]]; [left; reflexivity|].
    right. split; [|reflexivity].
    intros [<-|Hin]; [|contradiction].
    rewrite str_eqb_refl in E. discriminate.
Qed.

Lemma dict_set_NoDup (d : dict) (k : str) (v : value) :
  NoDup (keys d) -> NoDup (keys (dict_set d k v)).
Proof.
  intros Hnd. destruct (keys_dict_set d k v) as [->|[Hn ->]]; [exact Hnd|].
  apply NoDup_app; [exact Hnd|repeat constructor; intros []|].
  intros x Hx [<-|[]]. contradiction.
Qed.

Lemma dict_set_Forall (float_text : str -> str) (d : dict) (k : str)
  (v : value) :
  Forall (member_ok float_text) d -> member_ok float_text (k, v) ->
  Forall (member_ok float_text) (dict_set d k v).
Proof.
  intros Hd [Hk Hv]. cbn [fst snd] in *.
  induction Hd as [|[k' v'] d [Hk' Hv'] Hrest IH]; cbn [dict_set].
  - repeat constructor; assumption.
  - cbn [fst snd] in Hk', Hv'. destruct (str_eqb k k').
    + constructor; [split; assumption|exact Hrest].
    + constructor; [split; assumption|exact IH].
Qed.

Lemma dict_of_pairs_stable (float_text : str -> str)
  (pairs : list (str * value)) :
  Forall (member_ok float_text) pairs ->
  stable float_text (VDict (dict_of_pairs pairs)).
Proof.
  intros Hp. apply stable_dict. unfold dict_of_pairs.
  assert (G : forall acc,
             NoDup (keys acc) -> Forall (member_ok float_text) acc ->
             NoDup (keys (fold_left
                            (fun d kv => dict_set d (fst kv) (snd kv))
                            pairs acc))
             /\ Forall (member_ok float_text)
                  (fold_left (fun d kv => dict_set d (fst kv) (snd kv))
                     pairs acc)).
  { induction Hp as [|[k v] pairs Hkv _ IH]; intros acc Hnd Hall;
      cbn [fold_left fst snd]; [split; assumption|].
    apply IH; [apply dict_set_NoDup; exact Hnd|].
    apply dict_set_Forall; assumption. }
  apply G; constructor.
Qed.

Lemma with_head_inv {A : Type} (x : A) (r : result (list A * str))
  (xs : list A) (rest : str) :
  with_head x r = Ok (xs, rest) ->
  exists xs', r = Ok (xs', rest) /\ xs = x :: xs'.
Proof.
  destruct r as [[xs' rest']| |]; simpl; try discriminate.
  intros H; inversion H; subst. eauto.
Qed.

Lemma Ok_inv {A : Type} (a a' : A) (r r' : str) :
  Ok (a, r) = Ok (a', r') -> a = a' /\ r = r'.
Proof. intros H; inversion H; split; reflexivity. Qed.

Section ParsedValues.

Variable float_text : str -> str.

(** The text printed for a float is read back as the same float: the
    shortest representation that Python prints has this property. *)
Hypothesis float_text_canonical :
  forall lit, is_float_literal lit = true ->
              canonical float_text (float_text lit).

Definition reads_stable (fuel : nat) : Prop :=
  (forall s v rest, scalars s ->
     scan_once float_text fuel s = Ok (v, rest) ->
     stable float_text v /\ scalars rest)
  /\ (forall s v rest, scalars s ->
        JSONArray float_text fuel s = Ok (v, rest) ->
        stable float_text v /\ scalars rest)
  /\ (forall s vs rest, scalars s ->
        array_items float_text fuel s = Ok (vs, rest) ->
        Forall (stable float_text) vs /\ scalars rest)
  /\ (forall s v rest, scalars s ->
        JSONObject float_text fuel s = Ok (v, rest) ->
        stable float_text v /\ scalars rest)
  /\ (forall s b pairs rest, scalars s ->
        object_members float_text fuel s b = Ok (pairs, rest) ->
        Forall (member_ok float_text) pairs /\ scalars rest).

Lemma scan_once_stable_step (f : nat) :
  reads_stable f ->
  forall s v rest, scalars s ->
    scan_once float_text (S f) s = Ok (v, rest) ->
    stable float_text v /\ scalars rest.
Proof.
  intros [_ [IHa [_ [IHo _]]]] s v rest Hs H.
  cbn [scan_once] in H. destruct s as [|c tl]; [discriminate|].
  destruct (char_eqb c QUOTE).
  { destruct (scanstring tl (List.length (c :: tl))) as [[k r0]| |] eqn:Es;
      try discriminate.
    inversion H; subst. split; [exact I|].
    apply scanstring_key_ok in Es; [apply Es|scalars_suffix Hs]. }
  destruct (char_eqb c LBRACE).
  { apply (IHo tl); [scalars_suffix Hs|exact H]. }
  destruct (char_eqb c LBRACKET).
  { apply (IHa tl); [scalars_suffix Hs|exact H]. }
  destruct (starts_with NULL_S (c :: tl)).
  { apply Ok_inv in H. destruct H as [<- <-].
    split; [exact I|apply scalars_skipn; exact Hs]. }
  destruct (starts_with TRUE_S (c :: tl)).
  { apply Ok_inv in H. destruct H as [<- <-].
    split; [exact I|apply scalars_skipn; exact Hs]. }
  destruct (starts_with FALSE_S (c :: tl)).
  { apply Ok_inv in H. destruct H as [<- <-].
    split; [exact I|apply scalars_skipn; exact Hs]. }
  destruct (match_number (c :: tl)) as [[[[i fr] e] r0]|] eqn:Em.
  - pose proof (match_number_spec _ _ _ _ _ Em) as [Esplit _].
    assert (Hrest : scalars r0).
    { unfold scalars in Hs. rewrite Esplit in Hs.
      apply all_chars_app in Hs. destruct Hs as [_ Hs].
      apply all_chars_app in Hs. destruct Hs as [_ Hs].
      apply all_chars_app in Hs. apply Hs. }
    assert (Hfloat : nonempty fr || nonempty e = true ->
                     stable float_text (VFloat (float_text (i ++ fr ++ e)))).
    { intros Hne. cbn [stable]. apply float_text_canonical.
      unfold is_float_literal.
      rewrite (match_number_alone _ _ _ _ _ Em). exact Hne. }
    destruct fr as [|x fr]; [destruct e as [|y e]|];
      inversion H; subst; split; try exact Hrest; try exact I;
      apply Hfloat; reflexivity.
  - destruct (starts_with NAN_S (c :: tl)).
    { apply Ok_inv in H. destruct H as [<- <-].
      split; [left; reflexivity|apply scalars_skipn; exact Hs]. }
    destruct (starts_with INF_S (c :: tl)).
    { apply Ok_inv in H. destruct H as [<- <-].
      split; [right; left; reflexivity|apply scalars_skipn; exact Hs]. }
    destruct (starts_with NEG_INF_S (c :: tl)); [|discriminate].
    apply Ok_inv in H. destruct H as [<- <-].
    split; [right; right; left; reflexivity|apply scalars_skipn; exact Hs].
Qed.

Lemma decoder_stable (fuel : nat) : reads_stable fuel.
Proof.
  induction fuel as [|f IH].
  { repeat split; intros; discriminate. }
  pose proof (scan_once_stable_step f IH) as Hscan.
  destruct IH as [IHs [IHa [IHi [IHo IHm]]]].
  split; [exact Hscan|]. split; [|split; [|split]].
  - (* JSONArray *)
    intros s v rest Hs H. cbn [JSONArray] in H.
    pose proof (scalars_skip_ws s Hs) as Hs1.
    destruct (skip_ws s) as [|c r0]; [discriminate|].
    destruct (char_eqb c RBRACKET).
    { inversion H; subst. split; [exact I|scalars_suffix Hs1]. }
    destruct (array_items float_text f (c :: r0)) as [[vs r1]| |] eqn:Ei;
      try discriminate.
    inversion H; subst. destruct (IHi _ _ _ Hs1 Ei) as [Hvs Hr].
    split; [apply stable_list; exact Hvs|exact Hr].
  - (* array_items *)
    intros s vs rest Hs H. cbn [array_items] in H.
    destruct (scan_once float_text f s) as [[v s1]| |] eqn:Ev;
      try discriminate.
    destruct (IHs _ _ _ Hs Ev) as [Hv Hs1].
    pose proof (scalars_skip_ws s1 Hs1) as Hs2.
    destruct (skip_ws s1) as [|c s3]; [discriminate|].
    destruct (char_eqb c RBRACKET).
    { inversion H; subst.
      split; [repeat constructor; exact Hv|scalars_suffix Hs2]. }
    destruct (char_eqb c COMMA); [|discriminate].
    apply with_head_inv in H. destruct H as [vs' [Hi ->]].
    destruct (IHi _ _ _ (scalars_skip_ws s3 (scalars_tail c s3 Hs2)) Hi)
      as [Hvs Hr].
    split; [constructor; assumption|exact Hr].
  - (* JSONObject *)
    intros s v rest Hs H. cbn [JSONObject] in H.
    pose proof (scalars_skip_ws s Hs) as Hs1.
    destruct (skip_ws s) as [|c r0]; [discriminate|].
    destruct (char_eqb c RBRACE).
    { inversion H; subst. split; [|scalars_suffix Hs1].
      apply stable_dict. split; constructor. }
    destruct (char_eqb c QUOTE); [|discriminate].
    destruct (object_members float_text f r0 (List.length (c :: r0)))
      as [[pairs r1]| |] eqn:Em; try discriminate.
    inversion H; subst.
    destruct (IHm _ _ _ _ (scalars_tail c r0 Hs1) Em) as [Hp Hr].
    split; [apply dict_of_pairs_stable; exact Hp|exact Hr].
  - (* object_members *)
    intros s b pairs rest Hs H. cbn [object_members] in H.
    destruct (scanstring s b) as [[key s1]| |] eqn:Ek; try discriminate.
    destruct (scanstring_key_ok s b key s1 Hs Ek) as [Hkey Hs1].
    pose proof (scalars_skip_ws s1 Hs1) as Hs2.
    destruct (skip_ws s1) as [|c s3]; [discriminate|].
    destruct (char_eqb c COLON); [|discriminate].
    destruct (scan_once float_text f (skip_ws s3)) as [[v s5]| |] eqn:Ev;
      try discriminate.
    destruct (IHs _ _ _ (scalars_skip_ws s3 (scalars_tail c s3 Hs2)) Ev)
      as [Hv Hs5].
    pose proof (scalars_skip_ws s5 Hs5) as Hs6.
    destruct (skip_ws s5) as [|d s7]; [discriminate|].
    destruct (char_eqb d RBRACE).
    { inversion H; subst. split; [|scalars_suffix Hs6].
      repeat constructor; assumption. }
    destruct (char_eqb d COMMA); [|discriminate].
    pose proof (scalars_skip_ws s7 (scalars_tail d s7 Hs6)) as Hs8.
    destruct (skip_ws s7) as [|q s9]; [discriminate|].
    destruct (char_eqb q QUOTE); [|discriminate].
    apply with_head_inv in H. destruct H as [ps' [Hm ->]].
    destruct (IHm _ _ _ _ (scalars_tail q s9 Hs8) Hm) as [Hps Hr].
    split; [|exact Hr]. constructor; [split; assumption|exact Hps].
Qed.

End ParsedValues.

(** ** The stripping passes only remove characters *)

Section Removal.

Variable p : char -> bool.

Lemma sub_line_comments_keeps (s : str) (b : bool) :
  all_chars p s -> all_chars p (sub_line_comments b s).
Proof.
  intros H. revert b.
  induction H as [|c tl Hc Htl IH]; intros b; cbn [sub_line_comments];
    [constructor|].
  destruct b.
  - destruct (char_eqb c NL); [constructor; [exact Hc|apply IH]|apply IH].
  - destruct tl as [|d tl']; [repeat constructor; exact Hc|].
    destruct (char_eqb c SLASH && char_eqb d SLASH);
      [apply IH|constructor; [exact Hc|apply IH]].
Qed.

Lemma sub_block_comments_keeps (s : str) (b : bool) :
  all_chars p s -> all_chars p (sub_block_comments b s).
Proof.
  assert (G : forall n s b, List.length s <= n -> all_chars p s ->
                all_chars p (sub_block_comments b s)).
  { clear s b. induction n as [|n IH]; intros s b Hn H.
    { destruct s; [destruct b; constructor|simpl in Hn; lia]. }
    destruct s as [|c tl]; [destruct b; constructor|].
    inversion H as [|? ? Hc Htl]; subst. cbn [sub_block_comments].
    assert (Hlen : List.length tl <= n) by (simpl in Hn; lia).
    destruct b.
    - destruct tl as [|d tl']; [constructor|].
      destruct (char_eqb c STAR && char_eqb d SLASH).
      + apply IH; [simpl in Hlen; lia|inversion Htl; assumption].
      + apply IH; assumption.
    - destruct tl as [|d tl']; [repeat constructor; exact Hc|].
      destruct (char_eqb c SLASH && char_eqb d STAR).
      + destruct (after_block_end tl').
        * apply IH; [simpl in Hlen; lia|inversion Htl; assumption].
        * constructor; [exact Hc|apply IH; assumption].
      + constructor; [exact Hc|apply IH; assumption]. }
  apply (G (List.length s)). lia.
Qed.

Lemma clean_gap_keeps (gap : str) :
  all_chars p gap -> all_chars p (clean_gap gap).
Proof.
  intros H. unfold clean_gap. apply sub_block_comments_keeps.
  apply sub_line_comments_keeps. exact H.
Qed.

Lemma strip_comments_loop_keeps (s : str) (copy : nat) (gap : str) :
  all_chars p s -> all_chars p gap ->
  all_chars p (strip_comments_loop s copy gap).
Proof.
  intros H. revert copy gap.
  induction H as [|c tl Hc Htl IH]; intros copy gap Hgap;
    cbn [strip_comments_loop].
  - apply clean_gap_keeps. apply all_chars_rev. exact Hgap.
  - destruct copy as [|n].
    + assert (Hmore : all_chars p (strip_comments_loop tl 0 (c :: gap))).
      { apply IH. constructor; assumption. }
      destruct (char_eqb c QUOTE); [|exact Hmore].
      destruct (string_re_body tl) as [[body rest]|]; [|exact Hmore].
      apply all_chars_app. split.
      * apply clean_gap_keeps. apply all_chars_rev. exact Hgap.
      * constructor; [exact Hc|]. apply IH. constructor.
    + constructor; [exact Hc|]. apply IH. exact Hgap.
Qed.

Lemma strip_comments_keeps (s : str) :
  all_chars p s -> all_chars p (_strip_comments s).
Proof.
  intros H. apply strip_comments_loop_keeps; [exact H|constructor].
Qed.

Lemma pop_trailing_comma_keeps (out : str) :
  all_chars p out -> all_chars p (pop_trailing_comma out).
Proof.
  induction 1 as [|c rest Hc Hrest IH]; cbn [pop_trailing_comma];
    [constructor|].
  destruct (isspace c); [constructor; assumption|].
  destruct (char_eqb c COMMA); [exact Hrest|constructor; assumption].
Qed.

Lemma strip_trailing_commas_loop_keeps (s out : str) (in_string esc : bool) :
  all_chars p s -> all_chars p out ->
  all_chars p (strip_trailing_commas_loop s out in_string esc).
Proof.
  intros H. revert out in_string esc.
  induction H as [|ch tl Hc Htl IH]; intros out in_string esc Hout;
    cbn [strip_trailing_commas_loop].
  - apply all_chars_rev. exact Hout.
  - assert (Hpush : all_chars p (ch :: out)) by (constructor; assumption).
    assert (Hpop : all_chars p (ch :: pop_trailing_comma out)).
    { constructor; [exact Hc|apply pop_trailing_comma_keeps; exact Hout]. }
    repeat match goal with
           | |- context [if ?b then _ else _] => destruct b
           end; apply IH; assumption.
Qed.

Lemma strip_trailing_commas_keeps (s : str) :
  all_chars p s -> all_chars p (_strip_trailing_commas s).
Proof.
  intros H. apply strip_trailing_commas_loop_keeps; [exact H|constructor].
Qed.

End Removal.

(** ** Parsed values are stable *)

Section ParsedStable.

Variable float_text : str -> str.

Hypothesis float_text_canonical :
  forall lit, is_float_literal lit = true ->
              canonical float_text (float_text lit).

Lemma loads_stable (s : str) (v : value) :
  scalars s -> loads float_text s = Value v -> stable float_text v.
Proof.
  intros Hs. unfold loads.
  destruct (starts_with [65279%N] s); [discriminate|].
  destruct (scan_once float_text (3 * List.length s + 1) (skip_ws s))
    as [[obj rest]| |] eqn:E; try discriminate.
  destruct (skip_ws rest); [|discriminate].
  intros H; inversion H; subst.
  destruct (decoder_stable float_text float_text_canonical
              (3 * List.length s + 1)) as [Hscan _].
  apply (Hscan _ _ _ (scalars_skip_ws s Hs) E).
Qed.

Lemma parse_stable (text : str) (v : value) :
  scalars text -> parse_json_lenient float_text text = Value v ->
  stable float_text v.
Proof.
  intros Hs. unfold parse_json_lenient. apply loads_stable.
  apply strip_trailing_commas_keeps. apply strip_comments_keeps. exact Hs.
Qed.

(** The round trip through the layout engine, for a stable value *)
Lemma format_parse (v : value) (cfg : FormatConfig) :
  stable float_text v -> ws (eol cfg) ->
  exists out,
    format_json v cfg = Some out
    /\ parse_json_lenient float_text out = Value v.
Proof.
  intros Hs Heol. unfold format_json.
  destruct (format_value_total v cfg 0%Z None) as [t Ht]. rewrite Ht.
  exists (t ++ eol cfg). split; [reflexivity|].
  apply parse_doc; [|exact Heol].
  exact (format_value_doc float_text v Hs cfg 0%Z None t Ht).
Qed.

End ParsedStable.

(** ** The semantic round trip and idempotence *)

(** [dataclasses.replace(cfg, eol=e)] *)
Definition with_eol (cfg : FormatConfig) (e : str) : FormatConfig :=
  {| indent := indent cfg;
     print_width := print_width cfg;
     array_wrap := array_wrap cfg;
     object_wrap := object_wrap cfg;
     aggressive_inline := aggressive_inline cfg;
     long_block_threshold := long_block_threshold cfg;
     eol := e;
     array_collapse_keys := array_collapse_keys cfg;
     inline_homogeneous_objects := inline_homogeneous_objects cfg;
     inline_homogeneous_min := inline_homogeneous_min cfg;
     inline_string_max := inline_string_max cfg;
     allow_overflow_inline_arrays := allow_overflow_inline_arrays cfg |}.

(** The round trip at a text: the value parsed from it is rendered, and
    the rendered text parses to the same value. *)
Definition round_trip_at (float_text : str -> str) (text : str)
  (cfg : FormatConfig) : Prop :=
  forall v, parse_json_lenient float_text text = Value v ->
    exists out, format_json v cfg = Some out
                /\ parse_json_lenient float_text out = Value v.

(** Idempotence at a text: formatting the formatted text gives it back. *)
Definition idempotent_at (float_text : str -> str) (text : str)
  (cfg : FormatConfig) : Prop :=
  forall out, format_text float_text text cfg = Some out ->
              format_text float_text out cfg = Some out.

(** A key made of the two halves of a surrogate pair, as a [str] may hold
    them, and the key made of the code point they encode. *)
Definition split_pair_key : str := [55357%N; 56320%N].
Definition joined_pair_key : str := [128000%N].

Definition split_pair_object : str :=
  LBRACE :: QUOTE :: split_pair_key ++ QUOTE :: COLON :: py "1}".

Definition two_pair_object : str :=
  LBRACE :: QUOTE :: split_pair_key ++ QUOTE :: COLON :: py "1,"
    ++ QUOTE :: joined_pair_key ++ QUOTE :: COLON :: py "2}".

(** C2, the counterexamples.  The end of line is appended as it is
    configured, so with a semicolon for it the rendered text of the array
    of 1 and 2 ends in a semicolon, and the decoder rejects it as extra
    data.  A key that holds the two halves of a surrogate pair as two
    characters is printed by [json.dumps] as two escapes, which the
    decoder reads back as one character. *)
Lemma round_trip_fails_for_eol_and_split_pair :
  ~ round_trip_at literal_float_text (py "[1, 2]")
      (with_eol default_config (py ";"))
  /\ ~ round_trip_at literal_float_text split_pair_object default_config.
Proof.
  split; intros H.
  - destruct (H (VList [VInt 1; VInt 2]) eq_refl) as [out [Hf Hp]].
    vm_compute in Hf. inversion Hf; subst out. vm_compute in Hp.
    discriminate Hp.
  - destruct (H (VDict [(split_pair_key, VInt 1)]) eq_refl)
      as [out [Hf Hp]].
    vm_compute in Hf. inversion Hf; subst out. vm_compute in Hp.
    discriminate Hp.
Qed.

(** C1, the counterexamples.  With a semicolon for the end of line the
    formatted text does not parse, so formatting it again fails.  With the
    split pair and the joined pair as two keys, the formatted text holds
    the same escaped key twice; formatting it again keeps one member. *)
Lemma idempotence_fails_for_eol_and_split_pair :
  ~ idempotent_at literal_float_text (py "[1, 2]")
      (with_eol default_config (py ";"))
  /\ ~ idempotent_at literal_float_text two_pair_object default_config.
Proof.
  split; intros H.
  - specialize (H (py "[1, 2];") eq_refl). vm_compute in H. discriminate H.
  - specialize (H _ eq_refl). vm_compute in H. discriminate H.
Qed.

Lemma literal_float_text_canonical (lit : str) :
  is_float_literal lit = true ->
  canonical literal_float_text (literal_float_text lit).
Proof. intros H. right. right. right. split; [exact H|reflexivity]. Qed.

Section RoundTrip.

Variable float_text : str -> str.

Lemma round_trip (text : str) (cfg : FormatConfig) (v : value) :
  (forall lit, is_float_literal lit = true ->
               canonical float_text (float_text lit)) ->
  scalars text -> ws (eol cfg) ->
  parse_json_lenient float_text text = Value v ->
  exists out, format_json v cfg = Some out
              /\ parse_json_lenient float_text out = Value v.
Proof.
  intros Hfloat Hs Heol Hp. apply format_parse; [|exact Heol].
  exact (parse_stable float_text Hfloat text v Hs Hp).
Qed.

(** C2, amended: for a text of Unicode scalar values that parses, and a
    configuration whose end of line is JSON white space, the value is
    rendered, and the rendered text parses to the same value: the same
    tree, with the keys of every object in the same order.  The conversion
    of float literals is one that reads back the text it prints. *)
Theorem semantic_round_trip (text : str) (cfg : FormatConfig) :
  (forall lit, is_float_literal lit = true ->
               canonical float_text (float_text lit)) ->
  scalars text -> ws (eol cfg) ->
  round_trip_at float_text text cfg.
Proof.
  intros Hfloat Hs Heol v Hp. exact (round_trip text cfg v Hfloat Hs Heol Hp).
Qed.

(** C1, amended: for a text of Unicode scalar values that parses, and a
    configuration whose end of line is JSON white space, formatting the
    formatted text gives the formatted text back. *)
Theorem formatting_idempotent (text : str) (cfg : FormatConfig) :
  (forall lit, is_float_literal lit = true ->
               canonical float_text (float_text lit)) ->
  scalars text -> ws (eol cfg) ->
  idempotent_at float_text text cfg.
Proof.
  intros Hfloat Hs Heol out. unfold format_text.
  destruct (parse_json_lenient float_text text) as [v| |] eqn:Hp;
    try discriminate.
  intros Hf.
  destruct (round_trip text cfg v Hfloat Hs Heol Hp) as [out' [Hf' Hp']].
  assert (out' = out) by congruence. subst out'.
  rewrite Hp'. exact Hf.
Qed.

End RoundTrip.

(** A text with a line comment, a block comment, a float and a trailing
    comma. *)
Definition commented_text : str :=
  pyq "{ // stacks" ++ NL ::
  pyq "  'drops': [1, 2.5, /* more */ 'x'],"  ++ NL ::
  pyq "  'b': {'k': null, },"  ++ NL :: pyq "}".

Lemma semantic_round_trip_witness :
  round_trip_at literal_float_text commented_text default_config.
Proof.
  apply (semantic_round_trip literal_float_text commented_text
           default_config).
  - intros lit H. right. right. right. split; [exact H|reflexivity].
  - repeat constructor.
  - repeat constructor.
Defined.

Lemma formatting_idempotent_witness :
  idempotent_at literal_float_text commented_text
    (with_eol default_config [13%N; NL]).
Proof.
  apply (formatting_idempotent literal_float_text commented_text
           (with_eol default_config [13%N; NL])).
  - intros lit H. right. right. right. split; [exact H|reflexivity].
  - repeat constructor.
  - repeat constructor.
Defined.

Example commented_text_formatted :
  format_text literal_float_text commented_text default_config
  = Some (pyq "{ 'drops': [ 1, 2.5, 'x' ], 'b': { 'k': null } }" ++ [NL]).
Proof. vm_compute. reflexivity. Qed.

(** * Documents with comments and trailing commas *)

(** ** Comments between tokens

    [strips_to p p']: wherever [p] stands in a text, outside a string,
    [_strip_comments] turns it into [p']. *)

Definition strips_to (p p' : str) : Prop :=
  forall x, strip_comments_loop (p ++ x) 0 []
            = p' ++ strip_comments_loop x 0 [].

Lemma strips_to_nil : strips_to [] [].
Proof. intros x. reflexivity. Qed.

Lemma strips_to_same (p : str) : comment_free p -> strips_to p p.
Proof. intros H. exact H. Qed.

Lemma strips_to_app (p p' q q' : str) :
  strips_to p p' -> strips_to q q' -> strips_to (p ++ q) (p' ++ q').
Proof.
  intros Hp Hq x. rewrite <- app_assoc, Hp, Hq, <- app_assoc. reflexivity.
Qed.

(** What [clean_gap] does to a piece of a gap, whatever follows it. *)
Definition gap_piece (a a' : str) : Prop :=
  forall y, clean_gap (a ++ y) = a' ++ clean_gap y.

Lemma strip_comments_gap (a x g : str) :
  all_chars no_quote a ->
  strip_comments_loop (a ++ x) 0 g = strip_comments_loop x 0 (rev a ++ g).
Proof.
  intros Ha. revert g.
  induction Ha as [|c a Hc _ IH]; intros g; cbn [app]; [reflexivity|].
  cbn [strip_comments_loop]. unfold no_quote in Hc.
  apply negb_true_iff in Hc. rewrite Hc, IH.
  cbn [rev]. rewrite <- app_assoc. reflexivity.
Qed.

Lemma strip_comments_flush_piece (s g1 a' : str) :
  gap_piece (rev g1) a' ->
  forall g2, strip_comments_loop s 0 (g2 ++ g1)
             = a' ++ strip_comments_loop s 0 g2.
Proof.
  intros Hg. induction s as [|c tl IH]; intros g2;
    cbn [strip_comments_loop].
  - rewrite rev_app_distr. apply Hg.
  - destruct (char_eqb c QUOTE).
    + destruct (string_re_body tl) as [[body rest]|].
      * rewrite rev_app_distr, Hg, <- app_assoc. reflexivity.
      * apply (IH (c :: g2)).
    + apply (IH (c :: g2)).
Qed.

Lemma gap_piece_strips_to (a a' : str) :
  all_chars no_quote a -> gap_piece a a' -> strips_to a a'.
Proof.
  intros Hq Hg x. rewrite (strip_comments_gap a x [] Hq), app_nil_r.
  apply (strip_comments_flush_piece x (rev a) a' ) with (g2 := []).
  rewrite rev_involutive. exact Hg.
Qed.

(** *** A line comment with the newline that ends it *)

Definition line_char (c : char) : bool :=
  negb (char_eqb c NL) && no_quote c.

Lemma sub_line_comments_skip (body y : str) :
  all_chars line_char body ->
  sub_line_comments true (body ++ NL :: y) = NL :: sub_line_comments false y.
Proof.
  induction 1 as [|c body Hc _ IH]; cbn [app sub_line_comments].
  - change (char_eqb NL NL) with true. reflexivity.
  - unfold line_char in Hc. apply andb_true_iff in Hc.
    destruct Hc as [Hc _]. apply negb_true_iff in Hc. rewrite Hc. exact IH.
Qed.

Lemma sub_block_comments_plain (c : char) (z : str) :
  char_eqb c SLASH = false ->
  sub_block_comments false (c :: z) = c :: sub_block_comments false z.
Proof.
  intros Hc. apply (sub_block_comments_safe [c] z).
  repeat constructor. unfold no_slash. rewrite Hc. reflexivity.
Qed.

Lemma sub_line_comments_plain (c : char) (z : str) :
  char_eqb c SLASH = false ->
  sub_line_comments false (c :: z) = c :: sub_line_comments false z.
Proof.
  intros Hc. apply (sub_line_comments_safe [c] z).
  repeat constructor. unfold no_slash. rewrite Hc. reflexivity.
Qed.

Lemma line_comment_piece (body : str) :
  all_chars line_char body ->
  gap_piece (SLASH :: SLASH :: body ++ [NL]) [NL].
Proof.
  intros Hb y. unfold clean_gap. cbn [app]. rewrite <- app_assoc.
  cbn [app sub_line_comments].
  change (char_eqb SLASH SLASH) with true. cbn [andb].
  change (char_eqb SLASH NL) with false. cbv iota.
  rewrite (sub_line_comments_skip body y Hb).
  apply sub_block_comments_plain. reflexivity.
Qed.

(** *** A block comment and the blank after it *)

Lemma sub_line_comments_slash (d : char) (rest : str) :
  char_eqb d SLASH = false ->
  sub_line_comments false (SLASH :: d :: rest)
  = SLASH :: sub_line_comments false (d :: rest).
Proof.
  intros Hd. cbn [sub_line_comments]. rewrite Hd, andb_false_r. reflexivity.
Qed.

Lemma no_slash_inv (c : char) : no_slash c = true -> char_eqb c SLASH = false.
Proof. unfold no_slash. apply negb_true_iff. Qed.

Lemma after_block_end_safe (body r : str) :
  all_chars no_slash body ->
  after_block_end (body ++ STAR :: SLASH :: r) = Some r.
Proof.
  induction 1 as [|c body Hc Hb IH]; [reflexivity|].
  cbn [app after_block_end].
  destruct Hb as [|b body' Hb' _]; cbn [app] in *.
  - change (char_eqb STAR SLASH) with false. rewrite andb_false_r. exact IH.
  - rewrite (no_slash_inv b Hb'), andb_false_r. exact IH.
Qed.

Lemma sub_block_comments_skip (body r : str) :
  all_chars no_slash body ->
  sub_block_comments true (body ++ STAR :: SLASH :: r)
  = sub_block_comments false r.
Proof.
  induction 1 as [|c body Hc Hb IH]; [reflexivity|].
  cbn [app sub_block_comments].
  destruct Hb as [|b body' Hb' _]; cbn [app] in *.
  - change (char_eqb STAR SLASH) with false. rewrite andb_false_r. exact IH.
  - rewrite (no_slash_inv b Hb'), andb_false_r. exact IH.
Qed.

Lemma sc_safe_no_slash (s : str) : all_chars sc_safe s -> all_chars no_slash s.
Proof.
  apply all_chars_impl. intros c H. apply andb_true_iff in H. apply H.
Qed.

Lemma sc_safe_no_quote (s : str) : all_chars sc_safe s -> all_chars no_quote s.
Proof.
  apply all_chars_impl. intros c H. apply andb_true_iff in H. apply H.
Qed.

Lemma block_comment_piece (body : str) (c : char) :
  all_chars sc_safe body -> is_ws c = true ->
  gap_piece (SLASH :: STAR :: body ++ [STAR; SLASH; c]) [c].
Proof.
  intros Hb Hc y. apply sc_safe_no_slash in Hb.
  assert (Hcs : char_eqb c SLASH = false).
  { apply is_ws_sc_safe in Hc. apply andb_true_iff in Hc.
    apply no_slash_inv. apply Hc. }
  unfold clean_gap. cbn [app]. rewrite <- app_assoc. cbn [app].
  rewrite sub_line_comments_slash by reflexivity.
  change (STAR :: body ++ STAR :: SLASH :: c :: y)
    with ((STAR :: body) ++ STAR :: SLASH :: c :: y).
  rewrite (sub_line_comments_safe (STAR :: body))
    by (constructor; [reflexivity|exact Hb]).
  rewrite (sub_line_comments_plain STAR) by reflexivity.
  rewrite sub_line_comments_slash by exact Hcs.
  rewrite (sub_line_comments_plain c y Hcs).
  cbn [app sub_block_comments].
  change (char_eqb SLASH SLASH && char_eqb STAR STAR) with true. cbv iota.
  rewrite (after_block_end_safe body _ Hb).
  rewrite (sub_block_comments_skip body _ Hb).
  apply sub_block_comments_plain. exact Hcs.
Qed.

(** *** Trivia: white space and comments

    [trivia tc t]: [tc] is made of JSON white space, of line comments
    ended by their newline and of block comments followed by a blank, and
    [t] is the white space that stays when the comments go.  A comment
    holds no double quote; a block comment holds no slash. *)
Inductive trivia : str -> str -> Prop :=
| trivia_nil : trivia [] []
| trivia_ws (c : char) (tc t : str) :
    is_ws c = true -> trivia tc t -> trivia (c :: tc) (c :: t)
| trivia_line (body tc t : str) :
    all_chars line_char body -> trivia tc t ->
    trivia (SLASH :: SLASH :: body ++ NL :: tc) (NL :: t)
| trivia_block (body : str) (c : char) (tc t : str) :
    all_chars sc_safe body -> is_ws c = true -> trivia tc t ->
    trivia (SLASH :: STAR :: body ++ STAR :: SLASH :: c :: tc) (c :: t).

Lemma trivia_of_ws (w : str) : ws w -> trivia w w.
Proof.
  induction 1 as [|c w Hc _ IH]; [constructor|].
  apply trivia_ws; assumption.
Qed.

Lemma trivia_is_ws (tc t : str) : trivia tc t -> ws t.
Proof.
  induction 1 as [|c tc t Hc _ IH|body tc t _ _ IH|body c tc t _ Hc _ IH];
    constructor; try assumption. reflexivity.
Qed.

Lemma trivia_strips_to (tc t : str) : trivia tc t -> strips_to tc t.
Proof.
  induction 1 as [|c tc t Hc _ IH|body tc t Hb _ IH|body c tc t Hb Hc _ IH].
  - apply strips_to_nil.
  - apply (strips_to_app [c] [c]); [|exact IH].
    apply comment_free_chars. repeat constructor.
    apply is_ws_sc_safe. exact Hc.
  - replace (SLASH :: SLASH :: body ++ NL :: tc)
      with ((SLASH :: SLASH :: body ++ [NL]) ++ tc)
      by (cbn [app]; rewrite <- app_assoc; reflexivity).
    apply (strips_to_app _ [NL]); [|exact IH].
    apply gap_piece_strips_to; [|apply line_comment_piece; exact Hb].
    constructor; [reflexivity|]. constructor; [reflexivity|].
    apply all_chars_app. split; [|repeat constructor].
    eapply all_chars_impl; [|exact Hb].
    intros x H. apply andb_true_iff in H. apply H.
  - replace (SLASH :: STAR :: body ++ STAR :: SLASH :: c :: tc)
      with ((SLASH :: STAR :: body ++ [STAR; SLASH; c]) ++ tc)
      by (cbn [app]; rewrite <- app_assoc; reflexivity).
    apply (strips_to_app _ [c]); [|exact IH].
    apply gap_piece_strips_to; [|apply block_comment_piece; assumption].
    constructor; [reflexivity|]. constructor; [reflexivity|].
    apply all_chars_app. split; [apply sc_safe_no_quote; exact Hb|].
    repeat constructor.
    apply is_ws_sc_safe in Hc. apply andb_true_iff in Hc. apply Hc.
Qed.

(** ** Trailing commas

    [commas_to p p']: wherever [p] stands in a text, outside a string,
    [_strip_trailing_commas] turns it into [p']. *)

Definition commas_to (p p' : str) : Prop :=
  forall x out,
    strip_trailing_commas_loop (p ++ x) out false false
    = strip_trailing_commas_loop x (rev p' ++ out) false false.

Lemma commas_to_same (p : str) : comma_free p -> commas_to p p.
Proof. intros H. exact H. Qed.

Lemma commas_to_app (p p' q q' : str) :
  commas_to p p' -> commas_to q q' -> commas_to (p ++ q) (p' ++ q').
Proof.
  intros Hp Hq x out.
  rewrite <- app_assoc, Hp, Hq, rev_app_distr, <- app_assoc. reflexivity.
Qed.

(** A closing bracket after a closable text stays as it is. *)
Lemma commas_to_close (p p' : str) (c : char) :
  commas_to p p' -> closable p' ->
  c = RBRACE \/ c = RBRACKET ->
  commas_to (p ++ [c]) (p' ++ [c]).
Proof.
  intros Hp Hcl Hc x out. rewrite <- app_assoc, Hp. cbn [app].
  cbn [strip_trailing_commas_loop].
  assert (E : char_eqb c QUOTE = false
              /\ (char_eqb c RBRACE || char_eqb c RBRACKET) = true).
  { destruct Hc as [-> | ->]; split; reflexivity. }
  destruct E as [E1 E2]. rewrite E1, E2, Hcl.
  rewrite rev_app_distr. reflexivity.
Qed.

(** A comma, white space and a closing bracket: the comma goes. *)
Lemma commas_to_trailing (w : str) (c : char) :
  ws w -> c = RBRACE \/ c = RBRACKET ->
  commas_to (COMMA :: w ++ [c]) (w ++ [c]).
Proof.
  intros Hw Hc x out.
  change (COMMA :: w ++ [c]) with ([COMMA] ++ w ++ [c]).
  rewrite <- !app_assoc.
  rewrite (comma_free_char COMMA eq_refl).
  rewrite (comma_free_ws w Hw). cbn [app strip_trailing_commas_loop rev].
  assert (E : char_eqb c QUOTE = false
              /\ (char_eqb c RBRACE || char_eqb c RBRACKET) = true).
  { destruct Hc as [-> | ->]; split; reflexivity. }
  destruct E as [E1 E2]. rewrite E1, E2.
  rewrite pop_trailing_comma_ws by (apply all_chars_rev; exact Hw).
  cbn [pop_trailing_comma].
  change (isspace COMMA) with false. change (char_eqb COMMA COMMA) with true.
  cbv iota. rewrite rev_app_distr. reflexivity.
Qed.

(** What may stand between the last item of a container and its closing
    bracket: nothing, or a comma and trivia.  The three texts are the
    input, the input without comments, and the input without comments and
    trailing commas. *)
Inductive trailing : str -> str -> str -> Prop :=
| trailing_none : trailing [] [] []
| trailing_comma (wc w : str) :
    trivia wc w -> trailing (COMMA :: wc) (COMMA :: w) w.

Lemma trailing_ws (trc trt tr : str) : trailing trc trt tr -> ws tr.
Proof.
  intros [|wc w Hw]; [constructor|]. exact (trivia_is_ws wc w Hw).
Qed.

Lemma trailing_strips_to (trc trt tr : str) :
  trailing trc trt tr -> strips_to trc trt.
Proof.
  intros [|wc w Hw]; [apply strips_to_nil|].
  apply (strips_to_app [COMMA] [COMMA]); [|apply trivia_strips_to; exact Hw].
  apply comment_free_chars. repeat constructor.
Qed.

(** The end of a container, from its last item on. *)
Lemma commas_to_end (p p' trc trt tr : str) (c : char) :
  commas_to p p' -> closable p' -> trailing trc trt tr ->
  c = RBRACE \/ c = RBRACKET ->
  commas_to (p ++ trt ++ [c]) (p' ++ tr ++ [c]).
Proof.
  intros Hp Hcl Htr Hc. destruct Htr as [|wc w Hw]; cbn [app].
  - apply commas_to_close; assumption.
  - apply commas_to_app; [exact Hp|].
    apply commas_to_trailing; [exact (trivia_is_ws wc w Hw)|exact Hc].
Qed.

(** ** Documents with comments and trailing commas

    [Jsonc v tc tt t]: [tc] is a text of the value [v] in which trivia
    stand where a document has white space, and in which the last item of
    a container may be followed by a comma; [tt] is [tc] without its
    comments, and [t] is [tt] without its trailing commas. *)

Section CommentedDocuments.

Variable float_text : str -> str.

Inductive Jsonc : value -> str -> str -> str -> Prop :=
| Jsonc_prim (v : value) :
    _is_prim v = true -> stable float_text v ->
    Jsonc v (_dump_oneline v) (_dump_oneline v) (_dump_oneline v)
| Jsonc_empty_list (wc w : str) :
    trivia wc w ->
    Jsonc (VList []) (LBRACKET :: wc ++ [RBRACKET])
      (LBRACKET :: w ++ [RBRACKET]) (LBRACKET :: w ++ [RBRACKET])
| Jsonc_list (wc w : str) (l : list value) (bc bt b trc trt tr : str) :
    trivia wc w -> JsoncItems l bc bt b -> trailing trc trt tr ->
    Jsonc (VList l) (LBRACKET :: wc ++ bc ++ trc ++ [RBRACKET])
      (LBRACKET :: w ++ bt ++ trt ++ [RBRACKET])
      (LBRACKET :: w ++ b ++ tr ++ [RBRACKET])
| Jsonc_empty_dict (wc w : str) :
    trivia wc w ->
    Jsonc (VDict []) (LBRACE :: wc ++ [RBRACE])
      (LBRACE :: w ++ [RBRACE]) (LBRACE :: w ++ [RBRACE])
| Jsonc_dict (wc w : str) (d : dict) (bc bt b trc trt tr : str) :
    trivia wc w -> NoDup (keys d) -> JsoncMembers d bc bt b ->
    trailing trc trt tr ->
    Jsonc (VDict d) (LBRACE :: wc ++ bc ++ trc ++ [RBRACE])
      (LBRACE :: w ++ bt ++ trt ++ [RBRACE])
      (LBRACE :: w ++ b ++ tr ++ [RBRACE])
with JsoncItems : list value -> str -> str -> str -> Prop :=
| JItems_last (v : value) (tc tt t wc w : str) :
    Jsonc v tc tt t -> trivia wc w ->
    JsoncItems [v] (tc ++ wc) (tt ++ w) (t ++ w)
| JItems_more (v : value) (tc tt t wc1 w1 wc2 w2 : str) (l : list value)
    (bc bt b : str) :
    Jsonc v tc tt t -> trivia wc1 w1 -> trivia wc2 w2 ->
    JsoncItems l bc bt b ->
    JsoncItems (v :: l) (tc ++ wc1 ++ COMMA :: wc2 ++ bc)
      (tt ++ w1 ++ COMMA :: w2 ++ bt) (t ++ w1 ++ COMMA :: w2 ++ b)
with JsoncMembers : dict -> str -> str -> str -> Prop :=
| JMembers_last (k : str) (v : value) (tc tt t wc1 w1 wc2 w2 wc3 w3 : str) :
    key_ok k = true -> Jsonc v tc tt t ->
    trivia wc1 w1 -> trivia wc2 w2 -> trivia wc3 w3 ->
    JsoncMembers [(k, v)]
      (encode_basestring_ascii k ++ wc1 ++ COLON :: wc2 ++ tc ++ wc3)
      (encode_basestring_ascii k ++ w1 ++ COLON :: w2 ++ tt ++ w3)
      (encode_basestring_ascii k ++ w1 ++ COLON :: w2 ++ t ++ w3)
| JMembers_more (k : str) (v : value)
    (tc tt t wc1 w1 wc2 w2 wc3 w3 wc4 w4 : str) (d : dict) (bc bt b : str) :
    key_ok k = true -> Jsonc v tc tt t ->
    trivia wc1 w1 -> trivia wc2 w2 -> trivia wc3 w3 -> trivia wc4 w4 ->
    JsoncMembers d bc bt b ->
    JsoncMembers ((k, v) :: d)
      (encode_basestring_ascii k ++ wc1 ++ COLON :: wc2 ++ tc ++ wc3
         ++ COMMA :: wc4 ++ bc)
      (encode_basestring_ascii k ++ w1 ++ COLON :: w2 ++ tt ++ w3
         ++ COMMA :: w4 ++ bt)
      (encode_basestring_ascii k ++ w1 ++ COLON :: w2 ++ t ++ w3
         ++ COMMA :: w4 ++ b).

Scheme Jsonc_min := Minimality for Jsonc Sort Prop
with JsoncItems_min := Minimality for JsoncItems Sort Prop
with JsoncMembers_min := Minimality for JsoncMembers Sort Prop.

Combined Scheme Jsonc_mutual from Jsonc_min, JsoncItems_min, JsoncMembers_min.

(** A document is a commented document without comments. *)
Lemma Doc_Jsonc :
  (forall v t, Doc float_text v t -> Jsonc v t t t)
  /\ (forall l b, DocItems float_text l b -> JsoncItems l b b b)
  /\ (forall d b, DocMembers float_text d b -> JsoncMembers d b b b).
Proof.
  apply Doc_mutual; intros.
  - apply Jsonc_prim; assumption.
  - apply Jsonc_empty_list. apply trivia_of_ws. assumption.
  - apply (Jsonc_list w w l body body body [] [] []);
      [apply trivia_of_ws; assumption|assumption|constructor].
  - apply Jsonc_empty_dict. apply trivia_of_ws. assumption.
  - apply (Jsonc_dict w w d body body body [] [] []);
      [apply trivia_of_ws; assumption|assumption|assumption|constructor].
  - apply JItems_last; [assumption|apply trivia_of_ws; assumption].
  - apply JItems_more; try assumption; apply trivia_of_ws; assumption.
  - apply JMembers_last; try assumption; apply trivia_of_ws; assumption.
  - apply JMembers_more; try assumption; apply trivia_of_ws; assumption.
Qed.

Lemma DocItems_ws_end (l : list value) (body w : str) :
  DocItems float_text l body -> ws w -> DocItems float_text l (body ++ w).
Proof.
  intros H Hw.
  induction H as [v t w0 Hd Hw0|v t w1 w2 l body Hd Hw1 Hw2 _ IH].
  - rewrite <- app_assoc. apply Items_last; [exact Hd|].
    apply ws_app; assumption.
  - rewrite <- !app_assoc. cbn [app]. rewrite <- app_assoc.
    apply Items_more; assumption.
Qed.

Lemma DocMembers_ws_end (d : dict) (body w : str) :
  DocMembers float_text d body -> ws w ->
  DocMembers float_text d (body ++ w).
Proof.
  intros H Hw.
  induction H as [k v t w1 w2 w3 Hk Hd Hw1 Hw2 Hw3
                 |k v t w1 w2 w3 w4 d body Hk Hd Hw1 Hw2 Hw3 Hw4 _ IH].
  - rewrite <- !app_assoc. cbn [app]. rewrite <- !app_assoc.
    apply Members_last; try assumption. apply ws_app; assumption.
  - rewrite <- !app_assoc. cbn [app]. rewrite <- !app_assoc. cbn [app].
    rewrite <- !app_assoc.
    apply Members_more; assumption.
Qed.

End CommentedDocuments.

Section CleaningCommentedDocuments.

Variable float_text : str -> str.

Lemma strips_to_char (c : char) : sc_safe c = true -> strips_to [c] [c].
Proof. intros H. apply comment_free_chars. repeat constructor. exact H. Qed.

Lemma commas_to_ws (w : str) : ws w -> commas_to w w.
Proof. apply comma_free_ws. Qed.

Lemma commas_to_char (c : char) : tc_plain c = true -> commas_to [c] [c].
Proof. apply comma_free_char. Qed.

Lemma strips_to_container (o c : char) (wc w bc bt trc trt tr : str) :
  sc_safe o = true -> sc_safe c = true ->
  trivia wc w -> strips_to bc bt -> trailing trc trt tr ->
  strips_to (o :: wc ++ bc ++ trc ++ [c]) (o :: w ++ bt ++ trt ++ [c]).
Proof.
  intros Ho Hc Hw Hb Htr.
  apply (strips_to_app [o] [o]); [apply strips_to_char; exact Ho|].
  apply strips_to_app; [apply trivia_strips_to; exact Hw|].
  apply strips_to_app; [exact Hb|].
  apply strips_to_app; [exact (trailing_strips_to trc trt tr Htr)|].
  apply strips_to_char. exact Hc.
Qed.

Lemma commas_to_container (o c : char) (w bt b trc trt tr : str) :
  tc_plain o = true -> c = RBRACE \/ c = RBRACKET ->
  ws w -> commas_to bt b -> closable b -> trailing trc trt tr ->
  commas_to (o :: w ++ bt ++ trt ++ [c]) (o :: w ++ b ++ tr ++ [c]).
Proof.
  intros Ho Hc Hw Hb Hcl Htr.
  replace (o :: w ++ bt ++ trt ++ [c]) with (((o :: w) ++ bt) ++ trt ++ [c])
    by (rewrite <- !app_assoc; reflexivity).
  replace (o :: w ++ b ++ tr ++ [c]) with (((o :: w) ++ b) ++ tr ++ [c])
    by (rewrite <- !app_assoc; reflexivity).
  apply (commas_to_end _ _ trc); [| |exact Htr|exact Hc].
  - apply commas_to_app; [|exact Hb].
    apply (commas_to_app [o] [o] w w);
      [apply commas_to_char; exact Ho|apply commas_to_ws; exact Hw].
  - apply closable_after. exact Hcl.
Qed.

(** The text without comments and trailing commas is a document of the
    same value, and the two passes compute it. *)
Lemma Jsonc_cleaned :
  (forall v tc tt t, Jsonc float_text v tc tt t ->
     Doc float_text v t /\ strips_to tc tt /\ commas_to tt t)
  /\ (forall l bc bt b, JsoncItems float_text l bc bt b ->
        DocItems float_text l b /\ strips_to bc bt /\ commas_to bt b)
  /\ (forall d bc bt b, JsoncMembers float_text d bc bt b ->
        DocMembers float_text d b /\ strips_to bc bt /\ commas_to bt b).
Proof.
  destruct (comma_free_doc float_text) as [Hcd [Hci Hcm]].
  apply Jsonc_mutual.
  - intros v Hp Hs. split; [apply Doc_prim; assumption|]. split.
    + apply strips_to_same. apply comment_free_prim with float_text;
        assumption.
    + apply commas_to_same.
      apply (comma_free_prim float_text v Hp Hs).
  - intros wc w Hw. pose proof (trivia_is_ws wc w Hw) as Hws.
    assert (Hd : Doc float_text (VList []) (LBRACKET :: w ++ [RBRACKET])).
    { apply Doc_empty_list. exact Hws. }
    split; [exact Hd|]. split.
    + apply (strips_to_container LBRACKET RBRACKET wc w [] [] [] [] []);
        try reflexivity; try assumption;
        [apply strips_to_nil|constructor].
    + apply commas_to_same. apply (Hcd _ _ Hd).
  - intros wc w l bc bt b trc trt tr Hw _ [Hb [Hsb Hcb]] Htr.
    pose proof (trivia_is_ws wc w Hw) as Hws. split; [|split].
    + replace (LBRACKET :: w ++ b ++ tr ++ [RBRACKET])
        with (LBRACKET :: w ++ (b ++ tr) ++ [RBRACKET])
        by (rewrite <- !app_assoc; reflexivity).
      apply Doc_list; [exact Hws|].
      apply DocItems_ws_end; [exact Hb|exact (trailing_ws _ _ _ Htr)].
    + apply (strips_to_container LBRACKET RBRACKET wc w bc bt trc trt tr);
        try reflexivity; assumption.
    + apply (commas_to_container LBRACKET RBRACKET w bt b trc);
        try assumption; [reflexivity|right; reflexivity|].
      apply (Hci _ _ Hb).
  - intros wc w Hw. pose proof (trivia_is_ws wc w Hw) as Hws.
    assert (Hd : Doc float_text (VDict []) (LBRACE :: w ++ [RBRACE])).
    { apply Doc_empty_dict. exact Hws. }
    split; [exact Hd|]. split.
    + apply (strips_to_container LBRACE RBRACE wc w [] [] [] [] []);
        try reflexivity; try assumption;
        [apply strips_to_nil|constructor].
    + apply commas_to_same. apply (Hcd _ _ Hd).
  - intros wc w d bc bt b trc trt tr Hw Hnd _ [Hb [Hsb Hcb]] Htr.
    pose proof (trivia_is_ws wc w Hw) as Hws. split; [|split].
    + replace (LBRACE :: w ++ b ++ tr ++ [RBRACE])
        with (LBRACE :: w ++ (b ++ tr) ++ [RBRACE])
        by (rewrite <- !app_assoc; reflexivity).
      apply Doc_dict; [exact Hws|exact Hnd|].
      apply DocMembers_ws_end; [exact Hb|exact (trailing_ws _ _ _ Htr)].
    + apply (strips_to_container LBRACE RBRACE wc w bc bt trc trt tr);
        try reflexivity; assumption.
    + apply (commas_to_container LBRACE RBRACE w bt b trc);
        try assumption; [reflexivity|left; reflexivity|].
      apply (Hcm _ _ Hb).
  - intros v tc tt t wc w _ [Hd [Hs Hc]] Hw.
    pose proof (trivia_is_ws wc w Hw) as Hws. split; [|split].
    + apply Items_last; assumption.
    + apply strips_to_app; [exact Hs|apply trivia_strips_to; exact Hw].
    + apply commas_to_app; [exact Hc|apply commas_to_ws; exact Hws].
  - intros v tc tt t wc1 w1 wc2 w2 l bc bt b _ [Hd [Hs Hc]] Hw1 Hw2 _
      [Hb [Hsb Hcb]].
    pose proof (trivia_is_ws wc1 w1 Hw1) as Hws1.
    pose proof (trivia_is_ws wc2 w2 Hw2) as Hws2. split; [|split].
    + apply Items_more; assumption.
    + apply strips_to_app; [exact Hs|].
      apply strips_to_app; [apply trivia_strips_to; exact Hw1|].
      apply (strips_to_app [COMMA] [COMMA]);
        [apply strips_to_char; reflexivity|].
      apply strips_to_app; [apply trivia_strips_to; exact Hw2|exact Hsb].
    + apply commas_to_app; [exact Hc|].
      apply commas_to_app; [apply commas_to_ws; exact Hws1|].
      apply (commas_to_app [COMMA] [COMMA]);
        [apply commas_to_char; reflexivity|].
      apply commas_to_app; [apply commas_to_ws; exact Hws2|exact Hcb].
  - intros k v tc tt t wc1 w1 wc2 w2 wc3 w3 Hk _ [Hd [Hs Hc]] Hw1 Hw2 Hw3.
    pose proof (trivia_is_ws wc1 w1 Hw1) as Hws1.
    pose proof (trivia_is_ws wc2 w2 Hw2) as Hws2.
    pose proof (trivia_is_ws wc3 w3 Hw3) as Hws3. split; [|split].
    + apply Members_last; assumption.
    + apply strips_to_app;
        [apply strips_to_same, comment_free_encode_basestring_ascii|].
      apply strips_to_app; [apply trivia_strips_to; exact Hw1|].
      apply (strips_to_app [COLON] [COLON]);
        [apply strips_to_char; reflexivity|].
      apply strips_to_app; [apply trivia_strips_to; exact Hw2|].
      apply strips_to_app; [exact Hs|apply trivia_strips_to; exact Hw3].
    + apply commas_to_app; [apply commas_to_same, comma_free_key|].
      apply commas_to_app; [apply commas_to_ws; exact Hws1|].
      apply (commas_to_app [COLON] [COLON]);
        [apply commas_to_char; reflexivity|].
      apply commas_to_app; [apply commas_to_ws; exact Hws2|].
      apply commas_to_app; [exact Hc|apply commas_to_ws; exact Hws3].
  - intros k v tc tt t wc1 w1 wc2 w2 wc3 w3 wc4 w4 d bc bt b Hk _
      [Hd [Hs Hc]] Hw1 Hw2 Hw3 Hw4 _ [Hb [Hsb Hcb]].
    pose proof (trivia_is_ws wc1 w1 Hw1) as Hws1.
    pose proof (trivia_is_ws wc2 w2 Hw2) as Hws2.
    pose proof (trivia_is_ws wc3 w3 Hw3) as Hws3.
    pose proof (trivia_is_ws wc4 w4 Hw4) as Hws4. split; [|split].
    + apply Members_more; assumption.
    + apply strips_to_app;
        [apply strips_to_same, comment_free_encode_basestring_ascii|].
      apply strips_to_app; [apply trivia_strips_to; exact Hw1|].
      apply (strips_to_app [COLON] [COLON]);
        [apply strips_to_char; reflexivity|].
      apply strips_to_app; [apply trivia_strips_to; exact Hw2|].
      apply strips_to_app; [exact Hs|].
      apply strips_to_app; [apply trivia_strips_to; exact Hw3|].
      apply (strips_to_app [COMMA] [COMMA]);
        [apply strips_to_char; reflexivity|].
      apply strips_to_app; [apply trivia_strips_to; exact Hw4|exact Hsb].
    + apply commas_to_app; [apply commas_to_same, comma_free_key|].
      apply commas_to_app; [apply commas_to_ws; exact Hws1|].
      apply (commas_to_app [COLON] [COLON]);
        [apply commas_to_char; reflexivity|].
      apply commas_to_app; [apply commas_to_ws; exact Hws2|].
      apply commas_to_app; [exact Hc|].
      apply commas_to_app; [apply commas_to_ws; exact Hws3|].
      apply (commas_to_app [COMMA] [COMMA]);
        [apply commas_to_char; reflexivity|].
      apply commas_to_app; [apply commas_to_ws; exact Hws4|exact Hcb].
Qed.

End CleaningCommentedDocuments.

(** ** Parsing a commented document *)

Lemma is_ws_not_bom (c : char) : is_ws c = true -> char_eqb 65279%N c = false.
Proof.
  unfold is_ws, char_eqb. rewrite !orb_true_iff, !N.eqb_eq, N.eqb_neq.
  unfold SP, NL. lia.
Qed.

Section ParseCommentedDocument.

Variable float_text : str -> str.

Lemma loads_doc_ws (v : value) (l t e : str) :
  Doc float_text v t -> ws l -> ws e ->
  loads float_text (l ++ t ++ e) = Value v.
Proof.
  intros Hd Hl He. unfold loads.
  destruct (Doc_starts_value float_text) as [Hstart _].
  pose proof (Hstart v t Hd) as Hs.
  destruct t as [|c t']; [contradiction|]. cbn [starts_value] in Hs.
  destruct (value_start_not_closing c Hs) as [_ [_ Hbom]].
  assert (Hb : starts_with [65279%N] (l ++ (c :: t') ++ e) = false).
  { destruct Hl as [|x l' Hx _]; cbn [app starts_with].
    - replace (char_eqb 65279%N c) with (char_eqb c 65279%N)
        by apply N.eqb_sym.
      rewrite Hbom. reflexivity.
    - rewrite (is_ws_not_bom x Hx). reflexivity. }
  rewrite Hb. rewrite (skip_ws_ws l _ Hl). cbn [app].
  rewrite (skip_ws_stop c (t' ++ e) (value_start_not_ws c Hs)).
  destruct (read_back float_text) as [Hread _].
  change (c :: t' ++ e) with ((c :: t') ++ e).
  rewrite (Hread v (c :: t') Hd e _ (ws_follow_ok e He)).
  - pose proof (skip_ws_ws e [] He) as E. rewrite app_nil_r in E.
    rewrite E. reflexivity.
  - rewrite !length_app. lia.
Qed.

(** A commented document between trivia is parsed to its value. *)
Lemma parse_jsonc (v : value) (lc l tc tt t ec e : str) :
  Jsonc float_text v tc tt t -> trivia lc l -> trivia ec e ->
  parse_json_lenient float_text (lc ++ tc ++ ec) = Value v.
Proof.
  intros Hj Hl He.
  destruct (Jsonc_cleaned float_text) as [Hclean _].
  destruct (Hclean v tc tt t Hj) as [Hd [Hs Hc]].
  pose proof (trivia_is_ws lc l Hl) as Hwl.
  pose proof (trivia_is_ws ec e He) as Hwe.
  assert (Hs' : strips_to (lc ++ tc ++ ec) (l ++ tt ++ e)).
  { apply strips_to_app; [apply trivia_strips_to; exact Hl|].
    apply strips_to_app; [exact Hs|apply trivia_strips_to; exact He]. }
  assert (Hc' : commas_to (l ++ tt ++ e) (l ++ t ++ e)).
  { apply commas_to_app; [apply commas_to_ws; exact Hwl|].
    apply commas_to_app; [exact Hc|apply commas_to_ws; exact Hwe]. }
  unfold parse_json_lenient, _strip_comments, _strip_trailing_commas.
  specialize (Hs' []). rewrite app_nil_r in Hs'. rewrite Hs'.
  cbn [strip_comments_loop rev clean_gap sub_line_comments
       sub_block_comments].
  rewrite app_nil_r.
  specialize (Hc' [] []). rewrite !app_nil_r in Hc'. rewrite Hc'.
  cbn [strip_trailing_commas_loop]. rewrite rev_involutive.
  apply loads_doc_ws; assumption.
Qed.

End ParseCommentedDocument.

(** ** The strings of a value in its texts *)

(** The strings that a value holds: its string values and its keys. *)
Fixpoint strings_of (v : value) : list str :=
  match v with
  | VStr s => [s]
  | VList l => flat_map strings_of l
  | VDict d => flat_map (fun kv => fst kv :: strings_of (snd kv)) d
  | _ => []
  end.

Definition contains (needle hay : str) : Prop :=
  exists a b, hay = a ++ needle ++ b.

(** The characters that both encoders of [json] print as they are. *)
Definition printable (c : char) : bool :=
  (32 <=? c)%N && (c <=? 126)%N
  && negb (char_eqb c QUOTE) && negb (char_eqb c BACKSLASH).

Lemma contains_app_l (needle x b : str) :
  contains needle x -> contains needle (x ++ b).
Proof.
  intros [a [c ->]]. exists a, (c ++ b). rewrite <- !app_assoc. reflexivity.
Qed.

Lemma contains_app_r (needle a x : str) :
  contains needle x -> contains needle (a ++ x).
Proof.
  intros [a' [c ->]]. exists (a ++ a'), c. rewrite <- !app_assoc. reflexivity.
Qed.

Lemma contains_cons (needle : str) (c : char) (x : str) :
  contains needle x -> contains needle (c :: x).
Proof. apply (contains_app_r needle [c] x). Qed.

Lemma printable_inv (c : char) :
  printable c = true ->
  (32 <= c <= 126)%N /\ c <> QUOTE /\ c <> BACKSLASH.
Proof.
  unfold printable, char_eqb.
  rewrite !andb_true_iff, !negb_true_iff, !N.leb_le, !N.eqb_neq. tauto.
Qed.

Lemma escape_char_printable (c : char) :
  printable c = true -> escape_char c = [c].
Proof.
  intros H. apply printable_inv in H. destruct H as [[Hlo Hhi] [Hq Hb]].
  unfold escape_char, ESCAPE_DCT, char_eqb.
  repeat match goal with
         | |- context [(c =? ?k)%N] =>
             destruct (N.eqb_spec c k); [unfold QUOTE, BACKSLASH in *; lia|]
         end.
  destruct (N.ltb_spec c 32); [lia|reflexivity].
Qed.

Lemma escape_char_ascii_printable (c : char) :
  printable c = true -> escape_char_ascii c = [c].
Proof.
  intros H. apply printable_inv in H. destruct H as [[Hlo Hhi] [Hq Hb]].
  unfold escape_char_ascii, char_eqb.
  destruct (N.eqb_spec c BACKSLASH); [contradiction|].
  destruct (N.eqb_spec c QUOTE); [contradiction|].
  destruct (N.ltb_spec c 32); [lia|].
  destruct (N.ltb_spec 126 c); [lia|reflexivity].
Qed.

Lemma flat_map_printable (f : char -> str) (needle : str) :
  (forall c, printable c = true -> f c = [c]) ->
  all_chars printable needle -> flat_map f needle = needle.
Proof.
  intros Hf. induction 1 as [|c s Hc _ IH]; [reflexivity|].
  cbn [flat_map]. rewrite (Hf c Hc), IH. reflexivity.
Qed.

Lemma contains_escaped (f : char -> str) (needle s : str) :
  (forall c, printable c = true -> f c = [c]) ->
  all_chars printable needle -> contains needle s ->
  contains needle (QUOTE :: flat_map f s ++ [QUOTE]).
Proof.
  intros Hf Hn [a [b ->]]. rewrite !flat_map_app.
  rewrite (flat_map_printable f needle Hf Hn).
  exists (QUOTE :: flat_map f a), (flat_map f b ++ [QUOTE]).
  cbn [app]. rewrite <- !app_assoc. reflexivity.
Qed.

Ltac find_needle H :=
  repeat first [ exact H
               | apply contains_app_l; exact H
               | apply contains_app_r
               | apply contains_cons ].

Section StringsInTexts.

Variable float_text : str -> str.

Variable needle : str.

Hypothesis needle_printable : all_chars printable needle.

Lemma contains_string_literal (s : str) :
  contains needle s -> contains needle (encode_basestring s).
Proof.
  apply contains_escaped; [apply escape_char_printable|].
  exact needle_printable.
Qed.

Lemma contains_key_literal (k : str) :
  contains needle k -> contains needle (encode_basestring_ascii k).
Proof.
  apply contains_escaped; [apply escape_char_ascii_printable|].
  exact needle_printable.
Qed.

(** A string of the value that holds the needle shows it in the text. *)
Lemma Jsonc_contains :
  (forall v tc tt t, Jsonc float_text v tc tt t ->
     forall s, In s (strings_of v) -> contains needle s ->
               contains needle tc)
  /\ (forall l bc bt b, JsoncItems float_text l bc bt b ->
        forall s, In s (flat_map strings_of l) -> contains needle s ->
                  contains needle bc)
  /\ (forall d bc bt b, JsoncMembers float_text d bc bt b ->
        forall s,
          In s (flat_map (fun kv => fst kv :: strings_of (snd kv)) d) ->
          contains needle s -> contains needle bc).
Proof.
  apply Jsonc_mutual.
  - intros v Hp _ s Hin Hs.
    destruct v as [|b|z|r|s0|l|d]; try discriminate;
      cbn [strings_of In] in Hin; try contradiction.
    destruct Hin as [<-|[]]. apply contains_string_literal. exact Hs.
  - intros wc w _ s [].
  - intros wc w l bc bt b trc trt tr _ _ IH _ s Hin Hs.
    specialize (IH s Hin Hs). find_needle IH.
  - intros wc w _ s [].
  - intros wc w d bc bt b trc trt tr _ _ _ IH _ s Hin Hs.
    specialize (IH s Hin Hs). find_needle IH.
  - intros v tc tt t wc w _ IH _ s Hin Hs.
    cbn [flat_map] in Hin. rewrite app_nil_r in Hin.
    specialize (IH s Hin Hs). find_needle IH.
  - intros v tc tt t wc1 w1 wc2 w2 l bc bt b _ IHv _ _ _ IHl s Hin Hs.
    cbn [flat_map] in Hin. apply in_app_or in Hin.
    destruct Hin as [Hin|Hin].
    + specialize (IHv s Hin Hs). find_needle IHv.
    + specialize (IHl s Hin Hs). find_needle IHl.
  - intros k v tc tt t wc1 w1 wc2 w2 wc3 w3 _ _ IHv _ _ _ s Hin Hs.
    cbn [flat_map fst snd app In] in Hin. rewrite app_nil_r in Hin.
    destruct Hin as [<-|Hin].
    + pose proof (contains_key_literal k Hs) as Hk. find_needle Hk.
    + specialize (IHv s Hin Hs). find_needle IHv.
  - intros k v tc tt t wc1 w1 wc2 w2 wc3 w3 wc4 w4 d bc bt b _ _ IHv
      _ _ _ _ _ IHd s Hin Hs.
    cbn [flat_map fst snd app In] in Hin.
    destruct Hin as [<-|Hin];
      [|apply in_app_or in Hin; destruct Hin as [Hin|Hin]].
    + pose proof (contains_key_literal k Hs) as Hk. find_needle Hk.
    + specialize (IHv s Hin Hs). find_needle IHv.
    + specialize (IHd s Hin Hs). find_needle IHd.
Qed.

Lemma Doc_contains (v : value) (t s : str) :
  Doc float_text v t -> In s (strings_of v) -> contains needle s ->
  contains needle t.
Proof.
  intros Hd. destruct (Doc_Jsonc float_text) as [H _].
  destruct Jsonc_contains as [Hc _].
  exact (Hc v t t t (H v t Hd) s).
Qed.

End StringsInTexts.

Lemma Doc_stable (float_text : str -> str) :
  (forall v t, Doc float_text v t -> stable float_text v)
  /\ (forall l b, DocItems float_text l b -> Forall (stable float_text) l)
  /\ (forall d b, DocMembers float_text d b ->
        Forall (member_ok float_text) d).
Proof.
  apply Doc_mutual.
  - intros v _ Hs. exact Hs.
  - intros w _. exact I.
  - intros w l body _ _ IH. apply stable_list. exact IH.
  - intros w _. apply stable_dict. split; constructor.
  - intros w d body _ Hnd _ IH. apply stable_dict. split; assumption.
  - intros v t w _ IH _. repeat constructor. exact IH.
  - intros v t w1 w2 l body _ IHv _ _ _ IHl. constructor; assumption.
  - intros k v t w1 w2 w3 Hk _ IHv _ _ _. repeat constructor; assumption.
  - intros k v t w1 w2 w3 w4 d body Hk _ IHv _ _ _ _ _ IHd.
    constructor; [split; assumption|exact IHd].
Qed.

(** ** Strings that look like comments or trailing commas *)

Section StringsPreserved.

Variable float_text : str -> str.


End StringsPreserved.

(** A commented text that holds the two strings of the claim *)
Definition recipe_value : value :=
  VDict [(py "note", VStr (py "// not a comment"));
         (py "tail", VList [VStr (py "a,}"); VInt 2])].

Definition recipe_text : str :=
  pyq "// recipe" ++ NL ::
  pyq "{" ++ NL ::
  pyq "  'note': '// not a comment', /* keep */" ++ NL ::
  pyq "  'tail': ['a,}', 2,]," ++ NL ::
  pyq "}" ++ [NL].

(** The object of [recipe_text], token by token *)
Definition recipe_document : str :=
  LBRACE :: [NL; SP; SP]
    ++ (encode_basestring_ascii (py "note") ++ []
          ++ COLON :: [SP]
          ++ _dump_oneline (VStr (py "// not a comment")) ++ []
          ++ COMMA
          :: (SP :: SLASH :: STAR :: py " keep "
                ++ STAR :: SLASH :: NL :: [SP; SP])
          ++ encode_basestring_ascii (py "tail") ++ []
          ++ COLON :: [SP]
          ++ (LBRACKET :: []
                ++ (_dump_oneline (VStr (py "a,}")) ++ []
                      ++ COMMA :: [SP]
                      ++ _dump_oneline (VInt 2) ++ [])
                ++ [COMMA] ++ [RBRACKET])
          ++ [])
    ++ (COMMA :: [NL]) ++ [RBRACE].

Example recipe_text_tokens :
  recipe_text
  = (SLASH :: SLASH :: py " recipe" ++ [NL]) ++ recipe_document ++ [NL].
Proof. reflexivity. Qed.

Example recipe_text_parsed :
  parse_json_lenient literal_float_text recipe_text = Value recipe_value.
Proof. vm_compute. reflexivity. Qed.

Example recipe_value_rendered :
  format_json recipe_value default_config
  = Some (pyq "{ 'note': '// not a comment', 'tail': ['a,}', 2] }" ++ [NL]).
Proof. vm_compute. reflexivity. Qed.

Definition recipe_keeps (needle : str) : Prop :=
  parse_json_lenient literal_float_text recipe_text = Value recipe_value
  /\ exists out,
       format_json recipe_value default_config = Some out
       /\ forall s, In s (strings_of recipe_value) -> contains needle s ->
            contains needle recipe_text /\ contains needle out.

Ltac solve_trivia :=
  repeat first
    [ apply trivia_nil
    | apply trivia_ws; [reflexivity|]
    | apply trivia_line; [repeat constructor|]
    | apply trivia_block; [repeat constructor|reflexivity|] ].

Ltac recipe_derivation :=
  unfold recipe_document;
  eapply Jsonc_dict;
    [ solve_trivia
    | repeat constructor; cbn; intuition discriminate
    |
    | apply trailing_comma; solve_trivia ];
  eapply JMembers_more; try solve_trivia; try reflexivity;
    [ apply Jsonc_prim; [reflexivity|exact I] | ];
  eapply JMembers_last; try solve_trivia; try reflexivity;
  eapply (Jsonc_list _ [] _ _ _ _ _ [COMMA]);
    [ solve_trivia | | apply trailing_comma; solve_trivia ];
  eapply JItems_more; try solve_trivia;
    [ apply Jsonc_prim; [reflexivity|exact I] | ];
  eapply JItems_last; [|solve_trivia];
  apply Jsonc_prim; [reflexivity|exact I].


(** * More of the code

    The rest of cli.py, api.py and the helpers of gui.py that work on
    texts, with the properties that their code shows. *)

(** ** The characters of a rendered text *)

Definition CR : char := 13%N.
Definition TAB : char := 9%N.

(** The characters from the space on: no control character below 0x20. *)
Definition graphic (c : char) : bool := (32 <=? c)%N.

(** The characters of a layout: graphic characters and the line feed. *)
Definition layout_char (c : char) : bool := graphic c || char_eqb c NL.

Lemma graphic_layout (s : str) : all_chars graphic s -> all_chars layout_char s.
Proof.
  apply all_chars_impl. intros c H. unfold layout_char. rewrite H. reflexivity.
Qed.

Lemma hexdigit_graphic (d : N) : graphic (hexdigit d) = true.
Proof.
  unfold graphic, hexdigit. apply N.leb_le. destruct (d <? 10)%N; lia.
Qed.

Lemma u_escape_graphic (n : N) : all_chars graphic (u_escape n).
Proof.
  unfold u_escape. repeat constructor; apply hexdigit_graphic.
Qed.

Lemma ESCAPE_DCT_graphic (c : char) (e : str) :
  ESCAPE_DCT c = Some e -> all_chars graphic e.
Proof.
  unfold ESCAPE_DCT.
  repeat match goal with
         | |- context [if ?b then _ else _] => destruct b
         end; intros H; inversion H; subst;
    try apply u_escape_graphic; repeat constructor.
Qed.

Lemma ESCAPE_DCT_None_graphic (c : char) :
  ESCAPE_DCT c = None -> graphic c = true.
Proof.
  unfold ESCAPE_DCT, graphic.
  repeat match goal with
         | |- context [if char_eqb ?a ?b then _ else _] =>
             destruct (char_eqb a b)
         end; try discriminate.
  destruct (N.ltb_spec c 32); [discriminate|].
  intros _. apply N.leb_le. assumption.
Qed.

Lemma escape_char_graphic (c : char) : all_chars graphic (escape_char c).
Proof.
  unfold escape_char. destruct (ESCAPE_DCT c) as [e|] eqn:E.
  - eapply ESCAPE_DCT_graphic; eassumption.
  - constructor; [apply ESCAPE_DCT_None_graphic; exact E|constructor].
Qed.

Lemma escape_char_ascii_graphic (c : char) :
  all_chars graphic (escape_char_ascii c).
Proof.
  unfold escape_char_ascii.
  destruct (char_eqb c BACKSLASH || char_eqb c QUOTE || (c <? 32)%N
            || (126 <? c)%N) eqn:E.
  - destruct (ESCAPE_DCT c) as [e|] eqn:Ed.
    + eapply ESCAPE_DCT_graphic; eassumption.
    + destruct (c <? 65536)%N; [apply u_escape_graphic|].
      apply all_chars_app. split; apply u_escape_graphic.
  - constructor; [|constructor].
    rewrite !orb_false_iff in E. destruct E as [[_ E] _].
    unfold graphic. apply N.leb_le. apply N.ltb_ge. exact E.
Qed.

Lemma flat_map_chars (p : char -> bool) (f : char -> str) (s : str) :
  (forall c, all_chars p (f c)) -> all_chars p (flat_map f s).
Proof.
  intros Hf. induction s as [|c s IH]; cbn [flat_map]; [constructor|].
  apply all_chars_app. split; [apply Hf|exact IH].
Qed.

Lemma encode_basestring_graphic (s : str) :
  all_chars graphic (encode_basestring s).
Proof.
  unfold encode_basestring. constructor; [reflexivity|].
  apply all_chars_app. split; [|repeat constructor].
  apply flat_map_chars, escape_char_graphic.
Qed.

Lemma encode_basestring_ascii_graphic (s : str) :
  all_chars graphic (encode_basestring_ascii s).
Proof.
  unfold encode_basestring_ascii. constructor; [reflexivity|].
  apply all_chars_app. split; [|repeat constructor].
  apply flat_map_chars, escape_char_ascii_graphic.
Qed.

Lemma numchar_graphic (c : char) : numchar c = true -> graphic c = true.
Proof.
  intros H. apply numchar_cases in H. unfold graphic. apply N.leb_le.
  destruct H as [H|H]; [lia|]. cbn [In] in H. lia.
Qed.

Lemma dump_prim_graphic (float_text : str -> str) (v : value) :
  _is_prim v = true -> stable float_text v ->
  all_chars graphic (_dump_oneline v).
Proof.
  intros Hp Hs.
  destruct v as [|[|]|z|r|s|l|d]; try discriminate; cbn [_dump_oneline].
  - repeat constructor.
  - repeat constructor.
  - repeat constructor.
  - eapply all_chars_impl; [apply numchar_graphic|apply int_repr_numchars].
  - cbn [stable] in Hs.
    destruct (canonical_numchars_or_constant float_text r Hs)
      as [->|[->|[->|H]]]; try (repeat constructor; fail).
    eapply all_chars_impl; [apply numchar_graphic|exact H].
  - apply encode_basestring_graphic.
Qed.

Lemma join_chars (p : char -> bool) (sep : str) (parts : list str) :
  all_chars p sep -> Forall (all_chars p) parts ->
  all_chars p (join sep parts).
Proof.
  intros Hsep. induction 1 as [|x parts Hx Hps IH]; cbn [join].
  - constructor.
  - destruct parts as [|q parts]; [exact Hx|].
    apply all_chars_app. split; [exact Hx|].
    apply all_chars_app. split; [exact Hsep|exact IH].
Qed.

Lemma spaces_graphic (n : Z) : all_chars graphic (spaces n).
Proof.
  unfold spaces. induction (Z.to_nat n) as [|k IH]; simpl;
    constructor; [reflexivity|exact IH].
Qed.

Lemma block_chars (o c : char) (parts : list str) (n : Z) :
  layout_char o = true -> layout_char c = true ->
  Forall (all_chars layout_char) parts ->
  all_chars layout_char (block o parts (spaces n) c).
Proof.
  intros Ho Hc Hparts. unfold block.
  constructor; [exact Ho|]. constructor; [reflexivity|].
  apply all_chars_app. split.
  - apply join_chars; [repeat constructor|exact Hparts].
  - constructor; [reflexivity|]. apply all_chars_app. split.
    + apply graphic_layout, spaces_graphic.
    + repeat constructor. exact Hc.
Qed.

Lemma wrapped_graphic (o c : char) (sep : str) (parts : list str) (pad : str) :
  graphic o = true -> graphic c = true -> all_chars graphic sep ->
  all_chars graphic pad ->
  Forall (all_chars graphic) parts ->
  all_chars graphic (o :: pad ++ join sep parts ++ pad ++ [c]).
Proof.
  intros Ho Hc Hsep Hpad Hparts. constructor; [exact Ho|].
  apply all_chars_app. split; [exact Hpad|].
  apply all_chars_app. split; [apply join_chars; assumption|].
  apply all_chars_app. split; [exact Hpad|]. repeat constructor. exact Hc.
Qed.

Lemma layout_one_line_graphic (s : str) :
  all_chars layout_char s -> has_nl s = false -> all_chars graphic s.
Proof.
  induction 1 as [|c s Hc _ IH]; [constructor|].
  unfold has_nl, char_in in *. cbn [existsb]. intros H.
  apply orb_false_iff in H. destruct H as [Hn Hrest].
  constructor; [|exact (IH Hrest)].
  unfold layout_char in Hc. apply orb_true_iff in Hc.
  destruct Hc as [Hc|Hc]; [exact Hc|].
  replace (char_eqb NL c) with (char_eqb c NL) in Hn by apply N.eqb_sym.
  congruence.
Qed.

Section LayoutCharacters.

Variable float_text : str -> str.

Lemma small_members_graphic (d : dict) (cfg : FormatConfig) :
  Forall (member_ok float_text) d ->
  forallb (fun v => _is_small_prim v cfg) (values d) = true ->
  Forall (all_chars graphic)
    (map (fun kv => member_text (fst kv) (_dump_oneline (snd kv))) d).
Proof.
  induction 1 as [|[k v] d [Hk Hv] _ IH]; cbn [values map forallb];
    [constructor|].
  fold (values d). intros H. apply andb_true_iff in H. destruct H as [Hs Hrest].
  constructor; [|exact (IH Hrest)].
  cbn [fst snd] in *. unfold member_text.
  apply all_chars_app. split; [apply encode_basestring_ascii_graphic|].
  apply all_chars_app. split; [repeat constructor|].
  apply (dump_prim_graphic float_text);
    [exact (small_prim_is_prim v cfg Hs)|exact Hv].
Qed.

Lemma compact_object_text_graphic (d : dict) (cfg : FormatConfig) :
  stable float_text (VDict d) ->
  forallb (fun v => _is_small_prim v cfg) (values d) = true ->
  all_chars graphic (compact_object_text d).
Proof.
  intros Hs Hsm. apply stable_dict in Hs. destruct Hs as [_ Hall].
  apply (wrapped_graphic LBRACE RBRACE COMMA_SP _ [SP]);
    try reflexivity; try (repeat constructor; fail).
  apply small_members_graphic with (cfg := cfg); assumption.
Qed.

Lemma compact_object_graphic (d : dict) (cfg : FormatConfig) (t : str) :
  stable float_text (VDict d) ->
  _compact_object d cfg = Some t -> all_chars graphic t.
Proof.
  intros Hs. unfold _compact_object.
  destruct (forallb _ (values d)) eqn:Hsm; [|discriminate].
  intros H; inversion H; subst.
  exact (compact_object_text_graphic d cfg Hs Hsm).
Qed.

Lemma compact_list_value_graphic (val : value) :
  stable float_text val ->
  forall (cfg : FormatConfig) (level : Z) (t : str),
    compact_list_value val cfg level = Some t -> all_chars graphic t.
Proof.
  induction val as [|b|z|r|s0|lst IH|items IH] using value_nested_ind;
    intros Hs cfg level t; try discriminate.
  cbn [compact_list_value].
  match goal with |- context [traverse ?f lst] =>
    destruct (traverse f lst) as [parts|] eqn:Ht end; [|discriminate].
  destruct (_ || _); [|discriminate].
  intros H; inversion H; subst. clear H.
  apply (wrapped_graphic LBRACKET RBRACKET COMMA_SP parts [SP]);
    try reflexivity; try (repeat constructor; fail).
  apply traverse_Forall2 in Ht. apply stable_list in Hs.
  induction Ht as [|el p lst parts Hel _ IHt]; [constructor|].
  inversion IH as [|? ? IHel IHrest]; subst.
  inversion Hs as [|? ? Hsel Hsrest]; subst.
  constructor; [|exact (IHt IHrest Hsrest)].
  destruct (_is_prim el) eqn:Hp.
  - inversion Hel; subst. apply (dump_prim_graphic float_text); assumption.
  - destruct el as [|b|z|r|s0|l|d]; try discriminate.
    + exact (IHel Hsel cfg level p Hel).
    + exact (compact_object_graphic d cfg p Hsel Hel).
Qed.

Lemma elem_string_graphic (cfg : FormatConfig) (level : Z) (el : value)
  (t : str) :
  stable float_text el ->
  elem_string cfg level el = Some t -> all_chars graphic t.
Proof.
  intros Hs. unfold elem_string. destruct (_is_prim el) eqn:Hp.
  - intros H; inversion H; subst.
    apply (dump_prim_graphic float_text); assumption.
  - destruct el as [|b|z|r|s0|l|d]; try discriminate.
    + apply compact_list_value_graphic. exact Hs.
    + apply compact_object_graphic. exact Hs.
Qed.

Lemma prefixed_layout (n : Z) (texts : list str) :
  Forall (all_chars layout_char) texts ->
  Forall (all_chars layout_char) (map (app (spaces n)) texts).
Proof.
  induction 1 as [|t texts Ht _ IH]; cbn [map]; constructor; [|exact IH].
  apply all_chars_app. split; [|exact Ht].
  apply graphic_layout, spaces_graphic.
Qed.

Lemma collapse_key_strategy_chars (lst : list value) (cfg : FormatConfig)
  (level : Z) (t : str) :
  stable float_text (VList lst) ->
  collapse_key_strategy lst cfg level = Return t ->
  all_chars layout_char t.
Proof.
  intros Hs. unfold collapse_key_strategy.
  destruct (_compact_list lst cfg level) as [whole|] eqn:Ec.
  - intros H; inversion H; subst. apply graphic_layout.
    exact (compact_list_value_graphic (VList lst) Hs cfg level t Ec).
  - destruct (traverse (elem_string cfg level) lst) as [es|] eqn:Et;
      [|discriminate].
    intros H; inversion H; subst. apply block_chars; try reflexivity.
    apply (prefixed_layout _ es).
    apply traverse_Forall2 in Et. apply stable_list in Hs.
    clear H Ec. induction Et as [|el p lst es Hel _ IHt]; [constructor|].
    inversion Hs; subst. constructor; [|apply IHt; assumption].
    apply graphic_layout.
    apply elem_string_graphic with (cfg := cfg) (level := level) (el := el);
      assumption.
Qed.

Lemma homogeneous_strategy_chars (lst : list value) (cfg : FormatConfig)
  (level : Z) (t : str) :
  stable float_text (VList lst) ->
  homogeneous_strategy lst cfg level = Return t ->
  all_chars layout_char t.
Proof.
  intros Hs. unfold homogeneous_strategy.
  destruct (inline_homogeneous_objects cfg); [|discriminate].
  destruct (_array_is_homog_small_objs lst cfg) as [ok key_order] eqn:Eh.
  destruct ok; [|discriminate].
  destruct (traverse _ lst) as [parts|] eqn:Et; [|discriminate].
  intros H; inversion H; subst. clear H.
  apply homog_true_inv in Eh. destruct Eh as [_ [_ [_ Hall]]].
  apply traverse_Forall2 in Et. apply stable_list in Hs.
  apply block_chars; try reflexivity.
  induction Et as [|el p lst parts Hel _ IHt]; [constructor|].
  inversion Hs; subst. inversion Hall; subst.
  constructor; [|apply IHt; assumption].
  match goal with Hh : homog_elem _ _ el |- _ =>
    pose proof Hh as [Hd [_ Hsm]];
    rewrite (homog_part_nodup cfg key_order _ el) in Hel;
    [|destruct el; try discriminate;
      match goal with Hst : stable _ (VDict _) |- _ =>
        apply stable_dict in Hst; exact (proj1 Hst) end
     |exact Hh] end.
  inversion Hel; subst. apply graphic_layout.
  apply all_chars_app. split; [apply spaces_graphic|].
  destruct el as [|b|z|r|s0|l|d]; try discriminate. cbn [as_dict] in *.
  apply compact_object_text_graphic with (cfg := cfg); assumption.
Qed.

Lemma prims_graphic (lst : list value) :
  Forall (stable float_text) lst -> forallb _is_prim lst = true ->
  Forall (all_chars graphic) (map _dump_oneline lst).
Proof.
  induction 1 as [|v lst Hv _ IH]; cbn [forallb map]; [constructor|].
  intros H. apply andb_true_iff in H. destruct H as [Hp Hrest].
  constructor; [|exact (IH Hrest)].
  apply (dump_prim_graphic float_text); assumption.
Qed.

Lemma prim_collapse_strategy_chars (lst : list value) (cfg : FormatConfig)
  (level : Z) (t : str) :
  stable float_text (VList lst) ->
  prim_collapse_strategy lst cfg level = Return t ->
  all_chars graphic t.
Proof.
  intros Hs. unfold prim_collapse_strategy.
  destruct (str_eqb (array_wrap cfg) COLLAPSE && nonempty lst);
    [|discriminate].
  cbn [andb]. destruct (forallb _is_prim lst) eqn:Hp; [|discriminate].
  destruct (_ && _); [|discriminate].
  intros H; inversion H; subst.
  apply (wrapped_graphic LBRACKET RBRACKET COMMA_SP _ []);
    try reflexivity; try (repeat constructor; fail).
  apply prims_graphic; [apply stable_list; exact Hs|exact Hp].
Qed.

Lemma inner_chunks_graphic (f : str -> value -> option str) (d : dict)
  (chunks : list str) :
  Forall (fun kv => member_ok float_text kv
                    /\ forall t, f (fst kv) (snd kv) = Some t ->
                                 all_chars layout_char t) d ->
  inner_chunks_of f d = Some (Some chunks) ->
  Forall (all_chars graphic) chunks.
Proof.
  intros Hall. revert chunks.
  induction Hall as [|kv d [[Hk Hv] Hf] _ IH]; intros chunks;
    cbn [inner_chunks_of].
  - intros H; inversion H. constructor.
  - fold (inner_chunks_of f).
    assert (Hm : forall c, all_chars graphic c ->
                           all_chars graphic (member_text (fst kv) c)).
    { intros c Hc. unfold member_text.
      apply all_chars_app. split; [apply encode_basestring_ascii_graphic|].
      apply all_chars_app. split; [repeat constructor|exact Hc]. }
    destruct (_is_prim (snd kv)) eqn:Hp.
    + destruct (inner_chunks_of f d) as [[cs|]|]; try discriminate.
      intros H; inversion H; subst.
      constructor; [|apply IH; reflexivity].
      apply Hm. apply (dump_prim_graphic float_text); assumption.
    + destruct (f (fst kv) (snd kv)) as [c|] eqn:Ef; [|discriminate].
      destruct (has_nl c) eqn:Hnl; [discriminate|].
      destruct (inner_chunks_of f d) as [[cs|]|]; try discriminate.
      intros H; inversion H; subst.
      constructor; [|apply IH; reflexivity].
      apply Hm. apply layout_one_line_graphic; [|exact Hnl].
      apply Hf. reflexivity.
Qed.

End LayoutCharacters.

Lemma format_value_layout_chars (float_text : str -> str) (val : value) :
  stable float_text val ->
  forall (cfg : FormatConfig) (level : Z) (parent_key : option str)
         (out : str),
    _format_value val cfg level parent_key = Some out ->
    all_chars layout_char out.
Proof.
  induction val as [|b|z|r|s0|lst IH|items IH] using value_nested_ind;
    intros Hs cfg level parent_key out;
    try (match goal with
         | |- _format_value ?v _ _ _ = _ -> _ =>
             intros H;
             replace out with (_dump_oneline v)
               by (cbn [_format_value] in H; congruence);
             apply graphic_layout, (dump_prim_graphic float_text);
             [reflexivity|exact Hs]
         end).
  - cbn [_format_value].
    destruct (if in_collapse_keys parent_key cfg
              then collapse_key_strategy lst cfg level else Fallthrough)
      as [s| |] eqn:E1; [| |discriminate].
    { intros H; inversion H; subst.
      destruct (in_collapse_keys parent_key cfg); [|discriminate].
      exact (collapse_key_strategy_chars float_text lst cfg level out Hs E1). }
    destruct (homogeneous_strategy lst cfg level) as [s| |] eqn:E2;
      [| |discriminate].
    { intros H; inversion H; subst.
      exact (homogeneous_strategy_chars float_text lst cfg level out Hs E2). }
    destruct (prim_collapse_strategy lst cfg level) as [s| |] eqn:E3;
      [| |discriminate].
    { intros H; inversion H; subst. apply graphic_layout.
      exact (prim_collapse_strategy_chars float_text lst cfg level out
               Hs E3). }
    destruct (traverse _ lst) as [parts|] eqn:Et; [|discriminate].
    intros H; inversion H; subst. clear H.
    apply traverse_prefixed in Et. destruct Et as [texts [-> Hdocs]].
    apply block_chars; try reflexivity. apply prefixed_layout.
    apply stable_list in Hs. clear E1 E2 E3.
    induction Hdocs as [|el p lst texts Hel _ IHd]; [constructor|].
    inversion IH; subst. inversion Hs; subst.
    constructor; [|apply IHd; assumption].
    match goal with Hi : forall _ : stable _ el, _ |- _ =>
      eapply Hi; [assumption|exact Hel] end.
  - cbn [_format_value].
    pose proof Hs as Hs'. apply stable_dict in Hs'.
    destruct Hs' as [Hnd Hall].
    match goal with |- context [match ?strategy with
                                | Return _ => _ | Fallthrough => _
                                | Raise => _ end] =>
      destruct strategy as [s| |] eqn:E1 end; [| |discriminate].
    + intros H; inversion H; subst. clear H.
      destruct (str_eqb (object_wrap cfg) COLLAPSE); [|discriminate].
      destruct (_ && nonempty items); [|discriminate].
      destruct (inner_chunks_of _ items) as [[chunks|]|] eqn:Ei;
        try discriminate.
      destruct (_ && _); [|discriminate].
      inversion E1; subst. apply graphic_layout.
      apply (wrapped_graphic LBRACE RBRACE COMMA_SP chunks [SP]);
        try reflexivity; try (repeat constructor; fail).
      eapply (inner_chunks_graphic float_text); [|exact Ei].
      clear Ei E1 Hnd Hs.
      induction Hall as [|kv items Hkv _ IHa]; [constructor|].
      inversion IH; subst. constructor; [|apply IHa; assumption].
      split; [exact Hkv|]. intros t Ht.
      match goal with Hi : forall _ : stable _ (snd kv), _ |- _ =>
        eapply Hi; [exact (proj2 Hkv)|exact Ht] end.
    + destruct (traverse _ items) as [lines|] eqn:Et; [|discriminate].
      intros H; inversion H; subst. clear H E1.
      apply traverse_Forall2 in Et.
      apply block_chars; try reflexivity. clear Hnd Hs.
      induction Et as [|kv p items lines Hel _ IHt]; [constructor|].
      inversion IH; subst. inversion Hall as [|? ? Hkv Hrest]; subst.
      constructor; [|apply IHt; assumption].
      destruct (_format_value (snd kv) cfg (level + 1) (Some (fst kv)))
        as [formatted|] eqn:Ef; [|discriminate].
      inversion Hel; subst.
      apply all_chars_app. split; [apply graphic_layout, spaces_graphic|].
      unfold member_text.
      apply all_chars_app.
      split; [apply graphic_layout, encode_basestring_ascii_graphic|].
      apply all_chars_app. split; [repeat constructor|].
      match goal with Hi : forall _ : stable _ (snd kv), _ |- _ =>
        eapply Hi; [exact (proj2 Hkv)|exact Ef] end.
Qed.

(** A value whose strings hold a carriage return, a tab and a line feed *)
Definition control_value : value :=
  VDict [([TAB; 107%N], VList [VStr [CR; NL; TAB]; VFloat (py "1.5")])].

(** X1: the text that [format_json] renders for a stable value (what the
    decoder returns) is a body followed by the configured end of line, and
    the body holds graphic characters and line feeds only: no carriage
    return, no tab and no other control character, whatever the strings of
    the value hold and whatever the configuration. *)
Theorem rendered_text_characters (float_text : str -> str) (val : value)
  (cfg : FormatConfig) (out : str) :
  stable float_text val ->
  format_json val cfg = Some out ->
  exists body, out = body ++ eol cfg /\ all_chars layout_char body.
Proof.
  intros Hs. unfold format_json.
  destruct (_format_value val cfg 0 None) as [body|] eqn:E; [|discriminate].
  intros H; inversion H; subst. exists body. split; [reflexivity|].
  exact (format_value_layout_chars float_text val Hs cfg 0%Z None body E).
Qed.

Lemma rendered_text_characters_witness :
  exists body,
    pyq "{ '\tk': ['\r\n\t', 1.5] }" ++ [NL] = body ++ eol default_config
    /\ all_chars layout_char body.
Proof.
  apply (rendered_text_characters literal_float_text control_value
           default_config).
  - cbn. repeat split; try reflexivity.
    + repeat constructor. intros [].
    + right. right. right. split; reflexivity.
  - vm_compute. reflexivity.
Defined.

(** ** Line ends: [_process_text], [_write_text], [_normalize_eol] *)

(** [s.replace(CR LF, LF)]: the occurrences are replaced from left to
    right. *)
Fixpoint replace_crlf (s : str) : str :=
  match s with
  | [] => []
  | c :: tl =>
      match tl with
      | d :: tl' =>
          if char_eqb c CR && char_eqb d NL then NL :: replace_crlf tl'
          else c :: replace_crlf tl
      | [] => [c]
      end
  end.

(** [s.replace(CR, LF)] *)
Definition replace_cr (s : str) : str :=
  map (fun c => if char_eqb c CR then NL else c) s.

(** [s.replace(CR LF, LF).replace(CR, LF)]: the first statement of
    [_process_text] and of [_write_text], and [_normalize_eol] of gui.py. *)
Definition _normalize_eol (s : str) : str := replace_cr (replace_crlf s).

(** [s.endswith(LF)] *)
Fixpoint ends_with_nl (s : str) : bool :=
  match s with
  | [] => false
  | [c] => char_eqb c NL
  | _ :: tl => ends_with_nl tl
  end.

(** The text that [_write_text] writes; [main] computes the same text
    from the file it has read, to compare it with the formatted text. *)
Definition written_text (data : str) : str :=
  let data := _normalize_eol data in
  if ends_with_nl data then data else data ++ [NL].

Section ProcessText.

Variable float_text : str -> str.

(** [_process_text(text, cfg)]; [None] when the parser raises. *)
Definition _process_text (text : str) (cfg : FormatConfig) : option str :=
  format_text float_text (_normalize_eol text) cfg.

(** What the loop of [main] does with one file, whose content is the
    text that [_read_text] returns for it: the content of the file after
    the iteration, and whether the file counts as changed.  A file on
    which [_process_text] raises is reported and skipped. *)
Definition main_file (cfg : FormatConfig) (write : bool) (original : str)
  : str * bool :=
  match _process_text original cfg with
  | None => (original, false)
  | Some formatted =>
      if str_eqb formatted (written_text original) then (original, false)
      else ((if write then written_text formatted else original), true)
  end.

(** [main] on the contents of the files that [_expand_files] has found:
    the contents after the run and the exit status. *)
Definition main_files (cfg : FormatConfig) (write check : bool)
  (files : list str) : list str * Z :=
  match files with
  | [] => ([], 2%Z)
  | _ :: _ =>
      let results := map (main_file cfg write) files in
      let changed := List.length (filter snd results) in
      (map fst results,
       if check && negb (Nat.eqb changed 0) then 1%Z else 0%Z)
  end.

End ProcessText.

Definition no_cr (c : char) : bool := negb (char_eqb c CR).

Lemma replace_crlf_plain (s : str) :
  all_chars no_cr s -> replace_crlf s = s.
Proof.
  induction 1 as [|c s Hc Hs IH]; [reflexivity|].
  cbn [replace_crlf]. destruct s as [|d s']; [reflexivity|].
  unfold no_cr in Hc. apply negb_true_iff in Hc. rewrite Hc. cbn [andb].
  rewrite IH. reflexivity.
Qed.

Lemma replace_cr_plain (s : str) : all_chars no_cr s -> replace_cr s = s.
Proof.
  induction 1 as [|c s Hc _ IH]; [reflexivity|].
  unfold replace_cr in *. cbn [map]. unfold no_cr in Hc.
  apply negb_true_iff in Hc. rewrite Hc, IH. reflexivity.
Qed.

Lemma replace_cr_no_cr (s : str) : all_chars no_cr (replace_cr s).
Proof.
  induction s as [|c s IH]; [constructor|].
  unfold replace_cr in *. cbn [map]. constructor; [|exact IH].
  destruct (char_eqb c CR) eqn:E; [reflexivity|].
  unfold no_cr. rewrite E. reflexivity.
Qed.

Lemma normalize_eol_plain (s : str) :
  all_chars no_cr s -> _normalize_eol s = s.
Proof.
  intros H. unfold _normalize_eol. rewrite (replace_crlf_plain s H).
  apply replace_cr_plain. exact H.
Qed.

Lemma replace_crlf_step (c d : char) (tl : str) :
  replace_crlf (c :: d :: tl)
  = if char_eqb c CR && char_eqb d NL then NL :: replace_crlf tl
    else c :: replace_crlf (d :: tl).
Proof. reflexivity. Qed.

Lemma replace_crlf_length (s : str) :
  List.length (replace_crlf s) <= List.length s.
Proof.
  assert (G : forall n s, List.length s <= n ->
                List.length (replace_crlf s) <= List.length s).
  { clear s. induction n as [|n IH]; intros s Hn.
    - destruct s; [cbn; lia|cbn in Hn; lia].
    - destruct s as [|c [|d tl]]; [cbn; lia|cbn; lia|].
      rewrite replace_crlf_step.
      destruct (char_eqb c CR && char_eqb d NL).
      + cbn [List.length] in *. specialize (IH tl). lia.
      + cbn [List.length] in *. specialize (IH (d :: tl)).
        cbn [List.length] in IH. lia. }
  apply (G (List.length s)). lia.
Qed.

(** X2: normalising line ends, as [_process_text], [_write_text] and the
    GUI do before anything else, leaves no carriage return, never makes the
    text longer, changes nothing in a text without carriage returns, and so
    is idempotent. *)
Theorem normalize_eol_properties (s : str) :
  all_chars no_cr (_normalize_eol s)
  /\ List.length (_normalize_eol s) <= List.length s
  /\ (all_chars no_cr s -> _normalize_eol s = s)
  /\ _normalize_eol (_normalize_eol s) = _normalize_eol s.
Proof.
  assert (H : all_chars no_cr (_normalize_eol s)) by apply replace_cr_no_cr.
  split; [exact H|]. split; [|split].
  - unfold _normalize_eol, replace_cr. rewrite length_map.
    apply replace_crlf_length.
  - apply normalize_eol_plain.
  - apply normalize_eol_plain. exact H.
Qed.

(** ** [main]: writing and checking *)

Lemma layout_char_no_cr (s : str) : all_chars layout_char s -> all_chars no_cr s.
Proof.
  apply all_chars_impl. intros c H. unfold layout_char, graphic in H.
  unfold no_cr, char_eqb, CR. apply negb_true_iff, N.eqb_neq.
  apply orb_true_iff in H. destruct H as [H|H].
  - apply N.leb_le in H. lia.
  - apply N.eqb_eq in H. unfold NL in H. lia.
Qed.

Lemma ends_with_nl_app (a b : str) :
  ends_with_nl b = true -> ends_with_nl (a ++ b) = true.
Proof.
  intros Hb. induction a as [|c a IH]; [exact Hb|].
  cbn [app ends_with_nl]. destruct (a ++ b) eqn:E; [|exact IH].
  destruct a; [|discriminate]. cbn [app] in E. subst b. discriminate Hb.
Qed.

Lemma written_text_plain (s : str) :
  all_chars no_cr s -> ends_with_nl s = true -> written_text s = s.
Proof.
  intros Hc He. unfold written_text.
  rewrite (normalize_eol_plain s Hc), He. reflexivity.
Qed.

Lemma written_text_no_cr (s : str) : all_chars no_cr (written_text s).
Proof.
  unfold written_text.
  pose proof (replace_cr_no_cr (replace_crlf s)) as H.
  fold (_normalize_eol s) in H.
  destruct (ends_with_nl (_normalize_eol s)); [exact H|].
  apply all_chars_app. split; [exact H|repeat constructor].
Qed.

Lemma replace_crlf_keeps (p : char -> bool) (s : str) :
  p NL = true -> all_chars p s -> all_chars p (replace_crlf s).
Proof.
  intros Hnl.
  assert (G : forall n s, List.length s <= n -> all_chars p s ->
                all_chars p (replace_crlf s)).
  { clear s. induction n as [|n IH]; intros s Hn H.
    - destruct s; [constructor|cbn in Hn; lia].
    - destruct s as [|c [|d tl]]; [constructor|exact H|].
      rewrite replace_crlf_step.
      inversion H as [|? ? Hc Htl]; subst.
      destruct (char_eqb c CR && char_eqb d NL).
      + constructor; [exact Hnl|]. apply IH; [cbn in Hn |- *; lia|].
        inversion Htl; assumption.
      + constructor; [exact Hc|]. apply IH; [cbn in Hn |- *; lia|exact Htl]. }
  apply (G (List.length s)). lia.
Qed.

Lemma normalize_eol_keeps (p : char -> bool) (s : str) :
  p NL = true -> all_chars p s -> all_chars p (_normalize_eol s).
Proof.
  intros Hnl H. unfold _normalize_eol.
  pose proof (replace_crlf_keeps p s Hnl H) as H1.
  induction H1 as [|c t Hc _ IH]; [constructor|].
  unfold replace_cr in *. cbn [map]. constructor; [|exact IH].
  destruct (char_eqb c CR); assumption.
Qed.

Section WriteAndCheck.

Variable float_text : str -> str.

Hypothesis float_text_canonical :
  forall lit, is_float_literal lit = true ->
              canonical float_text (float_text lit).

Variable cfg : FormatConfig.

(** The end of line is JSON white space without a carriage return, and
    ends in a line feed: the default, a line feed, is of this kind. *)
Hypothesis eol_ws : ws (eol cfg).
Hypothesis eol_no_cr : all_chars no_cr (eol cfg).
Hypothesis eol_ends : ends_with_nl (eol cfg) = true.

Lemma process_text_fixed (original formatted : str) :
  scalars original ->
  _process_text float_text original cfg = Some formatted ->
  all_chars no_cr formatted /\ ends_with_nl formatted = true
  /\ _process_text float_text formatted cfg = Some formatted.
Proof.
  intros Hs. unfold _process_text, format_text.
  destruct (parse_json_lenient float_text (_normalize_eol original))
    as [v| |] eqn:Hp; try discriminate.
  intros Hf.
  assert (Hsn : scalars (_normalize_eol original)).
  { apply normalize_eol_keeps; [reflexivity|exact Hs]. }
  pose proof (parse_stable float_text float_text_canonical _ v Hsn Hp) as Hst.
  destruct (round_trip float_text _ cfg v float_text_canonical Hsn eol_ws Hp)
    as [out [Hf' Hp']].
  assert (out = formatted) by congruence. subst out.
  unfold format_json in Hf.
  destruct (_format_value v cfg 0 None) as [body|] eqn:Eb; [|discriminate].
  inversion Hf; subst formatted.
  pose proof (format_value_layout_chars float_text v Hst cfg 0%Z None body Eb)
    as Hchars.
  assert (Hcr : all_chars no_cr (body ++ eol cfg)).
  { apply all_chars_app. split; [|exact eol_no_cr].
    apply layout_char_no_cr. exact Hchars. }
  split; [exact Hcr|]. split; [apply ends_with_nl_app; exact eol_ends|].
  rewrite (normalize_eol_plain _ Hcr), Hp'. exact Hf'.
Qed.

Lemma main_file_settled (write : bool) (original : str) :
  scalars original ->
  main_file float_text cfg write
    (fst (main_file float_text cfg true original))
  = (fst (main_file float_text cfg true original), false).
Proof.
  intros Hs. unfold main_file at 2 3.
  destruct (_process_text float_text original cfg) as [formatted|] eqn:Ep.
  - destruct (str_eqb formatted (written_text original)) eqn:Eq.
    + cbn [fst]. unfold main_file. rewrite Ep, Eq. reflexivity.
    + destruct (process_text_fixed original formatted Hs Ep)
        as [Hcr [Hend Hfix]].
      cbn [fst]. rewrite (written_text_plain formatted Hcr Hend).
      unfold main_file. rewrite Hfix.
      rewrite (written_text_plain formatted Hcr Hend), str_eqb_refl.
      reflexivity.
  - cbn [fst]. unfold main_file. rewrite Ep. reflexivity.
Qed.

Lemma main_files_settled (write : bool) (files : list str) :
  Forall scalars files ->
  map (main_file float_text cfg write)
    (map fst (map (main_file float_text cfg true) files))
  = map (fun c => (c, false))
      (map fst (map (main_file float_text cfg true) files)).
Proof.
  induction 1 as [|f files Hf _ IH]; [reflexivity|].
  cbn [map]. rewrite (main_file_settled write f Hf), IH. reflexivity.
Qed.


End WriteAndCheck.


Section CarriageReturnInEol.

Variable float_text : str -> str.

Lemma format_text_ends_in_eol (text : str) (cfg : FormatConfig)
  (formatted : str) :
  format_text float_text text cfg = Some formatted ->
  exists body, formatted = body ++ eol cfg.
Proof.
  unfold format_text, format_json.
  destruct (parse_json_lenient float_text text) as [v| |]; try discriminate.
  destruct (_format_value v cfg 0 None) as [body|]; [|discriminate].
  intros H; inversion H. exists body. reflexivity.
Qed.


(** X5: a file on which the parser raises is reported and skipped: it is
    left as it is and does not count as changed.  When no file parses, the
    exit status of [main] is 0, with the check option too. *)
Theorem unparsed_files_pass_check (cfg : FormatConfig) (write check : bool)
  (files : list str) :
  files <> [] ->
  (forall f, In f files -> _process_text float_text f cfg = None) ->
  main_files float_text cfg write check files = (files, 0%Z).
Proof.
  intros Hne Hall. unfold main_files.
  destruct files as [|f0 files]; [congruence|].
  assert (Hmap : forall l,
             (forall f, In f l -> _process_text float_text f cfg = None) ->
             map (main_file float_text cfg write) l
             = map (fun c => (c, false)) l).
  { induction l as [|x l IH]; intros Hl; [reflexivity|].
    cbn [map]. unfold main_file at 1.
    rewrite (Hl x (or_introl eq_refl)), IH; [reflexivity|].
    intros f Hf. apply Hl. right. exact Hf. }
  rewrite (Hmap _ Hall), map_map. cbn [fst]. rewrite map_id.
  assert (Hnone : forall l : list str,
             filter snd (map (fun c => (c, false)) l) = []).
  { induction l as [|x l IHl]; [reflexivity|exact IHl]. }
  rewrite Hnone. cbn [List.length Nat.eqb negb]. rewrite andb_false_r.
  reflexivity.
Qed.

End CarriageReturnInEol.


Lemma unparsed_files_pass_check_witness :
  main_files literal_float_text default_config true true
    [py "{'a': 1}"; py "[1, 2"; []]
  = ([py "{'a': 1}"; py "[1, 2"; []], 0%Z).
Proof.
  apply (unparsed_files_pass_check literal_float_text default_config true true
           [py "{'a': 1}"; py "[1, 2"; []]).
  - discriminate.
  - intros f [<-|[<-|[<-|[]]]]; vm_compute; reflexivity.
Defined.

(** ** The programming interface: [format_text] of api.py *)

Definition or_default {A : Type} (o : option A) (d : A) : A :=
  match o with Some x => x | None => d end.

Definition is_some {A : Type} (o : option A) : bool :=
  match o with Some _ => true | None => false end.

(** The configuration that [format_text] builds from its keyword
    arguments: [DEFAULT_CFG] when all four are [None], and otherwise a
    [FormatConfig] with seven fields given and the others left to their
    defaults. *)
Definition api_config (indent_arg print_width_arg : option Z)
  (aggressive_inline_arg : option bool) (long_block_threshold_arg : option Z)
  : FormatConfig :=
  if is_some indent_arg || is_some print_width_arg
     || is_some aggressive_inline_arg || is_some long_block_threshold_arg
  then
    {| indent := or_default indent_arg (indent default_config);
       print_width := or_default print_width_arg (print_width default_config);
       array_wrap := array_wrap default_config;
       object_wrap := object_wrap default_config;
       aggressive_inline :=
         or_default aggressive_inline_arg (aggressive_inline default_config);
       long_block_threshold :=
         or_default long_block_threshold_arg
           (long_block_threshold default_config);
       eol := eol default_config;
       array_collapse_keys := array_collapse_keys default_config;
       inline_homogeneous_objects :=
         inline_homogeneous_objects default_config;
       inline_homogeneous_min := inline_homogeneous_min default_config;
       inline_string_max := inline_string_max default_config;
       allow_overflow_inline_arrays :=
         allow_overflow_inline_arrays default_config |}
  else default_config.

(** What a call of [format_text] does: it returns a text, or raises
    [ValueError] with the decoder's error in its message. *)
Inductive api_outcome : Type :=
| Formatted (s : str)
| ValueError (e : JSONDecodeError)
| ApiUnfinished.

Section Api.

Variable float_text : str -> str.

Definition api_format_text (text : str) (indent_arg print_width_arg : option Z)
  (aggressive_inline_arg : option bool) (long_block_threshold_arg : option Z)
  : api_outcome :=
  match parse_json_lenient float_text text with
  | DecodeError e => ValueError e
  | Unfinished => ApiUnfinished
  | Value data =>
      match
        format_json data
          (api_config indent_arg print_width_arg aggressive_inline_arg
             long_block_threshold_arg)
      with
      | Some s => Formatted s
      | None => ApiUnfinished
      end
  end.

Lemma api_config_eol (i w : option Z) (a : option bool) (l : option Z) :
  eol (api_config i w a l) = [NL].
Proof.
  unfold api_config.
  destruct (is_some i || is_some w || is_some a || is_some l); reflexivity.
Qed.

(** X6: [format_text] of api.py always ends its result with one line feed,
    whatever its arguments, so on a text of Unicode scalar values it is
    idempotent for every choice of arguments: formatting a result again,
    with the same arguments, returns it unchanged (and does not raise). *)
Theorem api_format_text_idempotent (text out : str) (i w : option Z)
  (a : option bool) (l : option Z) :
  (forall lit, is_float_literal lit = true ->
               canonical float_text (float_text lit)) ->
  scalars text ->
  api_format_text text i w a l = Formatted out ->
  api_format_text out i w a l = Formatted out.
Proof.
  intros Hfloat Hs. unfold api_format_text.
  destruct (parse_json_lenient float_text text) as [v| |] eqn:Hp;
    try discriminate.
  destruct (format_json v (api_config i w a l)) as [s|] eqn:Hf;
    [|discriminate].
  intros H; inversion H; subst s. clear H.
  assert (Heol : ws (eol (api_config i w a l))).
  { rewrite api_config_eol. repeat constructor. }
  destruct (round_trip float_text text (api_config i w a l) v Hfloat Hs Heol
              Hp) as [out' [Hf' Hp']].
  assert (out' = out) by congruence. subst out'.
  rewrite Hp', Hf. reflexivity.
Qed.

End Api.

(** [commented_text] formatted with an indent of 4 and without aggressive
    inlining *)
Definition commented_text_indent4 : str :=
  pyq "{" ++ NL ::
  pyq "    'drops': [ 1, 2.5, 'x' ]," ++ NL ::
  pyq "    'b': { 'k': null }" ++ NL ::
  pyq "}" ++ [NL].

Lemma api_format_text_idempotent_witness :
  api_format_text literal_float_text commented_text_indent4
    (Some 4%Z) None (Some false) None
  = Formatted commented_text_indent4.
Proof.
  apply (api_format_text_idempotent literal_float_text commented_text).
  - exact literal_float_text_canonical.
  - repeat constructor.
  - vm_compute. reflexivity.
Defined.

(** ** The lenient reader at the edges *)

Definition BOM : char := 65279%N.

Lemma pop_trailing_comma_last (out : str) (c : char) :
  char_eqb c COMMA = false ->
  pop_trailing_comma (out ++ [c]) = pop_trailing_comma out ++ [c].
Proof.
  intros Hc. induction out as [|x out IH]; cbn [app pop_trailing_comma].
  - rewrite Hc. destruct (isspace c); reflexivity.
  - destruct (isspace x); [rewrite IH; reflexivity|].
    destruct (char_eqb x COMMA); reflexivity.
Qed.

(** A character that is not a comma, once it is out, stays first. *)
Lemma strip_trailing_commas_loop_first (s out : str) (c : char)
  (in_string esc : bool) :
  char_eqb c COMMA = false ->
  strip_trailing_commas_loop s (out ++ [c]) in_string esc
  = c :: strip_trailing_commas_loop s out in_string esc.
Proof.
  intros Hc. revert out in_string esc.
  induction s as [|ch tl IH]; intros out in_string esc;
    cbn [strip_trailing_commas_loop].
  - rewrite rev_app_distr. reflexivity.
  - rewrite (pop_trailing_comma_last out c Hc).
    repeat match goal with
           | |- context [if ?b then _ else _] => destruct b
           end; apply (IH (ch :: _)).
Qed.

Section ReaderEdges.

Variable float_text : str -> str.

(** X7: a text that starts with a byte order mark (a file saved as UTF-8
    with signature, which [_read_text] decodes without dropping the mark)
    is never parsed: whatever follows the mark, [parse_json_lenient] raises
    the decoder's error Unexpected UTF-8 BOM at line 1, column 1. *)
Theorem byte_order_mark_rejected (t : str) :
  exists e,
    parse_json_lenient float_text (BOM :: t) = DecodeError e
    /\ msg e = UNEXPECTED_BOM /\ pos e = 0
    /\ lineno e = 1%Z /\ colno e = 1%Z.
Proof.
  unfold parse_json_lenient, _strip_comments.
  pose proof (comment_free_char BOM eq_refl eq_refl t) as Hc.
  cbn [app] in Hc. rewrite Hc. cbn [app].
  unfold _strip_trailing_commas. cbn [strip_trailing_commas_loop].
  change (char_eqb BOM QUOTE) with false.
  change (char_eqb BOM RBRACE || char_eqb BOM RBRACKET) with false.
  cbv iota.
  rewrite (strip_trailing_commas_loop_first _ [] BOM false false eq_refl).
  unfold loads. cbn [starts_with].
  change (char_eqb 65279%N BOM) with true. cbn [andb].
  eexists. split; [reflexivity|]. repeat split.
Qed.


(** X9: the trailing-comma pass does not ask for an item before the comma:
    brackets that hold only a comma, with any white space around it, are
    read as the empty array, and braces as the empty object. *)
Theorem lone_comma_is_empty (w1 w2 e : str) :
  ws w1 -> ws w2 -> ws e ->
  parse_json_lenient float_text (LBRACKET :: w1 ++ COMMA :: w2 ++ RBRACKET :: e)
  = Value (VList [])
  /\ parse_json_lenient float_text (LBRACE :: w1 ++ COMMA :: w2 ++ RBRACE :: e)
     = Value (VDict []).
Proof.
  intros H1 H2 He.
  assert (G : forall o c : char,
             sc_safe o = true -> sc_safe c = true -> tc_plain o = true ->
             c = RBRACE \/ c = RBRACKET ->
             _strip_trailing_commas
               (_strip_comments (o :: w1 ++ COMMA :: w2 ++ c :: e))
             = (o :: (w1 ++ w2) ++ [c]) ++ e).
  { intros o c Ho Hc Hto Hcl.
    assert (Hsafe : all_chars sc_safe (o :: w1 ++ COMMA :: w2 ++ c :: e)).
    { constructor; [exact Ho|]. apply all_chars_app. split.
      - eapply all_chars_impl; [apply is_ws_sc_safe|exact H1].
      - constructor; [reflexivity|]. apply all_chars_app. split.
        + eapply all_chars_impl; [apply is_ws_sc_safe|exact H2].
        + constructor; [exact Hc|].
          eapply all_chars_impl; [apply is_ws_sc_safe|exact He]. }
    unfold _strip_comments.
    pose proof (comment_free_chars _ Hsafe []) as Hs.
    rewrite app_nil_r in Hs. rewrite Hs.
    cbn [strip_comments_loop rev clean_gap sub_line_comments
         sub_block_comments].
    rewrite app_nil_r. unfold _strip_trailing_commas.
    assert (Hto' : commas_to (o :: w1 ++ COMMA :: w2 ++ c :: e)
                     (o :: w1 ++ w2 ++ c :: e)).
    { apply (commas_to_app [o] [o]); [apply commas_to_char; exact Hto|].
      apply commas_to_app; [apply commas_to_ws; exact H1|].
      replace (COMMA :: w2 ++ c :: e) with ((COMMA :: w2 ++ [c]) ++ e)
        by (cbn [app]; rewrite <- app_assoc; reflexivity).
      replace (w2 ++ c :: e) with ((w2 ++ [c]) ++ e)
        by (rewrite <- app_assoc; reflexivity).
      apply commas_to_app; [|apply commas_to_ws; exact He].
      apply commas_to_trailing; assumption. }
    specialize (Hto' [] []). rewrite !app_nil_r in Hto'. rewrite Hto'.
    cbn [strip_trailing_commas_loop]. rewrite rev_involutive.
    cbn [app]. rewrite <- !app_assoc. reflexivity. }
  unfold parse_json_lenient. split.
  - rewrite (G LBRACKET RBRACKET eq_refl eq_refl eq_refl
               (or_intror eq_refl)).
    apply (loads_doc float_text); [|exact He].
    apply Doc_empty_list. apply ws_app; assumption.
  - rewrite (G LBRACE RBRACE eq_refl eq_refl eq_refl (or_introl eq_refl)).
    apply (loads_doc float_text); [|exact He].
    apply Doc_empty_dict. apply ws_app; assumption.
Qed.

End ReaderEdges.


Lemma lone_comma_is_empty_witness :
  parse_json_lenient literal_float_text (pyq "[ , ]" ++ [NL])
  = Value (VList [])
  /\ parse_json_lenient literal_float_text (pyq "{ , }" ++ [NL])
     = Value (VDict []).
Proof.
  apply (lone_comma_is_empty literal_float_text [SP] [SP] [NL]);
    repeat constructor.
Defined.

(** ** What the stripping passes remove *)

(** [deletion p s t]: [t] is [s] without some of its characters, each of
    which satisfies [p]. *)
Inductive deletion (p : char -> bool) : str -> str -> Prop :=
| deletion_nil : deletion p [] []
| deletion_keep (c : char) (s t : str) :
    deletion p s t -> deletion p (c :: s) (c :: t)
| deletion_drop (c : char) (s t : str) :
    p c = true -> deletion p s t -> deletion p (c :: s) t.

Lemma deletion_refl (p : char -> bool) (s : str) : deletion p s s.
Proof. induction s; constructor; assumption. Qed.

Lemma deletion_app (p : char -> bool) (a b s t : str) :
  deletion p a b -> deletion p s t -> deletion p (a ++ s) (b ++ t).
Proof.
  intros Hab Hst. induction Hab; cbn [app];
    [exact Hst|apply deletion_keep; assumption
    |apply deletion_drop; assumption].
Qed.

Lemma deletion_trans (p : char -> bool) (a b c : str) :
  deletion p a b -> deletion p b c -> deletion p a c.
Proof.
  intros Hab. revert c. induction Hab as [|x s t _ IH|x s t Hx _ IH];
    intros c Hbc.
  - exact Hbc.
  - inversion Hbc; subst.
    + apply deletion_keep. apply IH. assumption.
    + apply deletion_drop; [assumption|]. apply IH. assumption.
  - apply deletion_drop; [exact Hx|]. apply IH. exact Hbc.
Qed.

Lemma deletion_length (p : char -> bool) (s t : str) :
  deletion p s t -> List.length t <= List.length s.
Proof. induction 1; cbn [List.length]; lia. Qed.

Definition is_comma (c : char) : bool := char_eqb c COMMA.

Definition any_char (c : char) : bool := true.

Lemma pop_trailing_comma_deletion (out : str) :
  deletion is_comma (rev out) (rev (pop_trailing_comma out)).
Proof.
  induction out as [|c out IH]; cbn [pop_trailing_comma rev];
    [constructor|].
  destruct (isspace c).
  - cbn [rev]. apply deletion_app; [exact IH|apply deletion_refl].
  - destruct (char_eqb c COMMA) eqn:E; [|apply deletion_refl].
    rewrite <- (app_nil_r (rev out)) at 2.
    apply deletion_app; [apply deletion_refl|].
    apply deletion_drop; [exact E|constructor].
Qed.

Lemma strip_trailing_commas_loop_deletion (s out before : str)
  (in_string esc : bool) :
  deletion is_comma before (rev out) ->
  deletion is_comma (before ++ s)
    (strip_trailing_commas_loop s out in_string esc).
Proof.
  revert out before in_string esc.
  induction s as [|ch tl IH]; intros out before in_string esc H;
    cbn [strip_trailing_commas_loop].
  - rewrite app_nil_r. exact H.
  - assert (Hpush : deletion is_comma (before ++ [ch]) (rev (ch :: out))).
    { cbn [rev]. apply deletion_app; [exact H|apply deletion_refl]. }
    assert (Hpop : deletion is_comma (before ++ [ch])
                     (rev (ch :: pop_trailing_comma out))).
    { cbn [rev]. apply deletion_app; [|apply deletion_refl].
      eapply deletion_trans; [exact H|apply pop_trailing_comma_deletion]. }
    replace (before ++ ch :: tl) with ((before ++ [ch]) ++ tl)
      by (rewrite <- app_assoc; reflexivity).
    repeat match goal with
           | |- context [if ?b then _ else _] => destruct b
           end; apply IH; assumption.
Qed.

Lemma sub_line_comments_deletion (s : str) (b : bool) :
  deletion any_char s (sub_line_comments b s).
Proof.
  revert b. induction s as [|c tl IH]; intros b; cbn [sub_line_comments];
    [constructor|].
  destruct b.
  - destruct (char_eqb c NL);
      [apply deletion_keep|apply deletion_drop; [reflexivity|]]; apply IH.
  - destruct tl as [|d tl']; [apply deletion_refl|].
    destruct (char_eqb c SLASH && char_eqb d SLASH);
      [apply deletion_drop; [reflexivity|]|apply deletion_keep]; apply IH.
Qed.

Lemma sub_block_comments_deletion (s : str) (b : bool) :
  deletion any_char s (sub_block_comments b s).
Proof.
  assert (G : forall n s b, List.length s <= n ->
                deletion any_char s (sub_block_comments b s)).
  { clear s b. induction n as [|n IH]; intros s b Hn.
    { destruct s; [destruct b; constructor|simpl in Hn; lia]. }
    destruct s as [|c tl]; [destruct b; constructor|].
    cbn [sub_block_comments].
    assert (Hlen : List.length tl <= n) by (simpl in Hn; lia).
    destruct b.
    - destruct tl as [|d tl'];
        [apply deletion_drop; [reflexivity|constructor]|].
      destruct (char_eqb c STAR && char_eqb d SLASH).
      + apply deletion_drop; [reflexivity|].
        apply deletion_drop; [reflexivity|].
        apply IH. simpl in Hlen. lia.
      + apply deletion_drop; [reflexivity|]. apply IH. exact Hlen.
    - destruct tl as [|d tl']; [apply deletion_refl|].
      destruct (char_eqb c SLASH && char_eqb d STAR).
      + destruct (after_block_end tl').
        * apply deletion_drop; [reflexivity|].
          apply deletion_drop; [reflexivity|].
          apply IH. simpl in Hlen. lia.
        * apply deletion_keep. apply IH. exact Hlen.
      + apply deletion_keep. apply IH. exact Hlen. }
  apply (G (List.length s)). lia.
Qed.

Lemma clean_gap_deletion (gap : str) : deletion any_char gap (clean_gap gap).
Proof.
  unfold clean_gap. eapply deletion_trans;
    [apply sub_line_comments_deletion|apply sub_block_comments_deletion].
Qed.

Lemma strip_comments_loop_deletion (s gap : str) (copy : nat) :
  copy = 0 \/ gap = [] ->
  deletion any_char (rev gap ++ s) (strip_comments_loop s copy gap).
Proof.
  revert gap copy. induction s as [|c tl IH]; intros gap copy Hstate;
    cbn [strip_comments_loop].
  - rewrite app_nil_r. apply clean_gap_deletion.
  - destruct copy as [|n].
    + assert (Hmore : deletion any_char (rev gap ++ c :: tl)
                        (strip_comments_loop tl 0 (c :: gap))).
      { specialize (IH (c :: gap) 0 (or_introl eq_refl)).
        cbn [rev] in IH. rewrite <- app_assoc in IH. exact IH. }
      destruct (char_eqb c QUOTE); [|exact Hmore].
      destruct (string_re_body tl) as [[body rest]|]; [|exact Hmore].
      apply deletion_app; [apply clean_gap_deletion|].
      apply deletion_keep.
      apply (IH [] (List.length body) (or_intror eq_refl)).
    + destruct Hstate as [Hcopy|Hgap]; [discriminate|]. subst gap.
      cbn [rev app]. apply deletion_keep.
      apply (IH [] n (or_intror eq_refl)).
Qed.

(** X10: the two stripping passes of the lenient reader only remove
    characters: the cleaned text is the input with some characters taken
    out, in the same order, and what [_strip_trailing_commas] takes out are
    commas only. *)
Theorem stripping_only_removes (s : str) :
  deletion any_char s (_strip_comments s)
  /\ deletion is_comma s (_strip_trailing_commas s)
  /\ List.length (_strip_trailing_commas (_strip_comments s))
     <= List.length s.
Proof.
  assert (H1 : deletion any_char s (_strip_comments s)).
  { apply (strip_comments_loop_deletion s [] 0). left. reflexivity. }
  assert (H2 : forall x, deletion is_comma x (_strip_trailing_commas x)).
  { intros x.
    apply (strip_trailing_commas_loop_deletion x [] [] false false).
    constructor. }
  split; [exact H1|]. split; [apply H2|].
  apply deletion_length in H1.
  pose proof (deletion_length _ _ _ (H2 (_strip_comments s))). lia.
Qed.

(** ** The option [long_block_threshold] *)

(** [dataclasses.replace(cfg, long_block_threshold=n)] *)
Definition with_long_block_threshold (cfg : FormatConfig) (n : Z)
  : FormatConfig :=
  {| indent := indent cfg;
     print_width := print_width cfg;
     array_wrap := array_wrap cfg;
     object_wrap := object_wrap cfg;
     aggressive_inline := aggressive_inline cfg;
     long_block_threshold := n;
     eol := eol cfg;
     array_collapse_keys := array_collapse_keys cfg;
     inline_homogeneous_objects := inline_homogeneous_objects cfg;
     inline_homogeneous_min := inline_homogeneous_min cfg;
     inline_string_max := inline_string_max cfg;
     allow_overflow_inline_arrays := allow_overflow_inline_arrays cfg |}.

Lemma inner_chunks_of_ext (f g : str -> value -> option str) (d : dict) :
  Forall (fun kv => f (fst kv) (snd kv) = g (fst kv) (snd kv)) d ->
  inner_chunks_of f d = inner_chunks_of g d.
Proof.
  induction 1 as [|kv d Hkv _ IH]; [reflexivity|].
  cbn [inner_chunks_of]. fold (inner_chunks_of f) (inner_chunks_of g).
  rewrite Hkv, IH. reflexivity.
Qed.

Lemma inner_chunks_one_line (f : str -> value -> option str) (d : dict)
  (chunks : list str) :
  forallb (fun kv => well_formed (snd kv)) d = true ->
  inner_chunks_of f d = Some (Some chunks) -> Forall one_line chunks.
Proof.
  revert chunks. induction d as [|kv d IH]; intros chunks Hwf;
    cbn [inner_chunks_of].
  - intros H; inversion H. constructor.
  - fold (inner_chunks_of f). cbn [forallb] in Hwf.
    apply andb_true_iff in Hwf. destruct Hwf as [Hkv Hrest].
    destruct (_is_prim (snd kv)) eqn:Hp.
    + destruct (inner_chunks_of f d) as [[cs|]|]; try discriminate.
      intros H; inversion H; subst.
      constructor; [|apply IH; [exact Hrest|reflexivity]].
      apply member_text_one_line. apply dump_prim_one_line; assumption.
    + destruct (f (fst kv) (snd kv)) as [c|]; [|discriminate].
      destruct (has_nl c) eqn:Hnl; [discriminate|].
      destruct (inner_chunks_of f d) as [[cs|]|]; try discriminate.
      intros H; inversion H; subst.
      constructor; [|apply IH; [exact Hrest|reflexivity]].
      apply member_text_one_line. apply one_line_has_nl. exact Hnl.
Qed.

Lemma wrapped_one_line (o c : char) (parts : list str) (pad : str) :
  not_nl o = true -> not_nl c = true -> one_line pad ->
  Forall one_line parts ->
  one_line (o :: pad ++ join COMMA_SP parts ++ pad ++ [c]).
Proof.
  intros Ho Hc Hpad Hparts. constructor; [exact Ho|].
  apply one_line_app. split; [exact Hpad|].
  apply one_line_app.
  split; [apply one_line_join; [repeat constructor|exact Hparts]|].
  apply one_line_app. split; [exact Hpad|]. repeat constructor. exact Hc.
Qed.

Section LongBlockThreshold.

Variable cfg : FormatConfig.
Variables n m : Z.
Hypothesis n_pos : (1 <= n)%Z.
Hypothesis m_pos : (1 <= m)%Z.

Let cfg_n := with_long_block_threshold cfg n.
Let cfg_m := with_long_block_threshold cfg m.

Lemma compact_list_value_threshold (val : value) (level : Z) :
  compact_list_value val cfg_n level = compact_list_value val cfg_m level.
Proof.
  induction val as [|b|z|r|s0|lst IH|items IH] using value_nested_ind;
    try reflexivity.
  cbn [compact_list_value].
  match goal with
  | |- match traverse ?f lst with _ => _ end
       = match traverse ?g lst with _ => _ end =>
      replace (traverse f lst) with (traverse g lst)
  end; [reflexivity|].
  apply traverse_ext. eapply Forall_impl; [|exact IH].
  intros el Hel. cbv beta. destruct (_is_prim el); [reflexivity|].
  destruct el; try reflexivity. symmetry. exact Hel.
Qed.

Lemma elem_string_threshold (level : Z) (el : value) :
  elem_string cfg_n level el = elem_string cfg_m level el.
Proof.
  unfold elem_string. destruct (_is_prim el); [reflexivity|].
  destruct el; try reflexivity. apply compact_list_value_threshold.
Qed.

Lemma collapse_key_strategy_threshold (lst : list value) (level : Z) :
  collapse_key_strategy lst cfg_n level
  = collapse_key_strategy lst cfg_m level.
Proof.
  unfold collapse_key_strategy, _compact_list.
  rewrite (compact_list_value_threshold (VList lst) level).
  rewrite (traverse_ext (elem_string cfg_n level) (elem_string cfg_m level));
    [reflexivity|].
  apply Forall_forall. intros el _. apply elem_string_threshold.
Qed.

Lemma prim_collapse_strategy_threshold (lst : list value) (level : Z) :
  forallb well_formed lst = true ->
  prim_collapse_strategy lst cfg_n level
  = prim_collapse_strategy lst cfg_m level.
Proof.
  intros Hwf. unfold prim_collapse_strategy.
  change (array_wrap cfg_n) with (array_wrap cfg).
  change (array_wrap cfg_m) with (array_wrap cfg).
  destruct (str_eqb (array_wrap cfg) COLLAPSE && nonempty lst);
    [|reflexivity].
  cbn [andb]. destruct (forallb _is_prim lst) eqn:Hp; [|reflexivity].
  assert (H1 : _line_count
                 (LBRACKET :: join COMMA_SP (map _dump_oneline lst)
                    ++ [RBRACKET]) = 1%Z).
  { apply one_line_count.
    apply (wrapped_one_line LBRACKET RBRACKET _ []);
      [reflexivity|reflexivity|constructor|].
    apply prims_one_line; assumption. }
  rewrite H1.
  change (long_block_threshold cfg_n) with n.
  change (long_block_threshold cfg_m) with m.
  replace (1 <=? n)%Z with true by (symmetry; apply Z.leb_le; exact n_pos).
  replace (1 <=? m)%Z with true by (symmetry; apply Z.leb_le; exact m_pos).
  reflexivity.
Qed.

Lemma format_value_threshold (val : value) :
  well_formed val = true ->
  forall (level : Z) (parent_key : option str),
    _format_value val cfg_n level parent_key
    = _format_value val cfg_m level parent_key.
Proof.
  induction val as [|b|z|r|s0|lst IH|items IH] using value_nested_ind;
    intros Hwf level parent_key; try reflexivity.
  - cbn [_format_value]. cbn [well_formed] in Hwf.
    change (in_collapse_keys parent_key cfg_n)
      with (in_collapse_keys parent_key cfg_m).
    rewrite collapse_key_strategy_threshold.
    change (homogeneous_strategy lst cfg_n level)
      with (homogeneous_strategy lst cfg_m level).
    rewrite (prim_collapse_strategy_threshold lst level Hwf).
    match goal with
    | |- context [traverse ?f lst] =>
        match goal with
        | |- _ = ?rhs =>
            match rhs with
            | context [traverse ?g lst] =>
                replace (traverse f lst) with (traverse g lst);
                [reflexivity|]
            end
        end
    end.
    apply traverse_ext. rewrite forallb_forall in Hwf.
    rewrite Forall_forall in IH |- *. intros el Hel. cbv beta.
    rewrite (IH el Hel (Hwf el Hel)). reflexivity.
  - cbn [_format_value]. cbn [well_formed] in Hwf.
    apply andb_true_iff in Hwf. destruct Hwf as [_ Hwf].
    assert (Hmembers : Forall (fun kv => forall level pk,
                          _format_value (snd kv) cfg_n level pk
                          = _format_value (snd kv) cfg_m level pk) items).
    { rewrite forallb_forall in Hwf. rewrite Forall_forall in IH |- *.
      intros kv Hkv lv pk. apply (IH kv Hkv (Hwf kv Hkv)). }
    rewrite (inner_chunks_of_ext
               (fun k v => _format_value v cfg_n level (Some k))
               (fun k v => _format_value v cfg_m level (Some k)))
      by (eapply Forall_impl; [|exact Hmembers]; intros kv H; apply H).
    rewrite (traverse_ext
               (fun kv =>
                  match
                    _format_value (snd kv) cfg_n (level + 1) (Some (fst kv))
                  with
                  | None => None
                  | Some formatted =>
                      Some (spaces (indent cfg_n * (level + 1))
                              ++ member_text (fst kv) formatted)
                  end)
               (fun kv =>
                  match
                    _format_value (snd kv) cfg_m (level + 1) (Some (fst kv))
                  with
                  | None => None
                  | Some formatted =>
                      Some (spaces (indent cfg_m * (level + 1))
                              ++ member_text (fst kv) formatted)
                  end))
      by (eapply Forall_impl; [|exact Hmembers];
          intros kv H; cbv beta; rewrite H; reflexivity).
    destruct (inner_chunks_of
                (fun k v => _format_value v cfg_m level (Some k)) items)
      as [[chunks|]|] eqn:Ei; try reflexivity.
    pose proof (inner_chunks_one_line _ items chunks Hwf Ei) as Hlines.
    assert (H1 : _line_count
                   (LBRACE :: SP :: join COMMA_SP chunks ++ [SP; RBRACE])
                 = 1%Z).
    { apply one_line_count.
      apply (wrapped_one_line LBRACE RBRACE chunks [SP]);
        [reflexivity|reflexivity|repeat constructor|exact Hlines]. }
    cbv zeta. rewrite H1.
    change (long_block_threshold cfg_n) with n.
    change (long_block_threshold cfg_m) with m.
    replace (1 <=? n)%Z with true by (symmetry; apply Z.leb_le; exact n_pos).
    replace (1 <=? m)%Z with true by (symmetry; apply Z.leb_le; exact m_pos).
    reflexivity.
Qed.

End LongBlockThreshold.

(** X11: the option [long_block_threshold] has no effect as long as it is
    at least 1: the texts that it is compared with are single lines, so the
    comparison only asks whether the threshold is at least 1.  Two
    configurations that differ in a threshold of at least 1 render every
    well-formed value to the same text. *)
Theorem long_block_threshold_unused (cfg : FormatConfig) (n m : Z)
  (val : value) :
  (1 <= n)%Z -> (1 <= m)%Z -> well_formed val = true ->
  format_json val (with_long_block_threshold cfg n)
  = format_json val (with_long_block_threshold cfg m).
Proof.
  intros Hn Hm Hwf. unfold format_json.
  rewrite (format_value_threshold cfg n m Hn Hm val Hwf 0%Z None).
  reflexivity.
Qed.

Lemma long_block_threshold_unused_witness :
  format_json recipe_value (with_long_block_threshold default_config 1)
  = format_json recipe_value (with_long_block_threshold default_config 5000).
Proof.
  apply (long_block_threshold_unused default_config 1 5000 recipe_value).
  - lia.
  - lia.
  - reflexivity.
Defined.

(** * The helpers of gui.py *)

(** ** [_remove_trailing_commas] of gui.py

    The pattern is a comma followed by a group: any white space and a
    closing brace or bracket; the replacement is the group.  The white
    space is taken greedily and a closing bracket is not white space, so
    the pattern has at most one match at a given comma. *)

Definition is_closer (c : char) : bool :=
  char_eqb c RBRACE || char_eqb c RBRACKET.

(** The length of the match of the group at the head of [s]. *)
Fixpoint closer_ahead (s : str) : option nat :=
  match s with
  | [] => None
  | c :: tl =>
      if isspace c then
        match closer_ahead tl with
        | Some k => Some (S k)
        | None => None
        end
      else if is_closer c then Some 1
      else None
  end.

(** [re.sub] from left to right; [copy] is the number of characters of
    the current match that are still to be copied. *)
Fixpoint remove_trailing_commas_loop (s : str) (copy : nat) : str :=
  match s with
  | [] => []
  | c :: tl =>
      match copy with
      | S k => c :: remove_trailing_commas_loop tl k
      | O =>
          if char_eqb c COMMA then
            match closer_ahead tl with
            | Some k => remove_trailing_commas_loop tl k
            | None => c :: remove_trailing_commas_loop tl 0
            end
          else c :: remove_trailing_commas_loop tl 0
      end
  end.

Definition _remove_trailing_commas (s : str) : str :=
  remove_trailing_commas_loop s 0.

(** A string body in which no comma is followed by white space and a
    closing bracket. *)
Fixpoint comma_closer (s : str) : bool :=
  match s with
  | [] => false
  | c :: tl =>
      (char_eqb c COMMA && is_some (closer_ahead tl)) || comma_closer tl
  end.

(** A text made of characters other than the double quote and of string
    literals in which no comma is followed by white space and a closing
    bracket. *)
Inductive plain_strings : str -> Prop :=
| plain_nil : plain_strings []
| plain_char (c : char) (s : str) :
    no_quote c = true -> plain_strings s -> plain_strings (c :: s)
| plain_literal (body s : str) :
    string_items body -> comma_closer body = false -> plain_strings s ->
    plain_strings (QUOTE :: body ++ QUOTE :: s).

Lemma remove_trailing_commas_copy (p x : str) :
  remove_trailing_commas_loop (p ++ x) (List.length p)
  = p ++ remove_trailing_commas_loop x 0.
Proof.
  induction p as [|c p IH]; [reflexivity|].
  cbn [app List.length remove_trailing_commas_loop]. rewrite IH. reflexivity.
Qed.

Lemma closer_ahead_spec (s : str) (k : nat) :
  closer_ahead s = Some k ->
  exists w c rest,
    s = w ++ c :: rest /\ all_chars isspace w /\ is_closer c = true
    /\ isspace c = false /\ k = List.length (w ++ [c]).
Proof.
  revert k. induction s as [|x s IH]; intros k; cbn [closer_ahead];
    [discriminate|].
  destruct (isspace x) eqn:Hx.
  - destruct (closer_ahead s) as [k'|]; [|discriminate].
    intros H; inversion H; subst.
    destruct (IH k' eq_refl) as [w [c [rest [-> [Hw [Hc [Hs ->]]]]]]].
    exists (x :: w), c, rest. repeat split; try assumption.
    constructor; assumption.
  - destruct (is_closer x) eqn:Hc; [|discriminate].
    intros H; inversion H; subst.
    exists [], x, s. repeat split; try assumption. constructor.
Qed.

Lemma closer_ahead_None_app (s : str) (c : char) (rest : str) :
  closer_ahead s = None -> isspace c = false -> is_closer c = false ->
  closer_ahead (s ++ c :: rest) = None.
Proof.
  intros H Hs Hc. induction s as [|x s IH]; cbn [app closer_ahead] in *.
  - rewrite Hs, Hc. reflexivity.
  - destruct (isspace x).
    + destruct (closer_ahead s); [discriminate|]. rewrite IH; reflexivity.
    + destruct (is_closer x); [discriminate|reflexivity].
Qed.

Lemma remove_trailing_commas_literal (body rest : str) :
  comma_closer body = false ->
  remove_trailing_commas_loop (body ++ QUOTE :: rest) 0
  = body ++ QUOTE :: remove_trailing_commas_loop rest 0.
Proof.
  induction body as [|c body IH]; intros H;
    cbn [app remove_trailing_commas_loop].
  - reflexivity.
  - cbn [comma_closer] in H. apply orb_false_iff in H.
    destruct H as [Hc Hrest].
    destruct (char_eqb c COMMA); [|rewrite (IH Hrest); reflexivity].
    cbn [andb] in Hc.
    destruct (closer_ahead body) eqn:E; [discriminate|].
    rewrite (closer_ahead_None_app body QUOTE rest E eq_refl eq_refl).
    rewrite (IH Hrest). reflexivity.
Qed.

Lemma pop_trailing_comma_isspace (w out : str) :
  all_chars isspace w ->
  pop_trailing_comma (w ++ out) = w ++ pop_trailing_comma out.
Proof.
  induction 1 as [|c w Hc _ IH]; cbn [app pop_trailing_comma]; [reflexivity|].
  rewrite Hc, IH. reflexivity.
Qed.

Lemma isspace_plain (c : char) :
  isspace c = true ->
  char_eqb c QUOTE = false /\ is_closer c = false
  /\ char_eqb c COMMA = false.
Proof.
  intros H. repeat split.
  - destruct (char_eqb c QUOTE) eqn:E; [|reflexivity].
    apply char_eqb_eq in E. subst c. discriminate H.
  - unfold is_closer.
    destruct (char_eqb c RBRACE) eqn:E1;
      [apply char_eqb_eq in E1; subst c; discriminate H|].
    destruct (char_eqb c RBRACKET) eqn:E2;
      [apply char_eqb_eq in E2; subst c; discriminate H|reflexivity].
  - destruct (char_eqb c COMMA) eqn:E; [|reflexivity].
    apply char_eqb_eq in E. subst c. discriminate H.
Qed.

(** The string-aware pass over white space, outside a string *)
Lemma strip_trailing_commas_loop_spaces (w x out : str) (esc : bool) :
  all_chars isspace w ->
  strip_trailing_commas_loop (w ++ x) out false esc
  = strip_trailing_commas_loop x (rev w ++ out) false esc.
Proof.
  intros Hw. revert out.
  induction Hw as [|c w Hc _ IH]; intros out; [reflexivity|].
  cbn [app strip_trailing_commas_loop rev].
  destruct (isspace_plain c Hc) as [Hq [Hcl _]].
  unfold is_closer in Hcl. rewrite Hq, Hcl, IH, <- app_assoc. reflexivity.
Qed.

Lemma plain_strings_suffix (a b : str) :
  all_chars no_quote a -> plain_strings (a ++ b) -> plain_strings b.
Proof.
  induction 1 as [|c a Hc _ IH]; intros H; [exact H|].
  cbn [app] in H. inversion H as [|? ? _ Hrest|body s _ _ _ E]; subst.
  - apply IH. exact Hrest.
  - discriminate Hc.
Qed.

Lemma is_closer_plain (c : char) :
  is_closer c = true ->
  isspace c = false /\ char_eqb c COMMA = false /\ char_eqb c QUOTE = false.
Proof.
  unfold is_closer. rewrite orb_true_iff.
  intros [H|H]; apply char_eqb_eq in H; subst c; repeat split.
Qed.

Lemma pop_trailing_comma_kept (c : char) (out : str) :
  isspace c = false -> char_eqb c COMMA = false ->
  pop_trailing_comma (c :: out) = c :: out.
Proof. intros Hs Hc. cbn [pop_trailing_comma]. rewrite Hs, Hc. reflexivity. Qed.

Lemma remove_agrees_with_strip (n : nat) :
  forall (s out : str) (esc : bool),
    List.length s <= n -> plain_strings s ->
    (forall k, closer_ahead s = Some k -> pop_trailing_comma out = out) ->
    strip_trailing_commas_loop s out false esc
    = rev out ++ remove_trailing_commas_loop s 0.
Proof.
  induction n as [|n IH]; intros s out esc Hn Hs Hpop.
  { destruct s; [|cbn in Hn; lia]. cbn. rewrite app_nil_r. reflexivity. }
  inversion Hs as [|c s' Hc Hs'|body s' Hb Hcc Hs']; subst.
  - cbn. rewrite app_nil_r. reflexivity.
  - (* a character outside a string *)
    unfold no_quote in Hc. apply negb_true_iff in Hc.
    cbn [strip_trailing_commas_loop remove_trailing_commas_loop].
    rewrite Hc. fold (is_closer c).
    assert (Hlen : List.length s' <= n) by (cbn in Hn; lia).
    destruct (is_closer c) eqn:Hcl.
    + destruct (is_closer_plain c Hcl) as [Hsp [Hcm _]]. rewrite Hcm.
      rewrite (Hpop 1).
      2:{ cbn [closer_ahead]. rewrite Hsp, Hcl. reflexivity. }
      rewrite (IH s' (c :: out) esc Hlen Hs').
      * cbn [rev]. rewrite <- app_assoc. reflexivity.
      * intros _ _. apply pop_trailing_comma_kept; assumption.
    + destruct (char_eqb c COMMA) eqn:Hcm.
      * apply char_eqb_eq in Hcm. subst c.
        destruct (closer_ahead s') as [k|] eqn:Ek.
        -- destruct (closer_ahead_spec s' k Ek)
             as [w [c' [rest [-> [Hw [Hc' [Hsp' ->]]]]]]].
           rewrite (strip_trailing_commas_loop_spaces w _ _ esc Hw).
           cbn [strip_trailing_commas_loop].
           destruct (is_closer_plain c' Hc') as [_ [Hcm' Hq']].
           rewrite Hq'. fold (is_closer c'). rewrite Hc'.
           rewrite (pop_trailing_comma_isspace (rev w))
             by (apply all_chars_rev; exact Hw).
           cbn [pop_trailing_comma].
           change (isspace COMMA) with false.
           change (char_eqb COMMA COMMA) with true. cbv iota.
           replace (w ++ c' :: rest) with ((w ++ [c']) ++ rest)
             by (rewrite <- app_assoc; reflexivity).
           rewrite remove_trailing_commas_copy.
           assert (Hrest : plain_strings rest).
           { apply (plain_strings_suffix (w ++ [c'])).
             - apply all_chars_app. split.
               + eapply all_chars_impl; [|exact Hw].
                 intros x Hx. unfold no_quote.
                 rewrite (proj1 (isspace_plain x Hx)). reflexivity.
               + repeat constructor. unfold no_quote. rewrite Hq'.
                 reflexivity.
             - rewrite <- app_assoc. exact Hs'. }
           rewrite (IH rest (c' :: rev w ++ out) esc).
           ++ cbn [rev]. rewrite rev_app_distr, rev_involutive.
              rewrite <- !app_assoc. reflexivity.
           ++ rewrite length_app in Hlen. cbn in Hlen. lia.
           ++ exact Hrest.
           ++ intros _ _. apply pop_trailing_comma_kept; assumption.
        -- rewrite (IH s' (COMMA :: out) esc Hlen Hs').
           ++ cbn [rev]. rewrite <- app_assoc. reflexivity.
           ++ intros k Hk. congruence.
      * rewrite (IH s' (c :: out) esc Hlen Hs').
        -- cbn [rev]. rewrite <- app_assoc. reflexivity.
        -- intros k Hk. cbn [pop_trailing_comma]. rewrite Hcm.
           destruct (isspace c) eqn:Hsp; [|reflexivity].
           rewrite (Hpop (S k)); [reflexivity|].
           cbn [closer_ahead]. rewrite Hsp, Hk. reflexivity.
  - (* a string literal *)
    cbn [strip_trailing_commas_loop remove_trailing_commas_loop].
    change (char_eqb QUOTE QUOTE) with true.
    change (char_eqb QUOTE COMMA) with false. cbv iota.
    rewrite (strip_trailing_commas_in_string body s' _ Hb).
    rewrite (remove_trailing_commas_literal body s' Hcc).
    rewrite (IH s' (QUOTE :: rev body ++ QUOTE :: out) false).
    + cbn [rev]. rewrite rev_app_distr, rev_involutive. cbn [rev].
      rewrite <- !app_assoc. reflexivity.
    + cbn in Hn. rewrite length_app in Hn. cbn in Hn. lia.
    + exact Hs'.
    + intros _ _. apply pop_trailing_comma_kept; reflexivity.
Qed.

(** X12: the pass of the GUI that removes trailing commas, a regular
    expression that knows nothing of strings, computes the same text as the
    string-aware pass of the formatter on every text whose double quotes
    delimit string literals in which no comma is followed by white space
    and a closing bracket.  (In such a literal the GUI removes the comma,
    see [remove_trailing_commas_in_string].) *)
Theorem gui_pass_agrees_with_cli (s : str) :
  plain_strings s -> _remove_trailing_commas s = _strip_trailing_commas s.
Proof.
  intros Hs. unfold _remove_trailing_commas, _strip_trailing_commas.
  rewrite (remove_agrees_with_strip (List.length s) s [] false (le_n _) Hs);
    [reflexivity|].
  intros _ _. reflexivity.
Qed.

Example remove_trailing_commas_in_string :
  _remove_trailing_commas (pyq "['a,}',]") = pyq "['a}']"
  /\ _strip_trailing_commas (pyq "['a,}',]") = pyq "['a,}']".
Proof. split; reflexivity. Qed.

Lemma gui_pass_agrees_with_cli_witness :
  _remove_trailing_commas (pyq "{'a,b': [1, 2, ], }")
  = _strip_trailing_commas (pyq "{'a,b': [1, 2, ], }").
Proof.
  apply (gui_pass_agrees_with_cli (pyq "{'a,b': [1, 2, ], }")).
  apply plain_char; [reflexivity|].
  apply (plain_literal (py "a,b"));
    [repeat (apply items_char; [reflexivity|reflexivity|]); apply items_nil
    |reflexivity|].
  repeat (apply plain_char; [reflexivity|]). apply plain_nil.
Defined.

(** * The command line of cli.py *)

(** ** [_build_config]: the options of the command line *)

(** [s.split(",")]: the pieces between the commas, at least one. *)
Fixpoint split_comma (s : str) : list str :=
  match s with
  | [] => [[]]
  | c :: tl =>
      if char_eqb c COMMA then [] :: split_comma tl
      else match split_comma tl with
           | h :: t => (c :: h) :: t
           | [] => [[c]]
           end
  end.

(** [s.lstrip()], [s.rstrip()] and [s.strip()]: the white space of Python
    ([isspace]) is removed at the ends. *)
Fixpoint lstrip (s : str) : str :=
  match s with
  | c :: tl => if isspace c then lstrip tl else s
  | [] => []
  end.

Definition rstrip (s : str) : str := rev (lstrip (rev s)).

Definition strip (s : str) : str := rstrip (lstrip s).

(** [tuple(k.strip() for k in arg.split(",") if k.strip())] *)
Definition collapse_keys_of (arg : str) : list str :=
  map strip (filter (fun k => nonempty (strip k)) (split_comma arg)).

(** The options that [_build_config] reads from the parsed arguments; an
    option that was not given is [None] (or [false] for a flag). *)
Record Args : Type := mkArgs {
  arg_indent : option Z;
  arg_print_width : option Z;
  arg_long_block : option Z;
  arg_no_aggressive : bool;
  arg_no_inline_homogeneous : bool;
  arg_collapse_keys : option str
}.

(** [project] is the configuration that the defaults updated by the project
    file give; the options of the command line override it.  The test
    [if args.collapse_keys:] is false for [None] and for the empty string. *)
Definition _build_config (project : FormatConfig) (args : Args)
  : FormatConfig :=
  {| indent := or_default (arg_indent args) (indent project);
     print_width := or_default (arg_print_width args) (print_width project);
     array_wrap := array_wrap project;
     object_wrap := object_wrap project;
     aggressive_inline :=
       if arg_no_aggressive args then false else aggressive_inline project;
     long_block_threshold :=
       or_default (arg_long_block args) (long_block_threshold project);
     eol := eol project;
     array_collapse_keys :=
       match arg_collapse_keys args with
       | Some (c :: tl) => collapse_keys_of (c :: tl)
       | _ => array_collapse_keys project
       end;
     inline_homogeneous_objects :=
       if arg_no_inline_homogeneous args then false
       else inline_homogeneous_objects project;
     inline_homogeneous_min := inline_homogeneous_min project;
     inline_string_max := inline_string_max project;
     allow_overflow_inline_arrays := allow_overflow_inline_arrays project |}.

(** A key that the option can express: not empty, without a comma, without
    white space at its ends. *)
Definition key_shape (k : str) : Prop :=
  k <> [] /\ char_in COMMA k = false /\ strip k = k.

Lemma char_in_false (c : char) (s : str) :
  char_in c s = false <-> ~ In c s.
Proof.
  unfold char_in. split.
  - intros H Hin. assert (existsb (char_eqb c) s = true); [|congruence].
    apply existsb_exists. exists c. split; [exact Hin|apply char_eqb_refl].
  - intros H. destruct (existsb (char_eqb c) s) eqn:E; [|reflexivity].
    apply existsb_exists in E. destruct E as [x [Hx Hc]].
    apply char_eqb_eq in Hc. subst x. contradiction.
Qed.

Lemma split_comma_plain (k : str) :
  char_in COMMA k = false -> split_comma k = [k].
Proof.
  induction k as [|c k IH]; intros H; [reflexivity|].
  cbn [char_in existsb] in H. apply orb_false_iff in H. destruct H as [Hc Hk].
  cbn [split_comma]. replace (char_eqb c COMMA) with false.
  - rewrite (IH Hk). reflexivity.
  - symmetry. apply char_eqb_neq. apply char_eqb_neq in Hc. congruence.
Qed.

Lemma split_comma_app (k rest : str) :
  char_in COMMA k = false ->
  split_comma (k ++ COMMA :: rest) = k :: split_comma rest.
Proof.
  induction k as [|c k IH]; intros H; cbn [app].
  - cbn [split_comma]. change (char_eqb COMMA COMMA) with true. reflexivity.
  - cbn [char_in existsb] in H. apply orb_false_iff in H.
    destruct H as [Hc Hk]. cbn [split_comma].
    replace (char_eqb c COMMA) with false.
    + rewrite (IH Hk). reflexivity.
    + symmetry. apply char_eqb_neq. apply char_eqb_neq in Hc. congruence.
Qed.

Lemma split_comma_join (ks : list str) :
  ks <> [] -> Forall (fun k => char_in COMMA k = false) ks ->
  split_comma (join [COMMA] ks) = ks.
Proof.
  induction ks as [|k ks IH]; intros Hne Hks; [congruence|].
  inversion Hks as [|? ? Hk Hrest]; subst.
  destruct ks as [|k' ks].
  - cbn [join]. apply split_comma_plain. exact Hk.
  - rewrite join_cons. cbn [app]. rewrite (split_comma_app _ _ Hk).
    rewrite IH; [reflexivity|discriminate|exact Hrest].
Qed.

Lemma split_comma_parts (s : str) :
  Forall (fun k => char_in COMMA k = false) (split_comma s).
Proof.
  induction s as [|c s IH]; cbn [split_comma].
  - repeat constructor.
  - destruct (char_eqb c COMMA) eqn:Hc.
    + constructor; [reflexivity|exact IH].
    + assert (Hc' : char_eqb COMMA c = false).
      { unfold char_eqb in *. rewrite N.eqb_sym. exact Hc. }
      destruct (split_comma s) as [|h t].
      * repeat constructor. cbn [char_in existsb]. rewrite Hc'. reflexivity.
      * inversion IH as [|? ? Hh Ht]; subst. constructor; [|exact Ht].
        cbn [char_in existsb]. fold (char_in COMMA h). rewrite Hh, Hc'.
        reflexivity.
Qed.

Lemma lstrip_In (c : char) (s : str) : In c (lstrip s) -> In c s.
Proof.
  induction s as [|x s IH]; cbn [lstrip]; [tauto|].
  destruct (isspace x); [|tauto]. intros H. right. apply IH. exact H.
Qed.

Lemma strip_In (c : char) (s : str) : In c (strip s) -> In c s.
Proof.
  unfold strip, rstrip. intros H. apply lstrip_In.
  apply in_rev. apply (lstrip_In c). apply in_rev. exact H.
Qed.

Lemma lstrip_fixed (c : char) (s : str) :
  isspace c = false -> lstrip (c :: s) = c :: s.
Proof. intros H. cbn [lstrip]. rewrite H. reflexivity. Qed.

Lemma lstrip_head (s : str) :
  lstrip s = [] \/ exists c tl, lstrip s = c :: tl /\ isspace c = false.
Proof.
  induction s as [|x s IH]; cbn [lstrip]; [left; reflexivity|].
  destruct (isspace x) eqn:Hx; [exact IH|].
  right. exists x, s. split; [reflexivity|exact Hx].
Qed.

Lemma lstrip_idempotent (s : str) : lstrip (lstrip s) = lstrip s.
Proof.
  destruct (lstrip_head s) as [->|[c [tl [-> Hc]]]]; [reflexivity|].
  apply lstrip_fixed. exact Hc.
Qed.

Lemma lstrip_snoc (a : str) (c : char) :
  isspace c = false -> lstrip (a ++ [c]) = lstrip a ++ [c].
Proof.
  intros Hc. induction a as [|x a IH]; cbn [app lstrip].
  - rewrite Hc. reflexivity.
  - destruct (isspace x); [exact IH|reflexivity].
Qed.

Lemma strip_idempotent (s : str) : strip (strip s) = strip s.
Proof.
  unfold strip at 2 3.
  assert (A : lstrip (rstrip (lstrip s)) = rstrip (lstrip s)).
  { destruct (lstrip_head s) as [->|[c [tl [-> Hc]]]]; [reflexivity|].
    unfold rstrip. cbn [rev]. rewrite (lstrip_snoc _ _ Hc).
    rewrite rev_app_distr. cbn [rev app]. apply lstrip_fixed. exact Hc. }
  unfold strip. rewrite A. unfold rstrip at 1.
  unfold rstrip at 1. rewrite rev_involutive, lstrip_idempotent.
  reflexivity.
Qed.

Lemma collapse_keys_of_shape (arg : str) :
  Forall key_shape (collapse_keys_of arg).
Proof.
  unfold collapse_keys_of. apply Forall_forall. intros k Hk.
  apply in_map_iff in Hk. destruct Hk as [k' [<- Hk']].
  apply filter_In in Hk'. destruct Hk' as [Hin Hne].
  repeat split.
  - intros E. rewrite E in Hne. discriminate Hne.
  - apply char_in_false. intros Hc. apply strip_In in Hc.
    pose proof (split_comma_parts arg) as Hparts.
    rewrite Forall_forall in Hparts. specialize (Hparts k' Hin).
    apply char_in_false in Hparts. contradiction.
  - apply strip_idempotent.
Qed.

Lemma collapse_keys_of_join (ks : list str) :
  ks <> [] -> Forall key_shape ks -> collapse_keys_of (join [COMMA] ks) = ks.
Proof.
  intros Hne Hks. unfold collapse_keys_of.
  rewrite split_comma_join; [|exact Hne|].
  2:{ eapply Forall_impl; [|exact Hks]. intros k [_ [H _]]. exact H. }
  clear Hne. induction Hks as [|k ks [Hk [_ Hs]] _ IH]; [reflexivity|].
  cbn [filter]. rewrite Hs. destruct k as [|c k]; [congruence|].
  cbn [nonempty map]. rewrite Hs. f_equal. exact IH.
Qed.

(** X13: the keys given with the option for the collapse keys (a text that
    is not empty) replace the configured ones; each key that results is not
    empty, holds no comma and has no white space at its ends, and every
    list of such keys is the result of the text that joins them with
    commas.  So a key with a comma, or with white space at an end, cannot
    be given on the command line. *)
Theorem collapse_keys_option (project : FormatConfig) (args : Args)
  (arg : str) :
  arg_collapse_keys args = Some arg -> arg <> [] ->
  Forall key_shape (array_collapse_keys (_build_config project args))
  /\ forall ks, Forall key_shape ks -> arg = join [COMMA] ks ->
       array_collapse_keys (_build_config project args) = ks.
Proof.
  intros Harg Hne. unfold _build_config. cbn [array_collapse_keys].
  rewrite Harg. destruct arg as [|c tl]; [congruence|]. split.
  - apply collapse_keys_of_shape.
  - intros ks Hks E. rewrite E. apply collapse_keys_of_join; [|exact Hks].
    intros ->. discriminate E.
Qed.

Lemma collapse_keys_option_witness :
  Forall key_shape
    (array_collapse_keys
       (_build_config default_config
          (mkArgs None None None false false (Some (py " drops ,, a b,")))))
  /\ array_collapse_keys
       (_build_config default_config
          (mkArgs None None None false false (Some (py "drops,a b"))))
     = [py "drops"; py "a b"].
Proof.
  split.
  - apply (collapse_keys_option default_config
             (mkArgs None None None false false (Some (py " drops ,, a b,")))
             (py " drops ,, a b,")); [reflexivity|discriminate].
  - apply (collapse_keys_option default_config
             (mkArgs None None None false false (Some (py "drops,a b")))
             (py "drops,a b")); [reflexivity|discriminate| |reflexivity].
    repeat constructor; discriminate.
Defined.

(** ** [_expand_files]: the files of a run *)

Section ExpandFiles.

(** The file system as the function sees it: [Path(pat)], [Path().glob(pat)]
    ([None] when it raises, as for an absolute pattern), [p.is_file()],
    [p.resolve()] and the equality of paths, which the set [seen] uses. *)
Variable path : Type.
Variable Path : str -> path.
Variable glob : str -> option (list path).
Variable is_file : path -> bool.
Variable resolve : path -> path.
Variable path_eqb : path -> path -> bool.
Hypothesis path_eqb_eq : forall a b, path_eqb a b = true <-> a = b.

(** [any(ch in pat for ch in "*?[]")] *)
Definition is_glob (pat : str) : bool :=
  existsb (fun ch => char_in ch pat) (py "*?[]").

(** The first loop: the files of each pattern, in order. *)
Fixpoint candidates (patterns : list str) : option (list path) :=
  match patterns with
  | [] => Some []
  | pat :: rest =>
      match (if is_glob pat then option_map (filter is_file) (glob pat)
             else Some (if is_file (Path pat) then [Path pat] else [])) with
      | None => None
      | Some ps => option_map (app ps) (candidates rest)
      end
  end.

(** The second loop: a path is kept when the path it resolves to was not
    seen before. *)
Fixpoint uniq_loop (out : list path) (seen : list path) : list path :=
  match out with
  | [] => []
  | p :: tl =>
      if existsb (path_eqb (resolve p)) seen then uniq_loop tl seen
      else p :: uniq_loop tl (resolve p :: seen)
  end.

Definition _expand_files (patterns : list str) : option (list path) :=
  option_map (fun out => uniq_loop out []) (candidates patterns).

Lemma seen_spec (rp : path) (seen : list path) :
  existsb (path_eqb rp) seen = true <-> In rp seen.
Proof.
  rewrite existsb_exists. split.
  - intros [x [Hx E]]. apply path_eqb_eq in E. subst x. exact Hx.
  - intros H. exists rp. split; [exact H|]. apply path_eqb_eq. reflexivity.
Qed.

Lemma uniq_loop_spec (out : list path) :
  forall seen,
    NoDup (map resolve (uniq_loop out seen))
    /\ (forall p, In p (uniq_loop out seen) ->
          ~ In (resolve p) seen /\ In p out)
    /\ (forall p, In p out ->
          In (resolve p) seen \/ In (resolve p) (map resolve (uniq_loop out seen))).
Proof.
  induction out as [|q out IH]; intros seen; cbn [uniq_loop].
  - repeat split; [constructor|contradiction|contradiction|contradiction].
  - destruct (existsb (path_eqb (resolve q)) seen) eqn:E.
    + apply seen_spec in E. destruct (IH seen) as [Hn [Hk Hc]].
      split; [exact Hn|]. split.
      * intros p Hp. destruct (Hk p Hp) as [H1 H2].
        split; [exact H1|right; exact H2].
      * intros p [<-|Hp]; [left; exact E|apply Hc; exact Hp].
    + assert (Hq : ~ In (resolve q) seen).
      { intros H. apply seen_spec in H. congruence. }
      destruct (IH (resolve q :: seen)) as [Hn [Hk Hc]].
      split; [|split].
      * cbn [map]. constructor; [|exact Hn]. intros H.
        apply in_map_iff in H. destruct H as [p [Ep Hp]].
        destruct (Hk p Hp) as [H1 _]. apply H1. left. symmetry. exact Ep.
      * intros p [<-|Hp]; [split; [exact Hq|left; reflexivity]|].
        destruct (Hk p Hp) as [H1 H2]. split; [|right; exact H2].
        intros H. apply H1. right. exact H.
      * intros p [<-|Hp]; [right; left; reflexivity|].
        destruct (Hc p Hp) as [[H|H]|H].
        -- right. left. exact H.
        -- left. exact H.
        -- right. right. exact H.
Qed.

Lemma candidates_spec (patterns : list str) :
  forall out, candidates patterns = Some out ->
    Forall (fun p => is_file p = true) out
    /\ (forall pat, In pat patterns -> is_glob pat = false ->
          is_file (Path pat) = true -> In (Path pat) out)
    /\ (forall pat ps p, In pat patterns -> is_glob pat = true ->
          glob pat = Some ps -> In p ps -> is_file p = true -> In p out).
Proof.
  induction patterns as [|pat rest IH]; intros out; cbn [candidates].
  - intros H. injection H as <-. repeat split; try constructor; contradiction.
  - destruct (is_glob pat) eqn:Eg.
    + destruct (glob pat) as [ps|] eqn:Egl; cbn [option_map]; [|discriminate].
      destruct (candidates rest) as [more|]; cbn [option_map]; [|discriminate].
      intros H. injection H as <-. destruct (IH more eq_refl) as [Hf [Hp Hg]].
      split; [|split].
      * apply Forall_app. split; [|exact Hf]. apply Forall_forall.
        intros p Hin. apply filter_In in Hin. tauto.
      * intros pat' [<-|Hin] Hng Hfile; [congruence|].
        apply in_or_app. right. apply Hp; assumption.
      * intros pat' ps' p [<-|Hin] Hig Hgl Hp' Hfile; apply in_or_app.
        -- left. apply filter_In. split; [congruence|exact Hfile].
        -- right. apply (Hg pat' ps'); assumption.
    + destruct (candidates rest) as [more|]; cbn [option_map]; [|discriminate].
      intros H. injection H as <-. destruct (IH more eq_refl) as [Hf [Hp Hg]].
      split; [|split].
      * apply Forall_app. split; [|exact Hf].
        destruct (is_file (Path pat)) eqn:Ef; repeat constructor. exact Ef.
      * intros pat' [<-|Hin] Hng Hfile; apply in_or_app.
        -- left. rewrite Hfile. left. reflexivity.
        -- right. apply Hp; assumption.
      * intros pat' ps' p [<-|Hin] Hig Hgl Hp' Hfile; [congruence|].
        apply in_or_app. right. apply (Hg pat' ps'); assumption.
Qed.

(** X14: the files that [_expand_files] returns are files, no two of them
    resolve to the same path (a file named twice, or through two spellings
    or two patterns, is processed once), and no file that a pattern names
    is lost: the path it resolves to is among the resolved results. *)
Theorem expand_files_unique (patterns : list str) (files : list path) :
  _expand_files patterns = Some files ->
  NoDup (map resolve files)
  /\ Forall (fun p => is_file p = true) files
  /\ (forall pat, In pat patterns -> is_glob pat = false ->
        is_file (Path pat) = true ->
        In (resolve (Path pat)) (map resolve files))
  /\ (forall pat ps p, In pat patterns -> is_glob pat = true ->
        glob pat = Some ps -> In p ps -> is_file p = true ->
        In (resolve p) (map resolve files)).
Proof.
  unfold _expand_files. destruct (candidates patterns) as [out|] eqn:Ec;
    cbn [option_map]; [|discriminate].
  intros H. injection H as <-.
  destruct (candidates_spec patterns out Ec) as [Hf [Hp Hg]].
  destruct (uniq_loop_spec out []) as [Hn [Hk Hc]].
  split; [exact Hn|]. split; [|split].
  - apply Forall_forall. intros p Hin. rewrite Forall_forall in Hf.
    apply Hf. apply (Hk p Hin).
  - intros pat Hin Hng Hfile.
    destruct (Hc (Path pat) (Hp pat Hin Hng Hfile)) as [[]|H]. exact H.
  - intros pat ps p Hin Hig Hgl Hp' Hfile.
    destruct (Hc p (Hg pat ps p Hin Hig Hgl Hp' Hfile)) as [[]|H]. exact H.
Qed.

End ExpandFiles.

(** Two spellings of one file, and a pattern that matches it again: paths
    are texts here, and resolving a path removes the white space at its
    ends. *)
Lemma expand_files_unique_witness :
  _expand_files str (fun pat => pat) (fun _ => Some [py "a.json"; py "b"])
    (fun p => negb (str_eqb p (py "b"))) strip str_eqb
    [py "a.json"; py " a.json"; py "*.json"]
  = Some [py "a.json"]
  /\ NoDup (map strip [py "a.json"]).
Proof.
  split; [reflexivity|].
  apply (expand_files_unique str (fun pat => pat)
           (fun _ => Some [py "a.json"; py "b"])
           (fun p => negb (str_eqb p (py "b"))) strip str_eqb str_eqb_eq
           [py "a.json"; py " a.json"; py "*.json"] [py "a.json"]).
  reflexivity.
Defined.

(** * The checks of gui.py on a formatted text *)

(** ** The tokens of a document *)

(** A property of texts that holds of the empty text, of each character
    that is neither a slash nor a double quote, of each string literal
    without control characters, and of the concatenation of two texts that
    have it, holds of every document. *)
Section DocTokens.

Variable float_text : str -> str.
Variable Q : str -> Prop.
Hypothesis Q_nil : Q [].
Hypothesis Q_app : forall p q, Q p -> Q q -> Q (p ++ q).
Hypothesis Q_char : forall c, sc_safe c = true -> Q [c].
Hypothesis Q_literal :
  forall body, string_items body -> all_chars graphic body ->
               Q (QUOTE :: body ++ [QUOTE]).

Lemma tokens_chars (a : str) : all_chars sc_safe a -> Q a.
Proof.
  induction 1 as [|c a Hc _ IH]; [exact Q_nil|].
  apply (Q_app [c] a); [apply Q_char; exact Hc|exact IH].
Qed.

Lemma tokens_ws (w : str) : ws w -> Q w.
Proof.
  intros H. apply tokens_chars.
  eapply all_chars_impl; [apply is_ws_sc_safe|exact H].
Qed.

Lemma tokens_string (s : str) : Q (encode_basestring s).
Proof.
  apply Q_literal.
  - apply flat_map_items, escape_char_items.
  - apply flat_map_chars, escape_char_graphic.
Qed.

Lemma tokens_key (k : str) : Q (encode_basestring_ascii k).
Proof.
  apply Q_literal.
  - apply flat_map_items, escape_char_ascii_items.
  - apply flat_map_chars, escape_char_ascii_graphic.
Qed.

Lemma tokens_prim (v : value) :
  _is_prim v = true -> stable float_text v -> Q (_dump_oneline v).
Proof.
  intros Hp Hs.
  destruct v as [|[|]|z|r|s|l|d]; try discriminate; cbn [_dump_oneline].
  - apply tokens_chars. repeat constructor.
  - apply tokens_chars. repeat constructor.
  - apply tokens_chars. repeat constructor.
  - apply tokens_chars.
    eapply all_chars_impl; [apply numchar_sc_safe|apply int_repr_numchars].
  - cbn [stable] in Hs.
    destruct (canonical_numchars_or_constant float_text r Hs)
      as [->|[->|[->|H]]];
      apply tokens_chars; try (repeat constructor; fail).
    eapply all_chars_impl; [apply numchar_sc_safe|exact H].
  - apply tokens_string.
Qed.

Lemma tokens_doc :
  (forall v t, Doc float_text v t -> Q t)
  /\ (forall l body, DocItems float_text l body -> Q body)
  /\ (forall d body, DocMembers float_text d body -> Q body).
Proof.
  assert (Hc : forall c, sc_safe c = true -> Q [c]) by exact Q_char.
  apply Doc_mutual; intros.
  - apply tokens_prim; assumption.
  - apply (Q_app [LBRACKET]); [apply Hc; reflexivity|].
    apply Q_app; [apply tokens_ws; assumption|apply Hc; reflexivity].
  - apply (Q_app [LBRACKET]); [apply Hc; reflexivity|].
    apply Q_app; [apply tokens_ws; assumption|].
    apply Q_app; [assumption|apply Hc; reflexivity].
  - apply (Q_app [LBRACE]); [apply Hc; reflexivity|].
    apply Q_app; [apply tokens_ws; assumption|apply Hc; reflexivity].
  - apply (Q_app [LBRACE]); [apply Hc; reflexivity|].
    apply Q_app; [apply tokens_ws; assumption|].
    apply Q_app; [assumption|apply Hc; reflexivity].
  - apply Q_app; [assumption|apply tokens_ws; assumption].
  - apply Q_app; [assumption|].
    apply Q_app; [apply tokens_ws; assumption|].
    apply (Q_app [COMMA]); [apply Hc; reflexivity|].
    apply Q_app; [apply tokens_ws; assumption|assumption].
  - apply Q_app; [apply tokens_key|].
    apply Q_app; [apply tokens_ws; assumption|].
    apply (Q_app [COLON]); [apply Hc; reflexivity|].
    apply Q_app; [apply tokens_ws; assumption|].
    apply Q_app; [assumption|apply tokens_ws; assumption].
  - apply Q_app; [apply tokens_key|].
    apply Q_app; [apply tokens_ws; assumption|].
    apply (Q_app [COLON]); [apply Hc; reflexivity|].
    apply Q_app; [apply tokens_ws; assumption|].
    apply Q_app; [assumption|].
    apply Q_app; [apply tokens_ws; assumption|].
    apply (Q_app [COMMA]); [apply Hc; reflexivity|].
    apply Q_app; [apply tokens_ws; assumption|assumption].
Qed.

End DocTokens.

(** ** [_detect_accidental_return] *)

(** The loop of [_detect_accidental_return] over the text from index [i]
    on; [skip] is 1 after a step that advances [i] by two (the column is
    not advanced for the character that is skipped). *)
Fixpoint detect_loop (src : str) (skip : nat)
  (in_str esc in_line in_block : bool) (lineno col : Z) : bool * Z * Z :=
  match src with
  | [] => (false, 0%Z, 0%Z)
  | ch :: tl =>
      match skip with
      | S k => detect_loop tl k in_str esc in_line in_block lineno col
      | O =>
          let col := (col + 1)%Z in
          if char_eqb ch NL then
            if in_str then (true, lineno, col)
            else detect_loop tl 0 in_str esc false in_block (lineno + 1)%Z 0%Z
          else if char_eqb ch CR then
            if in_str then (true, lineno, col)
            else detect_loop tl 0 in_str esc in_line in_block lineno col
          else if in_block then
            if char_eqb ch STAR && starts_with [SLASH] tl
            then detect_loop tl 1 in_str esc in_line false lineno col
            else detect_loop tl 0 in_str esc in_line in_block lineno col
          else if in_line then
            detect_loop tl 0 in_str esc in_line in_block lineno col
          else if negb in_str && char_eqb ch SLASH && starts_with [SLASH] tl
          then detect_loop tl 1 in_str esc true in_block lineno col
          else if negb in_str && char_eqb ch SLASH && starts_with [STAR] tl
          then detect_loop tl 1 in_str esc in_line true lineno col
          else if in_str then
            if esc then
              detect_loop tl 0 in_str false in_line in_block lineno col
            else if char_eqb ch BACKSLASH then
              detect_loop tl 0 in_str true in_line in_block lineno col
            else if char_eqb ch QUOTE then
              detect_loop tl 0 false esc in_line in_block lineno col
            else detect_loop tl 0 in_str esc in_line in_block lineno col
          else if char_eqb ch QUOTE then
            detect_loop tl 0 true false in_line in_block lineno col
          else detect_loop tl 0 in_str esc in_line in_block lineno col
      end
  end.

Definition _detect_accidental_return (src : str) : bool * Z * Z :=
  detect_loop src 0 false false false false 1 0.

(** The rest of a text raises no alarm, and a piece of a text raises none
    and leaves the scanner outside strings and comments. *)
Definition passes (x : str) : Prop :=
  forall lineno col,
    detect_loop x 0 false false false false lineno col = (false, 0%Z, 0%Z).

Definition quiet (p : str) : Prop := forall x, passes x -> passes (p ++ x).

Lemma quiet_nil : quiet [].
Proof. intros x H. exact H. Qed.

Lemma quiet_app (p q : str) : quiet p -> quiet q -> quiet (p ++ q).
Proof.
  intros Hp Hq x Hx. rewrite <- app_assoc. apply Hp, Hq, Hx.
Qed.

Lemma quiet_char (c : char) : sc_safe c = true -> quiet [c].
Proof.
  unfold sc_safe, no_slash, no_quote. rewrite andb_true_iff, !negb_true_iff.
  intros [Hs Hq] x Hx lineno col. cbn [app detect_loop].
  rewrite Hs, Hq. cbn [negb andb].
  destruct (char_eqb c NL); [apply Hx|].
  destruct (char_eqb c CR); apply Hx.
Qed.

Lemma graphic_not_break (c : char) :
  graphic c = true -> char_eqb c NL = false /\ char_eqb c CR = false.
Proof.
  unfold graphic, char_eqb, NL, CR. rewrite N.leb_le, !N.eqb_neq. lia.
Qed.

Lemma detect_in_string (body x : str) :
  string_items body -> all_chars graphic body ->
  forall lineno col, exists col',
    detect_loop (body ++ QUOTE :: x) 0 true false false false lineno col
    = detect_loop x 0 false false false false lineno col'.
Proof.
  intros Hb. induction Hb as [|c s Hq Hbs _ IH|e s He _ IH];
    intros Hg lineno col; cbn [app].
  - cbn [detect_loop]. eexists. reflexivity.
  - inversion Hg as [|? ? Hc Hrest]; subst.
    destruct (graphic_not_break c Hc) as [Hn Hr].
    cbn [detect_loop]. rewrite Hn, Hr, Hbs, Hq. cbn [negb andb].
    apply IH. exact Hrest.
  - inversion Hg as [|? ? _ Hrest]; subst.
    inversion Hrest as [|? ? Hc Hrest']; subst.
    destruct (graphic_not_break e Hc) as [Hn Hr].
    cbn [detect_loop]. rewrite Hn, Hr. cbn [negb andb].
    apply IH. exact Hrest'.
Qed.

Lemma quiet_literal (body : str) :
  string_items body -> all_chars graphic body ->
  quiet (QUOTE :: body ++ [QUOTE]).
Proof.
  intros Hb Hg x Hx lineno col. cbn [app detect_loop].
  rewrite <- app_assoc. cbn [app negb andb].
  destruct (detect_in_string body x Hb Hg lineno (col + 1)%Z) as [col' E].
  rewrite E. apply Hx.
Qed.

Lemma quiet_doc (float_text : str -> str) (v : value) (t : str) :
  Doc float_text v t -> quiet t.
Proof.
  apply (tokens_doc float_text quiet quiet_nil quiet_app quiet_char
           quiet_literal).
Qed.

Section AccidentalReturn.

Variable float_text : str -> str.

(** X15: the check of the GUI for a line break inside a string never
    raises its alarm on a text that [format_json] rendered for a value of
    the decoder with an end of line made of white space: the line breaks
    of a layout are all outside its strings. *)
Theorem formatted_text_passes_return_check (val : value) (cfg : FormatConfig)
  (out : str) :
  stable float_text val -> ws (eol cfg) ->
  format_json val cfg = Some out ->
  _detect_accidental_return out = (false, 0%Z, 0%Z).
Proof.
  intros Hs Heol. unfold format_json.
  destruct (_format_value val cfg 0 None) as [body|] eqn:E; [|discriminate].
  intros H. injection H as <-.
  pose proof (format_value_doc float_text val Hs cfg 0%Z None body E) as Hd.
  unfold _detect_accidental_return.
  apply (quiet_doc float_text val body Hd).
  pose proof (tokens_ws quiet quiet_nil quiet_app quiet_char (eol cfg) Heol)
    as Hq.
  intros lineno col. specialize (Hq [] (fun _ _ => eq_refl) lineno col).
  rewrite app_nil_r in Hq. exact Hq.
Qed.

End AccidentalReturn.

Lemma formatted_text_passes_return_check_witness :
  _detect_accidental_return (pyq "{ '\tk': ['\r\n\t', 1.5] }" ++ [NL])
  = (false, 0%Z, 0%Z).
Proof.
  apply (formatted_text_passes_return_check literal_float_text control_value
           default_config).
  - cbn. repeat split; try reflexivity.
    + repeat constructor. intros [].
    + right. right. right. split; reflexivity.
  - repeat constructor.
  - vm_compute. reflexivity.
Defined.

(** A line break typed inside a string is found, with its line. *)
Example accidental_return_found :
  _detect_accidental_return (pyq "{'a': 1,
 'b': 'x
y'}") = (true, 2%Z, 9%Z).
Proof. reflexivity. Qed.

(** ** [_quote_unquoted_keys_preserving_lines] *)

Definition ident_start (c : char) : bool :=
  ((65 <=? c) && (c <=? 90) || (97 <=? c) && (c <=? 122) || (c =? 95))%N.

Definition ident_char (c : char) : bool :=
  ident_start c || is_digit c || char_eqb c MINUS.

(** The longest run of [ident_char]s at the start of a text, and the rest *)
Fixpoint span_ident (s : str) : str * str :=
  match s with
  | c :: tl =>
      if ident_char c then let (k, r) := span_ident tl in (c :: k, r)
      else ([], s)
  | [] => ([], [])
  end.

(** The length of the match of white space and a colon at the start of a
    text, when there is one *)
Fixpoint colon_after_spaces (s : str) : option nat :=
  match s with
  | c :: tl =>
      if char_eqb c COLON then Some 1%nat
      else if isspace c then option_map S (colon_after_spaces tl)
      else None
  | [] => None
  end.

(** [_IDENT.match(s, i)] on the text from [i] on: the groups [pre] and
    [key] and the length of the match.  The two repetitions are greedy and
    there is nothing to try again: a shorter key is followed by an
    identifier character, which is neither white space nor the colon. *)
Definition ident_match (s : str) : option (char * str * nat) :=
  match s with
  | pre :: k0 :: tl =>
      if (isspace pre || char_eqb pre LBRACE || char_eqb pre COMMA)
         && ident_start k0
      then
        let (key, after) := span_ident tl in
        match colon_after_spaces after with
        | Some n => Some (pre, k0 :: key, (2 + List.length key + n)%nat)
        | None => None
        end
      else None
  | _ => None
  end.

(** The characters at which a match is tried *)
Definition key_lead (c : char) : bool :=
  char_in c [SP; TAB; CR; NL; LBRACE; COMMA].

(** The loop of [_quote_unquoted_keys_preserving_lines] over the text from
    index [i] on; [skip] counts the characters that the last step has
    consumed beyond the first. *)
Fixpoint quote_keys_loop (s : str) (skip : nat)
  (in_str esc in_line in_block : bool) : str :=
  match s with
  | [] => []
  | ch :: tl =>
      match skip with
      | S k => quote_keys_loop tl k in_str esc in_line in_block
      | O =>
          if in_str then
            ch :: (if esc then
                     quote_keys_loop tl 0 in_str false in_line in_block
                   else if char_eqb ch BACKSLASH then
                     quote_keys_loop tl 0 in_str true in_line in_block
                   else if char_eqb ch QUOTE then
                     quote_keys_loop tl 0 false esc in_line in_block
                   else quote_keys_loop tl 0 in_str esc in_line in_block)
          else if in_line then
            ch :: quote_keys_loop tl 0 in_str esc
                    (if char_eqb ch NL then false else in_line) in_block
          else if in_block then
            if char_eqb ch STAR && starts_with [SLASH] tl
            then ch :: SLASH :: quote_keys_loop tl 1 in_str esc in_line false
            else ch :: quote_keys_loop tl 0 in_str esc in_line in_block
          else if char_eqb ch SLASH && starts_with [SLASH] tl then
            SLASH :: SLASH :: quote_keys_loop tl 1 in_str esc true in_block
          else if char_eqb ch SLASH && starts_with [STAR] tl then
            SLASH :: STAR :: quote_keys_loop tl 1 in_str esc in_line true
          else if char_eqb ch QUOTE then
            ch :: quote_keys_loop tl 0 true esc in_line in_block
          else if key_lead ch then
            match ident_match s with
            | Some (pre, key, n) =>
                pre :: QUOTE :: key
                  ++ QUOTE :: COLON
                       :: quote_keys_loop tl (n - 1) in_str esc in_line
                            in_block
            | None => ch :: quote_keys_loop tl 0 in_str esc in_line in_block
            end
          else ch :: quote_keys_loop tl 0 in_str esc in_line in_block
      end
  end.

Definition _quote_unquoted_keys_preserving_lines (s : str) : str :=
  quote_keys_loop s 0 false false false false.

(** [_strictish] of the check for errors *)
Definition _strictish (src : str) : str :=
  _remove_trailing_commas
    (_quote_unquoted_keys_preserving_lines (_strip_comments src)).

Example quote_keys_example :
  _quote_unquoted_keys_preserving_lines
    (pyq "{ code: 'a b: c', // x: y
  n-1 : [true, null], }")
  = pyq "{ 'code': 'a b: c', // x: y
  'n-1': [true, null], }".
Proof. reflexivity. Qed.

(** *** The pass leaves a document as it is *)

(** No bare key starts at [x]: no match begins at a character before it. *)
Definition no_key (x : str) : Prop :=
  forall pre, ident_match (pre :: x) = None.

(** What may follow a value in a document: after identifier characters and
    white space there is no colon. *)
Definition follow (x : str) : Prop :=
  colon_after_spaces (snd (span_ident x)) = None.

Definition is_closing (c : char) : bool :=
  char_eqb c COMMA || char_eqb c RBRACKET || char_eqb c RBRACE.

Definition closing (x : str) : Prop :=
  match x with
  | [] => True
  | c :: _ => is_closing c = true
  end.

(** The characters of the numbers and of the constants *)
Definition atom_char (c : char) : bool :=
  ident_char c || char_eqb c 46%N || char_eqb c 43%N.

Lemma ident_start_char (c : char) : ident_start c = true -> ident_char c = true.
Proof. intros H. unfold ident_char. rewrite H. reflexivity. Qed.

Lemma follow_no_key (x : str) : follow x -> no_key x.
Proof.
  unfold follow, no_key. intros H pre. destruct x as [|k0 tl]; [reflexivity|].
  cbn [ident_match].
  destruct ((isspace pre || char_eqb pre LBRACE || char_eqb pre COMMA)
            && ident_start k0) eqn:E; [|reflexivity].
  apply andb_true_iff in E. destruct E as [_ E].
  cbn [span_ident] in H. rewrite (ident_start_char k0 E) in H.
  destruct (span_ident tl) as [k r]. cbn [snd] in H. rewrite H. reflexivity.
Qed.

Lemma no_key_head (c : char) (x : str) :
  ident_start c = false -> no_key (c :: x).
Proof.
  intros H pre. cbn [ident_match]. rewrite H, andb_false_r. reflexivity.
Qed.

Lemma follow_head (c : char) (x : str) :
  ident_char c = false -> char_eqb c COLON = false -> isspace c = false ->
  follow (c :: x).
Proof.
  intros Hi Hc Hs. unfold follow. cbn [span_ident]. rewrite Hi.
  cbn [snd colon_after_spaces]. rewrite Hc, Hs. reflexivity.
Qed.

Lemma is_ws_not_ident (c : char) :
  is_ws c = true ->
  ident_char c = false /\ char_eqb c COLON = false /\ isspace c = true
  /\ key_lead c = true.
Proof.
  unfold is_ws. rewrite !orb_true_iff.
  intros [[[H|H]|H]|H]; apply char_eqb_eq in H; subst c; repeat split.
Qed.

Lemma is_closing_not_ident (c : char) :
  is_closing c = true ->
  ident_char c = false /\ char_eqb c COLON = false /\ isspace c = false.
Proof.
  unfold is_closing. rewrite !orb_true_iff.
  intros [[H|H]|H]; apply char_eqb_eq in H; subst c; repeat split.
Qed.

Lemma colon_after_ws (w y : str) :
  ws w -> colon_after_spaces y = None -> colon_after_spaces (w ++ y) = None.
Proof.
  induction 1 as [|c w Hc _ IH]; intros Hy; [exact Hy|].
  destruct (is_ws_not_ident c Hc) as [_ [Hcol [Hsp _]]].
  cbn [app colon_after_spaces]. rewrite Hcol, Hsp, (IH Hy). reflexivity.
Qed.

Lemma closing_colon_after (y : str) :
  closing y -> colon_after_spaces y = None.
Proof.
  destruct y as [|c y]; [reflexivity|]. cbn [closing]. intros H.
  destruct (is_closing_not_ident c H) as [_ [Hcol Hsp]].
  cbn [colon_after_spaces]. rewrite Hcol, Hsp. reflexivity.
Qed.

Lemma follow_ws_closing (w y : str) : ws w -> closing y -> follow (w ++ y).
Proof.
  intros Hw Hy. unfold follow.
  assert (E : span_ident (w ++ y) = ([], w ++ y)).
  { destruct Hw as [|c w Hc Hw]; cbn [app].
    - destruct y as [|c y]; [reflexivity|]. cbn [closing] in Hy.
      destruct (is_closing_not_ident c Hy) as [Hi _].
      cbn [span_ident]. rewrite Hi. reflexivity.
    - destruct (is_ws_not_ident c Hc) as [Hi _].
      cbn [span_ident]. rewrite Hi. reflexivity. }
  rewrite E. cbn [snd]. apply colon_after_ws; [exact Hw|].
  apply closing_colon_after. exact Hy.
Qed.

Lemma closing_no_key (y : str) : closing y -> no_key y.
Proof.
  destruct y as [|c y]; [intros _ pre; reflexivity|]. cbn [closing].
  intros H. apply no_key_head.
  destruct (is_closing_not_ident c H) as [Hi _].
  unfold ident_char in Hi. apply orb_false_iff in Hi. destruct Hi as [Hi _].
  apply orb_false_iff in Hi. apply Hi.
Qed.

Lemma no_key_ws (w y : str) : ws w -> no_key y -> no_key (w ++ y).
Proof.
  intros Hw Hy. destruct Hw as [|c w Hc _]; [exact Hy|].
  cbn [app]. apply no_key_head.
  destruct (is_ws_not_ident c Hc) as [Hi _].
  unfold ident_char in Hi. apply orb_false_iff in Hi. destruct Hi as [Hi _].
  apply orb_false_iff in Hi. apply Hi.
Qed.

Lemma follow_atom (a x : str) :
  all_chars atom_char a -> follow x -> follow (a ++ x).
Proof.
  induction 1 as [|c a Hc _ IH]; intros Hx; [exact Hx|].
  cbn [app]. unfold follow. cbn [span_ident].
  destruct (ident_char c) eqn:Hi.
  - specialize (IH Hx). unfold follow in IH.
    destruct (span_ident (a ++ x)) as [k r]. exact IH.
  - unfold atom_char in Hc. rewrite Hi in Hc. cbn [orb] in Hc.
    cbn [snd colon_after_spaces].
    apply orb_true_iff in Hc.
    destruct Hc as [Hc|Hc]; apply char_eqb_eq in Hc; subst c; reflexivity.
Qed.

Lemma keys_plain_step (c : char) (x : str) :
  char_eqb c QUOTE = false -> char_eqb c SLASH = false ->
  key_lead c = false ->
  _quote_unquoted_keys_preserving_lines (c :: x)
  = c :: _quote_unquoted_keys_preserving_lines x.
Proof.
  intros Hq Hs Hl. unfold _quote_unquoted_keys_preserving_lines.
  cbn [quote_keys_loop]. rewrite Hq, Hs, Hl. reflexivity.
Qed.

Lemma keys_lead_step (c : char) (x : str) :
  key_lead c = true -> no_key x ->
  _quote_unquoted_keys_preserving_lines (c :: x)
  = c :: _quote_unquoted_keys_preserving_lines x.
Proof.
  intros Hl Hx. unfold _quote_unquoted_keys_preserving_lines.
  cbn [quote_keys_loop]. rewrite Hl, (Hx c).
  assert (H : char_eqb c QUOTE = false /\ char_eqb c SLASH = false).
  { unfold key_lead in Hl. cbn [char_in existsb] in Hl.
    rewrite !orb_true_iff in Hl.
    destruct Hl as [H|[H|[H|[H|[H|[H|H]]]]]]; try discriminate H;
      apply char_eqb_eq in H; subst c; split; reflexivity. }
  destruct H as [-> ->]. reflexivity.
Qed.

Lemma keys_in_string (body x : str) :
  string_items body ->
  quote_keys_loop (body ++ QUOTE :: x) 0 true false false false
  = body ++ QUOTE :: _quote_unquoted_keys_preserving_lines x.
Proof.
  intros Hb. induction Hb as [|c s Hq Hbs _ IH|e s He _ IH]; cbn [app].
  - reflexivity.
  - cbn [quote_keys_loop]. rewrite Hbs, Hq, IH. reflexivity.
  - cbn [quote_keys_loop]. change (char_eqb BACKSLASH BACKSLASH) with true.
    rewrite IH. reflexivity.
Qed.

Lemma keys_literal (body x : str) :
  string_items body ->
  _quote_unquoted_keys_preserving_lines ((QUOTE :: body ++ [QUOTE]) ++ x)
  = (QUOTE :: body ++ [QUOTE]) ++ _quote_unquoted_keys_preserving_lines x.
Proof.
  intros Hb. unfold _quote_unquoted_keys_preserving_lines at 1.
  cbn [app quote_keys_loop]. rewrite <- !app_assoc. cbn [app].
  change (char_eqb QUOTE SLASH) with false.
  change (char_eqb QUOTE QUOTE) with true. cbn [andb].
  rewrite (keys_in_string body x Hb). reflexivity.
Qed.

Lemma atom_char_plain (c : char) :
  atom_char c = true ->
  char_eqb c QUOTE = false /\ char_eqb c SLASH = false /\ key_lead c = false.
Proof.
  unfold atom_char, ident_char, ident_start, is_digit, key_lead, char_in,
    char_eqb.
  cbn [existsb]. unfold MINUS, QUOTE, SLASH, SP, TAB, CR, NL, LBRACE, COMMA.
  rewrite !orb_true_iff, !andb_true_iff, !N.leb_le, !N.eqb_eq.
  intros H. rewrite !orb_false_iff, !N.eqb_neq. lia.
Qed.

Lemma keys_atom (a x : str) :
  all_chars atom_char a ->
  _quote_unquoted_keys_preserving_lines (a ++ x)
  = a ++ _quote_unquoted_keys_preserving_lines x.
Proof.
  induction 1 as [|c a Hc _ IH]; [reflexivity|]. cbn [app].
  destruct (atom_char_plain c Hc) as [Hq [Hs Hl]].
  rewrite (keys_plain_step c _ Hq Hs Hl), IH. reflexivity.
Qed.

Lemma keys_ws (w y : str) :
  ws w -> no_key y ->
  _quote_unquoted_keys_preserving_lines (w ++ y)
  = w ++ _quote_unquoted_keys_preserving_lines y.
Proof.
  induction 1 as [|c w Hc Hw IH]; intros Hy; [reflexivity|]. cbn [app].
  destruct (is_ws_not_ident c Hc) as [_ [_ [_ Hl]]].
  rewrite (keys_lead_step c _ Hl (no_key_ws w y Hw Hy)), (IH Hy).
  reflexivity.
Qed.

Lemma numchar_atom (c : char) : numchar c = true -> atom_char c = true.
Proof.
  intros H. apply numchar_cases in H.
  unfold atom_char, ident_char, ident_start, is_digit, char_eqb, MINUS.
  rewrite !orb_true_iff, !andb_true_iff, !N.leb_le, !N.eqb_eq.
  destruct H as [H|H]; [lia|]. cbn [In] in H. lia.
Qed.

Section QuoteKeysOnDocuments.

Variable float_text : str -> str.

Let keys_fixed (t x : str) : Prop :=
  _quote_unquoted_keys_preserving_lines (t ++ x)
  = t ++ _quote_unquoted_keys_preserving_lines x
  /\ follow (t ++ x).

Lemma keys_fixed_atoms (a x : str) :
  all_chars atom_char a -> follow x -> keys_fixed a x.
Proof.
  intros Ha Hx. split; [apply keys_atom; exact Ha|].
  apply follow_atom; assumption.
Qed.

Lemma keys_fixed_literal (body x : str) :
  string_items body -> keys_fixed (QUOTE :: body ++ [QUOTE]) x.
Proof.
  intros Hb. split; [apply keys_literal; exact Hb|].
  cbn [app]. apply follow_head; reflexivity.
Qed.

Lemma keys_fixed_prim (v : value) (x : str) :
  _is_prim v = true -> stable float_text v -> follow x ->
  keys_fixed (_dump_oneline v) x.
Proof.
  intros Hp Hs Hx.
  destruct v as [|[|]|z|r|s|l|d]; try discriminate; cbn [_dump_oneline].
  - apply keys_fixed_atoms; [repeat constructor|exact Hx].
  - apply keys_fixed_atoms; [repeat constructor|exact Hx].
  - apply keys_fixed_atoms; [repeat constructor|exact Hx].
  - apply keys_fixed_atoms; [|exact Hx].
    eapply all_chars_impl; [apply numchar_atom|apply int_repr_numchars].
  - cbn [stable] in Hs.
    destruct (canonical_numchars_or_constant float_text r Hs)
      as [->|[->|[->|H]]];
      (apply keys_fixed_atoms; [|exact Hx]);
      try (repeat constructor; fail).
    eapply all_chars_impl; [apply numchar_atom|exact H].
  - apply keys_fixed_literal. apply flat_map_items, escape_char_items.
Qed.

(** An opening bracket, white space, and what follows. *)
Lemma keys_fixed_open (c : char) (w y : str) :
  (c = LBRACKET \/ c = LBRACE) -> ws w -> no_key y ->
  _quote_unquoted_keys_preserving_lines (c :: w ++ y)
  = c :: w ++ _quote_unquoted_keys_preserving_lines y
  /\ follow (c :: w ++ y).
Proof.
  intros Hc Hw Hy. split.
  - rewrite <- (keys_ws w y Hw Hy). destruct Hc as [->| ->].
    + apply keys_plain_step; reflexivity.
    + apply keys_lead_step; [reflexivity|]. apply no_key_ws; assumption.
  - destruct Hc as [->| ->]; apply follow_head; reflexivity.
Qed.

Lemma keys_close (c : char) (x : str) :
  (c = RBRACKET \/ c = RBRACE \/ c = COLON) ->
  _quote_unquoted_keys_preserving_lines (c :: x)
  = c :: _quote_unquoted_keys_preserving_lines x.
Proof.
  intros [->|[->| ->]]; apply keys_plain_step; reflexivity.
Qed.

Lemma keys_comma (w y : str) :
  ws w -> no_key y ->
  _quote_unquoted_keys_preserving_lines (COMMA :: w ++ y)
  = COMMA :: w ++ _quote_unquoted_keys_preserving_lines y.
Proof.
  intros Hw Hy. rewrite <- (keys_ws w y Hw Hy).
  apply keys_lead_step; [reflexivity|]. apply no_key_ws; assumption.
Qed.

Lemma closing_cons (c : char) (x : str) :
  is_closing c = true -> closing (c :: x).
Proof. intros H. exact H. Qed.

Lemma keys_doc :
  (forall v t, Doc float_text v t -> forall x, follow x -> keys_fixed t x)
  /\ (forall l body, DocItems float_text l body ->
        forall x, closing x -> keys_fixed body x)
  /\ (forall d body, DocMembers float_text d body ->
        forall x, closing x -> keys_fixed body x).
Proof.
  apply Doc_mutual; unfold keys_fixed.
  - intros v Hp Hs x Hx. apply keys_fixed_prim; assumption.
  - (* the empty array *)
    intros w Hw x Hx. cbn [app]. rewrite <- !app_assoc. cbn [app].
    destruct (keys_fixed_open LBRACKET w (RBRACKET :: x)) as [E F];
      [left; reflexivity|exact Hw|apply no_key_head; reflexivity|].
    split; [|exact F]. rewrite E, keys_close; [reflexivity|tauto].
  - (* an array *)
    intros w l body Hw _ IH x Hx.
    destruct (IH (RBRACKET :: x) (closing_cons RBRACKET x eq_refl))
      as [Eb Fb].
    replace ((LBRACKET :: w ++ body ++ [RBRACKET]) ++ x)
      with (LBRACKET :: w ++ body ++ RBRACKET :: x)
      by (cbn [app]; rewrite <- !app_assoc; reflexivity).
    destruct (keys_fixed_open LBRACKET w (body ++ RBRACKET :: x)) as [E F];
      [left; reflexivity|exact Hw|apply follow_no_key; exact Fb|].
    split; [|exact F]. rewrite E, Eb, keys_close by tauto.
    cbn [app]. rewrite <- !app_assoc. reflexivity.
  - (* the empty object *)
    intros w Hw x Hx. cbn [app]. rewrite <- !app_assoc. cbn [app].
    destruct (keys_fixed_open LBRACE w (RBRACE :: x)) as [E F];
      [right; reflexivity|exact Hw|apply no_key_head; reflexivity|].
    split; [|exact F]. rewrite E, keys_close; [reflexivity|tauto].
  - (* an object *)
    intros w d body Hw _ _ IH x Hx.
    destruct (IH (RBRACE :: x) (closing_cons RBRACE x eq_refl)) as [Eb Fb].
    replace ((LBRACE :: w ++ body ++ [RBRACE]) ++ x)
      with (LBRACE :: w ++ body ++ RBRACE :: x)
      by (cbn [app]; rewrite <- !app_assoc; reflexivity).
    destruct (keys_fixed_open LBRACE w (body ++ RBRACE :: x)) as [E F];
      [right; reflexivity|exact Hw|apply follow_no_key; exact Fb|].
    split; [|exact F]. rewrite E, Eb, keys_close by tauto.
    cbn [app]. rewrite <- !app_assoc. reflexivity.
  - (* the last item *)
    intros v t w _ IH Hw x Hx. rewrite <- !app_assoc.
    destruct (IH (w ++ x) (follow_ws_closing w x Hw Hx)) as [E F].
    split; [|exact F].
    rewrite E, (keys_ws w x Hw (closing_no_key x Hx)). reflexivity.
  - (* an item and more *)
    intros v t w1 w2 l body _ IHt Hw1 Hw2 _ IHb x Hx.
    destruct (IHb x Hx) as [Eb Fb].
    replace ((t ++ w1 ++ COMMA :: w2 ++ body) ++ x)
      with (t ++ w1 ++ COMMA :: w2 ++ body ++ x)
      by (rewrite <- !app_assoc; cbn [app]; rewrite <- !app_assoc;
          reflexivity).
    destruct (IHt (w1 ++ COMMA :: w2 ++ body ++ x)) as [E F].
    { apply follow_ws_closing; [exact Hw1|reflexivity]. }
    split; [|exact F].
    rewrite E, (keys_ws w1 _ Hw1) by (apply no_key_head; reflexivity).
    rewrite (keys_comma w2 _ Hw2 (follow_no_key _ Fb)), Eb.
    rewrite <- !app_assoc. cbn [app]. rewrite <- !app_assoc. reflexivity.
  - (* the last member *)
    intros k v t w1 w2 w3 _ _ IHt Hw1 Hw2 Hw3 x Hx.
    replace ((encode_basestring_ascii k ++ w1 ++ COLON :: w2 ++ t ++ w3) ++ x)
      with (encode_basestring_ascii k ++ w1 ++ COLON :: w2 ++ t ++ w3 ++ x)
      by (rewrite <- !app_assoc; cbn [app]; rewrite <- !app_assoc;
          reflexivity).
    destruct (IHt (w3 ++ x) (follow_ws_closing w3 x Hw3 Hx)) as [E F].
    split; [|apply follow_head; reflexivity].
    unfold encode_basestring_ascii.
    rewrite keys_literal by (apply flat_map_items, escape_char_ascii_items).
    rewrite (keys_ws w1 _ Hw1) by (apply no_key_head; reflexivity).
    rewrite keys_close by tauto.
    rewrite (keys_ws w2 _ Hw2 (follow_no_key _ F)), E.
    rewrite (keys_ws w3 x Hw3 (closing_no_key x Hx)).
    do 3 (cbn [app]; rewrite <- ?app_assoc). reflexivity.
  - (* a member and more *)
    intros k v t w1 w2 w3 w4 d body _ _ IHt Hw1 Hw2 Hw3 Hw4 _ IHb x Hx.
    destruct (IHb x Hx) as [Eb Fb].
    replace ((encode_basestring_ascii k ++ w1 ++ COLON :: w2 ++ t ++ w3
                ++ COMMA :: w4 ++ body) ++ x)
      with (encode_basestring_ascii k ++ w1 ++ COLON :: w2 ++ t ++ w3
              ++ COMMA :: w4 ++ body ++ x)
      by (rewrite <- !app_assoc; cbn [app]; rewrite <- !app_assoc;
          cbn [app]; rewrite <- !app_assoc; reflexivity).
    destruct (IHt (w3 ++ COMMA :: w4 ++ body ++ x)) as [E F].
    { apply follow_ws_closing; [exact Hw3|reflexivity]. }
    split; [|apply follow_head; reflexivity].
    unfold encode_basestring_ascii.
    rewrite keys_literal by (apply flat_map_items, escape_char_ascii_items).
    rewrite (keys_ws w1 _ Hw1) by (apply no_key_head; reflexivity).
    rewrite keys_close by tauto.
    rewrite (keys_ws w2 _ Hw2 (follow_no_key _ F)), E.
    rewrite (keys_ws w3 _ Hw3) by (apply no_key_head; reflexivity).
    rewrite (keys_comma w4 _ Hw4 (follow_no_key _ Fb)), Eb.
    do 4 (cbn [app]; rewrite <- ?app_assoc). reflexivity.
Qed.

Lemma quote_keys_doc (v : value) (t e : str) :
  Doc float_text v t -> ws e ->
  _quote_unquoted_keys_preserving_lines (t ++ e) = t ++ e.
Proof.
  intros Hd He. destruct keys_doc as [H _].
  assert (Hf : follow e).
  { pose proof (follow_ws_closing e [] He I) as F.
    rewrite app_nil_r in F. exact F. }
  destruct (H v t Hd e Hf) as [E _]. rewrite E.
  pose proof (keys_ws e [] He (closing_no_key [] I)) as Ee.
  rewrite app_nil_r in Ee. rewrite Ee.
  change (_quote_unquoted_keys_preserving_lines []) with (@nil char).
  rewrite app_nil_r. reflexivity.
Qed.

(** X16: the pass of the GUI that quotes bare keys changes nothing in a
    text that [format_json] rendered for a value of the decoder with an end
    of line made of white space: it quotes no constant ([true], [null],
    [NaN], ...) and touches no string. *)
Theorem formatted_text_keys_unchanged (val : value) (cfg : FormatConfig)
  (out : str) :
  stable float_text val -> ws (eol cfg) ->
  format_json val cfg = Some out ->
  _quote_unquoted_keys_preserving_lines out = out.
Proof.
  intros Hs Heol. unfold format_json.
  destruct (_format_value val cfg 0 None) as [body|] eqn:E; [|discriminate].
  intros H. injection H as <-.
  apply (quote_keys_doc val body (eol cfg)); [|exact Heol].
  exact (format_value_doc float_text val Hs cfg 0%Z None body E).
Qed.

End QuoteKeysOnDocuments.

Lemma formatted_text_keys_unchanged_witness :
  _quote_unquoted_keys_preserving_lines
    (pyq "{ '\tk': ['\r\n\t', 1.5] }" ++ [NL])
  = pyq "{ '\tk': ['\r\n\t', 1.5] }" ++ [NL].
Proof.
  apply (formatted_text_keys_unchanged literal_float_text control_value
           default_config).
  - cbn. repeat split; try reflexivity.
    + repeat constructor. intros [].
    + right. right. right. split; reflexivity.
  - repeat constructor.
  - vm_compute. reflexivity.
Defined.

(** * The lines of a layout *)

(** A text that is not empty and does not end with a space. *)
Definition closed (t : str) : Prop :=
  exists a c, t = a ++ [c] /\ char_eqb c SP = false.

(** A line of a layout: graphic characters (so no line feed), and no space
    at its end. *)
Definition tidy_line (l : str) : Prop :=
  all_chars graphic l /\ (l = [] \/ closed l).

(** A line is blank or starts with [n] spaces. *)
Definition indented (n : Z) (l : str) : Prop :=
  l = [] \/ exists r, l = spaces n ++ r.

Definition brackets (o c : char) : Prop :=
  (o = LBRACKET /\ c = RBRACKET) \/ (o = LBRACE /\ c = RBRACE).

(** The text of a value at a level: one line, or an opening bracket on a
    line of its own, lines that are blank or indented one step more than
    the level, and the closing bracket alone at the indentation of the
    level. *)
Definition layout_at (cfg : FormatConfig) (level : Z) (t : str) : Prop :=
  (all_chars graphic t /\ closed t)
  \/ exists o c mid,
       brackets o c
       /\ t = join [NL] ([o] :: mid ++ [spaces (indent cfg * level) ++ [c]])
       /\ Forall tidy_line mid
       /\ Forall (indented (indent cfg * (level + 1))) mid.

(** A part of a block: lines indented by [n], the last of which is not
    blank. *)
Definition part_at (n : Z) (p : str) : Prop :=
  exists ls last,
    p = join [NL] (ls ++ [last])
    /\ Forall tidy_line ls /\ Forall (indented n) ls
    /\ all_chars graphic last /\ closed last
    /\ exists r, last = spaces n ++ r.

Lemma join_cons_nonempty (sep p : str) (rest : list str) :
  rest <> [] -> join sep (p :: rest) = p ++ sep ++ join sep rest.
Proof. destruct rest; [congruence|reflexivity]. Qed.

Lemma join_app (sep : str) (a b : list str) :
  a <> [] -> b <> [] -> join sep (a ++ b) = join sep a ++ sep ++ join sep b.
Proof.
  intros Ha Hb. induction a as [|x a IH]; [congruence|].
  destruct a as [|y a].
  - cbn [app]. rewrite (join_cons_nonempty sep x b Hb). reflexivity.
  - change ((x :: y :: a) ++ b) with (x :: (y :: a) ++ b).
    rewrite join_cons_nonempty by discriminate.
    rewrite IH by discriminate. rewrite join_cons.
    rewrite <- !app_assoc. reflexivity.
Qed.

Lemma join_snoc (sep : str) (ls : list str) (z : str) :
  ls <> [] -> join sep (ls ++ [z]) = join sep ls ++ sep ++ z.
Proof. intros H. apply join_app; [exact H|discriminate]. Qed.

Lemma join_last_app (sep : str) (ls : list str) (last x : str) :
  join sep (ls ++ [last ++ x]) = join sep (ls ++ [last]) ++ x.
Proof.
  destruct ls as [|l ls]; [reflexivity|].
  rewrite !join_snoc by discriminate. rewrite <- !app_assoc. reflexivity.
Qed.

Lemma join_prefix (sep x p : str) (rest : list str) :
  x ++ join sep (p :: rest) = join sep ((x ++ p) :: rest).
Proof.
  destruct rest as [|q rest]; [reflexivity|].
  rewrite !join_cons. rewrite <- app_assoc. reflexivity.
Qed.

Lemma closed_app (x t : str) : closed t -> closed (x ++ t).
Proof.
  intros [a [c [-> Hc]]]. exists (x ++ a), c.
  split; [apply app_assoc|exact Hc].
Qed.

Lemma closed_snoc (a : str) (c : char) :
  char_eqb c SP = false -> closed (a ++ [c]).
Proof. intros H. exists a, c. split; [reflexivity|exact H]. Qed.

Lemma closed_wrapped (o c : char) (x : str) :
  char_eqb c SP = false -> closed (o :: x ++ [c]).
Proof. intros H. apply (closed_snoc (o :: x) c H). Qed.

Lemma closed_wrapped_pad (o p c : char) (x : str) :
  char_eqb c SP = false -> closed (o :: p :: x ++ [p; c]).
Proof.
  intros H. exists (o :: p :: x ++ [p]), c. split; [|exact H].
  cbn [app]. rewrite <- app_assoc. reflexivity.
Qed.

Lemma numchars_closed (t : str) :
  all_chars numchar t -> t <> [] -> closed t.
Proof.
  intros Hc Hne. destruct (exists_last Hne) as [a [c E]]. subst t.
  apply closed_snoc. apply all_chars_app in Hc. destruct Hc as [_ Hc].
  inversion Hc as [|? ? H _]; subst. apply numchar_cases in H.
  apply char_eqb_neq. unfold SP. destruct H as [H|H]; [lia|].
  cbn [In] in H. lia.
Qed.

Lemma spaces_add (a b : Z) :
  (0 <= a)%Z -> (0 <= b)%Z -> spaces (a + b) = spaces a ++ spaces b.
Proof.
  intros Ha Hb. unfold spaces. rewrite Z2Nat.inj_add by assumption.
  apply repeat_app.
Qed.

Lemma spaces_nonpositive (a : Z) : (a <= 0)%Z -> spaces a = [].
Proof.
  intros H. unfold spaces. replace (Z.to_nat a) with 0%nat by lia.
  reflexivity.
Qed.

Lemma indented_deeper (i level : Z) (l : str) :
  (0 <= level)%Z -> indented (i * (level + 1)) l -> indented (i * level) l.
Proof.
  intros Hl [->|[r ->]]; [left; reflexivity|]. right.
  destruct (Z.le_gt_cases 0 i) as [Hi|Hi].
  - replace (i * (level + 1))%Z with (i * level + i)%Z by lia.
    rewrite spaces_add by nia. rewrite <- app_assoc. eexists. reflexivity.
  - rewrite (spaces_nonpositive (i * level)) by nia. eexists. reflexivity.
Qed.

Lemma part_of_layout (cfg : FormatConfig) (level : Z) (pre t : str) :
  (0 <= level)%Z -> all_chars graphic pre -> layout_at cfg level t ->
  part_at (indent cfg * level) (spaces (indent cfg * level) ++ pre ++ t).
Proof.
  intros Hl Hpre [[Hg Hc]|[o [c [mid [Hb [-> [Hm Hi]]]]]]].
  - exists [], (spaces (indent cfg * level) ++ pre ++ t).
    split; [reflexivity|]. split; [constructor|]. split; [constructor|].
    split; [|split].
    + apply all_chars_app. split; [apply spaces_graphic|].
      apply all_chars_app. split; assumption.
    + apply closed_app, closed_app. exact Hc.
    + eexists. reflexivity.
  - assert (Ho : graphic o = true /\ char_eqb o SP = false
                 /\ graphic c = true /\ char_eqb c SP = false).
    { destruct Hb as [[-> ->]|[-> ->]]; repeat split. }
    destruct Ho as [Ho [Hos [Hcg Hcs]]].
    exists ((spaces (indent cfg * level) ++ pre ++ [o]) :: mid),
      (spaces (indent cfg * level) ++ [c]).
    split; [|split; [|split; [|split; [|split]]]].
    + rewrite join_prefix, app_assoc, join_prefix, <- app_assoc.
      reflexivity.
    + constructor; [|exact Hm]. split.
      * apply all_chars_app. split; [apply spaces_graphic|].
        apply all_chars_app. split; [exact Hpre|repeat constructor; exact Ho].
      * right. apply closed_app, closed_app. apply (closed_snoc [] o Hos).
    + constructor; [right; eexists; reflexivity|].
      eapply Forall_impl; [|exact Hi]. intros l.
      apply indented_deeper. exact Hl.
    + apply all_chars_app. split; [apply spaces_graphic|].
      repeat constructor. exact Hcg.
    + apply closed_snoc. exact Hcs.
    + eexists. reflexivity.
Qed.

Lemma part_join (n : Z) (parts : list str) :
  Forall (part_at n) parts -> parts <> [] ->
  part_at n (join [COMMA; NL] parts).
Proof.
  induction 1 as [|p parts Hp Hps IH]; intros Hne; [congruence|].
  destruct parts as [|q parts]; [exact Hp|].
  rewrite join_cons.
  destruct Hp as [ls1 [last1 [-> [Ht1 [Hi1 [Hg1 [Hc1 [r1 Hr1]]]]]]]].
  destruct (IH ltac:(discriminate))
    as [ls2 [last2 [E2 [Ht2 [Hi2 [Hg2 [Hc2 Hr2]]]]]]].
  rewrite E2.
  exists ((ls1 ++ [last1 ++ [COMMA]]) ++ ls2), last2.
  split; [|split; [|split; [|split; [|split]]]];
    try assumption.
  - rewrite <- app_assoc.
    rewrite (join_app [NL] (ls1 ++ [last1 ++ [COMMA]]) (ls2 ++ [last2])).
    + rewrite join_last_app. rewrite <- !app_assoc. reflexivity.
    + destruct ls1; discriminate.
    + destruct ls2; discriminate.
  - apply Forall_app. split; [|exact Ht2].
    apply Forall_app. split; [exact Ht1|]. constructor; [|constructor].
    split.
    + apply all_chars_app. split; [exact Hg1|repeat constructor].
    + right. apply closed_snoc. reflexivity.
  - apply Forall_app. split; [|exact Hi2].
    apply Forall_app. split; [exact Hi1|]. constructor; [|constructor].
    right. exists (r1 ++ [COMMA]). rewrite Hr1. symmetry. apply app_assoc.
Qed.

Lemma block_layout (cfg : FormatConfig) (level : Z) (o c : char)
  (parts : list str) :
  brackets o c ->
  Forall (part_at (indent cfg * (level + 1))) parts ->
  layout_at cfg level (block o parts (spaces (indent cfg * level)) c).
Proof.
  intros Hb Hparts. right. unfold block.
  destruct parts as [|p parts].
  - exists o, c, [[]]. split; [exact Hb|]. split; [reflexivity|].
    split; (constructor; [|constructor]).
    + split; [constructor|left; reflexivity].
    + left. reflexivity.
  - destruct (part_join _ (p :: parts) Hparts ltac:(discriminate))
      as [ls [last [E [Ht [Hi [Hg [Hc Hr]]]]]]].
    exists o, c, (ls ++ [last]). split; [exact Hb|].
    split; [|split].
    + assert (Hne : forall (l : list str) x, l ++ [x] <> []).
      { intros l x H. apply app_eq_nil in H. destruct H; discriminate. }
      rewrite E. rewrite join_cons_nonempty by apply Hne.
      rewrite (join_snoc [NL] (ls ++ [last])) by apply Hne.
      cbn [app]. rewrite <- ?app_assoc. reflexivity.
    + apply Forall_app. split; [exact Ht|]. constructor; [|constructor].
      split; [exact Hg|right; exact Hc].
    + apply Forall_app. split; [exact Hi|]. constructor; [|constructor].
      right. exact Hr.
Qed.

Lemma one_line_layout (cfg : FormatConfig) (level : Z) (t : str) :
  all_chars graphic t -> closed t -> layout_at cfg level t.
Proof. intros Hg Hc. left. split; assumption. Qed.

Section LayoutLines.

Variable float_text : str -> str.

Lemma dump_prim_closed (v : value) :
  _is_prim v = true -> stable float_text v -> closed (_dump_oneline v).
Proof.
  intros Hp Hs.
  destruct v as [|[|]|z|r|s|l|d]; try discriminate; cbn [_dump_oneline].
  - exact (closed_snoc (py "nul") 108%N eq_refl).
  - exact (closed_snoc (py "tru") 101%N eq_refl).
  - exact (closed_snoc (py "fals") 101%N eq_refl).
  - apply numchars_closed; [apply int_repr_numchars|apply int_repr_nonempty].
  - cbn [stable] in Hs. destruct Hs as [->|[->|[->|[Hlit _]]]].
    + exact (closed_snoc (py "Na") 78%N eq_refl).
    + exact (closed_snoc (py "Infinit") 121%N eq_refl).
    + exact (closed_snoc (py "-Infinit") 121%N eq_refl).
    + apply numchars_closed; [apply is_float_literal_numchars; exact Hlit|].
      intros ->. discriminate Hlit.
  - unfold encode_basestring. apply closed_wrapped. reflexivity.
Qed.

Lemma compact_object_closed (d : dict) (cfg : FormatConfig) (t : str) :
  _compact_object d cfg = Some t -> closed t.
Proof.
  unfold _compact_object. destruct (forallb _ (values d)); [|discriminate].
  intros H; inversion H; subst. apply closed_wrapped_pad. reflexivity.
Qed.

Lemma compact_list_value_closed (val : value) (cfg : FormatConfig)
  (level : Z) (t : str) :
  compact_list_value val cfg level = Some t -> closed t.
Proof.
  destruct val as [| | | | |lst|]; try discriminate.
  cbn [compact_list_value].
  match goal with |- context [traverse ?f lst] =>
    destruct (traverse f lst) as [parts|] end; [|discriminate].
  destruct (_ || _); [|discriminate].
  intros H; inversion H; subst. apply closed_wrapped_pad. reflexivity.
Qed.

Lemma elem_string_closed (cfg : FormatConfig) (level : Z) (el : value)
  (t : str) :
  stable float_text el -> elem_string cfg level el = Some t -> closed t.
Proof.
  intros Hs. unfold elem_string. destruct (_is_prim el) eqn:Hp.
  - intros H; inversion H; subst. apply dump_prim_closed; assumption.
  - destruct el as [|b|z|r|s0|l|d]; try discriminate.
    + apply compact_list_value_closed.
    + apply compact_object_closed.
Qed.

Lemma one_line_part (cfg : FormatConfig) (level : Z) (t : str) :
  (0 <= level)%Z -> all_chars graphic t -> closed t ->
  part_at (indent cfg * level) (spaces (indent cfg * level) ++ t).
Proof.
  intros Hl Hg Hc.
  apply (part_of_layout cfg level [] t Hl); [constructor|].
  apply one_line_layout; assumption.
Qed.

Lemma collapse_key_strategy_layout (lst : list value) (cfg : FormatConfig)
  (level : Z) (t : str) :
  (0 <= level)%Z -> stable float_text (VList lst) ->
  collapse_key_strategy lst cfg level = Return t ->
  layout_at cfg level t.
Proof.
  intros Hl Hs. unfold collapse_key_strategy.
  destruct (_compact_list lst cfg level) as [whole|] eqn:Ec.
  - intros H; inversion H; subst. apply one_line_layout.
    + exact (compact_list_value_graphic float_text (VList lst) Hs cfg level
               t Ec).
    + exact (compact_list_value_closed (VList lst) cfg level t Ec).
  - destruct (traverse (elem_string cfg level) lst) as [es|] eqn:Et;
      [|discriminate].
    intros H; inversion H; subst. clear H Ec.
    apply block_layout; [left; split; reflexivity|].
    apply traverse_Forall2 in Et. apply stable_list in Hs.
    induction Et as [|el p lst es Hel _ IHt]; [constructor|].
    inversion Hs; subst. cbn [map].
    constructor; [|apply IHt; assumption].
    apply one_line_part; [lia| |].
    + eapply elem_string_graphic; eassumption.
    + eapply elem_string_closed; eassumption.
Qed.

Lemma homogeneous_strategy_layout (lst : list value) (cfg : FormatConfig)
  (level : Z) (t : str) :
  (0 <= level)%Z -> stable float_text (VList lst) ->
  homogeneous_strategy lst cfg level = Return t ->
  layout_at cfg level t.
Proof.
  intros Hl Hs. unfold homogeneous_strategy.
  destruct (inline_homogeneous_objects cfg); [|discriminate].
  destruct (_array_is_homog_small_objs lst cfg) as [ok key_order] eqn:Eh.
  destruct ok; [|discriminate].
  destruct (traverse _ lst) as [parts|] eqn:Et; [|discriminate].
  intros H; inversion H; subst. clear H.
  apply homog_true_inv in Eh. destruct Eh as [_ [_ [_ Hall]]].
  apply traverse_Forall2 in Et. apply stable_list in Hs.
  apply block_layout; [left; split; reflexivity|].
  induction Et as [|el p lst parts Hel _ IHt]; [constructor|].
  inversion Hs; subst. inversion Hall; subst.
  constructor; [|apply IHt; assumption].
  match goal with Hh : homog_elem _ _ el |- _ =>
    pose proof Hh as [Hd [_ Hsm]];
    rewrite (homog_part_nodup cfg key_order _ el) in Hel;
    [|destruct el; try discriminate;
      match goal with Hst : stable _ (VDict _) |- _ =>
        apply stable_dict in Hst; exact (proj1 Hst) end
     |exact Hh] end.
  inversion Hel; subst.
  destruct el as [|b|z|r|s0|l|d]; try discriminate. cbn [as_dict] in *.
  apply one_line_part; [lia| |].
  - apply compact_object_text_graphic with (float_text := float_text)
                                           (cfg := cfg); assumption.
  - apply closed_wrapped_pad. reflexivity.
Qed.

Lemma prim_collapse_strategy_layout (lst : list value) (cfg : FormatConfig)
  (level : Z) (t : str) :
  stable float_text (VList lst) ->
  prim_collapse_strategy lst cfg level = Return t ->
  layout_at cfg level t.
Proof.
  intros Hs H. apply one_line_layout.
  - exact (prim_collapse_strategy_chars float_text lst cfg level t Hs H).
  - unfold prim_collapse_strategy in H.
    destruct (_ && forallb _is_prim lst); [|discriminate].
    destruct (_ && _); [|discriminate].
    inversion H; subst. apply closed_wrapped. reflexivity.
Qed.

Lemma format_value_layout (val : value) :
  stable float_text val ->
  forall (cfg : FormatConfig) (level : Z) (parent_key : option str)
         (out : str),
    (0 <= level)%Z ->
    _format_value val cfg level parent_key = Some out ->
    layout_at cfg level out.
Proof.
  induction val as [|b|z|r|s0|lst IH|items IH] using value_nested_ind;
    intros Hs cfg level parent_key out Hl;
    try (match goal with
         | |- _format_value ?v _ _ _ = _ -> _ =>
             intros H;
             replace out with (_dump_oneline v)
               by (cbn [_format_value] in H; congruence);
             apply one_line_layout;
             [apply (dump_prim_graphic float_text)|apply dump_prim_closed];
             (reflexivity || exact Hs)
         end).
  - cbn [_format_value].
    destruct (if in_collapse_keys parent_key cfg
              then collapse_key_strategy lst cfg level else Fallthrough)
      as [s| |] eqn:E1; [| |discriminate].
    { intros H; inversion H; subst.
      destruct (in_collapse_keys parent_key cfg); [|discriminate].
      exact (collapse_key_strategy_layout lst cfg level out Hl Hs E1). }
    destruct (homogeneous_strategy lst cfg level) as [s| |] eqn:E2;
      [| |discriminate].
    { intros H; inversion H; subst.
      exact (homogeneous_strategy_layout lst cfg level out Hl Hs E2). }
    destruct (prim_collapse_strategy lst cfg level) as [s| |] eqn:E3;
      [| |discriminate].
    { intros H; inversion H; subst.
      exact (prim_collapse_strategy_layout lst cfg level out Hs E3). }
    destruct (traverse _ lst) as [parts|] eqn:Et; [|discriminate].
    intros H; inversion H; subst. clear H.
    apply traverse_prefixed in Et. destruct Et as [texts [-> Hdocs]].
    apply block_layout; [left; split; reflexivity|].
    apply stable_list in Hs. clear E1 E2 E3.
    induction Hdocs as [|el p lst texts Hel _ IHd]; [constructor|].
    inversion IH; subst. inversion Hs; subst. cbn [map].
    constructor; [|apply IHd; assumption].
    apply (part_of_layout cfg (level + 1) [] p); [lia|constructor|].
    match goal with Hi : forall _ : stable _ el, _ |- _ =>
      eapply Hi; [assumption|lia|exact Hel] end.
  - cbn [_format_value].
    pose proof Hs as Hs'. apply stable_dict in Hs'.
    destruct Hs' as [Hnd Hall].
    match goal with |- context [match ?strategy with
                                | Return _ => _ | Fallthrough => _
                                | Raise => _ end] =>
      destruct strategy as [s| |] eqn:E1 end; [| |discriminate].
    + intros H; inversion H; subst. clear H.
      destruct (str_eqb (object_wrap cfg) COLLAPSE); [|discriminate].
      destruct (_ && nonempty items); [|discriminate].
      destruct (inner_chunks_of _ items) as [[chunks|]|] eqn:Ei;
        try discriminate.
      destruct (_ && _); [|discriminate].
      inversion E1; subst. apply one_line_layout.
      * apply (wrapped_graphic LBRACE RBRACE COMMA_SP chunks [SP]);
          try reflexivity; try (repeat constructor; fail).
        eapply (inner_chunks_graphic float_text); [|exact Ei].
        clear Ei E1 Hnd Hs IH.
        induction Hall as [|kv items Hkv _ IHa]; [constructor|].
        constructor; [|exact IHa].
        split; [exact Hkv|]. intros t Ht.
        exact (format_value_layout_chars float_text (snd kv) (proj2 Hkv)
                 cfg level (Some (fst kv)) t Ht).
      * apply closed_wrapped_pad. reflexivity.
    + destruct (traverse _ items) as [lines|] eqn:Et; [|discriminate].
      intros H; inversion H; subst. clear H E1.
      apply traverse_Forall2 in Et.
      apply block_layout; [right; split; reflexivity|]. clear Hnd Hs.
      induction Et as [|kv p items lines Hel _ IHt]; [constructor|].
      inversion IH; subst. inversion Hall as [|? ? Hkv Hrest]; subst.
      constructor; [|apply IHt; assumption].
      destruct (_format_value (snd kv) cfg (level + 1) (Some (fst kv)))
        as [formatted|] eqn:Ef; [|discriminate].
      inversion Hel; subst. unfold member_text.
      rewrite (app_assoc (encode_basestring_ascii (fst kv)) COLON_SP).
      apply (part_of_layout cfg (level + 1)); [lia| |].
      * apply all_chars_app.
        split; [apply encode_basestring_ascii_graphic|repeat constructor].
      * match goal with Hi : forall _ : stable _ (snd kv), _ |- _ =>
          eapply Hi; [exact (proj2 Hkv)|lia|exact Ef] end.
Qed.

End LayoutLines.

(** X17: the text that [format_json] renders for a value of the decoder is
    made of lines joined by line feeds and followed by the end of line;
    no line holds a control character or ends with a space; and a text of
    several lines opens with a line that holds the opening bracket only,
    closes with a line that holds the matching closing bracket only, and
    every line between the two is blank or starts with at least [indent]
    spaces. *)
Theorem layout_is_tidy (float_text : str -> str) (val : value)
  (cfg : FormatConfig) (out : str) :
  stable float_text val ->
  format_json val cfg = Some out ->
  exists lines,
    out = join [NL] lines ++ eol cfg
    /\ Forall tidy_line lines
    /\ ((exists l, lines = [l])
        \/ exists o c mid,
             brackets o c /\ lines = [o] :: mid ++ [[c]]
             /\ Forall (indented (indent cfg)) mid).
Proof.
  intros Hs. unfold format_json.
  destruct (_format_value val cfg 0 None) as [body|] eqn:E; [|discriminate].
  intros H. injection H as <-.
  destruct (format_value_layout float_text val Hs cfg 0%Z None body
              (Z.le_refl 0) E)
    as [[Hg Hc]|[o [c [mid [Hb [-> [Hm Hi]]]]]]].
  - exists [body]. split; [reflexivity|]. split.
    + constructor; [|constructor]. split; [exact Hg|right; exact Hc].
    + left. exists body. reflexivity.
  - rewrite Z.mul_0_r in *. rewrite Z.add_0_l, Z.mul_1_r in Hi.
    change (spaces 0) with (@nil char). cbn [app].
    assert (Hoc : tidy_line [o] /\ tidy_line [c]).
    { destruct Hb as [[-> ->]|[-> ->]]; split; split;
        try (repeat constructor; fail);
        right; apply (closed_snoc []); reflexivity. }
    exists ([o] :: mid ++ [[c]]). split; [reflexivity|]. split.
    + constructor; [apply Hoc|]. apply Forall_app.
      split; [exact Hm|]. constructor; [apply Hoc|constructor].
    + right. exists o, c, mid. repeat split; assumption.
Qed.

Lemma layout_is_tidy_witness :
  exists lines,
    pyq "{" ++ NL :: pyq "  'n': [" ++ NL :: NL :: pyq "  ]" ++ NL :: pyq "}"
      ++ [NL]
    = join [NL] lines ++ eol default_config
    /\ Forall tidy_line lines
    /\ ((exists l, lines = [l])
        \/ exists o c mid,
             brackets o c /\ lines = [o] :: mid ++ [[c]]
             /\ Forall (indented (indent default_config)) mid).
Proof.
  apply (layout_is_tidy literal_float_text (VDict [(py "n", VList [])])
           default_config).
  - cbn. repeat split; try reflexivity.
    repeat constructor. intros [].
  - vm_compute. reflexivity.
Defined.

(** * The automatic repair of gui.py: [_autofix_insert_comma_at] *)

(** The line boundaries of [str.splitlines]: line feed, vertical tab, form
    feed, carriage return, the three separators of the C0 set, the next
    line of the C1 set, and the line and paragraph separators. *)
Definition is_linebreak (c : char) : bool :=
  ((10 <=? c) && (c <=? 13) || (28 <=? c) && (c <=? 30) || (c =? 133)
   || (c =? 8232) || (c =? 8233))%N.

(** [s.splitlines(True)]: the lines with their ends; a carriage return
    and the line feed after it are one end.  [cur] holds the characters of
    the current line, in reverse. *)
Fixpoint splitlines_from (s : str) (cur : str) : list str :=
  match s with
  | [] => match cur with [] => [] | _ :: _ => [rev cur] end
  | c :: tl =>
      if char_eqb c CR then
        match tl with
        | d :: tl' =>
            if char_eqb d NL then rev (d :: c :: cur) :: splitlines_from tl' []
            else rev (c :: cur) :: splitlines_from tl []
        | [] => [rev (c :: cur)]
        end
      else if is_linebreak c then rev (c :: cur) :: splitlines_from tl []
      else splitlines_from tl (c :: cur)
  end.

Definition splitlines (s : str) : list str := splitlines_from s [].

(** The loop of [last_nonspace_idx], entered with [i = n - 1]. *)
Fixpoint last_nonspace_from (s : str) (n : nat) : Z :=
  match n with
  | O => (-1)%Z
  | S i =>
      match nth_error s i with
      | Some c => if isspace c then last_nonspace_from s i else Z.of_nat i
      | None => (-1)%Z
      end
  end.

Definition last_nonspace_idx (s : str) : Z :=
  last_nonspace_from s (List.length s).

(** [lines[k] = x] *)
Fixpoint update {A : Type} (l : list A) (k : nat) (x : A) : list A :=
  match l, k with
  | [], _ => []
  | _ :: tl, O => x :: tl
  | h :: tl, S k' => h :: update tl k' x
  end.

(** [line[:i+1] + "," + line[i+1:]] *)
Definition insert_comma (line : str) (i : Z) : str :=
  firstn (Z.to_nat (i + 1)) line ++ COMMA :: skipn (Z.to_nat (i + 1)) line.

(** The loop over the lines above line [ln]: [p] counts down from
    [ln - 1]; [None] when the loop ends without a return. *)
Fixpoint autofix_previous (lines : list str) (p : nat)
  : option (list str * nat) :=
  match p with
  | O => None
  | S p' =>
      let line := nth p' lines [] in
      let j := last_nonspace_idx line in
      if (0 <=? j)%Z then
        Some (if negb (char_eqb (nth (Z.to_nat j) line 0%N) COMMA)
              then update lines p' (insert_comma line j)
              else lines, p)
      else autofix_previous lines p'
  end.

(** [None] is the IndexError of [lines[ln-1]] for a text without lines. *)
Definition _autofix_insert_comma_at (src : str) (lineno colno : Z)
  : option (str * Z) :=
  let lines := splitlines src in
  let ln := Z.max 1 (Z.min lineno (Z.of_nat (List.length lines))) in
  match nth_error lines (Z.to_nat (ln - 1)) with
  | None => None
  | Some line =>
      let i := last_nonspace_idx
                 (if (1 <? colno)%Z then firstn (Z.to_nat (colno - 1)) line
                  else line) in
      if (0 <=? i)%Z && negb (char_eqb (nth (Z.to_nat i) line 0%N) COMMA)
      then Some (List.concat (update lines (Z.to_nat (ln - 1))
                           (insert_comma line i)), ln)
      else
        match autofix_previous lines (Z.to_nat (ln - 1)) with
        | Some (lines', p) => Some (List.concat lines', Z.of_nat p)
        | None => Some (src, ln)
        end
  end.

Example autofix_example :
  _autofix_insert_comma_at (pyq "{
  'a': 1
  'b': 2
}") 3 3
  = Some (pyq "{
  'a': 1,
  'b': 2
}", 2%Z).
Proof. reflexivity. Qed.

Lemma splitlines_from_concat (n : nat) :
  forall s cur, List.length s <= n ->
    List.concat (splitlines_from s cur) = rev cur ++ s.
Proof.
  induction n as [|n IH]; intros s cur Hn.
  - destruct s; [|cbn in Hn; lia]. destruct cur; cbn [splitlines_from].
    + reflexivity.
    + cbn [List.concat]. rewrite !app_nil_r. reflexivity.
  - destruct s as [|c tl].
    { destruct cur; cbn [splitlines_from List.concat];
        rewrite ?app_nil_r; reflexivity. }
    cbn [List.length] in Hn. cbn [splitlines_from].
    destruct (char_eqb c CR) eqn:Hc.
    + destruct tl as [|d tl'].
      * cbn [List.concat rev]. rewrite app_nil_r. reflexivity.
      * cbn [List.length] in Hn. destruct (char_eqb d NL) eqn:Hd.
        -- cbn [List.concat]. rewrite (IH tl' []) by lia.
           cbn [rev app]. rewrite <- !app_assoc. reflexivity.
        -- cbn [List.concat]. rewrite (IH (d :: tl') []) by (cbn; lia).
           cbn [rev app]. rewrite <- !app_assoc. reflexivity.
    + destruct (is_linebreak c).
      * cbn [List.concat]. rewrite (IH tl []) by lia.
        cbn [rev app]. rewrite <- !app_assoc. reflexivity.
      * rewrite (IH tl (c :: cur)) by lia.
        cbn [rev]. rewrite <- !app_assoc. reflexivity.
Qed.

Lemma splitlines_concat (s : str) : List.concat (splitlines s) = s.
Proof. exact (splitlines_from_concat (List.length s) s [] (le_n _)). Qed.

Lemma last_nonspace_from_spec (s : str) (n : nat) :
  (0 <= last_nonspace_from s n)%Z ->
  exists c,
    nth_error s (Z.to_nat (last_nonspace_from s n)) = Some c
    /\ isspace c = false /\ (last_nonspace_from s n < Z.of_nat n)%Z.
Proof.
  induction n as [|i IH]; cbn [last_nonspace_from]; [lia|].
  destruct (nth_error s i) as [c|] eqn:E; [|lia].
  destruct (isspace c) eqn:Hc.
  - intros H. destruct (IH H) as [c' [E' [Hc' Hlt]]].
    exists c'. repeat split; [exact E'|exact Hc'|lia].
  - intros _. exists c. rewrite Nat2Z.id. repeat split; [exact E|exact Hc|lia].
Qed.

Lemma firstn_snoc_at (a b : str) (c : char) :
  firstn (S (List.length a)) (a ++ c :: b) = a ++ [c]
  /\ skipn (S (List.length a)) (a ++ c :: b) = b.
Proof.
  induction a as [|x a [IH1 IH2]]; [split; reflexivity|].
  split.
  - cbn [List.length app]. rewrite firstn_cons, IH1. reflexivity.
  - cbn [List.length app]. rewrite skipn_cons. exact IH2.
Qed.

Lemma insert_comma_spec (line : str) (j : Z) (c : char) :
  (0 <= j)%Z -> nth_error line (Z.to_nat j) = Some c ->
  exists a b, line = a ++ c :: b /\ insert_comma line j = a ++ c :: COMMA :: b.
Proof.
  intros Hj E. apply nth_error_split in E. destruct E as [a [b [-> Hlen]]].
  exists a, b. split; [reflexivity|]. unfold insert_comma.
  replace (Z.to_nat (j + 1)) with (S (List.length a)) by lia.
  destruct (firstn_snoc_at a b c) as [-> ->].
  rewrite <- app_assoc. reflexivity.
Qed.

Lemma concat_update (lines : list str) :
  forall (k : nat) (line : str),
    nth_error lines k = Some line ->
    exists pre post,
      List.concat lines = pre ++ line ++ post
      /\ forall line', List.concat (update lines k line')
                       = pre ++ line' ++ post.
Proof.
  induction lines as [|l lines IH]; intros [|k] line E; try discriminate.
  - cbn [nth_error] in E. injection E as ->.
    exists [], (List.concat lines). split; [reflexivity|]. reflexivity.
  - cbn [nth_error] in E. destruct (IH k line E) as [pre [post [E1 E2]]].
    exists (l ++ pre), post. cbn [List.concat update]. split.
    + rewrite E1, <- app_assoc. reflexivity.
    + intros line'. rewrite E2, <- app_assoc. reflexivity.
Qed.

(** The text with one comma more, after a character that is neither
    white space nor a comma. *)
Definition one_comma_more (src out : str) : Prop :=
  exists a c b,
    src = a ++ c :: b /\ out = a ++ c :: COMMA :: b
    /\ isspace c = false /\ char_eqb c COMMA = false.

Lemma update_one_comma (lines : list str) (k : nat) (line : str) (j : Z)
  (c : char) :
  nth_error lines k = Some line ->
  (0 <= j)%Z -> nth_error line (Z.to_nat j) = Some c ->
  isspace c = false -> char_eqb c COMMA = false ->
  one_comma_more (List.concat lines)
    (List.concat (update lines k (insert_comma line j))).
Proof.
  intros Hk Hj Hc Hsp Hcm.
  destruct (concat_update lines k line Hk) as [pre [post [E1 E2]]].
  destruct (insert_comma_spec line j c Hj Hc) as [a [b [El Ei]]].
  exists (pre ++ a), c, (b ++ post). rewrite E1, E2, Ei.
  repeat split; try assumption.
  - rewrite El, <- !app_assoc. reflexivity.
  - rewrite <- !app_assoc. reflexivity.
Qed.

Lemma nth_error_firstn_some (k i : nat) (line : str) (c : char) :
  nth_error (firstn k line) i = Some c -> nth_error line i = Some c.
Proof.
  revert k i. induction line as [|x line IH]; intros [|k] [|i];
    cbn [firstn nth_error]; try discriminate; try tauto.
  apply IH.
Qed.

Lemma autofix_previous_spec (lines : list str) (p : nat) (lines' : list str)
  (q : nat) :
  autofix_previous lines p = Some (lines', q) ->
  (1 <= q <= p)%nat
  /\ (lines' = lines
      \/ one_comma_more (List.concat lines) (List.concat lines')).
Proof.
  induction p as [|p' IH]; cbn [autofix_previous]; [discriminate|].
  destruct (0 <=? last_nonspace_idx (nth p' lines []))%Z eqn:Ej.
  - intros H. injection H as <- <-. split; [lia|].
    apply Z.leb_le in Ej.
    destruct (last_nonspace_from_spec _ _ Ej) as [c [Ec [Hsp _]]].
    fold (last_nonspace_idx (nth p' lines [])) in Ec.
    rewrite (nth_error_nth (A:=char) _ _ 0%N Ec).
    destruct (char_eqb c COMMA) eqn:Hcm; cbn [negb]; [left; reflexivity|].
    right. apply (update_one_comma lines p' _ _ c); try assumption.
    destruct (nth_error lines p') as [line|] eqn:El.
    + rewrite (nth_error_nth (A:=str) _ _ [] El). reflexivity.
    + apply nth_error_None in El. rewrite (nth_overflow _ _ El) in Ec.
      destruct (Z.to_nat _); discriminate Ec.
  - intros H. destruct (IH H) as [Hq Hl]. split; [lia|exact Hl].
Qed.

(** X18: the automatic repair raises (an index error) exactly on the empty
    text; on every other text it returns a line number between 1 and the
    line it was given, and a text that is the source itself or the source
    with one comma more, put after a character that is neither white space
    nor a comma.  It never removes or changes a character. *)
Theorem autofix_inserts_one_comma (src : str) (lineno colno : Z) :
  (src = [] -> _autofix_insert_comma_at src lineno colno = None)
  /\ (src <> [] ->
      exists out fixed,
        _autofix_insert_comma_at src lineno colno = Some (out, fixed)
        /\ (1 <= fixed <= Z.max 1 lineno)%Z
        /\ (out = src \/ one_comma_more src out)).
Proof.
  split.
  { intros ->. unfold _autofix_insert_comma_at.
    change (splitlines []) with (@nil str).
    destruct (Z.to_nat _); reflexivity. }
  intros Hne. unfold _autofix_insert_comma_at.
  pose proof (splitlines_concat src) as Hsrc.
  set (lines := splitlines src) in *.
  assert (Hlen : (0 < List.length lines)%nat).
  { destruct lines; [|cbn; lia]. cbn in Hsrc. congruence. }
  set (ln := Z.max 1 (Z.min lineno (Z.of_nat (List.length lines)))).
  assert (Hln : (1 <= ln <= Z.of_nat (List.length lines))%Z
                /\ (ln <= Z.max 1 lineno)%Z) by lia.
  destruct (nth_error lines (Z.to_nat (ln - 1))) as [line|] eqn:El.
  2:{ apply nth_error_None in El. lia. }
  match goal with |- context [last_nonspace_idx ?cut] =>
    set (i := last_nonspace_idx cut);
    assert (Hi : (0 <= i)%Z ->
                 exists c, nth_error line (Z.to_nat i) = Some c
                           /\ isspace c = false)
  end.
  { intros H. destruct (last_nonspace_from_spec _ _ H) as [c [Ec [Hsp _]]].
    exists c. split; [|exact Hsp]. fold i in Ec.
    destruct (1 <? colno)%Z; [|exact Ec].
    exact (nth_error_firstn_some _ _ _ _ Ec). }
  destruct (0 <=? i)%Z eqn:Ei; cbn [andb].
  - apply Z.leb_le in Ei. destruct (Hi Ei) as [c [Ec Hsp]].
    rewrite (nth_error_nth (A:=char) _ _ 0%N Ec).
    destruct (char_eqb c COMMA) eqn:Hcm; cbn [negb].
    + destruct (autofix_previous lines (Z.to_nat (ln - 1)))
        as [[lines' p]|] eqn:Ep.
      * destruct (autofix_previous_spec _ _ _ _ Ep) as [Hp Hl].
        eexists _, _. split; [reflexivity|]. split; [lia|].
        destruct Hl as [->|Hl]; [left; exact Hsrc|right].
        rewrite Hsrc in Hl. exact Hl.
      * eexists _, _. split; [reflexivity|]. split; [lia|left; reflexivity].
    + eexists _, _. split; [reflexivity|]. split; [lia|right].
      rewrite <- Hsrc at 1.
      apply (update_one_comma lines _ line i c); assumption.
  - destruct (autofix_previous lines (Z.to_nat (ln - 1)))
      as [[lines' p]|] eqn:Ep.
    + destruct (autofix_previous_spec _ _ _ _ Ep) as [Hp Hl].
      eexists _, _. split; [reflexivity|]. split; [lia|].
      destruct Hl as [->|Hl]; [left; exact Hsrc|right].
      rewrite Hsrc in Hl. exact Hl.
    + eexists _, _. split; [reflexivity|]. split; [lia|left; reflexivity].
Qed.

(** * One line only when it fits *)

Lemma has_nl_block (o c : char) (parts : list str) (indent_s : str) :
  has_nl (block o parts indent_s c) = true.
Proof.
  unfold has_nl, block, char_in. cbn [existsb].
  change (char_eqb NL NL) with true. rewrite orb_true_r. reflexivity.
Qed.

Lemma compact_list_fits (lst : list value) (cfg : FormatConfig) (level : Z)
  (t : str) :
  allow_overflow_inline_arrays cfg = false ->
  _compact_list lst cfg level = Some t -> _fits_width t cfg level = true.
Proof.
  intros Ha. unfold _compact_list. cbn [compact_list_value].
  match goal with |- context [traverse ?f lst] =>
    destruct (traverse f lst) as [parts|] end; [|discriminate].
  rewrite Ha, orb_false_r.
  match goal with |- context [_fits_width ?one cfg level] =>
    destruct (_fits_width one cfg level) eqn:E end; [|discriminate].
  intros H; inversion H; subst. exact E.
Qed.

(** X19: when [allow_overflow_inline_arrays] is off, an array or an object
    is rendered on one line only if that line fits: its length and the
    indentation of its level are within [print_width].  Every one-line
    strategy checks the width, and every other strategy gives several
    lines. *)
Theorem one_line_container_fits (val : value) (cfg : FormatConfig)
  (level : Z) (parent_key : option str) (out : str) :
  allow_overflow_inline_arrays cfg = false ->
  _is_prim val = false ->
  _format_value val cfg level parent_key = Some out ->
  has_nl out = false ->
  _fits_width out cfg level = true.
Proof.
  intros Ha Hp.
  destruct val as [| | | | |lst|items]; try discriminate Hp;
    cbn [_format_value].
  - destruct (if in_collapse_keys parent_key cfg
              then collapse_key_strategy lst cfg level else Fallthrough)
      as [s| |] eqn:E1; [| |discriminate].
    { intros H; inversion H; subst.
      destruct (in_collapse_keys parent_key cfg); [|discriminate].
      unfold collapse_key_strategy in E1.
      destruct (_compact_list lst cfg level) as [whole|] eqn:Ec.
      - inversion E1; subst. intros _.
        exact (compact_list_fits lst cfg level out Ha Ec).
      - destruct (traverse (elem_string cfg level) lst); [|discriminate].
        inversion E1; subst. rewrite has_nl_block. discriminate. }
    destruct (homogeneous_strategy lst cfg level) as [s| |] eqn:E2;
      [| |discriminate].
    { intros H; inversion H; subst. unfold homogeneous_strategy in E2.
      destruct (inline_homogeneous_objects cfg); [|discriminate].
      destruct (_array_is_homog_small_objs lst cfg) as [[|] key_order];
        [|discriminate].
      destruct (traverse _ lst); [|discriminate].
      inversion E2; subst. rewrite has_nl_block. discriminate. }
    destruct (prim_collapse_strategy lst cfg level) as [s| |] eqn:E3;
      [| |discriminate].
    { intros H; inversion H; subst. unfold prim_collapse_strategy in E3.
      destruct (_ && forallb _is_prim lst); [|discriminate].
      match type of E3 with context [_fits_width ?one cfg level] =>
        destruct (_fits_width one cfg level) eqn:Ef end;
        [|discriminate].
      destruct (_ <=? _)%Z; [|discriminate].
      inversion E3; subst. intros _. exact Ef. }
    destruct (traverse _ lst); [|discriminate].
    intros H; inversion H; subst. rewrite has_nl_block. discriminate.
  - match goal with |- context [match ?strategy with
                                | Return _ => _ | Fallthrough => _
                                | Raise => _ end] =>
      destruct strategy as [s| |] eqn:E1 end; [| |discriminate].
    + intros H; inversion H; subst. clear H.
      destruct (str_eqb (object_wrap cfg) COLLAPSE); [|discriminate].
      destruct (_ && nonempty items); [|discriminate].
      destruct (inner_chunks_of _ items) as [[chunks|]|];
        try discriminate.
      match type of E1 with context [_fits_width ?one cfg level] =>
        destruct (_fits_width one cfg level) eqn:Ef end;
        [|discriminate].
      destruct (_ <=? _)%Z; [|discriminate].
      inversion E1; subst. intros _. exact Ef.
    + destruct (traverse _ items); [|discriminate].
      intros H; inversion H; subst. rewrite has_nl_block. discriminate.
Qed.

(** With a print width of 10, the array of a collapse key goes on several
    lines when overflow is off, and stays on one line of 12 characters when
    it is on. *)
Definition narrow_strict_config (overflow : bool) : FormatConfig :=
  {| indent := 2; print_width := 10; array_wrap := COLLAPSE;
     object_wrap := COLLAPSE; aggressive_inline := true;
     long_block_threshold := 20; eol := [NL];
     array_collapse_keys := [py "drops"];
     inline_homogeneous_objects := true; inline_homogeneous_min := 3;
     inline_string_max := 120; allow_overflow_inline_arrays := overflow |}.

Lemma one_line_container_fits_witness :
  _fits_width (pyq "[1, 2, 3]") (narrow_strict_config false) 0 = true.
Proof.
  apply (one_line_container_fits (VList [VInt 1; VInt 2; VInt 3])
           (narrow_strict_config false) 0 None (pyq "[1, 2, 3]"));
    reflexivity.
Defined.

Example overflow_allowed_exceeds_width :
  _format_value (VList [VList [VInt 1; VInt 2]]) (narrow_strict_config true)
    0 (Some (py "drops"))
  = Some (pyq "[ [ 1, 2 ] ]")
  /\ _fits_width (pyq "[ [ 1, 2 ] ]") (narrow_strict_config true) 0 = false
  /\ _format_value (VList [VList [VInt 1; VInt 2]])
       (narrow_strict_config false) 0 (Some (py "drops"))
     = Some (pyq "[
  [ 1, 2 ]
]").
Proof. repeat split; reflexivity. Qed.
